(** * A continuous double-auction matching engine (Go), embedded in Rocq

    The development follows the Go sources of the matching engine:
    - [internal/types]     : [Order], [Trade], [OrderType], [SideType];
    - [internal/matching]  : [OrderBook] (two price-indexed maps of FIFO
      slices) and [Engine] (PlaceOrder / CancelOrder and the two matching
      loops);
    - [internal/storage]   : the [OrderStore] / [TradeStore] interfaces, the
      in-memory stores and the composite (layered) stores.

    Modelling conventions.
    - [float64] prices are only stored, compared and used as map keys; no
      arithmetic is ever performed on them.  The finite [float64] values are
      rationals, so a price is a canonical rational [Qc] and the constant
      [math.MaxFloat64] is the rational it denotes.  NaN and the infinities,
      which no request can carry, are outside the model.
    - Go's [int] is a 64-bit two's complement integer: a [Z] with the
      wrap-around of subtraction written out ([sub_int]).  [uint64]
      identities are [N].
    - [*Order] is a location in a heap of [Order] records: the book, the
      order store and the caller share the record they point to, and the
      engine mutates [Size] in place.
    - A Go [error] is an [option error] ([None] is [nil]); a nil slice and an
      empty slice are both [[]].
    - [time.Now()] readings, the mutexes of the stores and the channels of
      [Engine.Start] are not modelled: the calls are taken one at a time. *)

From Stdlib Require Import QArith Qcanon ZArith Lia Lqa.
From stdpp Require Import numbers strings gmap fin_maps list.

Local Open Scope Z_scope.

(** ** internal/types: orders and trades *)
Module types.

Inductive OrderType : Type :=
| NoActionOrder
| MarketOrder
| LimitOrder
| CancelOrder
| StopMarketOrder
| StopLimitOrder.

Inductive SideType : Type :=
| NoActionSide
| Buy
| Sell.

#[global] Instance OrderType_eq_dec : EqDecision OrderType.
Proof. solve_decision. Defined.

#[global] Instance SideType_eq_dec : EqDecision SideType.
Proof. solve_decision. Defined.

(** The struct [Order].  The field [OrderType] of the source is [Kind] here
    (the name is taken by the type); [TimeStamp] is the nanosecond reading
    stored at construction. *)
Record Order : Type := mkOrder {
  ID : N;
  UserID : string;
  Symbol : string;
  Kind : OrderType;
  Side : SideType;
  Price : Qc;
  StopPrice : Qc;
  Size : Z;
  TimeStamp : Z
}.

(** The struct [Trade] without its wall-clock [Timestamp]. *)
Record Trade : Type := mkTrade {
  TradeID : N;
  BuyOrderID : N;
  SellOrderID : N;
  TradePrice : Qc;
  TradeSize : Z
}.

Definition Qc_leb (x y : Qc) : bool := bool_decide (x <= y)%Qc.
Definition Qc_ltb (x y : Qc) : bool := bool_decide (x < y)%Qc.

(** [Order.IsValid] *)
Definition IsValid (o : Order) : bool :=
  if bool_decide (Kind o = NoActionOrder) || bool_decide (Side o = NoActionSide) then false
  else if Size o <=? 0 then false
  else if bool_decide (Kind o = LimitOrder) && Qc_leb (Price o) 0 then false
  else true.

End types.
Export types.

(** ** Integers and the heap of orders *)

(** Two's complement wrap-around of a 64-bit [int]. *)
Definition wrap_int (z : Z) : Z := (z + 2 ^ 63) mod 2 ^ 64 - 2 ^ 63.

Definition sub_int (a b : Z) : Z := wrap_int (a - b).

(** [math.MaxFloat64] = (2^53 - 1) * 2^971. *)
Definition MaxFloat64 : Qc := Q2Qc (inject_Z ((2 ^ 53 - 1) * 2 ^ 971)).

Definition loc : Type := nat.

Definition zeroOrder : Order :=
  mkOrder 0%N "" "" NoActionOrder NoActionSide 0%Qc 0%Qc 0 0.

(** Reading through a pointer.  Every pointer the engine holds was
    allocated by [NewOrder]; the zero record stands for an unallocated
    location. *)
Definition deref (h : list Order) (l : loc) : Order :=
  default zeroOrder (h !! l).

Definition withSize (o : Order) (size : Z) : Order :=
  mkOrder (ID o) (UserID o) (Symbol o) (Kind o) (Side o) (Price o)
          (StopPrice o) size (TimeStamp o).

(** [p.Size = size] *)
Definition storeSize (h : list Order) (l : loc) (size : Z) : list Order :=
  <[l := withSize (deref h l) size]> h.

(** [&Order{...}]: allocate a record and return its address. *)
Definition alloc (o : Order) (h : list Order) : loc * list Order :=
  (length h, h ++ [o]).

(** [NewOrder]; the clock reading [now] is passed in. *)
Definition NewOrder (id : N) (userId : string) (orderType : OrderType)
    (side : SideType) (price : Qc) (quantity : Z) (now : Z)
    (h : list Order) : loc * list Order :=
  alloc (mkOrder id userId "COOTX" orderType side price 0%Qc quantity now) h.

(** [Order.SetSize] *)
Definition SetSize (h : list Order) (o : loc) (size : Z) : list Order :=
  if 0 <=? size then storeSize h o size else h.

(** ** internal/storage: the store interfaces *)

(** Go [error] values.  [ErrOrderNotFound id] is
    [fmt.Errorf("order %d not found", id)]; [ErrBackend] is whatever a remote
    backend (Redis, PostgreSQL) reports. *)
Inductive error : Type :=
| ErrOrderNotFound (orderID : N)
| ErrBackend (msg : string).

#[global] Instance error_eq_dec : EqDecision error.
Proof. solve_decision. Defined.

(** The interface [storage.OrderStore] (methods used by the engine and the
    composite): a store is a state of type [S]; a method that takes a
    pointer reads the heap. *)
Module OrderStore.
Class t (S : Type) : Type := mk {
  Save : list Order -> loc -> S -> option error * S;
  Get : N -> S -> option loc * option error;
  Remove : N -> S -> option error * S;
  Update : list Order -> loc -> S -> option error * S
}.
End OrderStore.

(** The interface [storage.TradeStore]. *)
Module TradeStore.
Class t (T : Type) : Type := mk {
  Save : Trade -> T -> option error * T;
  SaveBatch : list Trade -> T -> option error * T;
  GetRecent : Z -> T -> list Trade * option error
}.
End TradeStore.

(** The read-side methods of [storage.OrderStore]: [GetAll], [GetByUser] and
    [GetBySide].  The two filters read the records the pointers refer to. *)
Module OrderQueries.
Class t (S : Type) : Type := mk {
  GetAll : S -> list loc;
  GetByUser : list Order -> string -> S -> list loc;
  GetBySide : list Order -> SideType -> S -> list loc
}.
End OrderQueries.

(** ** internal/storage/memory: the in-memory order store with FIFO eviction *)
Module InMemoryOrderStore.

Record t : Type := mk {
  orders : gmap N loc;
  orderIDs : list N;
  maxSize : Z
}.

Definition NewInMemoryOrderStore (maxSize : Z) : t := mk ∅ [] maxSize.

(** [append(ids[:i], ids[i+1:]...)] at the first [i] with [ids[i] == id]. *)
Fixpoint removeFirst (orderID : N) (ids : list N) : list N :=
  match ids with
  | [] => []
  | id :: rest => if bool_decide (id = orderID) then rest else id :: removeFirst orderID rest
  end.

Definition Save (h : list Order) (order : loc) (s : t) : option error * t :=
  let id := ID (deref h order) in
  let s1 :=
    match orders s !! id with
    | Some _ => s
    | None =>
        let ids := orderIDs s ++ [id] in
        if maxSize s <? Z.of_nat (length ids) then
          match ids with
          | oldestID :: rest => mk (delete oldestID (orders s)) rest (maxSize s)
          | [] => mk (orders s) ids (maxSize s)
          end
        else mk (orders s) ids (maxSize s)
    end in
  (None, mk (<[id := order]> (orders s1)) (orderIDs s1) (maxSize s1)).

Definition Get (orderID : N) (s : t) : option loc * option error :=
  match orders s !! orderID with
  | Some order => (Some order, None)
  | None => (None, Some (ErrOrderNotFound orderID))
  end.

Definition Remove (orderID : N) (s : t) : option error * t :=
  (None, mk (delete orderID (orders s)) (removeFirst orderID (orderIDs s)) (maxSize s)).

Definition Update (h : list Order) (order : loc) (s : t) : option error * t :=
  let id := ID (deref h order) in
  match orders s !! id with
  | None => (Some (ErrOrderNotFound id), s)
  | Some _ => (None, mk (<[id := order]> (orders s)) (orderIDs s) (maxSize s))
  end.

(** [for _, order := range s.orders { orders = append(orders, order) }]; the
    range is in the order of [map_to_list]. *)
Definition GetAll (s : t) : list loc :=
  (map_to_list (orders s)).*2.

Definition GetByUser (h : list Order) (userID : string) (s : t) : list loc :=
  filter (fun order => UserID (deref h order) = userID) (GetAll s).

Definition GetBySide (h : list Order) (side : SideType) (s : t) : list loc :=
  filter (fun order => Side (deref h order) = side) (GetAll s).

#[global] Instance queries : OrderQueries.t t :=
  OrderQueries.mk t GetAll GetByUser GetBySide.

#[global] Instance store : OrderStore.t t :=
  OrderStore.mk t Save Get Remove Update.

End InMemoryOrderStore.

(** ** internal/storage: the in-memory order store without a size limit

    [storage.InMemoryOrderStore], the map-only store that
    [memory.InMemoryOrderStore] replaced; the two Go types have the same
    name, so this one is [UnboundedOrderStore] here. *)
Module UnboundedOrderStore.

Record t : Type := mk { orders : gmap N loc }.

Definition NewInMemoryOrderStore : t := mk ∅.

Definition Save (h : list Order) (order : loc) (s : t) : option error * t :=
  (None, mk (<[ID (deref h order) := order]> (orders s))).

Definition Get (orderID : N) (s : t) : option loc * option error :=
  match orders s !! orderID with
  | Some order => (Some order, None)
  | None => (None, Some (ErrOrderNotFound orderID))
  end.

Definition Remove (orderID : N) (s : t) : option error * t :=
  (None, mk (delete orderID (orders s))).

Definition Update (h : list Order) (order : loc) (s : t) : option error * t :=
  let id := ID (deref h order) in
  match orders s !! id with
  | None => (Some (ErrOrderNotFound id), s)
  | Some _ => (None, mk (<[id := order]> (orders s)))
  end.

Definition GetAll (s : t) : list loc :=
  (map_to_list (orders s)).*2.

Definition GetByUser (h : list Order) (userID : string) (s : t) : list loc :=
  filter (fun order => UserID (deref h order) = userID) (GetAll s).

Definition GetBySide (h : list Order) (side : SideType) (s : t) : list loc :=
  filter (fun order => Side (deref h order) = side) (GetAll s).

#[global] Instance store : OrderStore.t t :=
  OrderStore.mk t Save Get Remove Update.

#[global] Instance queries : OrderQueries.t t :=
  OrderQueries.mk t GetAll GetByUser GetBySide.

End UnboundedOrderStore.

(** ** internal/storage: the in-memory trade store (bounded buffer) *)
Module InMemoryTradeStore.

Record t : Type := mk {
  trades : list Trade;
  maxSize : Z
}.

Definition NewInMemoryTradeStore (maxSize : Z) : t := mk [] maxSize.

(** [ts[len(ts)-maxSize:]] when [len(ts) > maxSize]. *)
Definition trim (maxSize : Z) (ts : list Trade) : list Trade :=
  if maxSize <? Z.of_nat (length ts)
  then drop (Z.to_nat (Z.of_nat (length ts) - maxSize)) ts
  else ts.

Definition Save (trade : Trade) (s : t) : option error * t :=
  (None, mk (trim (maxSize s) (trades s ++ [trade])) (maxSize s)).

Definition SaveBatch (batch : list Trade) (s : t) : option error * t :=
  (None, mk (trim (maxSize s) (trades s ++ batch)) (maxSize s)).

Definition GetRecent (limit : Z) (s : t) : list Trade * option error :=
  let len := Z.of_nat (length (trades s)) in
  let limit := if (limit <=? 0) || (len <? limit) then len else limit in
  let start := len - limit in
  (drop (Z.to_nat start) (trades s), None).

#[global] Instance store : TradeStore.t t :=
  TradeStore.mk t Save SaveBatch GetRecent.

End InMemoryTradeStore.

(** ** internal/storage: the append-only trade log

    The file is write-only: the encoder goroutines append the records, and
    [GetRecent] answers with an empty slice. *)
Module FileTradeStore.

Record t : Type := mk { written : list Trade }.

Definition Save (trade : Trade) (s : t) : option error * t :=
  (None, mk (written s ++ [trade])).

Definition SaveBatch (batch : list Trade) (s : t) : option error * t :=
  (None, mk (written s ++ batch)).

Definition GetRecent (limit : Z) (s : t) : list Trade * option error :=
  ([], None).

#[global] Instance store : TradeStore.t t :=
  TradeStore.mk t Save SaveBatch GetRecent.

End FileTradeStore.

(** Two implementations behind one interface value. *)
#[global] Instance sum_OrderStore {A B : Type} `{!OrderStore.t A} `{!OrderStore.t B} :
  OrderStore.t (A + B) :=
  OrderStore.mk (A + B)
    (fun h order s => match s with
                      | inl a => prod_map id inl (OrderStore.Save h order a)
                      | inr b => prod_map id inr (OrderStore.Save h order b)
                      end)
    (fun orderID s => match s with
                      | inl a => OrderStore.Get orderID a
                      | inr b => OrderStore.Get orderID b
                      end)
    (fun orderID s => match s with
                      | inl a => prod_map id inl (OrderStore.Remove orderID a)
                      | inr b => prod_map id inr (OrderStore.Remove orderID b)
                      end)
    (fun h order s => match s with
                      | inl a => prod_map id inl (OrderStore.Update h order a)
                      | inr b => prod_map id inr (OrderStore.Update h order b)
                      end).

#[global] Instance sum_TradeStore {A B : Type} `{!TradeStore.t A} `{!TradeStore.t B} :
  TradeStore.t (A + B) :=
  TradeStore.mk (A + B)
    (fun trade s => match s with
                    | inl a => prod_map id inl (TradeStore.Save trade a)
                    | inr b => prod_map id inr (TradeStore.Save trade b)
                    end)
    (fun batch s => match s with
                    | inl a => prod_map id inl (TradeStore.SaveBatch batch a)
                    | inr b => prod_map id inr (TradeStore.SaveBatch batch b)
                    end)
    (fun limit s => match s with
                    | inl a => TradeStore.GetRecent limit a
                    | inr b => TradeStore.GetRecent limit b
                    end).

(** ** internal/storage: the composite stores *)

(** The write loops of the composites all have one shape:
    [var lastErr error; for _, store := range c.stores
       { if err := store.Op(..); err != nil { lastErr = err } }; return lastErr]. *)
Fixpoint writeAll {S : Type} (op : S -> option error * S) (stores : list S)
    (lastErr : option error) : option error * list S :=
  match stores with
  | [] => (lastErr, [])
  | store :: rest =>
      let '(err, store') := op store in
      let lastErr := match err with Some _ => err | None => lastErr end in
      let '(r, rest') := writeAll op rest lastErr in
      (r, store' :: rest')
  end.

Module CompositeOrderStore.
Section WithStore.
Context {S : Type} `{!OrderStore.t S}.

Record t : Type := mk { stores : list S }.

Definition NewCompositeOrderStore (stores : list S) : t := mk stores.

Definition Save (h : list Order) (order : loc) (c : t) : option error * t :=
  prod_map id mk (writeAll (OrderStore.Save h order) (stores c) None).

Fixpoint GetFrom (orderID : N) (stores : list S) : option loc * option error :=
  match stores with
  | [] => (None, None)
  | store :: rest =>
      match OrderStore.Get orderID store with
      | (Some order, None) => (Some order, None)
      | _ => GetFrom orderID rest
      end
  end.

Definition Get (orderID : N) (c : t) : option loc * option error :=
  GetFrom orderID (stores c).

Definition Remove (orderID : N) (c : t) : option error * t :=
  prod_map id mk (writeAll (OrderStore.Remove orderID) (stores c) None).

Definition Update (h : list Order) (order : loc) (c : t) : option error * t :=
  prod_map id mk (writeAll (OrderStore.Update h order) (stores c) None).

#[global] Instance store : OrderStore.t t :=
  OrderStore.mk t Save Get Remove Update.

Context `{!OrderQueries.t S}.

(** The read loops [GetAll], [GetByUser] and [GetBySide] have one shape:
    [for _, store := range c.stores
       { orders := store.Read(..); if len(orders) > 0 { return orders } };
     return []*types.Order{}]. *)
Fixpoint firstWithData (read : S -> list loc) (stores : list S) : list loc :=
  match stores with
  | [] => []
  | store :: rest =>
      let orders := read store in
      if 0 <? Z.of_nat (length orders) then orders else firstWithData read rest
  end.

Definition GetAll (c : t) : list loc :=
  firstWithData OrderQueries.GetAll (stores c).

Definition GetByUser (h : list Order) (userID : string) (c : t) : list loc :=
  firstWithData (OrderQueries.GetByUser h userID) (stores c).

Definition GetBySide (h : list Order) (side : SideType) (c : t) : list loc :=
  firstWithData (OrderQueries.GetBySide h side) (stores c).

#[global] Instance queries : OrderQueries.t t :=
  OrderQueries.mk t GetAll GetByUser GetBySide.

End WithStore.
Arguments t S : clear implicits.
End CompositeOrderStore.

Module CompositeTradeStore.
Section WithStore.
Context {T : Type} `{!TradeStore.t T}.

Record t : Type := mk { stores : list T }.

Definition NewCompositeTradeStore (stores : list T) : t := mk stores.

Definition Save (trade : Trade) (c : t) : option error * t :=
  prod_map id mk (writeAll (TradeStore.Save trade) (stores c) None).

Definition SaveBatch (batch : list Trade) (c : t) : option error * t :=
  prod_map id mk (writeAll (TradeStore.SaveBatch batch) (stores c) None).

Fixpoint GetRecentFrom (limit : Z) (stores : list T) : list Trade * option error :=
  match stores with
  | [] => ([], None)
  | store :: rest =>
      match TradeStore.GetRecent limit store with
      | (_, Some _) => GetRecentFrom limit rest
      | (trades, None) =>
          if 0 <? Z.of_nat (length trades) then (trades, None)
          else GetRecentFrom limit rest
      end
  end.

Definition GetRecent (limit : Z) (c : t) : list Trade * option error :=
  GetRecentFrom limit (stores c).

#[global] Instance store : TradeStore.t t :=
  TradeStore.mk t Save SaveBatch GetRecent.

End WithStore.
Arguments t T : clear implicits.
End CompositeTradeStore.

(** ** internal/matching: the order book *)
Module OrderBook.

Record t : Type := mk {
  bids : gmap Qc (list loc);
  asks : gmap Qc (list loc)
}.

Definition NewOrderBook : t := mk ∅ ∅.

(** The inner loop of [findOrderInBookSide]: scan one slice from index [i]. *)
Fixpoint findInBlock (h : list Order) (orderBlock : list loc) (orderId : N)
    (i : nat) : option (loc * nat) :=
  match orderBlock with
  | [] => None
  | order :: rest =>
      if bool_decide (ID (deref h order) = orderId) then Some (order, i)
      else findInBlock h rest orderId (S i)
  end.

(** The outer loop over the price levels. *)
Fixpoint findInLevels (h : list Order) (levels : list (Qc * list loc))
    (orderId : N) : option (loc * Qc * nat) :=
  match levels with
  | [] => None
  | (priceLevel, orderBlock) :: rest =>
      match findInBlock h orderBlock orderId 0 with
      | Some (order, i) => Some (order, priceLevel, i)
      | None => findInLevels h rest orderId
      end
  end.

(** [findOrderInBookSide]: [None] is the source's [(nil, false, 0.0, 0)].
    Go ranges over the map in an unspecified order; the model ranges in the
    order of [map_to_list].  The order matters only when two price levels
    hold the same id. *)
Definition findOrderInBookSide (h : list Order) (bookSide : gmap Qc (list loc))
    (orderId : N) : option (loc * Qc * nat) :=
  findInLevels h (map_to_list bookSide) orderId.

Definition SearchById (h : list Order) (orderId : N) (ob : t) : option loc :=
  match findOrderInBookSide h (bids ob) orderId with
  | Some (foundOrder, _, _) => Some foundOrder
  | None =>
      match findOrderInBookSide h (asks ob) orderId with
      | Some (foundOrder, _, _) => Some foundOrder
      | None => None
      end
  end.

Definition GetBestBid (ob : t) : Qc * list loc :=
  if bool_decide (size (bids ob) = 0%nat) then (0%Qc, [])
  else
    let max :=
      map_fold (fun priceLevel _ max => if Qc_ltb max priceLevel then priceLevel else max)
               0%Qc (bids ob) in
    (max, default [] (bids ob !! max)).

Definition GetBestAsk (ob : t) : Qc * list loc :=
  if bool_decide (size (asks ob) = 0%nat) then (0%Qc, [])
  else
    let min :=
      map_fold (fun priceLevel _ min => if Qc_ltb priceLevel min then priceLevel else min)
               MaxFloat64 (asks ob) in
    (min, default [] (asks ob !! min)).

(** The body shared by [DeleteBidOrder] and [DeleteAskOrder]. *)
Definition deleteInSide (h : list Order) (bookSide : gmap Qc (list loc))
    (orderId : N) : bool * gmap Qc (list loc) :=
  match findOrderInBookSide h bookSide orderId with
  | Some (_, priceLevel, index) =>
      let block := default [] (bookSide !! priceLevel) in
      let block := take index block ++ drop (S index) block in
      let bookSide := <[priceLevel := block]> bookSide in
      (true,
       if bool_decide (length block = 0%nat) then delete priceLevel bookSide
       else bookSide)
  | None => (false, bookSide)
  end.

Definition DeleteBidOrder (h : list Order) (orderId : N) (ob : t) : bool * t :=
  let '(ok, bids') := deleteInSide h (bids ob) orderId in
  (ok, mk bids' (asks ob)).

Definition DeleteAskOrder (h : list Order) (orderId : N) (ob : t) : bool * t :=
  let '(ok, asks') := deleteInSide h (asks ob) orderId in
  (ok, mk (bids ob) asks').

(** [DeleteBidOrder(id) || DeleteAskOrder(id)] *)
Definition DeleteOrderById (h : list Order) (orderId : N) (ob : t) : bool * t :=
  let '(ok, ob') := DeleteBidOrder h orderId ob in
  if ok then (true, ob') else DeleteAskOrder h orderId ob'.

Definition AddBidOrder (h : list Order) (newOrder : loc) (ob : t) : bool * t :=
  let price := Price (deref h newOrder) in
  let block := default [] (bids ob !! price) ++ [newOrder] in
  (true, mk (<[price := block]> (bids ob)) (asks ob)).

Definition AddAskOrder (h : list Order) (newOrder : loc) (ob : t) : bool * t :=
  let price := Price (deref h newOrder) in
  let block := default [] (asks ob !! price) ++ [newOrder] in
  (true, mk (bids ob) (<[price := block]> (asks ob))).

(** The struct [PriceLevelOrders]. *)
Record PriceLevelOrders : Type := mkPriceLevelOrders {
  Bids : list loc;
  Asks : list loc
}.

Definition GetOrdersByPrice (priceLevel : Qc) (ob : t) : PriceLevelOrders :=
  mkPriceLevelOrders (default [] (bids ob !! priceLevel))
                     (default [] (asks ob !! priceLevel)).

Definition DeletePriceBlock (bookSide : gmap Qc (list loc)) (priceLevel : Qc)
    : bool * gmap Qc (list loc) :=
  match bookSide !! priceLevel with
  | Some _ => (true, delete priceLevel bookSide)
  | None => (false, bookSide)
  end.

Definition DeleteBidBlock (priceLevel : Qc) (ob : t) : bool * t :=
  let '(ok, bids') := DeletePriceBlock (bids ob) priceLevel in
  (ok, mk bids' (asks ob)).

Definition DeleteAskBlock (priceLevel : Qc) (ob : t) : bool * t :=
  let '(ok, asks') := DeletePriceBlock (asks ob) priceLevel in
  (ok, mk (bids ob) asks').

(** All the pointers held by one side, and by the book. *)
Definition sideOrders (bookSide : gmap Qc (list loc)) : list loc :=
  concat (map snd (map_to_list bookSide)).

Definition allOrders (ob : t) : list loc :=
  sideOrders (bids ob) ++ sideOrders (asks ob).

End OrderBook.

(** ** internal/matching: the engine *)
Module Engine.
Section WithStores.
Context {OS TS : Type} `{!OrderStore.t OS} `{!TradeStore.t TS}.

(** The struct [Engine] together with the heap its pointers refer to. *)
Record t : Type := mk {
  heap : list Order;
  orderBook : OrderBook.t;
  nextOrderID : N;
  orderStore : OS;
  tradeStore : TS
}.

Definition setHeap (h : list Order) (e : t) : t :=
  mk h (orderBook e) (nextOrderID e) (orderStore e) (tradeStore e).
Definition setOrderBook (ob : OrderBook.t) (e : t) : t :=
  mk (heap e) ob (nextOrderID e) (orderStore e) (tradeStore e).
Definition setOrderStore (s : OS) (e : t) : t :=
  mk (heap e) (orderBook e) (nextOrderID e) s (tradeStore e).
Definition setTradeStore (s : TS) (e : t) : t :=
  mk (heap e) (orderBook e) (nextOrderID e) (orderStore e) s.

Definition NewEngineWithStores (orderStore : OS) (tradeStore : TS) : t :=
  mk [] OrderBook.NewOrderBook 1%N orderStore tradeStore.

(** [atomic.AddUint64(&e.nextOrderID, 1)] *)
Definition GenerateOrderID (e : t) : N * t :=
  let id := ((nextOrderID e + 1) mod 2 ^ 64)%N in
  (id, mk (heap e) (orderBook e) id (orderStore e) (tradeStore e)).

Definition TrackOrder (order : loc) (e : t) : t :=
  setOrderStore (snd (OrderStore.Save (heap e) order (orderStore e))) e.

Definition UntrackOrder (orderID : N) (e : t) : t :=
  setOrderStore (snd (OrderStore.Remove orderID (orderStore e))) e.

Definition GetOrder (orderID : N) (e : t) : option loc :=
  fst (OrderStore.Get orderID (orderStore e)).

Definition AddTradeToHistory (trade : Trade) (e : t) : t :=
  setTradeStore (snd (TradeStore.Save trade (tradeStore e))) e.

Definition GetRecentTrades (limit : Z) (e : t) : list Trade :=
  reverse (fst (TradeStore.GetRecent limit (tradeStore e))).

Definition GetOrderBook (e : t) : OrderBook.t := orderBook e.

Definition CancelOrder (orderId : N) (e : t) : bool * t :=
  let '(deleted, ob) := OrderBook.DeleteOrderById (heap e) orderId (orderBook e) in
  let e := setOrderBook ob e in
  if deleted then (true, UntrackOrder orderId e) else (false, e).

Definition createTrade (h : list Order) (incoming opposite : loc) (size : Z) : Trade :=
  let price := Price (deref h opposite) in
  if bool_decide (Side (deref h incoming) = Buy)
  then mkTrade 0 (ID (deref h incoming)) (ID (deref h opposite)) price size
  else mkTrade 0 (ID (deref h opposite)) (ID (deref h incoming)) price size.

(** The loop [for sizeRemaining > 0 { ... }] of [executeMarketOrder] and of
    [executeLimitOrder]: the two bodies are the same text, except that the
    limit loop also breaks when [!canMatch(incomingOrder.Price, bestPrice)];
    the market loop is the instance whose [canMatch] is constantly true.
    [fuel] bounds the number of iterations; [None] means the bound was hit
    before the loop ended. *)
Fixpoint matchLoop (fuel : nat)
    (getBestPrice : OrderBook.t -> Qc * list loc)
    (deleteOrder : list Order -> N -> OrderBook.t -> bool * OrderBook.t)
    (canMatch : Qc -> Qc -> bool)
    (incomingOrder : loc) (sizeRemaining : Z) (trades : list Trade) (e : t)
    : option (Z * list Trade * t) :=
  if 0 <? sizeRemaining then
    match fuel with
    | O => None
    | S fuel =>
        let '(bestPrice, orderBlock) := getBestPrice (orderBook e) in
        match orderBlock with
        | [] => Some (sizeRemaining, trades, e)
        | oppositeOrder :: _ =>
            if negb (canMatch (Price (deref (heap e) incomingOrder)) bestPrice)
            then Some (sizeRemaining, trades, e)
            else
              let oppositeSize := Size (deref (heap e) oppositeOrder) in
              let fillSize :=
                if oppositeSize <? sizeRemaining then oppositeSize else sizeRemaining in
              let trade := createTrade (heap e) incomingOrder oppositeOrder fillSize in
              let trades := trades ++ [trade] in
              let sizeRemaining := sub_int sizeRemaining fillSize in
              let e := setHeap (storeSize (heap e) oppositeOrder
                                  (sub_int oppositeSize fillSize)) e in
              let e :=
                if Size (deref (heap e) oppositeOrder) =? 0 then
                  let oppositeID := ID (deref (heap e) oppositeOrder) in
                  let '(_, ob) := deleteOrder (heap e) oppositeID (orderBook e) in
                  UntrackOrder oppositeID (setOrderBook ob e)
                else e in
              matchLoop fuel getBestPrice deleteOrder canMatch
                        incomingOrder sizeRemaining trades e
        end
    end
  else Some (sizeRemaining, trades, e).

(** An iteration that does not end the loop deletes a resting order, so the
    loop runs at most once more than there are resting orders. *)
Definition loopBound (e : t) : nat := S (length (OrderBook.allOrders (orderBook e))).

Definition executeMarketOrder (incomingOrder : loc) (e : t) : option (list Trade * t) :=
  let sizeRemaining := Size (deref (heap e) incomingOrder) in
  let '(getBestPrice, deleteOrder) :=
    if bool_decide (Side (deref (heap e) incomingOrder) = Buy)
    then (OrderBook.GetBestAsk, OrderBook.DeleteAskOrder)
    else (OrderBook.GetBestBid, OrderBook.DeleteBidOrder) in
  match matchLoop (loopBound e) getBestPrice deleteOrder (fun _ _ => true)
                  incomingOrder sizeRemaining [] e with
  | Some (_, trades, e) => Some (trades, e)
  | None => None
  end.

Definition executeLimitOrder (incomingOrder : loc) (e : t) : option (list Trade * t) :=
  let sizeRemaining := Size (deref (heap e) incomingOrder) in
  let '(getBestPrice, addOrder, deleteOrder, canMatch) :=
    if bool_decide (Side (deref (heap e) incomingOrder) = Buy)
    then (OrderBook.GetBestAsk, OrderBook.AddBidOrder, OrderBook.DeleteAskOrder,
          fun limitPrice bestPrice : Qc => Qc_leb bestPrice limitPrice)
    else (OrderBook.GetBestBid, OrderBook.AddAskOrder, OrderBook.DeleteBidOrder,
          fun limitPrice bestPrice : Qc => Qc_leb limitPrice bestPrice) in
  match matchLoop (loopBound e) getBestPrice deleteOrder canMatch
                  incomingOrder sizeRemaining [] e with
  | Some (sizeRemaining, trades, e) =>
      if 0 <? sizeRemaining then
        let e := setHeap (storeSize (heap e) incomingOrder sizeRemaining) e in
        let '(_, ob) := addOrder (heap e) incomingOrder (orderBook e) in
        Some (trades, setOrderBook ob e)
      else
        Some (trades, UntrackOrder (ID (deref (heap e) incomingOrder)) e)
  | None => None
  end.

(** [for _, trade := range trades { e.AddTradeToHistory(trade) }] *)
Definition addTrades (trades : list Trade) (e : t) : t :=
  foldl (fun e trade => AddTradeToHistory trade e) e trades.

Definition PlaceOrder (incomingOrder : loc) (e : t) : option (list Trade * t) :=
  let e :=
    if bool_decide (Kind (deref (heap e) incomingOrder) ≠ types.CancelOrder)
    then TrackOrder incomingOrder e else e in
  match Kind (deref (heap e) incomingOrder) with
  | MarketOrder =>
      match executeMarketOrder incomingOrder e with
      | Some (trades, e) =>
          let e := addTrades trades e in
          Some (trades, UntrackOrder (ID (deref (heap e) incomingOrder)) e)
      | None => None
      end
  | LimitOrder =>
      match executeLimitOrder incomingOrder e with
      | Some (trades, e) => Some (trades, addTrades trades e)
      | None => None
      end
  | types.CancelOrder =>
      Some ([], snd (CancelOrder (ID (deref (heap e) incomingOrder)) e))
  | _ => Some ([], e)
  end.

(** [e.PlaceOrder(&o)]: the way every caller submits, with a record that
    was just built. *)
Definition Submit (o : Order) (e : t) : option (list Trade * t) :=
  let '(l, h) := alloc o (heap e) in
  PlaceOrder l (setHeap h e).

Context `{!OrderQueries.t OS}.

Definition GetAllOrders (e : t) : list loc :=
  OrderQueries.GetAll (orderStore e).

Definition GetOrdersByUser (userID : string) (e : t) : list loc :=
  OrderQueries.GetByUser (heap e) userID (orderStore e).

Definition GetOrdersBySide (side : SideType) (e : t) : list loc :=
  OrderQueries.GetBySide (heap e) side (orderStore e).

End WithStores.
Arguments t OS TS : clear implicits.
End Engine.

(** ** strconv and strings: the library functions the handlers call

    Go strings are byte strings, as [string] is here.  [ParseUint], [Atoi]
    and [Split] work byte by byte.  [strings.TrimSpace] and
    [strings.ToLower] follow the Unicode tables; the request validation and
    the handlers take them as parameters, and nothing proved about them
    depends on what the two functions compute. *)
Module strconv.

Definition digit (c : Ascii.ascii) : option Z :=
  let n := Z.of_N (Ascii.N_of_ascii c) in
  if (48 <=? n) && (n <=? 57) then Some (n - 48) else None.

Fixpoint digits (s : string) (acc : Z) : option Z :=
  match s with
  | EmptyString => Some acc
  | String c rest =>
      match digit c with
      | Some d => digits rest (10 * acc + d)
      | None => None
      end
  end.

(** [strconv.ParseUint(s, 10, 64)]: [None] is a syntax or a range error. *)
Definition ParseUint (s : string) : option N :=
  match s with
  | EmptyString => None
  | _ =>
      match digits s 0 with
      | Some n => if n <? 2 ^ 64 then Some (Z.to_N n) else None
      | None => None
      end
  end.

(** [strconv.Atoi(s)] on a 64-bit platform.  The bytes 45 and 43 are the
    signs minus and plus. *)
Definition Atoi (s : string) : option Z :=
  let '(neg, body) :=
    match s with
    | String c rest =>
        if Ascii.eqb c (Ascii.ascii_of_nat 45) then (true, rest)
        else if Ascii.eqb c (Ascii.ascii_of_nat 43) then (false, rest)
        else (false, s)
    | EmptyString => (false, s)
    end in
  match body with
  | EmptyString => None
  | _ =>
      match digits body 0 with
      | Some n =>
          let v := if neg then - n else n in
          if (- 2 ^ 63 <=? v) && (v <? 2 ^ 63) then Some v else None
      | None => None
      end
  end.

End strconv.

Module gostrings.

(** [strings.Split(s, "/")]; the byte 47 is the slash. *)
Fixpoint Split (s : string) : list string :=
  match s with
  | EmptyString => [EmptyString]
  | String c rest =>
      if Ascii.eqb c (Ascii.ascii_of_nat 47) then EmptyString :: Split rest
      else
        match Split rest with
        | part :: parts => String c part :: parts
        | [] => [String c EmptyString]
        end
  end.

End gostrings.

(** ** internal/api/models: requests, responses and errors

    Each struct is a module with a record [t], so that the fields keep their
    names.  The [Timestamp] fields of the responses are wall-clock readings
    and are left out. *)
Module models.

Definition ErrorCode : Type := string.

Definition ErrInvalidRequest : ErrorCode := "INVALID_REQUEST".
Definition ErrInvalidOrderType : ErrorCode := "INVALID_ORDER_TYPE".
Definition ErrInvalidSide : ErrorCode := "INVALID_SIDE".
Definition ErrInvalidPrice : ErrorCode := "INVALID_PRICE".
Definition ErrInvalidQuantity : ErrorCode := "INVALID_QUANTITY".
Definition ErrMissingPrice : ErrorCode := "MISSING_PRICE".
Definition ErrOrderNotFound : ErrorCode := "ORDER_NOT_FOUND".
Definition ErrInternalError : ErrorCode := "INTERNAL_ERROR".

(** The status codes of [net/http] the package uses. *)
Definition StatusOK : Z := 200.
Definition StatusBadRequest : Z := 400.
Definition StatusNotFound : Z := 404.
Definition StatusUnprocessableEntity : Z := 422.
Definition StatusInternalServerError : Z := 500.

(** The values stored in a [map[string]interface{}] of details. *)
Inductive Detail : Type :=
| DString (s : string)
| DInt (n : Z)
| DUint (n : N)
| DFloat (x : Qc).

Module APIError.
Record t : Type := mk {
  Code : ErrorCode;
  Message : string;
  Details : gmap string Detail
}.
End APIError.

Module HTTPError.
Record t : Type := mk {
  StatusCode : Z;
  Error : APIError.t
}.
End HTTPError.

Definition NewHTTPError (statusCode : Z) (code : ErrorCode) (message : string)
    (details : gmap string Detail) : HTTPError.t :=
  HTTPError.mk statusCode (APIError.mk code message details).

Definition ErrBadRequest (message : string) (details : gmap string Detail) : HTTPError.t :=
  NewHTTPError StatusBadRequest ErrInvalidRequest message details.

Definition ErrInvalidOrderTypeError (providedType : string) : HTTPError.t :=
  NewHTTPError StatusBadRequest ErrInvalidOrderType
    "Invalid order type, must be 'market' or 'limit'"
    {["provided_value" := DString providedType]}.

Definition ErrInvalidSideError (providedSide : string) : HTTPError.t :=
  NewHTTPError StatusBadRequest ErrInvalidSide
    "Invalid side, must be 'buy' or 'sell'"
    {["provided_value" := DString providedSide]}.

Definition ErrInvalidPriceError (price : Qc) : HTTPError.t :=
  NewHTTPError StatusBadRequest ErrInvalidPrice
    "Price must be greater than 0 for limit orders"
    (<["field" := DString "price"]> {["provided_value" := DFloat price]}).

Definition ErrInvalidQuantityError (quantity : Z) : HTTPError.t :=
  NewHTTPError StatusBadRequest ErrInvalidQuantity
    "Quantity must be positive"
    (<["field" := DString "quantity"]> {["provided_value" := DInt quantity]}).

Definition ErrMissingPriceError : HTTPError.t :=
  NewHTTPError StatusUnprocessableEntity ErrMissingPrice
    "Price is required for limit orders" ∅.

Definition ErrOrderNotFoundError (orderID : N) : HTTPError.t :=
  NewHTTPError StatusNotFound ErrOrderNotFound
    "Order not found"
    {["order_id" := DUint orderID]}.

Definition ErrInternal (message : string) : HTTPError.t :=
  NewHTTPError StatusInternalServerError ErrInternalError message ∅.

Module SubmitOrderRequest.

Record t : Type := mk {
  UserID : string;
  OrderType : string;
  Side : string;
  Price : Qc;
  Quantity : Z
}.

Section Validate.
Context (TrimSpace ToLower : string -> string).

(** [SubmitOrderRequest.Validate]; [None] is the nil [*HTTPError]. *)
Definition Validate (r : t) : option HTTPError.t :=
  if bool_decide (TrimSpace (UserID r) = "") then
    Some (ErrBadRequest "user_id cannot be empty" {["field" := DString "user_id"]})
  else
    let orderType := ToLower (TrimSpace (OrderType r)) in
    if bool_decide (orderType <> "market") && bool_decide (orderType <> "limit") then
      Some (ErrInvalidOrderTypeError (OrderType r))
    else
      let side := ToLower (TrimSpace (Side r)) in
      if bool_decide (side <> "buy") && bool_decide (side <> "sell") then
        Some (ErrInvalidSideError (Side r))
      else if Quantity r <=? 0 then
        Some (ErrInvalidQuantityError (Quantity r))
      else if bool_decide (orderType = "limit") && Qc_leb (Price r) 0 then
        Some (ErrInvalidPriceError (Price r))
      else None.

End Validate.
End SubmitOrderRequest.

Module BatchOrderRequest.

Record t : Type := mk { Orders : list SubmitOrderRequest.t }.

Definition Validate (r : t) : option HTTPError.t :=
  let len := Z.of_nat (length (Orders r)) in
  if len =? 0 then
    Some (ErrBadRequest "orders array cannot be empty" {["field" := DString "orders"]})
  else if 1000 <? len then
    Some (ErrBadRequest "batch size cannot exceed 1000 orders"
            (<["field" := DString "orders"]>
               (<["max_size" := DInt 1000]> {["provided_size" := DInt len]})))
  else None.

End BatchOrderRequest.

Module BaseResponse.
Record t : Type := mk {
  Success : bool;
  Message : string;
  Error : option APIError.t
}.
End BaseResponse.

Module TradeDTO.
Record t : Type := mk {
  BuyOrderID : N;
  SellOrderID : N;
  Price : Qc;
  Quantity : Z
}.
End TradeDTO.

Module SubmitOrderResponse.
Record t : Type := mk {
  Base : BaseResponse.t;
  OrderID : N;
  Trades : list TradeDTO.t
}.
End SubmitOrderResponse.

Module BatchOrderResult.
Record t : Type := mk {
  Index : Z;
  Success : bool;
  OrderID : N;
  Trades : list TradeDTO.t;
  Error : option APIError.t
}.
End BatchOrderResult.

Module BatchOrderSummary.
Record t : Type := mk {
  Total : Z;
  Successful : Z;
  Failed : Z
}.
End BatchOrderSummary.

Module BatchOrderResponse.
Record t : Type := mk {
  Base : BaseResponse.t;
  Results : list BatchOrderResult.t;
  Summary : BatchOrderSummary.t
}.
End BatchOrderResponse.

Module CancelOrderResponse.
Record t : Type := mk {
  Base : BaseResponse.t;
  OrderID : N
}.
End CancelOrderResponse.

Module OrderDTO.
Record t : Type := mk {
  OrderID : N;
  UserID : string;
  Symbol : string;
  OrderType : string;
  Side : string;
  Price : Qc;
  Quantity : Z;
  FilledQuantity : Z;
  RemainingQuantity : Z;
  Status : string;
  Timestamp : Z
}.
End OrderDTO.

Module GetOrderResponse.
Record t : Type := mk {
  Base : BaseResponse.t;
  Order : option OrderDTO.t
}.
End GetOrderResponse.

Module GetOrdersResponse.
Record t : Type := mk {
  Base : BaseResponse.t;
  Orders : list OrderDTO.t;
  Count : Z
}.
End GetOrdersResponse.

Module GetTradesResponse.
Record t : Type := mk {
  Base : BaseResponse.t;
  Trades : list TradeDTO.t;
  Count : Z
}.
End GetTradesResponse.

End models.

(** ** internal/api/handlers: the HTTP handlers

    A handler is a function of the decoded request and of the engine; it
    returns what it writes to the [http.ResponseWriter]: an [HTTPError]
    ([writeErrorResponse], with the status code in it) or the response
    struct, sent with [http.StatusOK].  The logger calls are not modelled.
    [None] is the matching loop out of fuel, as in [Engine.PlaceOrder]. *)
Module handlers.
Section WithEngine.
Context {OS TS : Type} `{!OrderStore.t OS} `{!TradeStore.t TS} `{!OrderQueries.t OS}.
Context (TrimSpace ToLower : string -> string).

Definition convertOrderType (orderType : string) : OrderType :=
  let s := ToLower (TrimSpace orderType) in
  if bool_decide (s = "market") then MarketOrder
  else if bool_decide (s = "limit") then LimitOrder
  else NoActionOrder.

Definition convertSide (side : string) : SideType :=
  let s := ToLower (TrimSpace side) in
  if bool_decide (s = "buy") then Buy
  else if bool_decide (s = "sell") then Sell
  else NoActionSide.

Definition convertTradesToDTO (trades : list Trade) : list models.TradeDTO.t :=
  map (fun trade => models.TradeDTO.mk (BuyOrderID trade) (SellOrderID trade)
                                       (TradePrice trade) (TradeSize trade))
      trades.

Definition convertOrderToDTO (h : list Order) (order : loc) : models.OrderDTO.t :=
  let o := deref h order in
  let orderType :=
    match Kind o with
    | MarketOrder => "market"
    | LimitOrder => "limit"
    | _ => "unknown"
    end in
  let side :=
    match Side o with
    | Buy => "buy"
    | Sell => "sell"
    | _ => "unknown"
    end in
  models.OrderDTO.mk (ID o) (UserID o) (Symbol o) orderType side (Price o) (Size o)
                     0 0 "open" (TimeStamp o).

(** The part of [SubmitOrderHandler] and of the loop of [BatchOrderHandler]
    that follows a successful validation: a new id, [NewOrder] and
    [PlaceOrder]. *)
Definition submit (req : models.SubmitOrderRequest.t) (now : Z) (e : Engine.t OS TS)
    : option (N * list Trade * Engine.t OS TS) :=
  let '(orderID, e) := Engine.GenerateOrderID e in
  let '(order, h) :=
    NewOrder orderID (models.SubmitOrderRequest.UserID req)
             (convertOrderType (models.SubmitOrderRequest.OrderType req))
             (convertSide (models.SubmitOrderRequest.Side req))
             (models.SubmitOrderRequest.Price req)
             (models.SubmitOrderRequest.Quantity req) now (Engine.heap e) in
  match Engine.PlaceOrder order (Engine.setHeap h e) with
  | Some (trades, e) => Some (orderID, trades, e)
  | None => None
  end.

(** [body] is the outcome of [json.NewDecoder(r.Body).Decode(&req)]: the
    text of the decoder's error, or the request. *)
Definition SubmitOrderHandler (body : string + models.SubmitOrderRequest.t) (now : Z)
    (e : Engine.t OS TS)
    : option ((models.HTTPError.t + models.SubmitOrderResponse.t) * Engine.t OS TS) :=
  match body with
  | inl err =>
      Some (inl (models.ErrBadRequest "Invalid JSON format"
                   {["error" := models.DString err]}), e)
  | inr req =>
      match models.SubmitOrderRequest.Validate TrimSpace ToLower req with
      | Some httpErr => Some (inl httpErr, e)
      | None =>
          match submit req now e with
          | Some (orderID, trades, e) =>
              Some (inr (models.SubmitOrderResponse.mk
                           (models.BaseResponse.mk true "Order submitted successfully" None)
                           orderID (convertTradesToDTO trades)), e)
          | None => None
          end
      end
  end.

(** The loop [for i, orderReq := range req.Orders] of [BatchOrderHandler];
    [now i] is the clock reading of [NewOrder] at index [i]. *)
Fixpoint batchLoop (i : Z) (orders : list models.SubmitOrderRequest.t) (now : Z -> Z)
    (results : list models.BatchOrderResult.t) (successful failed : Z)
    (e : Engine.t OS TS)
    : option (list models.BatchOrderResult.t * Z * Z * Engine.t OS TS) :=
  match orders with
  | [] => Some (results, successful, failed, e)
  | orderReq :: rest =>
      match models.SubmitOrderRequest.Validate TrimSpace ToLower orderReq with
      | Some httpErr =>
          let result :=
            models.BatchOrderResult.mk i false 0 [] (Some (models.HTTPError.Error httpErr)) in
          batchLoop (i + 1) rest now (results ++ [result]) successful (failed + 1) e
      | None =>
          match submit orderReq (now i) e with
          | Some (orderID, trades, e) =>
              let result :=
                models.BatchOrderResult.mk i true orderID (convertTradesToDTO trades) None in
              batchLoop (i + 1) rest now (results ++ [result]) (successful + 1) failed e
          | None => None
          end
      end
  end.

Definition BatchOrderHandler (body : string + models.BatchOrderRequest.t) (now : Z -> Z)
    (e : Engine.t OS TS)
    : option ((models.HTTPError.t + models.BatchOrderResponse.t) * Engine.t OS TS) :=
  match body with
  | inl err =>
      Some (inl (models.ErrBadRequest "Invalid JSON format"
                   {["error" := models.DString err]}), e)
  | inr req =>
      match models.BatchOrderRequest.Validate req with
      | Some httpErr => Some (inl httpErr, e)
      | None =>
          match batchLoop 0 (models.BatchOrderRequest.Orders req) now [] 0 0 e with
          | Some (results, successful, failed, e) =>
              Some (inr (models.BatchOrderResponse.mk
                           (models.BaseResponse.mk true "" None)
                           results
                           (models.BatchOrderSummary.mk
                              (Z.of_nat (length (models.BatchOrderRequest.Orders req)))
                              successful failed)), e)
          | None => None
          end
      end
  end.

(** The block [CancelOrderHandler] and [GetOrderHandler] start with: the
    order id is the last segment of a path of at least five parts. *)
Definition orderIDOfPath (path : string) : models.HTTPError.t + N :=
  let pathParts := gostrings.Split path in
  if Z.of_nat (length pathParts) <? 5 then
    inl (models.ErrBadRequest "Invalid order ID" ∅)
  else
    let orderIDStr := default "" (last pathParts) in
    match strconv.ParseUint orderIDStr with
    | None =>
        inl (models.ErrBadRequest "Invalid order ID format"
               {["provided_value" := models.DString orderIDStr]})
    | Some orderID => inr orderID
    end.

Definition CancelOrderHandler (path : string) (e : Engine.t OS TS)
    : (models.HTTPError.t + models.CancelOrderResponse.t) * Engine.t OS TS :=
  match orderIDOfPath path with
  | inl httpErr => (inl httpErr, e)
  | inr orderID =>
      let '(cancelled, e) := Engine.CancelOrder orderID e in
      if negb cancelled then (inl (models.ErrOrderNotFoundError orderID), e)
      else
        (inr (models.CancelOrderResponse.mk
                (models.BaseResponse.mk true "Order cancelled successfully" None)
                orderID), e)
  end.

Definition GetOrderHandler (path : string) (e : Engine.t OS TS)
    : models.HTTPError.t + models.GetOrderResponse.t :=
  match orderIDOfPath path with
  | inl httpErr => inl httpErr
  | inr orderID =>
      match Engine.GetOrder orderID e with
      | None => inl (models.ErrOrderNotFoundError orderID)
      | Some order =>
          inr (models.GetOrderResponse.mk
                 (models.BaseResponse.mk true "" None)
                 (Some (convertOrderToDTO (Engine.heap e) order)))
      end
  end.

(** The block that reads a [limit] or [depth] query parameter: the default
    [def] unless the text is a positive [int], which is capped at [max]. *)
Definition limitOf (def max : Z) (limitStr : string) : Z :=
  if bool_decide (limitStr <> "") then
    match strconv.Atoi limitStr with
    | Some parsedLimit =>
        if 0 <? parsedLimit then
          if max <? parsedLimit then max else parsedLimit
        else def
    | None => def
    end
  else def.

(** [userID], [sideStr] and [limitStr] are the query parameters [user_id],
    [side] and [limit], empty when absent. *)
Definition GetAllOrdersHandler (userID sideStr limitStr : string) (e : Engine.t OS TS)
    : models.GetOrdersResponse.t :=
  let limit := limitOf 100 1000 limitStr in
  let orders :=
    if bool_decide (userID <> "") then Engine.GetOrdersByUser userID e
    else if bool_decide (sideStr <> "") then
      let side := convertSide sideStr in
      if bool_decide (side <> NoActionSide) then Engine.GetOrdersBySide side e
      else Engine.GetAllOrders e
    else Engine.GetAllOrders e in
  let orders :=
    if limit <? Z.of_nat (length orders) then take (Z.to_nat limit) orders else orders in
  let orderDTOs := map (convertOrderToDTO (Engine.heap e)) orders in
  models.GetOrdersResponse.mk (models.BaseResponse.mk true "" None)
                              orderDTOs (Z.of_nat (length orderDTOs)).

Definition GetTradesHandler (limitStr : string) (e : Engine.t OS TS)
    : models.GetTradesResponse.t :=
  let limit := limitOf 100 1000 limitStr in
  let trades := Engine.GetRecentTrades limit e in
  let tradeDTOs := convertTradesToDTO trades in
  models.GetTradesResponse.mk (models.BaseResponse.mk true "" None)
                              tradeDTOs (Z.of_nat (length tradeDTOs)).

End WithEngine.
End handlers.

(** ** Vocabulary of the statements *)

(** The error a write loop ends with: the last non-nil one, in store order. *)
Definition lastError (errs : list (option error)) : option error :=
  foldl (fun acc err => match err with Some _ => err | None => acc end) None errs.

(** A layer answers a [Get] with a hit: a non-nil order and a nil error. *)
Definition isHit (r : option loc * option error) : bool :=
  match r with
  | (Some _, None) => true
  | _ => false
  end.

(** [Save] called on each trade of [ts], first to last. *)
Definition saveAll {T : Type} `{!TradeStore.t T} (ts : list Trade) (s : T) : T :=
  foldl (fun s trade => snd (TradeStore.Save trade s)) s ts.

(** The [k] last elements of a list, in list order. *)
Definition lastN {A : Type} (k : nat) (l : list A) : list A :=
  drop (length l - k) l.

(** How one write method [m] of a composite relates to the method [op] of
    its layers. *)
Definition fansOut {S C : Type} (layers : C -> list S) (op : S -> option error * S)
    (m : C -> option error * C) : Prop :=
  forall c : C,
    layers (snd (m c)) = map (fun s => snd (op s)) (layers c) /\
    fst (m c) = lastError (map (fun s => fst (op s)) (layers c)) /\
    (fst (m c) = None <-> Forall (fun s => fst (op s) = None) (layers c)).

(** The side an incoming order matches against and the side it rests on,
    with the functions [executeMarketOrder] and [executeLimitOrder] pick for
    it ([buy] is [incomingOrder.Side == Buy]). *)
Definition isBuy (o : Order) : bool := bool_decide (Side o = Buy).

Definition oppositeSide (buy : bool) (ob : OrderBook.t) : gmap Qc (list loc) :=
  if buy then OrderBook.asks ob else OrderBook.bids ob.

Definition ownSide (buy : bool) (ob : OrderBook.t) : gmap Qc (list loc) :=
  if buy then OrderBook.bids ob else OrderBook.asks ob.

Definition getBestOpposite (buy : bool) : OrderBook.t -> Qc * list loc :=
  if buy then OrderBook.GetBestAsk else OrderBook.GetBestBid.

Definition deleteOpposite (buy : bool) : list Order -> N -> OrderBook.t -> bool * OrderBook.t :=
  if buy then OrderBook.DeleteAskOrder else OrderBook.DeleteBidOrder.

Definition addOwn (buy : bool) : list Order -> loc -> OrderBook.t -> bool * OrderBook.t :=
  if buy then OrderBook.AddBidOrder else OrderBook.AddAskOrder.

Definition limitCanMatch (buy : bool) : Qc -> Qc -> bool :=
  if buy then fun limitPrice bestPrice => Qc_leb bestPrice limitPrice
  else fun limitPrice bestPrice => Qc_leb limitPrice bestPrice.

(** The identities of the orders a list of pointers refers to. *)
Definition idsOf (h : list Order) (ls : list loc) : list N :=
  map (fun l => ID (deref h l)) ls.

(** The prices of the side opposite to [buy] for which the start value of
    the scan is neutral: [math.MaxFloat64] in [GetBestAsk], [0.0] in
    [GetBestBid]. *)
Definition inRange (buy : bool) (q : Qc) : Prop :=
  if buy then (q <= MaxFloat64)%Qc else (0 < q)%Qc.

(** [fillSize]: the smaller of the two sizes. *)
Definition fillSizeOf (oppositeSize sizeRemaining : Z) : Z :=
  if oppositeSize <? sizeRemaining then oppositeSize else sizeRemaining.

Section EngineVocabulary.
Context {OS TS : Type} `{!OrderStore.t OS} `{!TradeStore.t TS}.

(** One iteration of the matching loop past its two [break]s: the fill
    against [oppositeOrder], the head of the best level. *)
Definition matchStep
    (deleteOrder : list Order -> N -> OrderBook.t -> bool * OrderBook.t)
    (incomingOrder oppositeOrder : loc) (sizeRemaining : Z) (trades : list Trade)
    (e : Engine.t OS TS) : Z * list Trade * Engine.t OS TS :=
  let oppositeSize := Size (deref (Engine.heap e) oppositeOrder) in
  let fillSize := fillSizeOf oppositeSize sizeRemaining in
  let trade := Engine.createTrade (Engine.heap e) incomingOrder oppositeOrder fillSize in
  let e1 := Engine.setHeap (storeSize (Engine.heap e) oppositeOrder
                              (sub_int oppositeSize fillSize)) e in
  let e2 :=
    if Size (deref (Engine.heap e1) oppositeOrder) =? 0 then
      let oppositeID := ID (deref (Engine.heap e1) oppositeOrder) in
      let '(_, ob) := deleteOrder (Engine.heap e1) oppositeID (Engine.orderBook e1) in
      Engine.UntrackOrder oppositeID (Engine.setOrderBook ob e1)
    else e1 in
  (sub_int sizeRemaining fillSize, trades ++ [trade], e2).

End EngineVocabulary.

(** [h'] differs from [h] in [Size] fields only. *)
Definition heapStable (h h' : list Order) : Prop :=
  length h' = length h /\
  forall l, withSize (deref h' l) 0 = withSize (deref h l) 0.

(** Every price level of [side'] is a level of [side] that lost some of its
    pointers, but not all of them. *)
Definition shrinks (side side' : gmap Qc (list loc)) : Prop :=
  forall q b', side' !! q = Some b' ->
    exists b, side !! q = Some b /\ b' `sublist_of` b /\ (b <> [] -> b' <> []).

(** The trade [t] is a fill of the order [incoming] against one of the
    orders [resting] points to: it carries the price of that resting order,
    and the two ids are placed by the side of [incoming]. *)
Definition fillsResting (h : list Order) (incoming : Order) (resting : list loc)
    (t : Trade) : Prop :=
  exists r, r ∈ resting /\
    TradePrice t = Price (deref h r) /\
    if bool_decide (Side incoming = Buy)
    then BuyOrderID t = ID incoming /\ SellOrderID t = ID (deref h r)
    else BuyOrderID t = ID (deref h r) /\ SellOrderID t = ID incoming.

(** The quantity a list of trades executed. *)
Definition filledSize (trades : list Trade) : Z :=
  foldr (fun t acc => TradeSize t + acc) 0 trades.

(** The resting orders a side points to have sizes between 0 and the
    largest [int]. *)
Definition sizesOk (h : list Order) (side : gmap Qc (list loc)) : Prop :=
  forall r, r ∈ OrderBook.sideOrders side -> 0 <= Size (deref h r) < 2 ^ 63.

(** Remove the pointer at index [i] of the level at price [p], and the level
    as well if that leaves it empty. *)
Definition removeAt (side : gmap Qc (list loc)) (p : Qc) (i : nat) : gmap Qc (list loc) :=
  match side !! p with
  | Some blk =>
      if decide (delete i blk = []) then delete p side else <[p := delete i blk]> side
  | None => side
  end.

(** The book by value: every pointer replaced by the record it points to. *)
Definition bookValue (h : list Order) (ob : OrderBook.t)
    : gmap Qc (list Order) * gmap Qc (list Order) :=
  (map (deref h) <$> OrderBook.bids ob, map (deref h) <$> OrderBook.asks ob).

(** Well-formed engine states: the resting orders have pairwise distinct
    ids, every pointer of the book is allocated, and no price level is
    empty. *)
Definition wfBook (h : list Order) (ob : OrderBook.t) : Prop :=
  NoDup (idsOf h (OrderBook.allOrders ob)) /\
  (forall l, l ∈ OrderBook.allOrders ob -> (l < length h)%nat) /\
  (forall buy q blk, oppositeSide buy ob !! q = Some blk -> blk <> []).

(** The two price sentinels are neutral for every level, no level is empty,
    and the book is not crossed. *)
Definition bookInv (ob : OrderBook.t) : Prop :=
  (forall buy q blk, oppositeSide buy ob !! q = Some blk -> inRange buy q /\ blk <> []) /\
  (forall b a, is_Some (OrderBook.bids ob !! b) -> is_Some (OrderBook.asks ob !! a) ->
               (b < a)%Qc).

(** A session with the engine: a sequence of [PlaceOrder] calls, each on a
    freshly built order, and of [CancelOrder] calls. *)
Inductive Op : Type :=
| OpPlace (o : Order)
| OpCancel (orderId : N).

(** The validity predicate, for a price that is a finite [float64]. *)
Definition validOp (op : Op) : Prop :=
  match op with
  | OpPlace o => IsValid o = true /\ (Price o <= MaxFloat64)%Qc
  | OpCancel _ => True
  end.

Section EngineSessions.
Context {OS TS : Type} `{!OrderStore.t OS} `{!TradeStore.t TS}.

Fixpoint runOps (ops : list Op) (e : Engine.t OS TS) : option (Engine.t OS TS) :=
  match ops with
  | [] => Some e
  | OpPlace o :: ops =>
      match Engine.Submit o e with
      | Some (_, e') => runOps ops e'
      | None => None
      end
  | OpCancel orderId :: ops => runOps ops (snd (Engine.CancelOrder orderId e))
  end.

End EngineSessions.

(** The cross predicate of [executeLimitOrder], as the loop evaluates it on
    the best level of the opposite side: there is resting liquidity, and
    BUY: limit price >= best ask; SELL: limit price <= best bid. *)
Definition crosses (o : Order) (ob : OrderBook.t) : Prop :=
  snd (getBestOpposite (isBuy o) ob) <> [] /\
  limitCanMatch (isBuy o) (Price o) (fst (getBestOpposite (isBuy o) ob)) = true.

(** The id of the resting order a trade of [incoming] was filled against. *)
Definition restingID (incoming : Order) (t : Trade) : N :=
  if bool_decide (Side incoming = Buy) then SellOrderID t else BuyOrderID t.

(** The ids of the orders a session places. *)
Definition placedIds (ops : list Op) : list N :=
  omap (fun op => match op with OpPlace o => Some (ID o) | OpCancel _ => None end) ops.

(** ** Vocabulary of the storage properties *)

(** The queue of an in-memory order store lists the keys of its map, each
    once, and is within the size limit. *)
Definition queueInSync (s : InMemoryOrderStore.t) : Prop :=
  NoDup (InMemoryOrderStore.orderIDs s) /\
  (forall id, id ∈ InMemoryOrderStore.orderIDs s <->
              is_Some (InMemoryOrderStore.orders s !! id)) /\
  Z.of_nat (length (InMemoryOrderStore.orderIDs s)) <= InMemoryOrderStore.maxSize s.

(** A call of one of the write methods of an order store. *)
Inductive StoreOp : Type :=
| OpSave (order : loc)
| OpRemove (orderID : N)
| OpUpdate (order : loc).

Definition isSave (op : StoreOp) : bool :=
  match op with
  | OpSave _ => true
  | _ => false
  end.

Section StoreSessions.
Context {S : Type} `{!OrderStore.t S}.

Definition runStoreOp (h : list Order) (op : StoreOp) (s : S) : option error * S :=
  match op with
  | OpSave order => OrderStore.Save h order s
  | OpRemove orderID => OrderStore.Remove orderID s
  | OpUpdate order => OrderStore.Update h order s
  end.

(** The calls of [ops] in turn: the errors they return and the store they
    leave. *)
Fixpoint runStoreOps (h : list Order) (ops : list StoreOp) (s : S)
    : list (option error) * S :=
  match ops with
  | [] => ([], s)
  | op :: ops =>
      let '(err, s) := runStoreOp h op s in
      let '(errs, s) := runStoreOps h ops s in
      (err :: errs, s)
  end.

End StoreSessions.

(** A layer answers a [GetRecent] with data: no error and at least one
    trade. *)
Definition hasTrades (r : list Trade * option error) : bool :=
  match r with
  | (_ :: _, None) => true
  | _ => false
  end.

(** ** Vocabulary of the engine properties *)

Section EngineRuns.
Context {OS TS : Type} `{!OrderStore.t OS} `{!TradeStore.t TS}.

(** [n] calls of [GenerateOrderID]: the ids returned, first to last, and the
    engine they leave. *)
Fixpoint generateIDs (n : nat) (e : Engine.t OS TS) : list N * Engine.t OS TS :=
  match n with
  | O => ([], e)
  | S n =>
      let '(id, e) := Engine.GenerateOrderID e in
      let '(ids, e) := generateIDs n e in
      (id :: ids, e)
  end.

End EngineRuns.

(** Two engines, possibly over different stores, that hold the same orders
    and the same book. *)
Definition sameBook {OS TS OS' TS' : Type} (e : Engine.t OS TS) (e' : Engine.t OS' TS') : Prop :=
  Engine.heap e = Engine.heap e' /\ Engine.orderBook e = Engine.orderBook e'.

(** Two calls, on two engines, that return the same trades and leave the
    same orders and the same book. *)
Definition sameOutcome {OS TS OS' TS' : Type}
    (r : option (list Trade * Engine.t OS TS))
    (r' : option (list Trade * Engine.t OS' TS')) : Prop :=
  match r, r' with
  | Some (trades, e), Some (trades', e') => trades = trades' /\ sameBook e e'
  | None, None => True
  | _, _ => False
  end.

(** ** Vocabulary of the API properties *)

Section ApiVocabulary.
Context (TrimSpace ToLower : string -> string).

(** The record [NewOrder] builds in [SubmitOrderHandler] and
    [BatchOrderHandler] for the request [req]. *)
Definition orderOfRequest (orderID : N) (now : Z) (req : models.SubmitOrderRequest.t)
    : Order :=
  mkOrder orderID (models.SubmitOrderRequest.UserID req) "COOTX"
          (handlers.convertOrderType TrimSpace ToLower (models.SubmitOrderRequest.OrderType req))
          (handlers.convertSide TrimSpace ToLower (models.SubmitOrderRequest.Side req))
          (models.SubmitOrderRequest.Price req) 0%Qc
          (models.SubmitOrderRequest.Quantity req) now.

(** The request passes [SubmitOrderRequest.Validate]. *)
Definition accepted (req : models.SubmitOrderRequest.t) : bool :=
  bool_decide (models.SubmitOrderRequest.Validate TrimSpace ToLower req = None).

End ApiVocabulary.

(** What a handler writes: the status code of the response. *)
Definition statusOf {A : Type} (r : models.HTTPError.t + A) : Z :=
  match r with
  | inl httpErr => models.HTTPError.StatusCode httpErr
  | inr _ => models.StatusOK
  end.

Section ApiRuns.
Context {OS TS : Type} `{!OrderStore.t OS} `{!TradeStore.t TS}.
Context (TrimSpace ToLower : string -> string).

(** [SubmitOrderHandler] called on each request of [reqs] in turn, the
    request at index [i] at the clock reading [now i]: the engine the calls
    leave. *)
Fixpoint submitEach (i : Z) (reqs : list models.SubmitOrderRequest.t) (now : Z -> Z)
    (e : Engine.t OS TS) : option (Engine.t OS TS) :=
  match reqs with
  | [] => Some e
  | req :: rest =>
      match handlers.SubmitOrderHandler TrimSpace ToLower (inr req) (now i) e with
      | Some (_, e) => submitEach (i + 1) rest now e
      | None => None
      end
  end.

End ApiRuns.

(** The number of elements of [l] that satisfy [p]. *)
Definition countIf {A : Type} (p : A -> bool) (l : list A) : Z :=
  Z.of_nat (length (filter (fun x => p x = true) l)).

(** The in-memory order store of [e] tracks exactly the resting orders: the
    id of each resting order is mapped to the pointer the book holds, and
    nothing else is tracked. *)
Definition tracksResting {TS : Type} (e : Engine.t InMemoryOrderStore.t TS) : Prop :=
  forall id l,
    InMemoryOrderStore.orders (Engine.orderStore e) !! id = Some l <->
    l ∈ OrderBook.allOrders (Engine.orderBook e) /\ ID (deref (Engine.heap e) l) = id.

(** The states the engine reaches when ids are not reused and the store
    does not evict: the book is well formed and the store is in step with
    it. *)
Definition inStep {TS : Type} (e : Engine.t InMemoryOrderStore.t TS) : Prop :=
  wfBook (Engine.heap e) (Engine.orderBook e) /\
  tracksResting e /\
  queueInSync (Engine.orderStore e).

(** The orders a session places are MARKET and LIMIT orders, as those the
    API handlers build. *)
Definition placesMarketOrLimit (op : Op) : Prop :=
  match op with
  | OpPlace o => Kind o = MarketOrder \/ Kind o = LimitOrder
  | OpCancel _ => True
  end.

(** A call of one of the three handlers that change the engine, with what
    the handler reads besides the request: the clock. *)
Inductive ApiCall : Type :=
| CallSubmit (body : string + models.SubmitOrderRequest.t) (now : Z)
| CallBatch (body : string + models.BatchOrderRequest.t) (now : Z -> Z)
| CallCancel (path : string).

(** The order requests a call carries. *)
Definition requestsOf (call : ApiCall) : list models.SubmitOrderRequest.t :=
  match call with
  | CallSubmit (inr req) _ => [req]
  | CallBatch (inr req) _ => models.BatchOrderRequest.Orders req
  | _ => []
  end.

Section ApiSessions.
Context {OS TS : Type} `{!OrderStore.t OS} `{!TradeStore.t TS}.
Context (TrimSpace ToLower : string -> string).

Definition runCall (call : ApiCall) (e : Engine.t OS TS) : option (Engine.t OS TS) :=
  match call with
  | CallSubmit body now =>
      snd <$> handlers.SubmitOrderHandler TrimSpace ToLower body now e
  | CallBatch body now =>
      snd <$> handlers.BatchOrderHandler TrimSpace ToLower body now e
  | CallCancel path => Some (snd (handlers.CancelOrderHandler path e))
  end.

(** The calls of a session, served one after the other. *)
Fixpoint runApi (calls : list ApiCall) (e : Engine.t OS TS) : option (Engine.t OS TS) :=
  match calls with
  | [] => Some e
  | call :: calls =>
      match runCall call e with
      | Some e => runApi calls e
      | None => None
      end
  end.

End ApiSessions.

(** Every resting order was given its id by the counter of the engine. *)
Definition idsIssued {OS TS : Type} (e : Engine.t OS TS) : Prop :=
  forall id, id ∈ idsOf (Engine.heap e) (OrderBook.allOrders (Engine.orderBook e)) ->
             (2 <= id <= Engine.nextOrderID e)%N.

(** Each resting order is a LIMIT order of positive size that sits on the
    side of its [Side], at the price level of its [Price]. *)
Definition wellPlaced (h : list Order) (ob : OrderBook.t) : Prop :=
  forall buy q blk l,
    ownSide buy ob !! q = Some blk -> l ∈ blk ->
    Kind (deref h l) = LimitOrder /\
    Side (deref h l) = (if buy then Buy else Sell) /\
    Price (deref h l) = q /\
    0 < Size (deref h l) < 2 ^ 63.

(** The quantity the orders [ls] point to are open for, and the quantity
    that rests in the book. *)
Definition totalSize (h : list Order) (ls : list loc) : Z :=
  foldr (fun l acc => Size (deref h l) + acc) 0 ls.

Definition restingSize (h : list Order) (ob : OrderBook.t) : Z :=
  totalSize h (OrderBook.allOrders ob).

(** A valid order whose size is an [int] and whose price is a [float64]. *)
Definition placeable (o : Order) : Prop :=
  IsValid o = true /\ Size o < 2 ^ 63 /\ (Price o <= MaxFloat64)%Qc.

Definition placeableOp (op : Op) : Prop :=
  match op with
  | OpPlace o => placeable o
  | OpCancel _ => True
  end.

(** For an incoming order on the side [buy], the price [p] is at least as
    good as the price [q]: not higher for a buyer, not lower for a
    seller. *)
Definition noWorse (buy : bool) (p q : Qc) : Prop :=
  if buy then (p <= q)%Qc else (q <= p)%Qc.

Section EngineHistory.
Context {OS TS : Type} `{!OrderStore.t OS} `{!TradeStore.t TS}.

(** A session that keeps what its [PlaceOrder] calls return: the trades of
    all the calls, in the order of the calls. *)
Fixpoint runOpsTrades (ops : list Op) (e : Engine.t OS TS)
    : option (list Trade * Engine.t OS TS) :=
  match ops with
  | [] => Some ([], e)
  | OpPlace o :: ops =>
      match Engine.Submit o e with
      | Some (trades, e') =>
          match runOpsTrades ops e' with
          | Some (later, e'') => Some (trades ++ later, e'')
          | None => None
          end
      | None => None
      end
  | OpCancel orderId :: ops => runOpsTrades ops (snd (Engine.CancelOrder orderId e))
  end.

End EngineHistory.

(** ** Invariants of the matching loop and of the sessions *)

Section LoopInvariants.
Context {OS TS : Type} `{!OrderStore.t OS} `{!TradeStore.t TS}.
Implicit Types e : Engine.t OS TS.

(** The part of the state that the handlers keep sound. *)
Definition sound e : Prop :=
  wfBook (Engine.heap e) (Engine.orderBook e) /\
  bookInv (Engine.orderBook e) /\
  idsIssued e.

(** What the matching loop keeps: the book stays well formed and well
    placed, and every unit that is traded leaves the incoming order and a
    resting order. *)
Definition conserving (h0 : list Order) (ob0 : OrderBook.t) (rem0 : Z)
    (rem : Z) (trades : list Trade) e : Prop :=
  heapStable h0 (Engine.heap e) /\
  (forall b, shrinks (oppositeSide b ob0) (oppositeSide b (Engine.orderBook e))) /\
  wellPlaced (Engine.heap e) (Engine.orderBook e) /\
  0 <= rem < 2 ^ 63 /\
  rem + filledSize trades = rem0 /\
  restingSize (Engine.heap e) (Engine.orderBook e) + filledSize trades = restingSize h0 ob0 /\
  (forall x, x ∉ OrderBook.allOrders ob0 -> deref (Engine.heap e) x = deref h0 x) /\
  Forall (fun t => 0 < TradeSize t) trades.

(** What the matching loop keeps about prices: the trades so far are in
    order of price, best first, none is at a worse price than a level that
    is left, each is at a price level of the book the loop started from, and
    each passed the test [canMatch]. *)
Definition priced (buy : bool) (canMatch : Qc -> Qc -> bool) (limit : Qc)
    (ob0 : OrderBook.t) (trades : list Trade) e : Prop :=
  (forall t q, t ∈ trades -> is_Some (oppositeSide buy (Engine.orderBook e) !! q) ->
               noWorse buy (TradePrice t) q) /\
  (forall i j ti tj, trades !! i = Some ti -> trades !! j = Some tj -> (i <= j)%nat ->
                     noWorse buy (TradePrice ti) (TradePrice tj)) /\
  (forall t, t ∈ trades -> is_Some (oppositeSide buy ob0 !! TradePrice t)) /\
  (forall t, t ∈ trades -> canMatch limit (TradePrice t) = true).

End LoopInvariants.

Section StoreInvariant.
Context {TS : Type} `{!TradeStore.t TS}.
Implicit Types e : Engine.t InMemoryOrderStore.t TS.

(** The state of the matching loop: the book is well formed, and the store
    tracks the resting orders and the incoming order [l], whose id is not
    in the book. *)
Definition loopInv (l : loc) (id : N) (h0 : list Order) (m : Z) e : Prop :=
  heapStable h0 (Engine.heap e) /\
  wfBook (Engine.heap e) (Engine.orderBook e) /\
  (id ∉ idsOf (Engine.heap e) (OrderBook.allOrders (Engine.orderBook e))) /\
  (forall id' l',
     InMemoryOrderStore.orders (Engine.orderStore e) !! id' = Some l' <->
     (l' ∈ OrderBook.allOrders (Engine.orderBook e) /\ ID (deref (Engine.heap e) l') = id') \/
     (id' = id /\ l' = l)) /\
  queueInSync (Engine.orderStore e) /\
  InMemoryOrderStore.maxSize (Engine.orderStore e) = m.

End StoreInvariant.

(** ** Concrete states for the scenarios *)

Definition limitOrder (id : N) (side : SideType) (price : Z) (size : Z) : Order :=
  mkOrder id "alice" "COOTX" LimitOrder side (Q2Qc (inject_Z price)) 0%Qc size 0.

Definition marketOrder (id : N) (side : SideType) (size : Z) : Order :=
  mkOrder id "bob" "COOTX" MarketOrder side 0%Qc 0%Qc size 0.

Definition stopOrder (id : N) (side : SideType) (stop : Z) (size : Z) : Order :=
  mkOrder id "carol" "COOTX" StopMarketOrder side 0%Qc (Q2Qc (inject_Z stop)) size 0.

(** [NewEngineWithStores] over the two in-memory stores, with the
    capacities of [NewEngine]. *)
Definition newEngine : Engine.t InMemoryOrderStore.t InMemoryTradeStore.t :=
  Engine.NewEngineWithStores (InMemoryOrderStore.NewInMemoryOrderStore 100000)
                             (InMemoryTradeStore.NewInMemoryTradeStore 1000).

(** The state a session leaves. *)
Definition after (ops : list Op) : Engine.t InMemoryOrderStore.t InMemoryTradeStore.t :=
  default newEngine (runOps ops newEngine).

(** The caller has built the order [o]; its address is [length (heap e)]. *)
Definition withOrder {OS TS : Type} (o : Order) (e : Engine.t OS TS) : Engine.t OS TS :=
  Engine.setHeap (Engine.heap e ++ [o]) e.

(** Three SELL limits at 101, sizes 5, ids 1, 2, 3, in this order. *)
Definition threeAsks : Engine.t InMemoryOrderStore.t InMemoryTradeStore.t :=
  after [OpPlace (limitOrder 1 Sell 101 5);
         OpPlace (limitOrder 2 Sell 101 5);
         OpPlace (limitOrder 3 Sell 101 5)].

(** [strings.ToLower] and [strings.TrimSpace] on ASCII text: the letters A
    to Z (65 to 90) are moved to a to z, and the blanks that are cut off
    both ends are the space (32) and the characters 9 to 13. *)
Definition asciiLower (c : Ascii.ascii) : Ascii.ascii :=
  let n := Ascii.N_of_ascii c in
  if (65 <=? n)%N && (n <=? 90)%N then Ascii.ascii_of_N (n + 32) else c.

Fixpoint asciiToLower (s : string) : string :=
  match s with
  | EmptyString => EmptyString
  | String c s => String (asciiLower c) (asciiToLower s)
  end.

Definition asciiIsSpace (c : Ascii.ascii) : bool :=
  let n := Ascii.N_of_ascii c in
  (n =? 32)%N || ((9 <=? n)%N && (n <=? 13)%N).

Fixpoint asciiTrimLeft (s : string) : string :=
  match s with
  | EmptyString => EmptyString
  | String c s' => if asciiIsSpace c then asciiTrimLeft s' else s
  end.

Fixpoint asciiTrimRight (s : string) : string :=
  match s with
  | EmptyString => EmptyString
  | String c s' =>
      match asciiTrimRight s' with
      | EmptyString => if asciiIsSpace c then EmptyString else String c EmptyString
      | t => String c t
      end
  end.

Definition asciiTrimSpace (s : string) : string := asciiTrimRight (asciiTrimLeft s).

(** Three SELL limits at 101, 102 and 103, sizes 5, ids 1, 2, 3. *)
Definition askLadder : Engine.t InMemoryOrderStore.t InMemoryTradeStore.t :=
  after [OpPlace (limitOrder 1 Sell 101 5);
         OpPlace (limitOrder 2 Sell 102 5);
         OpPlace (limitOrder 3 Sell 103 5)].

(** A session that rests, trades, cancels and rests again. *)
Definition mixedSession : list Op :=
  [OpPlace (limitOrder 1 Sell 101 10); OpPlace (limitOrder 2 Buy 99 5);
   OpPlace (limitOrder 3 Buy 105 4); OpCancel 7;
   OpPlace (marketOrder 4 Sell 2); OpPlace (limitOrder 5 Sell 100 3);
   OpCancel 2].

(** Requests as a client sends them: the ids 2, 3, 4 and 5 are handed out
    to the four that are well formed. *)
Definition apiSession : list ApiCall :=
  [CallSubmit (inr (models.SubmitOrderRequest.mk "alice" "limit" "sell" (Q2Qc 101) 10)) 1;
   CallBatch (inr (models.BatchOrderRequest.mk
                     [models.SubmitOrderRequest.mk "bob" " LIMIT " "Buy" (Q2Qc 99) 5;
                      models.SubmitOrderRequest.mk "" "limit" "buy" (Q2Qc 98) 1;
                      models.SubmitOrderRequest.mk "carol" "market" "buy" 0%Qc 4]))
             (fun i => 2 + i);
   CallCancel "/api/v1/orders/3";
   CallSubmit (inl "unexpected end of JSON input") 6;
   CallSubmit (inr (models.SubmitOrderRequest.mk "dave" "limit" "buy" (Q2Qc 100) 2)) 7].

(** A heap of four orders for the sessions of the order stores. *)
Definition fourOrders : list Order :=
  [limitOrder 1 Buy 99 5; limitOrder 2 Buy 98 5; limitOrder 3 Sell 101 5;
   limitOrder 4 Sell 102 5].

(** * Properties *)

(** ** The composite stores *)

Section WriteAll.
Context {S : Type} (op : S -> option error * S).

Lemma writeAll_stores (stores : list S) (lastErr : option error) :
  snd (writeAll op stores lastErr) = map (fun s => snd (op s)) stores.
Proof.
  revert lastErr; induction stores as [|s rest IH]; intros lastErr; simpl; [done|].
  destruct (op s) as [err s'] eqn:Hop; simpl.
  specialize (IH (match err with Some _ => err | None => lastErr end)).
  destruct (writeAll op rest _) as [r rest']; simpl in *. by rewrite IH.
Qed.

Lemma writeAll_error (stores : list S) (lastErr : option error) :
  fst (writeAll op stores lastErr) =
  foldl (fun acc err => match err with Some _ => err | None => acc end)
        lastErr (map (fun s => fst (op s)) stores).
Proof.
  revert lastErr; induction stores as [|s rest IH]; intros lastErr; simpl; [done|].
  destruct (op s) as [err s'] eqn:Hop; simpl.
  specialize (IH (match err with Some _ => err | None => lastErr end)).
  destruct (writeAll op rest _) as [r rest']; simpl in *. by rewrite IH.
Qed.

Lemma foldl_lastError_None (errs : list (option error)) (acc : option error) :
  foldl (fun acc err => match err with Some _ => err | None => acc end) acc errs = None
  <-> acc = None /\ Forall (fun err => err = None) errs.
Proof.
  revert acc; induction errs as [|err errs IH]; intros acc; simpl.
  - split; [intros ->; by split | by intros [-> _]].
  - etrans; [apply IH|]. destruct err; split.
    + intros [? _]; discriminate.
    + intros [_ Hall]. inversion Hall; discriminate.
    + intros [-> ?]. split; [done|]. by constructor.
    + intros [-> Hall]. inversion Hall; done.
Qed.

Lemma writeAll_spec (stores : list S) :
  let r := writeAll op stores None in
  snd r = map (fun s => snd (op s)) stores /\
  fst r = lastError (map (fun s => fst (op s)) stores) /\
  (fst r = None <-> Forall (fun s => fst (op s) = None) stores).
Proof.
  simpl. split; [apply writeAll_stores|]. split; [apply writeAll_error|].
  rewrite writeAll_error. etrans; [apply foldl_lastError_None|].
  split; [intros [_ Hall]; by apply Forall_map in Hall|].
  intros Hall; split; [done|]. by apply Forall_map.
Qed.

End WriteAll.


(** C7 (as amended): every write method of a composite calls the method on
    every layer, in order, and returns the last error it saw.  It returns nil
    exactly when no layer failed; one failing layer makes the composite fail,
    whatever the other layers answered. *)
Theorem composite_write_returns_last_error :
  (forall (S : Type) (I : OrderStore.t S) (h : list Order) (order : loc),
      fansOut CompositeOrderStore.stores (OrderStore.Save h order)
              (CompositeOrderStore.Save h order) /\
      fansOut CompositeOrderStore.stores (OrderStore.Update h order)
              (CompositeOrderStore.Update h order)) /\
  (forall (S : Type) (I : OrderStore.t S) (orderID : N),
      fansOut CompositeOrderStore.stores (OrderStore.Remove orderID)
              (CompositeOrderStore.Remove orderID)) /\
  (forall (T : Type) (I : TradeStore.t T) (trade : Trade),
      fansOut CompositeTradeStore.stores (TradeStore.Save trade)
              (CompositeTradeStore.Save trade)) /\
  (forall (T : Type) (I : TradeStore.t T) (batch : list Trade),
      fansOut CompositeTradeStore.stores (TradeStore.SaveBatch batch)
              (CompositeTradeStore.SaveBatch batch)).
Proof.
  assert (Hgen : forall (S C : Type) (mk : list S -> C) (layers : C -> list S)
                        (op : S -> option error * S),
             (forall l, layers (mk l) = l) ->
             fansOut layers op (fun c => prod_map id mk (writeAll op (layers c) None))).
  { intros S C mk layers op Hmk c.
    pose proof (writeAll_spec op (layers c)) as Hspec.
    destruct (writeAll op (layers c) None) as [r stores'].
    simpl in *. rewrite Hmk. tauto. }
  split; [|split; [|split]]; intros; [split| | |]; by apply Hgen.
Qed.

(** C7, the claim as stated fails: a composite over an in-memory store of
    capacity 1 and one of capacity 8.  Two orders are saved through the
    composite, and the small layer evicts the first.  [Update] of the first
    order then succeeds on the second layer, and the composite still returns
    the error of the first layer. *)
Lemma composite_write_one_success_not_enough :
  let h := [mkOrder 1%N "alice" "COOTX" LimitOrder Buy (Q2Qc 99) 0%Qc 10 0;
            mkOrder 2%N "alice" "COOTX" LimitOrder Buy (Q2Qc 98) 0%Qc 10 0] in
  let c0 := CompositeOrderStore.NewCompositeOrderStore
              [InMemoryOrderStore.NewInMemoryOrderStore 1;
               InMemoryOrderStore.NewInMemoryOrderStore 8] in
  let c1 := snd (CompositeOrderStore.Save h 0%nat c0) in
  let c2 := snd (CompositeOrderStore.Save h 1%nat c1) in
  match CompositeOrderStore.stores c2 with
  | [s1; s2] =>
      fst (OrderStore.Update h 0%nat s1) = Some (ErrOrderNotFound 1%N) /\
      fst (OrderStore.Update h 0%nat s2) = None /\
      fst (CompositeOrderStore.Update h 0%nat c2) = Some (ErrOrderNotFound 1%N)
  | _ => False
  end.
Proof. vm_compute. repeat split; reflexivity. Qed.

Section CompositeGet.
Context {S : Type} `{!OrderStore.t S}.

Lemma GetFrom_first_hit (orderID : N) (stores : list S) :
  CompositeOrderStore.GetFrom orderID stores =
  match list_find (fun s => isHit (OrderStore.Get orderID s) = true) stores with
  | Some (_, s) => OrderStore.Get orderID s
  | None => (None, None)
  end.
Proof.
  induction stores as [|s rest IH]; simpl; [done|].
  destruct (OrderStore.Get orderID s) as [[order|] [err|]] eqn:Hget; simpl;
    rewrite ?decide_True by done; rewrite ?decide_False by done; try done;
    rewrite IH; destruct (list_find _ rest) as [[i s']|]; done.
Qed.

End CompositeGet.

(** C8 (as amended): the composite [Get] returns the answer of the first
    layer that gives a non-nil order with a nil error, and [(nil, nil)] when
    no layer does.  A layer that answers not-found falls through to the next
    layer, whether it reports it as an error or as [(nil, nil)]. *)
Theorem composite_get_first_hit (S : Type) (I : OrderStore.t S)
    (orderID : N) (c : CompositeOrderStore.t S) :
  CompositeOrderStore.Get orderID c =
  match list_find (fun s => isHit (OrderStore.Get orderID s) = true)
                  (CompositeOrderStore.stores c) with
  | Some (_, s) => OrderStore.Get orderID s
  | None => (None, None)
  end.
Proof. apply GetFrom_first_hit. Qed.

(** C8, the claim as stated fails.  A first layer that is an empty
    in-memory store reports the miss as an error, and a first layer that is
    itself a composite reports it as [(nil, nil)], a not-found without
    error; in both cases the composite goes on to the second layer and
    returns the order found there. *)
Lemma composite_get_not_found_falls_through :
  let h := [mkOrder 1%N "alice" "COOTX" LimitOrder Buy (Q2Qc 99) 0%Qc 10 0] in
  let empty := InMemoryOrderStore.NewInMemoryOrderStore 8 in
  let full := snd (InMemoryOrderStore.Save h 0%nat empty) in
  let layer1 := CompositeOrderStore.NewCompositeOrderStore [empty] in
  let layer2 := CompositeOrderStore.NewCompositeOrderStore [full] in
  (OrderStore.Get 1%N empty = (None, Some (ErrOrderNotFound 1%N)) /\
   CompositeOrderStore.Get 1%N (CompositeOrderStore.NewCompositeOrderStore [empty; full])
   = (Some 0%nat, None)) /\
  (OrderStore.Get 1%N layer1 = (None, None) /\
   CompositeOrderStore.Get 1%N (CompositeOrderStore.NewCompositeOrderStore [layer1; layer2])
   = (Some 0%nat, None)).
Proof. repeat split; reflexivity. Qed.

(** ** The in-memory trade store *)

Lemma trim_lastN (m : Z) (ts : list Trade) :
  0 <= m -> InMemoryTradeStore.trim m ts = lastN (Z.to_nat m) ts.
Proof.
  intros Hm. unfold InMemoryTradeStore.trim, lastN.
  destruct (Z.ltb_spec m (Z.of_nat (length ts))).
  - f_equal. lia.
  - replace (length ts - Z.to_nat m)%nat with 0%nat by lia. done.
Qed.

Lemma lastN_app_lastN {A : Type} (k : nat) (a b : list A) :
  lastN k (lastN k a ++ b) = lastN k (a ++ b).
Proof.
  unfold lastN. destruct (decide (length a <= k)%nat).
  - replace (length a - k)%nat with 0%nat by lia. done.
  - rewrite <- (drop_app_le a b (length a - k)) by lia.
    rewrite drop_drop. f_equal. rewrite length_drop, length_app. lia.
Qed.

Lemma saveAll_trades (m : Z) (ts : list Trade) (s : InMemoryTradeStore.t) :
  0 <= m -> InMemoryTradeStore.maxSize s = m ->
  InMemoryTradeStore.trades s = lastN (Z.to_nat m) (InMemoryTradeStore.trades s) ->
  InMemoryTradeStore.trades (saveAll ts s) =
    lastN (Z.to_nat m) (InMemoryTradeStore.trades s ++ ts) /\
  InMemoryTradeStore.maxSize (saveAll ts s) = m.
Proof.
  intros Hm. revert s. induction ts as [|t ts IH]; intros s Hmax Hs; simpl.
  - rewrite app_nil_r. done.
  - destruct (IH (snd (TradeStore.Save t s))) as [IH1 IH2]; simpl.
    + done.
    + rewrite Hmax, trim_lastN by done. unfold lastN.
      rewrite length_drop, drop_drop. f_equal. lia.
    + unfold saveAll in *. simpl in *. rewrite IH1, IH2. split; [|done].
      rewrite Hmax, trim_lastN by done. rewrite lastN_app_lastN.
      by rewrite <- app_assoc.
Qed.

(** C9 (as amended): after the trades [ts] were saved, first to last, in an
    in-memory trade store of capacity [m], [GetRecent n] with a positive [n]
    returns the [min n (min m (length ts))] most recently saved trades in the
    order they were saved: the most recent one is the last element.  The
    composite over the in-memory store and the trade log answers what the
    in-memory store answers, and [Engine.GetRecentTrades] reverses the answer
    into newest-first order. *)
Theorem get_recent_in_save_order (m n : Z) (ts : list Trade) :
  0 <= m -> 0 < n ->
  let s := saveAll ts (InMemoryTradeStore.NewInMemoryTradeStore m) in
  let k := Z.to_nat (Z.min n (Z.min m (Z.of_nat (length ts)))) in
  InMemoryTradeStore.GetRecent n s = (lastN k ts, None) /\
  (forall log : FileTradeStore.t,
      CompositeTradeStore.GetRecent n
        (CompositeTradeStore.NewCompositeTradeStore [inl s; inr log])
      = (lastN k ts, None)) /\
  (forall (OS : Type) (e : Engine.t OS InMemoryTradeStore.t),
      Engine.tradeStore e = s ->
      Engine.GetRecentTrades n e = take k (reverse ts)).
Proof.
  intros Hm Hn s k.
  destruct (saveAll_trades m ts (InMemoryTradeStore.NewInMemoryTradeStore m))
    as [Htr Hmax]; [done|done|done|]. simpl in Htr. fold s in Htr, Hmax.
  assert (Hget : InMemoryTradeStore.GetRecent n s = (lastN k ts, None)).
  { unfold InMemoryTradeStore.GetRecent. f_equal. rewrite Htr.
    unfold lastN. rewrite length_drop, drop_drop. f_equal.
    subst k. destruct (n <=? 0) eqn:H1; [lia|]. simpl.
    destruct (Z.ltb_spec (Z.of_nat (length ts - (length ts - Z.to_nat m))) n); lia. }
  split; [done|]. split.
  - intros log. unfold CompositeTradeStore.GetRecent.
    cbn [CompositeTradeStore.NewCompositeTradeStore CompositeTradeStore.stores
         CompositeTradeStore.GetRecentFrom].
    change (TradeStore.GetRecent n (inl s)) with (InMemoryTradeStore.GetRecent n s).
    rewrite Hget. destruct (lastN k ts); done.
  - intros OS e He. unfold Engine.GetRecentTrades. rewrite He.
    change (TradeStore.GetRecent n s) with (InMemoryTradeStore.GetRecent n s).
    rewrite Hget. cbn [fst].
    unfold lastN. rewrite reverse_drop. f_equal. subst k. lia.
Qed.

(** A witness of [get_recent_in_save_order]: capacity 3, four trades saved,
    limit 2. *)
Lemma get_recent_in_save_order_witness :
  let t (i : N) := mkTrade 0 i (i + 100) (Q2Qc 100) 10 in
  let ts := [t 1%N; t 2%N; t 3%N; t 4%N] in
  0 <= 3 /\ 0 < 2 /\
  InMemoryTradeStore.GetRecent 2 (saveAll ts (InMemoryTradeStore.NewInMemoryTradeStore 3))
  = ([t 3%N; t 4%N], None).
Proof.
  intros t ts. split; [lia|]. split; [lia|].
  apply (get_recent_in_save_order 3 2 ts); lia.
Defined.

(** C9, the claim as stated fails on the in-memory store: two trades saved,
    and the first element of [GetRecent 2] is the older one. *)
Lemma get_recent_not_newest_first :
  let t1 := mkTrade 0 1%N 101%N (Q2Qc 100) 10 in
  let t2 := mkTrade 0 2%N 102%N (Q2Qc 100) 10 in
  let s := saveAll [t1; t2] (InMemoryTradeStore.NewInMemoryTradeStore 1000) in
  fst (TradeStore.GetRecent 2 s) = [t1; t2] /\
  head (fst (TradeStore.GetRecent 2 s)) <> Some t2.
Proof. split; [reflexivity|]. simpl. intros [=]. Qed.

(** ** Prices *)

Ltac qc_order :=
  unfold Qc_leb, Qc_ltb in *;
  repeat case_bool_decide;
  unfold Qclt, Qcle in *;
  try lra.

Lemma Qc_le_antisym (x y : Qc) : (x <= y)%Qc -> (y <= x)%Qc -> x = y.
Proof. intros. apply Qc_is_canon. qc_order. Qed.

Lemma MaxFloat64_pos : (0 < MaxFloat64)%Qc.
Proof. unfold MaxFloat64, Qclt. vm_compute. reflexivity. Qed.

(** ** The order book: best prices *)

Section BestPrice.
Context {V : Type}.

Lemma fold_max_spec (m : gmap Qc V) (z : Qc) :
  let mx := map_fold (fun p (_ : V) acc => if Qc_ltb acc p then p else acc) z m in
  (z <= mx)%Qc /\
  (forall p, is_Some (m !! p) -> (p <= mx)%Qc) /\
  (mx = z \/ is_Some (m !! mx)).
Proof.
  apply (map_fold_weak_ind
           (fun r (m : gmap Qc V) =>
              (z <= r)%Qc /\ (forall p, is_Some (m !! p) -> (p <= r)%Qc) /\
              (r = z \/ is_Some (m !! r)))).
  - split; [qc_order|]. split; [|by left].
    intros p [x Hx]. by rewrite lookup_empty in Hx.
  - intros i x m' r Hi (Hz & Hall & Hin). split; [|split].
    + qc_order.
    + intros p Hp. destruct (decide (p = i)) as [->|Hne].
      * qc_order.
      * rewrite lookup_insert_ne in Hp by done. specialize (Hall p Hp). qc_order.
    + destruct (Qc_ltb r i) eqn:Hlt.
      * right. rewrite lookup_insert_eq. by eexists.
      * destruct Hin as [->|Hin]; [by left|right].
        destruct (decide (r = i)) as [->|Hne].
        -- rewrite lookup_insert_eq. by eexists.
        -- by rewrite lookup_insert_ne.
Qed.

Lemma fold_min_spec (m : gmap Qc V) (z : Qc) :
  let mn := map_fold (fun p (_ : V) acc => if Qc_ltb p acc then p else acc) z m in
  (mn <= z)%Qc /\
  (forall p, is_Some (m !! p) -> (mn <= p)%Qc) /\
  (mn = z \/ is_Some (m !! mn)).
Proof.
  apply (map_fold_weak_ind
           (fun r (m : gmap Qc V) =>
              (r <= z)%Qc /\ (forall p, is_Some (m !! p) -> (r <= p)%Qc) /\
              (r = z \/ is_Some (m !! r)))).
  - split; [qc_order|]. split; [|by left].
    intros p [x Hx]. by rewrite lookup_empty in Hx.
  - intros i x m' r Hi (Hz & Hall & Hin). split; [|split].
    + qc_order.
    + intros p Hp. destruct (decide (p = i)) as [->|Hne].
      * qc_order.
      * rewrite lookup_insert_ne in Hp by done. specialize (Hall p Hp). qc_order.
    + destruct (Qc_ltb i r) eqn:Hlt.
      * right. rewrite lookup_insert_eq. by eexists.
      * destruct Hin as [->|Hin]; [by left|right].
        destruct (decide (r = i)) as [->|Hne].
        -- rewrite lookup_insert_eq. by eexists.
        -- by rewrite lookup_insert_ne.
Qed.

End BestPrice.

Lemma getBestOpposite_block (buy : bool) (ob : OrderBook.t) (p : Qc) (o : loc) (rest : list loc) :
  getBestOpposite buy ob = (p, o :: rest) ->
  oppositeSide buy ob !! p = Some (o :: rest).
Proof.
  destruct buy; simpl; unfold OrderBook.GetBestAsk, OrderBook.GetBestBid;
    case_bool_decide; intros [= <- Hblk]; try done;
    match goal with
    | H : default [] (?m !! ?k) = _ |- _ => destruct (m !! k); simpl in H; by subst
    end.
Qed.

(** The best price is extremal among the price levels of the side. *)
Lemma getBestOpposite_extremal (buy : bool) (ob : OrderBook.t) (q : Qc) :
  is_Some (oppositeSide buy ob !! q) ->
  if buy then (fst (getBestOpposite buy ob) <= q)%Qc
  else (q <= fst (getBestOpposite buy ob))%Qc.
Proof.
  intros Hq. destruct buy; simpl in *; unfold OrderBook.GetBestAsk, OrderBook.GetBestBid;
    case_bool_decide as Hsz.
  - apply map_size_empty_inv in Hsz. rewrite Hsz, lookup_empty in Hq. by destruct Hq.
  - simpl. by apply fold_min_spec.
  - apply map_size_empty_inv in Hsz. rewrite Hsz, lookup_empty in Hq. by destruct Hq.
  - simpl. by apply fold_max_spec.
Qed.

Lemma getBestOpposite_nonempty (buy : bool) (ob : OrderBook.t) :
  oppositeSide buy ob <> ∅ ->
  (forall q blk, oppositeSide buy ob !! q = Some blk -> inRange buy q /\ blk <> []) ->
  exists p o rest, getBestOpposite buy ob = (p, o :: rest).
Proof.
  intros Hne Hlv.
  apply map_size_non_empty_iff in Hne as Hsz.
  apply map_choose in Hne as (q & blk & Hq).
  destruct (Hlv q blk Hq) as [Hr _].
  destruct buy; simpl in *; unfold OrderBook.GetBestAsk, OrderBook.GetBestBid;
    rewrite bool_decide_eq_false_2 by done.
  - destruct (fold_min_spec (OrderBook.asks ob) MaxFloat64) as (H1 & H2 & H3).
    set (mn := map_fold _ _ _) in *.
    assert (is_Some (OrderBook.asks ob !! mn)) as [b Hb].
    { destruct H3 as [H3|H3]; [|done].
      assert (mn = q) as ->; [|by eexists].
      apply Qc_le_antisym; [apply H2; by eexists|]. rewrite H3. done. }
    rewrite Hb. simpl. destruct (Hlv mn b Hb) as [_ Hnil].
    destruct b; [done|]. by eexists _, _, _.
  - destruct (fold_max_spec (OrderBook.bids ob) 0%Qc) as (H1 & H2 & H3).
    set (mx := map_fold _ _ _) in *.
    assert (is_Some (OrderBook.bids ob !! mx)) as [b Hb].
    { destruct H3 as [H3|H3]; [|done].
      assert (q <= mx)%Qc by (apply H2; by eexists).
      rewrite H3 in H. qc_order. }
    rewrite Hb. simpl. destruct (Hlv mx b Hb) as [_ Hnil].
    destruct b; [done|]. by eexists _, _, _.
Qed.

Lemma getBestOpposite_empty (buy : bool) (ob : OrderBook.t) :
  oppositeSide buy ob = ∅ -> getBestOpposite buy ob = (0%Qc, []).
Proof.
  intros He. destruct buy; simpl in *; unfold OrderBook.GetBestAsk, OrderBook.GetBestBid;
    rewrite He, bool_decide_eq_true_2; done.
Qed.

(** The best level is a function of the opposite side alone. *)
Lemma getBestOpposite_ext (buy : bool) (ob ob' : OrderBook.t) :
  oppositeSide buy ob = oppositeSide buy ob' ->
  getBestOpposite buy ob = getBestOpposite buy ob'.
Proof.
  destruct buy; simpl; unfold OrderBook.GetBestAsk, OrderBook.GetBestBid;
    intros ->; done.
Qed.

(** ** The order book: the pointers of a side *)

Lemma concat_Permutation {A : Type} (l l' : list (list A)) :
  l ≡ₚ l' -> concat l ≡ₚ concat l'.
Proof.
  induction 1 as [|x l l' _ IH|x y l|l1 l2 l3 _ IH1 _ IH2]; simpl.
  - done.
  - by rewrite IH.
  - rewrite !app_assoc. f_equiv. apply Permutation_app_comm.
  - by etrans.
Qed.

Lemma sideOrders_empty : OrderBook.sideOrders ∅ = [].
Proof. unfold OrderBook.sideOrders. by rewrite map_to_list_empty. Qed.

Lemma sideOrders_insert (side : gmap Qc (list loc)) (p : Qc) (blk : list loc) :
  side !! p = None ->
  OrderBook.sideOrders (<[p := blk]> side) ≡ₚ blk ++ OrderBook.sideOrders side.
Proof.
  intros Hp. unfold OrderBook.sideOrders.
  change (blk ++ concat (map snd (map_to_list side)))
    with (concat (map snd ((p, blk) :: map_to_list side))).
  apply concat_Permutation, Permutation_map, map_to_list_insert. done.
Qed.

Lemma sideOrders_lookup (side : gmap Qc (list loc)) (p : Qc) (blk : list loc) :
  side !! p = Some blk ->
  OrderBook.sideOrders side ≡ₚ blk ++ OrderBook.sideOrders (delete p side).
Proof.
  intros Hp. rewrite <- (insert_delete_id side p blk) at 1 by done.
  apply sideOrders_insert, lookup_delete_eq.
Qed.

Lemma sideOrders_replace (side : gmap Qc (list loc)) (p : Qc) (blk : list loc) :
  OrderBook.sideOrders (<[p := blk]> side) ≡ₚ blk ++ OrderBook.sideOrders (delete p side).
Proof.
  rewrite <- insert_delete_eq. apply sideOrders_insert, lookup_delete_eq.
Qed.

Lemma elem_of_sideOrders (side : gmap Qc (list loc)) (l : loc) :
  l ∈ OrderBook.sideOrders side <-> exists p blk, side !! p = Some blk /\ l ∈ blk.
Proof.
  unfold OrderBook.sideOrders. rewrite list_elem_of_In, in_concat. split.
  - intros (blk & Hin & Hl). apply list_elem_of_In, list_elem_of_fmap in Hin as ([p b] & -> & Hpb).
    apply elem_of_map_to_list in Hpb. exists p, b. split; [done|]. by apply list_elem_of_In.
  - intros (p & blk & Hp & Hl). exists blk. split; [|by apply list_elem_of_In].
    apply list_elem_of_In, list_elem_of_fmap. exists (p, blk). split; [done|].
    by apply elem_of_map_to_list.
Qed.

(** ** The order book: finding and deleting by id *)

Lemma idsOf_app (h : list Order) (a b : list loc) :
  idsOf h (a ++ b) = idsOf h a ++ idsOf h b.
Proof. apply map_app. Qed.

Lemma elem_of_idsOf (h : list Order) (ls : list loc) (l : loc) :
  l ∈ ls -> ID (deref h l) ∈ idsOf h ls.
Proof. intros Hl. apply list_elem_of_fmap. by exists l. Qed.

Lemma findInBlock_Some (h : list Order) (blk : list loc) (id : N) (i0 : nat) (l : loc) (i : nat) :
  OrderBook.findInBlock h blk id i0 = Some (l, i) ->
  exists j, i = (i0 + j)%nat /\ blk !! j = Some l /\ ID (deref h l) = id.
Proof.
  revert i0; induction blk as [|x blk IH]; intros i0; simpl; [done|].
  case_bool_decide as Hx.
  - intros [= -> ->]. exists 0%nat. split; [lia|done].
  - intros Hf. destruct (IH _ Hf) as (j & -> & Hj & Hid).
    exists (S j). split; [lia|done].
Qed.

Lemma findInBlock_None (h : list Order) (blk : list loc) (id : N) (i0 : nat) :
  OrderBook.findInBlock h blk id i0 = None <-> id ∉ idsOf h blk.
Proof.
  revert i0; induction blk as [|x blk IH]; intros i0; simpl.
  - split; [intros _; apply not_elem_of_nil|done].
  - rewrite not_elem_of_cons. case_bool_decide as Hx.
    + split; [done|]. intros [Hne _]. by destruct Hne.
    + rewrite IH. split; [intros ?; split; [congruence|done]|by intros [_ ?]].
Qed.

Lemma findInBlock_unique (h : list Order) (blk : list loc) (i0 i : nat) (l : loc) :
  NoDup (idsOf h blk) -> blk !! i = Some l ->
  OrderBook.findInBlock h blk (ID (deref h l)) i0 = Some (l, (i0 + i)%nat).
Proof.
  revert i0 i; induction blk as [|x blk IH]; intros i0 i Hnd Hi; [done|].
  simpl in Hnd. apply NoDup_cons in Hnd as [Hx Hnd]. destruct i as [|i]; simpl in *.
  - injection Hi as ->. rewrite bool_decide_eq_true_2 by done. do 2 f_equal. lia.
  - rewrite bool_decide_eq_false_2.
    + rewrite (IH (S i0) i) by done. do 2 f_equal. lia.
    + intros Heq. apply Hx. rewrite Heq.
      apply elem_of_idsOf. by eapply list_elem_of_lookup_2.
Qed.

Lemma findInLevels_Some (h : list Order) (levels : list (Qc * list loc)) (id : N)
    (l : loc) (p : Qc) (i : nat) :
  OrderBook.findInLevels h levels id = Some (l, p, i) ->
  exists blk, (p, blk) ∈ levels /\ blk !! i = Some l /\ ID (deref h l) = id.
Proof.
  induction levels as [|[q b] levels IH]; simpl; [done|].
  destruct (OrderBook.findInBlock h b id 0) as [[l' i']|] eqn:Hb.
  - intros [= -> -> ->]. apply findInBlock_Some in Hb as (j & -> & Hj & Hid).
    exists b. split; [left|done].
  - intros Hf. destruct (IH Hf) as (blk & Hin & Hi & Hid).
    exists blk. split; [by right|done].
Qed.

Lemma findInLevels_None (h : list Order) (levels : list (Qc * list loc)) (id : N) :
  OrderBook.findInLevels h levels id = None <-> id ∉ idsOf h (concat (map snd levels)).
Proof.
  induction levels as [|[q b] levels IH]; simpl.
  - split; [intros _; apply not_elem_of_nil|done].
  - rewrite idsOf_app, not_elem_of_app.
    destruct (OrderBook.findInBlock h b id 0) as [[l' i']|] eqn:Hb.
    + split; [done|]. intros [Hn _]. apply (findInBlock_None h b id 0) in Hn. congruence.
    + apply findInBlock_None in Hb. rewrite IH. tauto.
Qed.

Lemma findInLevels_unique (h : list Order) (levels : list (Qc * list loc))
    (p : Qc) (blk : list loc) (i : nat) (l : loc) :
  NoDup (idsOf h (concat (map snd levels))) ->
  (p, blk) ∈ levels -> blk !! i = Some l ->
  OrderBook.findInLevels h levels (ID (deref h l)) = Some (l, p, i).
Proof.
  induction levels as [|[q b] levels IH]; intros Hnd Hin Hi; [by apply elem_of_nil in Hin|].
  simpl in *. rewrite idsOf_app in Hnd.
  apply NoDup_app in Hnd as (Hb & Hdisj & Hrest).
  destruct (decide ((p, blk) = (q, b))) as [[= <- <-]|Hne].
  - by rewrite (findInBlock_unique h blk 0 i l).
  - apply elem_of_cons in Hin as [?|Hin]; [done|].
    assert (OrderBook.findInBlock h b (ID (deref h l)) 0 = None) as ->.
    { apply findInBlock_None. intros Hl. apply (Hdisj _ Hl).
      apply elem_of_idsOf.
      apply list_elem_of_In, in_concat. exists blk. split.
      - apply list_elem_of_In, list_elem_of_fmap. by exists (p, blk).
      - apply list_elem_of_In. by eapply list_elem_of_lookup_2. }
    by apply IH.
Qed.

Lemma find_Some (h : list Order) (side : gmap Qc (list loc)) (id : N)
    (l : loc) (p : Qc) (i : nat) :
  OrderBook.findOrderInBookSide h side id = Some (l, p, i) ->
  exists blk, side !! p = Some blk /\ blk !! i = Some l /\ ID (deref h l) = id.
Proof.
  intros Hf. apply findInLevels_Some in Hf as (blk & Hin & Hi & Hid).
  exists blk. split; [by apply elem_of_map_to_list|done].
Qed.

Lemma find_None (h : list Order) (side : gmap Qc (list loc)) (id : N) :
  OrderBook.findOrderInBookSide h side id = None <->
  id ∉ idsOf h (OrderBook.sideOrders side).
Proof. apply findInLevels_None. Qed.

Lemma find_unique (h : list Order) (side : gmap Qc (list loc))
    (p : Qc) (blk : list loc) (i : nat) (l : loc) :
  NoDup (idsOf h (OrderBook.sideOrders side)) ->
  side !! p = Some blk -> blk !! i = Some l ->
  OrderBook.findOrderInBookSide h side (ID (deref h l)) = Some (l, p, i).
Proof.
  intros Hnd Hp Hi. apply (findInLevels_unique h _ p blk); [done| |done].
  by apply elem_of_map_to_list.
Qed.

(** Only the [ID] fields of the heap matter to a search. *)
Lemma findInLevels_heap (h h' : list Order) (levels : list (Qc * list loc)) (id : N) :
  (forall l, ID (deref h' l) = ID (deref h l)) ->
  OrderBook.findInLevels h' levels id = OrderBook.findInLevels h levels id.
Proof.
  intros Hid. induction levels as [|[q b] levels IH]; simpl; [done|].
  assert (forall i0, OrderBook.findInBlock h' b id i0 = OrderBook.findInBlock h b id i0) as ->.
  { induction b as [|x b IHb]; intros i0; simpl; [done|]. by rewrite Hid, IHb. }
  by rewrite IH.
Qed.

Lemma deleteInSide_None (h : list Order) (side : gmap Qc (list loc)) (id : N) :
  OrderBook.findOrderInBookSide h side id = None ->
  OrderBook.deleteInSide h side id = (false, side).
Proof. intros Hf. unfold OrderBook.deleteInSide. by rewrite Hf. Qed.

Lemma deleteInSide_Some (h : list Order) (side : gmap Qc (list loc)) (id : N)
    (l : loc) (p : Qc) (i : nat) (blk : list loc) :
  OrderBook.findOrderInBookSide h side id = Some (l, p, i) ->
  side !! p = Some blk ->
  OrderBook.deleteInSide h side id =
  (true, if decide (delete i blk = []) then delete p side else <[p := delete i blk]> side).
Proof.
  intros Hf Hp. unfold OrderBook.deleteInSide. rewrite Hf, Hp. simpl.
  rewrite <- delete_take_drop. f_equal.
  destruct (delete i blk) eqn:Hd; simpl.
  - by rewrite delete_insert_eq.
  - done.
Qed.

(** A successful delete removes exactly one pointer from the side. *)
Lemma deleteInSide_length (h : list Order) (side : gmap Qc (list loc)) (id : N)
    (side' : gmap Qc (list loc)) :
  OrderBook.deleteInSide h side id = (true, side') ->
  S (length (OrderBook.sideOrders side')) = length (OrderBook.sideOrders side).
Proof.
  destruct (OrderBook.findOrderInBookSide h side id) as [[[l p] i]|] eqn:Hf.
  - destruct (find_Some _ _ _ _ _ _ Hf) as (blk & Hp & Hi & _).
    rewrite (deleteInSide_Some _ _ _ _ _ _ _ Hf Hp). intros [= <-].
    rewrite (sideOrders_lookup side p blk Hp), length_app.
    pose proof (length_delete blk i (ltac:(by eexists) : is_Some (blk !! i))) as Hlen.
    apply lookup_lt_Some in Hi as Hlt.
    case_decide as Hd.
    + rewrite Hd in Hlen. simpl in Hlen. lia.
    + rewrite sideOrders_replace, length_app. lia.
  - rewrite (deleteInSide_None _ _ _ Hf). done.
Qed.

Lemma deleteInSide_found (h : list Order) (side : gmap Qc (list loc)) (l : loc) :
  l ∈ OrderBook.sideOrders side ->
  fst (OrderBook.deleteInSide h side (ID (deref h l))) = true.
Proof.
  intros Hl. destruct (OrderBook.findOrderInBookSide h side (ID (deref h l)))
    as [[[l' p] i]|] eqn:Hf.
  - unfold OrderBook.deleteInSide. by rewrite Hf.
  - apply find_None in Hf. destruct Hf. by apply elem_of_idsOf.
Qed.

(** What a delete leaves at each price level. *)
Lemma deleteInSide_levels (h : list Order) (side : gmap Qc (list loc)) (id : N)
    (q : Qc) (b' : list loc) :
  snd (OrderBook.deleteInSide h side id) !! q = Some b' ->
  exists b, side !! q = Some b /\ b' `sublist_of` b /\ (b <> [] -> b' <> []).
Proof.
  destruct (OrderBook.findOrderInBookSide h side id) as [[[l p] i]|] eqn:Hf.
  - destruct (find_Some _ _ _ _ _ _ Hf) as (blk & Hp & Hi & _).
    rewrite (deleteInSide_Some _ _ _ _ _ _ _ Hf Hp). simpl.
    case_decide as Hd.
    + intros Hq. apply lookup_delete_Some in Hq as [Hne Hq]. exists b'. done.
    + intros Hq. apply lookup_insert_Some in Hq as [[<- <-]|[Hne Hq]].
      * exists blk. split; [done|]. split; [apply sublist_delete|done].
      * exists b'. done.
  - rewrite (deleteInSide_None _ _ _ Hf). simpl. intros Hq. exists b'. done.
Qed.

(** ** The heap: only [Size] is ever written *)

Lemma wrap_int_0 : wrap_int 0 = 0.
Proof. reflexivity. Qed.

Lemma sub_int_diag (z : Z) : sub_int z z = 0.
Proof. unfold sub_int. by rewrite Z.sub_diag. Qed.

Lemma wrap_int_id (z : Z) : - 2 ^ 63 <= z < 2 ^ 63 -> wrap_int z = z.
Proof. intros Hz. unfold wrap_int. rewrite Z.mod_small; lia. Qed.

Lemma deref_storeSize (h : list Order) (l l' : loc) (v : Z) :
  deref (storeSize h l v) l' =
  if decide (l = l' /\ (l < length h)%nat) then withSize (deref h l) v else deref h l'.
Proof.
  unfold storeSize, deref. case_decide as Hc.
  - destruct Hc as [<- Hlt]. by rewrite list_lookup_insert_eq.
  - destruct (decide (l = l')) as [<-|Hne].
    + rewrite list_insert_ge by lia. done.
    + by rewrite list_lookup_insert_ne.
Qed.

Lemma ID_storeSize (h : list Order) (l l' : loc) (v : Z) :
  ID (deref (storeSize h l v) l') = ID (deref h l').
Proof. rewrite deref_storeSize. case_decide as Hc; [destruct Hc as [<- _]|]; done. Qed.

Lemma Price_storeSize (h : list Order) (l l' : loc) (v : Z) :
  Price (deref (storeSize h l v) l') = Price (deref h l').
Proof. rewrite deref_storeSize. case_decide as Hc; [destruct Hc as [<- _]|]; done. Qed.

Lemma Side_storeSize (h : list Order) (l l' : loc) (v : Z) :
  Side (deref (storeSize h l v) l') = Side (deref h l').
Proof. rewrite deref_storeSize. case_decide as Hc; [destruct Hc as [<- _]|]; done. Qed.

Lemma Kind_storeSize (h : list Order) (l l' : loc) (v : Z) :
  Kind (deref (storeSize h l v) l') = Kind (deref h l').
Proof. rewrite deref_storeSize. case_decide as Hc; [destruct Hc as [<- _]|]; done. Qed.

Lemma length_storeSize (h : list Order) (l : loc) (v : Z) :
  length (storeSize h l v) = length h.
Proof. apply length_insert. Qed.

Lemma idsOf_storeSize (h : list Order) (l : loc) (v : Z) (ls : list loc) :
  idsOf (storeSize h l v) ls = idsOf h ls.
Proof. unfold idsOf. apply map_ext. intros. apply ID_storeSize. Qed.

(** ** The matching loop *)

Lemma deleteOpposite_spec (buy : bool) (h : list Order) (id : N) (ob : OrderBook.t) :
  fst (deleteOpposite buy h id ob) = fst (OrderBook.deleteInSide h (oppositeSide buy ob) id) /\
  oppositeSide buy (snd (deleteOpposite buy h id ob)) =
    snd (OrderBook.deleteInSide h (oppositeSide buy ob) id) /\
  ownSide buy (snd (deleteOpposite buy h id ob)) = ownSide buy ob.
Proof.
  destruct buy; simpl; unfold OrderBook.DeleteAskOrder, OrderBook.DeleteBidOrder;
    destruct (OrderBook.deleteInSide _ _ _); done.
Qed.

Section Loop.
Context {OS TS : Type} `{!OrderStore.t OS} `{!TradeStore.t TS}.
Implicit Types e : Engine.t OS TS.

Lemma matchLoop_unfold (fuel : nat) getBestPrice deleteOrder canMatch
    (l : loc) (rem : Z) (trades : list Trade) e :
  Engine.matchLoop fuel getBestPrice deleteOrder canMatch l rem trades e =
  if 0 <? rem then
    match fuel with
    | O => None
    | S fuel =>
        match getBestPrice (Engine.orderBook e) with
        | (_, []) => Some (rem, trades, e)
        | (bestPrice, o :: _) =>
            if negb (canMatch (Price (deref (Engine.heap e) l)) bestPrice)
            then Some (rem, trades, e)
            else
              let '(rem', trades', e') := matchStep deleteOrder l o rem trades e in
              Engine.matchLoop fuel getBestPrice deleteOrder canMatch l rem' trades' e'
        end
    end
  else Some (rem, trades, e).
Proof.
  destruct fuel; simpl; destruct (0 <? rem); done.
Qed.

(** What one iteration does. *)
Lemma matchStep_spec (buy : bool) (l o : loc) (rem : Z) (trades : list Trade) e :
  o ∈ OrderBook.sideOrders (oppositeSide buy (Engine.orderBook e)) ->
  let fill := fillSizeOf (Size (deref (Engine.heap e) o)) rem in
  let h' := storeSize (Engine.heap e) o (sub_int (Size (deref (Engine.heap e) o)) fill) in
  let id := ID (deref (Engine.heap e) o) in
  exists e',
    matchStep (deleteOpposite buy) l o rem trades e =
      (sub_int rem fill, trades ++ [Engine.createTrade (Engine.heap e) l o fill], e') /\
    Engine.heap e' = h' /\
    Engine.tradeStore e' = Engine.tradeStore e /\
    Engine.nextOrderID e' = Engine.nextOrderID e /\
    ownSide buy (Engine.orderBook e') = ownSide buy (Engine.orderBook e) /\
    ((sub_int rem fill = 0 /\ Engine.orderBook e' = Engine.orderBook e /\
      Engine.orderStore e' = Engine.orderStore e) \/
     (Size (deref h' o) = 0 /\
      OrderBook.deleteInSide h' (oppositeSide buy (Engine.orderBook e)) id =
        (true, oppositeSide buy (Engine.orderBook e')) /\
      Engine.orderStore e' = snd (OrderStore.Remove id (Engine.orderStore e)))).
Proof.
  intros Ho fill h' id. unfold matchStep. fold fill. cbn [Engine.heap Engine.setHeap].
  fold h'. destruct (Z.eqb_spec (Size (deref h' o)) 0) as [Hz|Hnz].
  - rewrite (ID_storeSize _ _ _ _ : ID (deref h' o) = id).
    pose proof (deleteOpposite_spec buy h' id (Engine.orderBook e)) as (Hfst & Hopp & Hown).
    cbn [Engine.orderBook Engine.setHeap].
    destruct (deleteOpposite buy h' id (Engine.orderBook e)) as [b ob] eqn:Hdel.
    simpl in Hfst, Hopp, Hown.
    eexists. split; [reflexivity|]. cbn. repeat (split; [done|]).
    right. split; [done|]. split; [|done].
    rewrite Hopp. rewrite <- (deleteInSide_found h' _ o Ho) at 1.
    rewrite (ID_storeSize _ _ _ _ : ID (deref h' o) = id).
    by destruct (OrderBook.deleteInSide _ _ _).
  - eexists. split; [reflexivity|]. cbn. repeat (split; [done|]).
    left. split; [|done].
    unfold h' in Hnz. rewrite deref_storeSize in Hnz. case_decide as Hc.
    + simpl in Hnz. unfold fill, fillSizeOf in *.
      destruct (_ <? rem); [by rewrite sub_int_diag in Hnz|apply sub_int_diag].
    + destruct (decide (o < length (Engine.heap e))%nat) as [Hlt|Hge]; [tauto|].
      unfold deref in Hnz. rewrite lookup_ge_None_2 in Hnz by lia. done.
Qed.

Lemma head_in_opposite (buy : bool) (ob : OrderBook.t) (p : Qc) (o : loc) (rest : list loc) :
  getBestOpposite buy ob = (p, o :: rest) ->
  o ∈ OrderBook.sideOrders (oppositeSide buy ob).
Proof.
  intros Hg%getBestOpposite_block. apply elem_of_sideOrders.
  exists p, (o :: rest). split; [done|left].
Qed.

(** The loop ends within one more iteration than there are resting orders
    on the opposite side. *)
Lemma matchLoop_terminates (buy : bool) (canMatch : Qc -> Qc -> bool) (l : loc)
    (fuel : nat) (rem : Z) (trades : list Trade) e :
  (length (OrderBook.sideOrders (oppositeSide buy (Engine.orderBook e))) < fuel)%nat ->
  is_Some (Engine.matchLoop fuel (getBestOpposite buy) (deleteOpposite buy) canMatch
                            l rem trades e).
Proof.
  revert rem trades e. induction fuel as [|fuel IH]; intros rem trades e Hlen; [lia|].
  rewrite matchLoop_unfold. destruct (0 <? rem); [|by eexists].
  destruct (getBestOpposite buy (Engine.orderBook e)) as [p [|o rest]] eqn:Hg; [by eexists|].
  destruct (negb _); [by eexists|].
  destruct (matchStep_spec buy l o rem trades e (head_in_opposite _ _ _ _ _ Hg))
    as (e' & -> & _ & _ & _ & _ & [(Hrem & _)|(_ & Hdel & _)]).
  - rewrite Hrem, matchLoop_unfold. simpl. by eexists.
  - apply IH. apply deleteInSide_length in Hdel. lia.
Qed.

(** The invariant rule of the loop: a property kept by every iteration
    holds when the loop ends, together with the reason it ended. *)
Lemma matchLoop_invariant (buy : bool) (canMatch : Qc -> Qc -> bool) (l : loc)
    (Inv : Z -> list Trade -> Engine.t OS TS -> Prop) :
  (forall rem trades e p o rest,
      Inv rem trades e -> 0 < rem ->
      getBestOpposite buy (Engine.orderBook e) = (p, o :: rest) ->
      canMatch (Price (deref (Engine.heap e) l)) p = true ->
      forall rem' trades' e',
        matchStep (deleteOpposite buy) l o rem trades e = (rem', trades', e') ->
        Inv rem' trades' e') ->
  forall fuel rem trades e rem' trades' e',
    Inv rem trades e ->
    Engine.matchLoop fuel (getBestOpposite buy) (deleteOpposite buy) canMatch
                     l rem trades e = Some (rem', trades', e') ->
    Inv rem' trades' e' /\
    (rem' <= 0 \/
     snd (getBestOpposite buy (Engine.orderBook e')) = [] \/
     canMatch (Price (deref (Engine.heap e') l))
              (fst (getBestOpposite buy (Engine.orderBook e'))) = false).
Proof.
  intros Hstep. induction fuel as [|fuel IH]; intros rem trades e rem' trades' e' HI;
    rewrite matchLoop_unfold; destruct (Z.ltb_spec 0 rem) as [Hpos|Hle];
    try (intros [= <- <- <-]; split; [done|by left]); [done|].
  destruct (getBestOpposite buy (Engine.orderBook e)) as [p [|o rest]] eqn:Hg.
  - intros [= <- <- <-]. split; [done|]. right. left. by rewrite Hg.
  - destruct (canMatch _ p) eqn:Hcm; simpl.
    + destruct (matchStep (deleteOpposite buy) l o rem trades e)
        as [[rem1 trades1] e1] eqn:Hs.
      apply IH. by eapply Hstep.
    + intros [= <- <- <-]. split; [done|]. right. right. by rewrite Hg.
Qed.

Lemma heapStable_refl (h : list Order) : heapStable h h.
Proof. by split. Qed.

Lemma heapStable_trans (h1 h2 h3 : list Order) :
  heapStable h1 h2 -> heapStable h2 h3 -> heapStable h1 h3.
Proof. intros [? H12] [? H23]. split; [congruence|]. intros l. by rewrite H23. Qed.

Lemma heapStable_storeSize (h : list Order) (l : loc) (v : Z) :
  heapStable h (storeSize h l v).
Proof.
  split; [apply length_storeSize|]. intros l'. rewrite deref_storeSize.
  case_decide as Hc; [destruct Hc as [<- _]|]; done.
Qed.

Lemma heapStable_ID (h h' : list Order) (l : loc) :
  heapStable h h' -> ID (deref h' l) = ID (deref h l).
Proof. intros [_ Hs]. specialize (Hs l). by apply (f_equal ID) in Hs. Qed.

Lemma heapStable_Price (h h' : list Order) (l : loc) :
  heapStable h h' -> Price (deref h' l) = Price (deref h l).
Proof. intros [_ Hs]. specialize (Hs l). by apply (f_equal Price) in Hs. Qed.

Lemma heapStable_Side (h h' : list Order) (l : loc) :
  heapStable h h' -> Side (deref h' l) = Side (deref h l).
Proof. intros [_ Hs]. specialize (Hs l). by apply (f_equal Side) in Hs. Qed.

Lemma heapStable_Kind (h h' : list Order) (l : loc) :
  heapStable h h' -> Kind (deref h' l) = Kind (deref h l).
Proof. intros [_ Hs]. specialize (Hs l). by apply (f_equal Kind) in Hs. Qed.

Lemma heapStable_idsOf (h h' : list Order) (ls : list loc) :
  heapStable h h' -> idsOf h' ls = idsOf h ls.
Proof. intros Hs. apply map_ext. intros l. by apply heapStable_ID. Qed.

Lemma shrinks_refl (side : gmap Qc (list loc)) : shrinks side side.
Proof. intros q b Hq. exists b. done. Qed.

Lemma shrinks_trans (s1 s2 s3 : gmap Qc (list loc)) :
  shrinks s1 s2 -> shrinks s2 s3 -> shrinks s1 s3.
Proof.
  intros H12 H23 q b3 Hq. destruct (H23 q b3 Hq) as (b2 & Hq2 & Hsub2 & Hne2).
  destruct (H12 q b2 Hq2) as (b1 & Hq1 & Hsub1 & Hne1).
  exists b1. split; [done|]. split; [by etrans|]. auto.
Qed.

Lemma shrinks_deleteInSide (h : list Order) (side : gmap Qc (list loc)) (id : N) :
  shrinks side (snd (OrderBook.deleteInSide h side id)).
Proof. intros q b'. apply deleteInSide_levels. Qed.

Lemma shrinks_elem (side side' : gmap Qc (list loc)) (l : loc) :
  shrinks side side' ->
  l ∈ OrderBook.sideOrders side' -> l ∈ OrderBook.sideOrders side.
Proof.
  intros Hs (q & b' & Hq & Hl)%elem_of_sideOrders.
  destruct (Hs q b' Hq) as (b & Hb & Hsub & _).
  apply elem_of_sideOrders. exists q, b. split; [done|].
  by eapply elem_of_sublist.
Qed.

(** The frame of the loop: it writes [Size] fields, removes pointers from
    the opposite side, removes ids from the order store, and touches nothing
    else; every trade it appends is a fill against an order that rested on
    the opposite side when the loop started. *)
Lemma matchLoop_frame (buy : bool) (canMatch : Qc -> Qc -> bool) (l : loc)
    (fuel : nat) (rem : Z) (trades : list Trade) e (rem' : Z) (trades' : list Trade) e' :
  Engine.matchLoop fuel (getBestOpposite buy) (deleteOpposite buy) canMatch
                   l rem trades e = Some (rem', trades', e') ->
  heapStable (Engine.heap e) (Engine.heap e') /\
  ownSide buy (Engine.orderBook e') = ownSide buy (Engine.orderBook e) /\
  shrinks (oppositeSide buy (Engine.orderBook e)) (oppositeSide buy (Engine.orderBook e')) /\
  Engine.tradeStore e' = Engine.tradeStore e /\
  Engine.nextOrderID e' = Engine.nextOrderID e /\
  exists new, trades' = trades ++ new /\
    Forall (fillsResting (Engine.heap e) (deref (Engine.heap e) l)
              (OrderBook.sideOrders (oppositeSide buy (Engine.orderBook e)))) new.
Proof.
  intros Hloop.
  pose (Inv := fun (_ : Z) (ts : list Trade) (e1 : Engine.t OS TS) =>
    heapStable (Engine.heap e) (Engine.heap e1) /\
    ownSide buy (Engine.orderBook e1) = ownSide buy (Engine.orderBook e) /\
    shrinks (oppositeSide buy (Engine.orderBook e)) (oppositeSide buy (Engine.orderBook e1)) /\
    Engine.tradeStore e1 = Engine.tradeStore e /\
    Engine.nextOrderID e1 = Engine.nextOrderID e /\
    exists new, ts = trades ++ new /\
      Forall (fillsResting (Engine.heap e) (deref (Engine.heap e) l)
                (OrderBook.sideOrders (oppositeSide buy (Engine.orderBook e)))) new).
  refine (proj1 (matchLoop_invariant buy canMatch l Inv _ fuel rem trades e rem' trades' e' _ Hloop)).
  - clear. intros rem1 ts e1 p o rest (Hh & Hown & Hopp & Hts & Hid & new & -> & Hnew) _ Hg _
      rem2 ts2 e2 Hs.
    pose proof (head_in_opposite _ _ _ _ _ Hg) as Ho.
    destruct (matchStep_spec buy l o rem1 (trades ++ new) e1 Ho)
      as (e2' & Hs' & Hheap & Hts' & Hid' & Hown' & Hcase).
    rewrite Hs in Hs'. injection Hs' as -> -> <-.
    assert (heapStable (Engine.heap e) (Engine.heap e2)) as Hh2.
    { rewrite Hheap. eapply heapStable_trans; [done|apply heapStable_storeSize]. }
    split; [done|]. split; [congruence|]. split; [|split; [congruence|split; [congruence|]]].
    + destruct Hcase as [(_ & -> & _)|(_ & Hdel & _)]; [done|].
      eapply shrinks_trans; [done|].
      pose proof (shrinks_deleteInSide (Engine.heap e2) (oppositeSide buy (Engine.orderBook e1))
                    (ID (deref (Engine.heap e1) o))) as Hsh.
      rewrite Hheap in Hsh at 1. by rewrite Hdel in Hsh.
    + eexists. split; [by rewrite <- app_assoc|].
      apply Forall_app. split; [done|]. apply Forall_singleton.
      exists o. split; [by eapply shrinks_elem|].
      unfold Engine.createTrade.
      rewrite !(heapStable_Side _ _ _ Hh), !(heapStable_ID _ _ _ Hh),
        !(heapStable_Price _ _ _ Hh).
      case_bool_decide; done.
  - unfold Inv. split; [apply heapStable_refl|]. split; [done|].
    split; [apply shrinks_refl|]. split; [done|]. split; [done|].
    exists []. split; [by rewrite app_nil_r|done].
Qed.

(** ** The engine: bookkeeping around the loop *)

Lemma loopBound_enough (buy : bool) e :
  (length (OrderBook.sideOrders (oppositeSide buy (Engine.orderBook e)))
   < Engine.loopBound e)%nat.
Proof.
  unfold Engine.loopBound, OrderBook.allOrders. rewrite length_app.
  destruct buy; simpl; lia.
Qed.

Lemma executeMarketOrder_spec (l : loc) e :
  let buy := isBuy (deref (Engine.heap e) l) in
  exists rem' trades' e',
    Engine.matchLoop (Engine.loopBound e) (getBestOpposite buy) (deleteOpposite buy)
      (fun _ _ => true) l (Size (deref (Engine.heap e) l)) [] e = Some (rem', trades', e') /\
    Engine.executeMarketOrder l e = Some (trades', e').
Proof.
  intros buy.
  destruct (matchLoop_terminates buy (fun _ _ => true) l (Engine.loopBound e)
              (Size (deref (Engine.heap e) l)) [] e (loopBound_enough buy e))
    as [[[rem' trades'] e'] Hloop].
  exists rem', trades', e'. split; [done|].
  unfold Engine.executeMarketOrder. subst buy. unfold isBuy in *.
  destruct (bool_decide _); simpl in *; by rewrite Hloop.
Qed.

Lemma executeLimitOrder_spec (l : loc) e :
  let buy := isBuy (deref (Engine.heap e) l) in
  exists rem' trades' e1,
    Engine.matchLoop (Engine.loopBound e) (getBestOpposite buy) (deleteOpposite buy)
      (limitCanMatch buy) l (Size (deref (Engine.heap e) l)) [] e = Some (rem', trades', e1) /\
    Engine.executeLimitOrder l e =
    Some (trades',
          if 0 <? rem' then
            let h := storeSize (Engine.heap e1) l rem' in
            Engine.setOrderBook (snd (addOwn buy h l (Engine.orderBook e1)))
                                (Engine.setHeap h e1)
          else Engine.UntrackOrder (ID (deref (Engine.heap e1) l)) e1).
Proof.
  intros buy.
  destruct (matchLoop_terminates buy (limitCanMatch buy) l (Engine.loopBound e)
              (Size (deref (Engine.heap e) l)) [] e (loopBound_enough buy e))
    as [[[rem' trades'] e'] Hloop].
  exists rem', trades', e'. split; [done|].
  unfold Engine.executeLimitOrder. subst buy. unfold isBuy in *.
  destruct (bool_decide _); simpl in *; rewrite Hloop; destruct (0 <? rem'); done.
Qed.

Lemma addTrades_frame (trades : list Trade) e :
  Engine.heap (Engine.addTrades trades e) = Engine.heap e /\
  Engine.orderBook (Engine.addTrades trades e) = Engine.orderBook e /\
  Engine.orderStore (Engine.addTrades trades e) = Engine.orderStore e /\
  Engine.nextOrderID (Engine.addTrades trades e) = Engine.nextOrderID e /\
  Engine.tradeStore (Engine.addTrades trades e) = saveAll trades (Engine.tradeStore e).
Proof.
  unfold Engine.addTrades, saveAll. revert e.
  induction trades as [|t trades IH]; intros e; simpl; [done|].
  destruct (IH (Engine.AddTradeToHistory t e)) as (-> & -> & -> & -> & ->). done.
Qed.


Lemma filledSize_app (a b : list Trade) :
  filledSize (a ++ b) = filledSize a + filledSize b.
Proof. induction a as [|t a IH]; simpl; [done|]. rewrite IH. lia. Qed.

Lemma TradeSize_createTrade (h : list Order) (l o : loc) (size : Z) :
  TradeSize (Engine.createTrade h l o size) = size.
Proof. unfold Engine.createTrade. by case_bool_decide. Qed.

(** The accounting of the loop when no subtraction overflows: what the
    incoming order has left plus what the trades executed is what it
    started with. *)
Lemma matchLoop_accounting (buy : bool) (canMatch : Qc -> Qc -> bool) (l : loc)
    (fuel : nat) (rem : Z) e (rem' : Z) (trades' : list Trade) e' :
  0 <= rem < 2 ^ 63 ->
  sizesOk (Engine.heap e) (oppositeSide buy (Engine.orderBook e)) ->
  Engine.matchLoop fuel (getBestOpposite buy) (deleteOpposite buy) canMatch
                   l rem [] e = Some (rem', trades', e') ->
  rem' + filledSize trades' = rem /\ 0 <= rem' /\
  sizesOk (Engine.heap e') (oppositeSide buy (Engine.orderBook e')) /\
  Forall (fun t => 0 <= TradeSize t) trades'.
Proof.
  intros Hrem Hsz Hloop.
  pose (Inv := fun (r : Z) (ts : list Trade) (e1 : Engine.t OS TS) =>
    r + filledSize ts = rem /\ 0 <= r < 2 ^ 63 /\
    sizesOk (Engine.heap e1) (oppositeSide buy (Engine.orderBook e1)) /\
    Forall (fun t => 0 <= TradeSize t) ts).
  cut (Inv rem' trades' e'); [unfold Inv; tauto|].
  refine (proj1 (matchLoop_invariant buy canMatch l Inv _ fuel rem [] e rem' trades' e' _ Hloop)).
  - clear. intros r ts e1 p o rest (Hsum & Hr & Hsz & Hpos) Hlt Hg _ r2 ts2 e2 Hs.
    pose proof (head_in_opposite _ _ _ _ _ Hg) as Ho.
    destruct (matchStep_spec buy l o r ts e1 Ho)
      as (e2' & Hs' & Hheap & _ & _ & _ & Hcase).
    rewrite Hs in Hs'. injection Hs' as -> -> <-.
    pose proof (Hsz o Ho) as Hosz.
    set (osz := Size (deref (Engine.heap e1) o)) in *.
    assert (0 <= fillSizeOf osz r <= r /\ fillSizeOf osz r <= osz) as Hfill.
    { unfold fillSizeOf. destruct (Z.ltb_spec osz r); lia. }
    assert (sub_int r (fillSizeOf osz r) = r - fillSizeOf osz r) as Hsub1
      by (apply wrap_int_id; lia).
    assert (sub_int osz (fillSizeOf osz r) = osz - fillSizeOf osz r) as Hsub2
      by (apply wrap_int_id; lia).
    split; [|split; [|split]].
    + rewrite filledSize_app. simpl. rewrite TradeSize_createTrade. lia.
    + lia.
    + intros x Hx. rewrite Hheap, deref_storeSize. case_decide as Hc.
      * simpl. lia.
      * apply Hsz. destruct Hcase as [(_ & Hbk & _)|(_ & Hdel & _)];
          [by rewrite Hbk in Hx|].
        eapply shrinks_elem; [|done].
        pose proof (shrinks_deleteInSide (Engine.heap e2)
                      (oppositeSide buy (Engine.orderBook e1))
                      (ID (deref (Engine.heap e1) o))) as Hsh.
        rewrite Hheap in Hsh at 1. by rewrite Hdel in Hsh.
    + apply Forall_app. split; [done|]. apply Forall_singleton.
      rewrite TradeSize_createTrade. lia.
  - unfold Inv. simpl. split; [lia|]. split; [lia|]. split; [done|constructor].
Qed.

(** Why the loop ended. *)
Lemma matchLoop_exit (buy : bool) (canMatch : Qc -> Qc -> bool) (l : loc)
    (fuel : nat) (rem : Z) (trades : list Trade) e (rem' : Z) (trades' : list Trade) e' :
  Engine.matchLoop fuel (getBestOpposite buy) (deleteOpposite buy) canMatch
                   l rem trades e = Some (rem', trades', e') ->
  rem' <= 0 \/
  snd (getBestOpposite buy (Engine.orderBook e')) = [] \/
  canMatch (Price (deref (Engine.heap e') l))
           (fst (getBestOpposite buy (Engine.orderBook e'))) = false.
Proof.
  intros Hloop.
  by apply (matchLoop_invariant buy canMatch l (fun _ _ _ => True)
              (fun _ _ _ _ _ _ _ _ _ _ _ _ _ _ => I) fuel rem trades e rem' trades' e' I).
Qed.

Lemma allOrders_sides (buy : bool) (ob : OrderBook.t) (x : loc) :
  x ∈ OrderBook.allOrders ob <->
  x ∈ OrderBook.sideOrders (ownSide buy ob) \/
  x ∈ OrderBook.sideOrders (oppositeSide buy ob).
Proof.
  unfold OrderBook.allOrders. rewrite elem_of_app. destruct buy; simpl; tauto.
Qed.

(** C4: a MARKET order is never inserted into the book.  [PlaceOrder]
    returns (no error), leaves the side of the order as it was, and only
    removes pointers from the opposite side, so no pointer enters the book;
    the trades returned are the ones saved to the trade store.  When no
    subtraction overflows, the trades never execute more than the order's
    size, and they execute less only if the loop ended on an opposite side
    without resting orders: the rest of the order is dropped.  Against an
    empty opposite side the call returns no trade and leaves book, heap and
    trade store unchanged. *)
Theorem market_order_never_rests (l : loc) e :
  Kind (deref (Engine.heap e) l) = MarketOrder ->
  let o := deref (Engine.heap e) l in
  let buy := isBuy o in
  exists trades e',
    Engine.PlaceOrder l e = Some (trades, e') /\
    ownSide buy (Engine.orderBook e') = ownSide buy (Engine.orderBook e) /\
    shrinks (oppositeSide buy (Engine.orderBook e))
            (oppositeSide buy (Engine.orderBook e')) /\
    (forall x, x ∈ OrderBook.allOrders (Engine.orderBook e') ->
               x ∈ OrderBook.allOrders (Engine.orderBook e)) /\
    Engine.tradeStore e' = saveAll trades (Engine.tradeStore e) /\
    (0 <= Size o < 2 ^ 63 ->
     sizesOk (Engine.heap e) (oppositeSide buy (Engine.orderBook e)) ->
     filledSize trades <= Size o /\
     (filledSize trades = Size o \/
      snd (getBestOpposite buy (Engine.orderBook e')) = [])) /\
    (oppositeSide buy (Engine.orderBook e) = ∅ ->
     trades = [] /\ Engine.orderBook e' = Engine.orderBook e /\
     Engine.heap e' = Engine.heap e /\ Engine.tradeStore e' = Engine.tradeStore e).
Proof.
  intros Hk o buy. unfold Engine.PlaceOrder.
  rewrite bool_decide_eq_true_2 by (rewrite Hk; done).
  set (e0 := Engine.TrackOrder l e).
  change (Engine.heap e0) with (Engine.heap e). rewrite Hk.
  destruct (executeMarketOrder_spec l e0) as (rem' & trades' & e1 & Hloop & ->).
  change (Engine.heap e0) with (Engine.heap e) in Hloop. fold o buy in Hloop.
  pose proof (matchLoop_frame _ _ _ _ _ _ _ _ _ _ Hloop)
    as (Hheap & Hown & Hopp & Hts & _ & new & Hnew & _).
  simpl in Hnew. subst new.
  change (Engine.orderBook e0) with (Engine.orderBook e) in *.
  change (Engine.tradeStore e0) with (Engine.tradeStore e) in *.
  destruct (addTrades_frame trades' e1) as (Hh2 & Hb2 & _ & _ & Ht2).
  eexists _, _. split; [done|].
  cbn [Engine.UntrackOrder Engine.setOrderStore Engine.orderBook Engine.heap Engine.tradeStore].
  rewrite Hb2, Ht2, Hts.
  split; [done|]. split; [done|]. split; [|split; [done|split]].
  - intros x [Hx|Hx]%(allOrders_sides buy); apply (allOrders_sides buy).
    + left. by rewrite <- Hown.
    + right. by eapply shrinks_elem.
  - intros Hsz Hok.
    destruct (matchLoop_accounting buy _ l _ _ e0 _ _ _ Hsz Hok Hloop)
      as (Hsum & Hpos & _ & _).
    split; [lia|].
    destruct (matchLoop_exit _ _ _ _ _ _ _ _ _ _ Hloop) as [Hle|[Hnil|?]]; [|by right|done].
    left. lia.
  - intros Hempty. rewrite Hh2.
    rewrite matchLoop_unfold in Hloop. unfold Engine.loopBound in Hloop.
    rewrite (getBestOpposite_empty buy (Engine.orderBook e0) Hempty) in Hloop.
    destruct (0 <? Size o); injection Hloop as <- <- <-; done.
Qed.

(** ** Cancellation *)

Lemma idsOf_Permutation (h : list Order) (a b : list loc) :
  a ≡ₚ b -> idsOf h a ≡ₚ idsOf h b.
Proof. intros Hp. unfold idsOf. by apply Permutation_map. Qed.

Lemma sideOrders_removeAt (side : gmap Qc (list loc)) (p : Qc) (blk : list loc)
    (i : nat) (l : loc) :
  side !! p = Some blk -> blk !! i = Some l ->
  OrderBook.sideOrders side ≡ₚ l :: OrderBook.sideOrders (removeAt side p i).
Proof.
  intros Hp Hi. unfold removeAt. rewrite Hp.
  rewrite (sideOrders_lookup side p blk Hp).
  rewrite (delete_Permutation blk i l Hi) at 1. simpl. f_equiv.
  case_decide as Hd.
  - by rewrite Hd.
  - by rewrite sideOrders_replace.
Qed.

Lemma deleteInSide_unique (h : list Order) (side : gmap Qc (list loc))
    (p : Qc) (blk : list loc) (i : nat) (l : loc) :
  NoDup (idsOf h (OrderBook.sideOrders side)) ->
  side !! p = Some blk -> blk !! i = Some l ->
  OrderBook.deleteInSide h side (ID (deref h l)) = (true, removeAt side p i).
Proof.
  intros Hnd Hp Hi. unfold removeAt. rewrite Hp.
  apply (deleteInSide_Some h side _ l p i blk); [|done].
  by apply (find_unique h side p blk).
Qed.

Lemma deleteInSide_absent (h : list Order) (side : gmap Qc (list loc)) (id : N) :
  id ∉ idsOf h (OrderBook.sideOrders side) ->
  OrderBook.deleteInSide h side id = (false, side).
Proof. intros Hid. by apply deleteInSide_None, find_None. Qed.

Lemma DeleteOrderById_absent (h : list Order) (id : N) (ob : OrderBook.t) :
  id ∉ idsOf h (OrderBook.allOrders ob) ->
  OrderBook.DeleteOrderById h id ob = (false, ob).
Proof.
  unfold OrderBook.allOrders. rewrite idsOf_app, not_elem_of_app. intros [Hb Ha].
  unfold OrderBook.DeleteOrderById, OrderBook.DeleteBidOrder, OrderBook.DeleteAskOrder.
  rewrite (deleteInSide_absent _ _ _ Hb). simpl.
  rewrite (deleteInSide_absent _ _ _ Ha). by destruct ob.
Qed.

(** With distinct ids, deleting by the id of the order at index [i] of level
    [p] removes that very pointer. *)
Lemma DeleteOrderById_resting (h : list Order) (ob : OrderBook.t) (bid : bool)
    (p : Qc) (blk : list loc) (i : nat) (l : loc) :
  NoDup (idsOf h (OrderBook.allOrders ob)) ->
  ownSide bid ob !! p = Some blk -> blk !! i = Some l ->
  exists ob',
    OrderBook.DeleteOrderById h (ID (deref h l)) ob = (true, ob') /\
    ownSide bid ob' = removeAt (ownSide bid ob) p i /\
    oppositeSide bid ob' = oppositeSide bid ob /\
    ID (deref h l) ∉ idsOf h (OrderBook.allOrders ob').
Proof.
  unfold OrderBook.allOrders. rewrite idsOf_app. intros Hnd Hp Hi.
  apply NoDup_app in Hnd as (Hb & Hdisj & Ha).
  assert (Hl : l ∈ OrderBook.sideOrders (ownSide bid ob)).
  { apply elem_of_sideOrders. exists p, blk. split; [done|]. by eapply list_elem_of_lookup_2. }
  unfold OrderBook.DeleteOrderById, OrderBook.DeleteBidOrder, OrderBook.DeleteAskOrder.
  destruct bid; simpl in *.
  - rewrite (deleteInSide_unique h _ p blk i l Hb Hp Hi). simpl.
    eexists. split; [done|]. simpl. split; [done|]. split; [done|].
    rewrite idsOf_app, not_elem_of_app. split.
    + pose proof (sideOrders_removeAt _ _ _ _ _ Hp Hi) as Hperm.
      apply (idsOf_Permutation h) in Hperm. rewrite Hperm in Hb. simpl in Hb.
      by apply NoDup_cons in Hb as [? _].
    + apply Hdisj. by apply elem_of_idsOf.
  - rewrite deleteInSide_absent; [simpl|].
    + rewrite (deleteInSide_unique h _ p blk i l Ha Hp Hi).
      eexists. split; [done|]. simpl. split; [done|]. split; [done|].
      rewrite idsOf_app, not_elem_of_app. split.
      * intros Hin. apply (Hdisj _ Hin). by apply elem_of_idsOf.
      * pose proof (sideOrders_removeAt _ _ _ _ _ Hp Hi) as Hperm.
        apply (idsOf_Permutation h) in Hperm. rewrite Hperm in Ha. simpl in Ha.
        by apply NoDup_cons in Ha as [? _].
    + intros Hin. apply (Hdisj _ Hin). by apply elem_of_idsOf.
Qed.

Lemma setOrderBook_id e : Engine.setOrderBook (Engine.orderBook e) e = e.
Proof. by destruct e. Qed.

Lemma CancelOrder_absent (id : N) e :
  id ∉ idsOf (Engine.heap e) (OrderBook.allOrders (Engine.orderBook e)) ->
  Engine.CancelOrder id e = (false, e).
Proof.
  intros Hid. unfold Engine.CancelOrder.
  rewrite (DeleteOrderById_absent _ _ _ Hid). by rewrite setOrderBook_id.
Qed.

Lemma CancelOrder_resting e (bid : bool) (p : Qc) (blk : list loc) (i : nat) (l : loc) :
  NoDup (idsOf (Engine.heap e) (OrderBook.allOrders (Engine.orderBook e))) ->
  ownSide bid (Engine.orderBook e) !! p = Some blk -> blk !! i = Some l ->
  let id := ID (deref (Engine.heap e) l) in
  exists e',
    Engine.CancelOrder id e = (true, e') /\
    ownSide bid (Engine.orderBook e') = removeAt (ownSide bid (Engine.orderBook e)) p i /\
    oppositeSide bid (Engine.orderBook e') = oppositeSide bid (Engine.orderBook e) /\
    Engine.heap e' = Engine.heap e /\
    Engine.tradeStore e' = Engine.tradeStore e /\
    Engine.nextOrderID e' = Engine.nextOrderID e /\
    Engine.orderStore e' = snd (OrderStore.Remove id (Engine.orderStore e)) /\
    Engine.CancelOrder id e' = (false, e').
Proof.
  intros Hnd Hp Hi id.
  destruct (DeleteOrderById_resting _ _ bid p blk i l Hnd Hp Hi)
    as (ob' & Hdel & Hown & Hopp & Hgone).
  unfold Engine.CancelOrder at 1. fold id in Hdel. rewrite Hdel.
  eexists. split; [done|]. cbn. repeat (split; [done|]).
  apply CancelOrder_absent. done.
Qed.

(** ** The book is never left crossed *)

Lemma ownSide_opposite (buy : bool) (ob : OrderBook.t) :
  ownSide buy ob = oppositeSide (negb buy) ob.
Proof. by destruct buy. Qed.

Lemma bookInv_shrinks (ob ob' : OrderBook.t) :
  bookInv ob ->
  (forall buy, shrinks (oppositeSide buy ob) (oppositeSide buy ob')) ->
  bookInv ob'.
Proof.
  intros [Hlv Hx] Hsh. split.
  - intros buy q blk' Hq. destruct (Hsh buy q blk' Hq) as (blk & Hb & _ & Hne).
    destruct (Hlv buy q blk Hb) as [Hr Hnil]. auto.
  - intros b a [xb Hb] [xa Ha].
    destruct (Hsh false b xb Hb) as (? & ? & _).
    destruct (Hsh true a xa Ha) as (? & ? & _).
    apply Hx; by eexists.
Qed.

Lemma bookInv_empty : bookInv OrderBook.NewOrderBook.
Proof.
  split.
  - intros [] q blk Hq; simpl in Hq; by rewrite lookup_empty in Hq.
  - intros b a [x Hx]. simpl in Hx. by rewrite lookup_empty in Hx.
Qed.

Lemma addOwn_spec (buy : bool) (h : list Order) (l : loc) (ob : OrderBook.t) :
  let P := Price (deref h l) in
  ownSide buy (snd (addOwn buy h l ob)) =
    <[P := default [] (ownSide buy ob !! P) ++ [l]]> (ownSide buy ob) /\
  oppositeSide buy (snd (addOwn buy h l ob)) = oppositeSide buy ob.
Proof. destruct buy; done. Qed.

(** When the limit loop ends with a residual, the limit price is strictly
    on its own side of every opposite price level. *)
Lemma exit_not_crossing (buy : bool) (ob : OrderBook.t) (P : Qc) :
  (forall q blk, oppositeSide buy ob !! q = Some blk -> inRange buy q /\ blk <> []) ->
  snd (getBestOpposite buy ob) = [] \/
  limitCanMatch buy P (fst (getBestOpposite buy ob)) = false ->
  forall y, is_Some (oppositeSide buy ob !! y) ->
            if buy then (P < y)%Qc else (y < P)%Qc.
Proof.
  intros Hlv Hexit y Hy.
  assert (oppositeSide buy ob <> ∅) as Hne.
  { intros He. rewrite He, lookup_empty in Hy. by destruct Hy. }
  destruct (getBestOpposite_nonempty buy ob Hne Hlv) as (p & o & rest & Hg).
  rewrite Hg in Hexit. simpl in Hexit. destruct Hexit as [?|Hcm]; [done|].
  pose proof (getBestOpposite_extremal buy ob y Hy) as Hext. rewrite Hg in Hext.
  destruct buy; simpl in *; qc_order.
Qed.

Lemma bookInv_add (buy : bool) (h : list Order) (l : loc) (ob : OrderBook.t) :
  bookInv ob ->
  inRange (negb buy) (Price (deref h l)) ->
  (forall y, is_Some (oppositeSide buy ob !! y) ->
             if buy then (Price (deref h l) < y)%Qc else (y < Price (deref h l))%Qc) ->
  bookInv (snd (addOwn buy h l ob)).
Proof.
  intros [Hlv Hx] Hr Hnc.
  destruct (addOwn_spec buy h l ob) as [Hown Hopp].
  set (ob' := snd (addOwn buy h l ob)) in *. set (P := Price (deref h l)) in *.
  assert (forall q blk, ownSide buy ob' !! q = Some blk ->
            (q = P /\ blk <> []) \/ ownSide buy ob !! q = Some blk) as Hcase.
  { intros q blk. rewrite Hown. intros [[<- <-]|[_ ?]]%lookup_insert_Some; [left|by right].
    split; [done|]. by destruct (default [] _). }
  split.
  - intros b q blk Hq. destruct (decide (b = buy)) as [->|Hne].
    + rewrite Hopp in Hq. by apply Hlv.
    + assert (b = negb buy) as -> by (by destruct b, buy).
      rewrite <- ownSide_opposite in Hq.
      destruct (Hcase q blk Hq) as [[-> ?]|Hold]; [done|].
      apply Hlv. by rewrite <- ownSide_opposite.
  - intros b a Hb Ha. destruct buy; simpl in *.
    + destruct Hb as [blk Hb].
      destruct (Hcase b blk Hb) as [[-> _]|Hold]; [by apply Hnc|].
      apply Hx; [by eexists|done].
    + destruct Ha as [blk Ha].
      destruct (Hcase a blk Ha) as [[-> _]|Hold]; [by apply Hnc|].
      apply Hx; [done|by eexists].
Qed.

Lemma bookInv_loop (buy : bool) (ob ob' : OrderBook.t) :
  bookInv ob ->
  ownSide buy ob' = ownSide buy ob ->
  shrinks (oppositeSide buy ob) (oppositeSide buy ob') ->
  bookInv ob'.
Proof.
  intros Hinv Hown Hopp. apply (bookInv_shrinks ob ob' Hinv). intros b.
  destruct (decide (b = buy)) as [->|Hne]; [done|].
  assert (b = negb buy) as -> by (by destruct b, buy).
  rewrite <- !ownSide_opposite, Hown. apply shrinks_refl.
Qed.

Lemma DeleteOrderById_shrinks (h : list Order) (id : N) (ob : OrderBook.t) (buy : bool) :
  shrinks (oppositeSide buy ob)
          (oppositeSide buy (snd (OrderBook.DeleteOrderById h id ob))).
Proof.
  unfold OrderBook.DeleteOrderById, OrderBook.DeleteBidOrder, OrderBook.DeleteAskOrder.
  pose proof (shrinks_deleteInSide h (OrderBook.bids ob) id) as Hs1.
  destruct (OrderBook.deleteInSide h (OrderBook.bids ob) id) as [ok bids'].
  destruct ok; simpl in *.
  - destruct buy; simpl; [apply shrinks_refl|done].
  - pose proof (shrinks_deleteInSide h (OrderBook.asks ob) id) as Hs2.
    destruct (OrderBook.deleteInSide h (OrderBook.asks ob) id) as [ok2 asks'].
    destruct buy; simpl; done.
Qed.

Lemma PlaceOrder_bookInv (l : loc) e :
  let o := deref (Engine.heap e) l in
  bookInv (Engine.orderBook e) ->
  (Kind o = LimitOrder -> inRange (negb (isBuy o)) (Price o)) ->
  exists trades e',
    Engine.PlaceOrder l e = Some (trades, e') /\ bookInv (Engine.orderBook e').
Proof.
  intros o Hinv Hlim. unfold Engine.PlaceOrder.
  set (e0 := if bool_decide _ then Engine.TrackOrder l e else e).
  assert (Engine.heap e0 = Engine.heap e /\ Engine.orderBook e0 = Engine.orderBook e)
    as [Hh Hb] by (subst e0; by destruct (bool_decide _)).
  rewrite Hh. fold o. destruct (Kind o) eqn:Hk;
    try by (eexists _, _; split; [done|]; rewrite ?Hb).
  - destruct (executeMarketOrder_spec l e0) as (rem' & trades' & e1 & Hloop & ->).
    apply matchLoop_frame in Hloop as (_ & Hown & Hopp & _).
    eexists _, _. split; [done|]. cbn.
    destruct (addTrades_frame trades' e1) as (_ & -> & _).
    rewrite Hb in *. by eapply bookInv_loop.
  - destruct (executeLimitOrder_spec l e0) as (rem' & trades' & e1 & Hloop & ->).
    pose proof (matchLoop_exit _ _ _ _ _ _ _ _ _ _ Hloop) as Hexit.
    apply matchLoop_frame in Hloop as (Hst & Hown & Hopp & _).
    rewrite Hh, Hb in *. fold o in Hexit, Hown, Hopp |- *.
    assert (bookInv (Engine.orderBook e1)) as Hinv1 by (by eapply bookInv_loop).
    eexists _, _. split; [done|].
    cbv zeta.
    match goal with
    | |- context [Engine.addTrades ?ts ?x] =>
        destruct (addTrades_frame ts x) as (_ & -> & _)
    end.
    destruct (Z.ltb_spec 0 rem') as [Hpos|Hle]; [|done]. cbn.
    assert (Price (deref (storeSize (Engine.heap e1) l rem') l) = Price o) as HP.
    { rewrite Price_storeSize. by apply heapStable_Price. }
    apply bookInv_add; [done|rewrite HP; auto|rewrite HP].
    apply exit_not_crossing; [apply Hinv1|].
    destruct Hexit as [?|[?|Hcm]]; [lia|by left|right].
    by rewrite (heapStable_Price _ _ _ Hst) in Hcm.
  - unfold Engine.CancelOrder.
    destruct (OrderBook.DeleteOrderById _ _ _) as [deleted ob] eqn:Hdel.
    eexists _, _. split; [done|].
    assert (bookInv ob) as Hinv'; [|by destruct deleted].
    apply (bookInv_shrinks _ _ Hinv). intros b.
    match type of Hdel with
    | OrderBook.DeleteOrderById ?h ?id ?ob0 = _ =>
        pose proof (DeleteOrderById_shrinks h id ob0 b) as Hsh
    end.
    rewrite Hdel, Hb in Hsh. done.
Qed.

Lemma deref_alloc (h : list Order) (o : Order) : deref (h ++ [o]) (length h) = o.
Proof. unfold deref. by rewrite list_lookup_middle. Qed.

Lemma deref_alloc_old (h : list Order) (o : Order) (l : loc) :
  (l < length h)%nat -> deref (h ++ [o]) l = deref h l.
Proof. intros Hl. unfold deref. by rewrite lookup_app_l. Qed.

Lemma IsValid_limit_price (o : Order) :
  IsValid o = true -> Kind o = LimitOrder -> (0 < Price o)%Qc.
Proof.
  unfold IsValid. intros Hv Hk.
  destruct (_ || _); [done|]. destruct (Size o <=? 0); [done|].
  rewrite (bool_decide_eq_true_2 _ Hk) in Hv. simpl in Hv.
  destruct (Qc_leb (Price o) 0) eqn:Hle; [done|]. qc_order.
Qed.

Lemma IsValid_size (o : Order) : IsValid o = true -> 0 < Size o.
Proof.
  unfold IsValid. destruct (_ || _); [done|].
  destruct (Z.leb_spec (Size o) 0); [done|lia].
Qed.

Lemma Submit_bookInv (o : Order) e :
  bookInv (Engine.orderBook e) -> validOp (OpPlace o) ->
  exists trades e',
    Engine.Submit o e = Some (trades, e') /\ bookInv (Engine.orderBook e').
Proof.
  intros Hinv [Hv Hfin]. unfold Engine.Submit, alloc.
  apply PlaceOrder_bookInv; [done|].
  cbn [Engine.heap Engine.setHeap]. rewrite deref_alloc. intros Hk.
  unfold isBuy. destruct (bool_decide (Side o = Buy)); simpl; [|done].
  by apply IsValid_limit_price.
Qed.

Lemma CancelOrder_bookInv (id : N) e :
  bookInv (Engine.orderBook e) ->
  bookInv (Engine.orderBook (snd (Engine.CancelOrder id e))).
Proof.
  intros Hinv. unfold Engine.CancelOrder.
  pose proof (DeleteOrderById_shrinks (Engine.heap e) id (Engine.orderBook e)) as Hsh.
  destruct (OrderBook.DeleteOrderById _ _ _) as [deleted ob].
  assert (bookInv ob) by (by apply (bookInv_shrinks _ _ Hinv)).
  by destruct deleted.
Qed.

Lemma runOps_bookInv (ops : list Op) e :
  bookInv (Engine.orderBook e) -> Forall validOp ops ->
  exists e', runOps ops e = Some e' /\ bookInv (Engine.orderBook e').
Proof.
  revert e. induction ops as [|op ops IH]; intros e Hinv Hops; simpl.
  - by exists e.
  - apply Forall_cons in Hops as [Hop Hops]. destruct op as [o|id].
    + destruct (Submit_bookInv o e Hinv Hop) as (trades & e1 & -> & Hinv1). by apply IH.
    + apply IH; [|done]. by apply CancelOrder_bookInv.
Qed.

Lemma bookInv_best (ob : OrderBook.t) :
  bookInv ob -> OrderBook.bids ob <> ∅ -> OrderBook.asks ob <> ∅ ->
  (fst (OrderBook.GetBestBid ob) < fst (OrderBook.GetBestAsk ob))%Qc.
Proof.
  intros [Hlv Hx] Hb Ha.
  destruct (getBestOpposite_nonempty false ob Hb (Hlv false)) as (b & ob1 & rb & Hgb).
  destruct (getBestOpposite_nonempty true ob Ha (Hlv true)) as (a & oa1 & ra & Hga).
  pose proof (getBestOpposite_block _ _ _ _ _ Hgb) as Hbl.
  pose proof (getBestOpposite_block _ _ _ _ _ Hga) as Hal.
  simpl in *. rewrite Hgb, Hga. simpl. apply Hx; by eexists.
Qed.


(** ** Resting, then cancelling *)

Lemma storeSize_same (h : list Order) (l : loc) :
  storeSize h l (Size (deref h l)) = h.
Proof.
  unfold storeSize. destruct (h !! l) as [o|] eqn:Hl.
  - apply list_insert_id. unfold deref. rewrite Hl. simpl. by destruct o.
  - apply list_insert_ge. by apply lookup_ge_None.
Qed.

Lemma removeAt_insert_snoc (side : gmap Qc (list loc)) (p : Qc) (l : loc) :
  (forall blk, side !! p = Some blk -> blk <> []) ->
  let old := default [] (side !! p) in
  removeAt (<[p := old ++ [l]]> side) p (length old) = side.
Proof.
  intros Hne old. unfold removeAt. rewrite lookup_insert_eq.
  replace (delete (length old) (old ++ [l])) with old
    by (by rewrite delete_middle, app_nil_r).
  subst old. destruct (side !! p) as [blk|] eqn:Hp; cbn [default].
  - rewrite decide_False by (by apply Hne).
    rewrite insert_insert_eq. by apply insert_id.
  - rewrite decide_True by done. by apply delete_insert_id.
Qed.

Lemma sideOrders_add (side : gmap Qc (list loc)) (p : Qc) (l : loc) :
  OrderBook.sideOrders (<[p := default [] (side !! p) ++ [l]]> side)
  ≡ₚ l :: OrderBook.sideOrders side.
Proof.
  rewrite sideOrders_replace. destruct (side !! p) as [blk|] eqn:Hp; simpl.
  - rewrite (sideOrders_lookup side p blk Hp).
    rewrite <- app_assoc. simpl. symmetry. apply Permutation_middle.
  - by rewrite delete_id.
Qed.

Lemma allOrders_Permutation (buy : bool) (ob : OrderBook.t) :
  OrderBook.allOrders ob ≡ₚ
  OrderBook.sideOrders (ownSide buy ob) ++ OrderBook.sideOrders (oppositeSide buy ob).
Proof.
  unfold OrderBook.allOrders. destruct buy; simpl; [done|apply Permutation_app_comm].
Qed.

Lemma book_eq_sides (buy : bool) (ob ob' : OrderBook.t) :
  ownSide buy ob' = ownSide buy ob -> oppositeSide buy ob' = oppositeSide buy ob ->
  ob' = ob.
Proof. destruct ob, ob', buy; simpl; congruence. Qed.

Lemma idsOf_alloc_old (h : list Order) (o : Order) (ls : list loc) :
  (forall l, l ∈ ls -> (l < length h)%nat) ->
  idsOf (h ++ [o]) ls = idsOf h ls.
Proof.
  intros Hv. unfold idsOf. apply map_ext_in. intros l Hl%list_elem_of_In.
  by rewrite deref_alloc_old by auto.
Qed.

Lemma bookValue_alloc (h : list Order) (o : Order) (ob : OrderBook.t) :
  (forall l, l ∈ OrderBook.allOrders ob -> (l < length h)%nat) ->
  bookValue (h ++ [o]) ob = bookValue h ob.
Proof.
  intros Hv. unfold bookValue.
  assert (forall buy, map (deref (h ++ [o])) <$> oppositeSide buy ob
                      = map (deref h) <$> oppositeSide buy ob) as Hside.
  { intros buy. apply map_fmap_ext. intros q blk Hq.
    apply map_ext_in. intros l Hl%list_elem_of_In. apply deref_alloc_old, Hv.
    apply (allOrders_sides (negb buy)). rewrite ownSide_opposite, negb_involutive.
    left. apply elem_of_sideOrders. by exists q, blk. }
  pose proof (Hside true) as Ha. pose proof (Hside false) as Hb.
  simpl in Ha, Hb. by rewrite Ha, Hb.
Qed.

(** A LIMIT order with a positive size that does not cross produces no
    trade and rests at the tail of its price level. *)
Lemma Submit_rests (o : Order) e :
  Kind o = LimitOrder -> 0 < Size o -> ~ crosses o (Engine.orderBook e) ->
  let l := length (Engine.heap e) in
  let P := Price o in
  let own := ownSide (isBuy o) (Engine.orderBook e) in
  exists e1,
    Engine.Submit o e = Some ([], e1) /\
    Engine.heap e1 = Engine.heap e ++ [o] /\
    ownSide (isBuy o) (Engine.orderBook e1) = <[P := default [] (own !! P) ++ [l]]> own /\
    oppositeSide (isBuy o) (Engine.orderBook e1) = oppositeSide (isBuy o) (Engine.orderBook e) /\
    Engine.tradeStore e1 = Engine.tradeStore e /\
    Engine.nextOrderID e1 = Engine.nextOrderID e /\
    Engine.orderStore e1 =
      snd (OrderStore.Save (Engine.heap e ++ [o]) l (Engine.orderStore e)).
Proof.
  intros Hk Hsz Hnc l P own. subst l P own.
  unfold Engine.Submit, alloc, Engine.PlaceOrder.
  cbn [Engine.heap Engine.setHeap]. rewrite !deref_alloc.
  rewrite bool_decide_eq_true_2 by (by rewrite Hk).
  set (e0 := Engine.TrackOrder (length (Engine.heap e)) _).
  change (Engine.heap e0) with (Engine.heap e ++ [o]). rewrite deref_alloc, Hk.
  destruct (executeLimitOrder_spec (length (Engine.heap e)) e0)
    as (rem' & trades' & e1 & Hloop & ->).
  change (Engine.heap e0) with (Engine.heap e ++ [o]) in Hloop.
  rewrite deref_alloc in Hloop.
  rewrite matchLoop_unfold in Hloop. unfold Engine.loopBound in Hloop.
  rewrite (proj2 (Z.ltb_lt 0 (Size o)) Hsz) in Hloop.
  change (Engine.orderBook e0) with (Engine.orderBook e) in Hloop.
  change (Engine.heap e0) with (Engine.heap e ++ [o]) in Hloop.
  rewrite deref_alloc in Hloop.
  assert (Some (Size o, @nil Trade, e0) = Some (rem', trades', e1)) as [= <- <- <-].
  { unfold crosses in Hnc.
    destruct (getBestOpposite (isBuy o) (Engine.orderBook e)) as [best [|x rest]]; [done|].
    simpl in Hnc. destruct (limitCanMatch (isBuy o) (Price o) best); [|done].
    destruct Hnc. done. }
  rewrite (proj2 (Z.ltb_lt 0 (Size o)) Hsz). cbv zeta.
  change (Engine.heap e0) with (Engine.heap e ++ [o]). rewrite !deref_alloc.
  assert (storeSize (Engine.heap e ++ [o]) (length (Engine.heap e)) (Size o)
          = Engine.heap e ++ [o]) as ->.
  { pose proof (storeSize_same (Engine.heap e ++ [o]) (length (Engine.heap e))) as Hs.
    by rewrite deref_alloc in Hs. }
  eexists. split; [done|]. cbn.
  destruct (addOwn_spec (isBuy o) (Engine.heap e ++ [o]) (length (Engine.heap e))
              (Engine.orderBook e)) as [Ho Hp].
  rewrite deref_alloc in Ho. done.
Qed.


(** ** Time priority within a level *)

Lemma fold_min_ext {V : Type} (m m' : gmap Qc V) (z : Qc) :
  (forall q, is_Some (m !! q) <-> is_Some (m' !! q)) ->
  map_fold (fun p (_ : V) acc => if Qc_ltb p acc then p else acc) z m =
  map_fold (fun p (_ : V) acc => if Qc_ltb p acc then p else acc) z m'.
Proof.
  intros Hdom.
  destruct (fold_min_spec m z) as (H1 & H2 & H3).
  destruct (fold_min_spec m' z) as (H1' & H2' & H3').
  apply Qc_le_antisym.
  - destruct H3' as [->|Hk]; [done|]. by apply H2, Hdom.
  - destruct H3 as [->|Hk]; [done|]. by apply H2', Hdom.
Qed.

Lemma fold_max_ext {V : Type} (m m' : gmap Qc V) (z : Qc) :
  (forall q, is_Some (m !! q) <-> is_Some (m' !! q)) ->
  map_fold (fun p (_ : V) acc => if Qc_ltb acc p then p else acc) z m =
  map_fold (fun p (_ : V) acc => if Qc_ltb acc p then p else acc) z m'.
Proof.
  intros Hdom.
  destruct (fold_max_spec m z) as (H1 & H2 & H3).
  destruct (fold_max_spec m' z) as (H1' & H2' & H3').
  apply Qc_le_antisym.
  - destruct H3 as [->|Hk]; [done|]. by apply H2', Hdom.
  - destruct H3' as [->|Hk]; [done|]. by apply H2, Hdom.
Qed.

(** After the head of the best level is removed and the level is not
    exhausted, the best level is the rest of that level. *)
Lemma getBestOpposite_after_pop (buy : bool) (ob ob' : OrderBook.t) (p : Qc)
    (a : loc) (rest : list loc) :
  getBestOpposite buy ob = (p, a :: rest) ->
  oppositeSide buy ob' = <[p := rest]> (oppositeSide buy ob) ->
  getBestOpposite buy ob' = (p, rest).
Proof.
  intros Hg Hside. pose proof (getBestOpposite_block _ _ _ _ _ Hg) as Hp.
  assert (forall q, is_Some (oppositeSide buy ob !! q) <-> is_Some (oppositeSide buy ob' !! q))
    as Hdom.
  { intros q. rewrite Hside. destruct (decide (q = p)) as [->|Hne].
    - rewrite lookup_insert_eq, Hp. split; by eexists.
    - by rewrite lookup_insert_ne. }
  assert (size (oppositeSide buy ob') <> 0%nat) as Hsz'.
  { apply map_size_non_empty_iff. intros He. rewrite He in Hside.
    apply (f_equal (fun m => m !! p)) in Hside.
    by rewrite lookup_empty, lookup_insert_eq in Hside. }
  destruct buy; simpl in *; unfold OrderBook.GetBestAsk, OrderBook.GetBestBid in *;
    rewrite (bool_decide_eq_false_2 _ Hsz'); case_bool_decide; try done;
    injection Hg as Hfold Hblk.
  - rewrite <- (fold_min_ext _ _ _ Hdom), Hfold, Hside, lookup_insert_eq. done.
  - rewrite <- (fold_max_ext _ _ _ Hdom), Hfold, Hside, lookup_insert_eq. done.
Qed.

Lemma restingID_createTrade (h : list Order) (l a : loc) (size : Z) :
  restingID (deref h l) (Engine.createTrade h l a size) = ID (deref h a).
Proof. unfold restingID, Engine.createTrade. by case_bool_decide. Qed.

Lemma restingID_storeSize (h : list Order) (x : loc) (v : Z) (l : loc) (t : Trade) :
  restingID (deref (storeSize h x v) l) t = restingID (deref h l) t.
Proof. unfold restingID. by rewrite Side_storeSize. Qed.

(** With distinct ids on the opposite side, the i-th trade of the loop is a
    fill against the i-th order of the level that was best when the loop
    started, for as many orders as that level holds. *)
Lemma matchLoop_fifo (buy : bool) (canMatch : Qc -> Qc -> bool) (l : loc)
    (fuel : nat) (rem : Z) (trades : list Trade) e (rem' : Z) (trades' : list Trade) e' :
  NoDup (idsOf (Engine.heap e)
           (OrderBook.sideOrders (oppositeSide buy (Engine.orderBook e)))) ->
  Engine.matchLoop fuel (getBestOpposite buy) (deleteOpposite buy) canMatch
                   l rem trades e = Some (rem', trades', e') ->
  exists new, trades' = trades ++ new /\
    forall i t a,
      new !! i = Some t ->
      snd (getBestOpposite buy (Engine.orderBook e)) !! i = Some a ->
      restingID (deref (Engine.heap e) l) t = ID (deref (Engine.heap e) a).
Proof.
  revert rem trades e. induction fuel as [|fuel IH]; intros rem trades e Hnd;
    rewrite matchLoop_unfold; destruct (0 <? rem);
    try (intros [= <- <- <-]; exists []; split; [by rewrite app_nil_r|done]); [done|].
  destruct (getBestOpposite buy (Engine.orderBook e)) as [p [|a0 rest0]] eqn:Hg;
    [intros [= <- <- <-]; exists []; split; [by rewrite app_nil_r|done]|].
  destruct (negb _);
    [intros [= <- <- <-]; exists []; split; [by rewrite app_nil_r|done]|].
  pose proof (head_in_opposite _ _ _ _ _ Hg) as Ho.
  pose proof (getBestOpposite_block _ _ _ _ _ Hg) as Hp.
  destruct (matchStep_spec buy l a0 rem trades e Ho)
    as (e1 & -> & Hheap & _ & _ & _ & Hcase).
  set (t0 := Engine.createTrade (Engine.heap e) l a0 _) in *.
  destruct Hcase as [(Hrem & Hbk & _)|(_ & Hdel & _)].
  - rewrite Hrem, matchLoop_unfold. simpl. intros [= <- <- <-].
    exists [t0]. split; [done|]. intros [|i] t a; simpl; [|done].
    intros [= <-] [= <-]. apply restingID_createTrade.
  - set (h' := storeSize (Engine.heap e) a0 _) in *.
    assert (NoDup (idsOf h' (OrderBook.sideOrders (oppositeSide buy (Engine.orderBook e)))))
      as Hnd' by (subst h'; by rewrite idsOf_storeSize).
    assert (ID (deref (Engine.heap e) a0) = ID (deref h' a0)) as Hid
      by (subst h'; by rewrite ID_storeSize).
    rewrite Hid in Hdel.
    rewrite (deleteInSide_unique h' _ p (a0 :: rest0) 0 a0 Hnd' Hp eq_refl) in Hdel.
    injection Hdel as Hopp1.
    pose proof (sideOrders_removeAt _ p (a0 :: rest0) 0 a0 Hp eq_refl) as Hperm.
    rewrite Hopp1 in Hperm.
    rewrite (idsOf_Permutation _ _ _ Hperm) in Hnd'. simpl in Hnd'.
    apply NoDup_cons in Hnd' as [_ Hnd1]. rewrite <- Hheap in Hnd1.
    intros Hloop. destruct (IH _ _ _ Hnd1 Hloop) as (new1 & -> & Hprop).
    exists (t0 :: new1). split; [by rewrite <- app_assoc|].
    intros [|i] t a; simpl.
    + intros [= <-] [= <-]. apply restingID_createTrade.
    + intros Ht Ha.
      assert (getBestOpposite buy (Engine.orderBook e1) = (p, rest0)) as Hg1.
      { apply (getBestOpposite_after_pop buy (Engine.orderBook e) _ p a0 rest0 Hg).
        rewrite <- Hopp1. unfold removeAt. rewrite Hp. simpl.
        destruct rest0; [done|]. by rewrite decide_False. }
      rewrite Hg1 in Hprop. specialize (Hprop i t a Ht Ha).
      rewrite Hheap in Hprop. subst h'.
      by rewrite restingID_storeSize, ID_storeSize in Hprop.
Qed.


End Loop.

(** ** The engine over the in-memory order store *)

Section InMemoryIndex.
Context {TS : Type} `{!TradeStore.t TS}.
Implicit Types e : Engine.t InMemoryOrderStore.t TS.

Lemma Save_then_Get (h : list Order) (l : loc) (s : InMemoryOrderStore.t) :
  InMemoryOrderStore.Get (ID (deref h l)) (snd (InMemoryOrderStore.Save h l s))
  = (Some l, None).
Proof.
  unfold InMemoryOrderStore.Get, InMemoryOrderStore.Save. cbn [snd InMemoryOrderStore.orders].
  by rewrite lookup_insert_eq.
Qed.

Lemma Remove_then_Get (id : N) (s : InMemoryOrderStore.t) :
  InMemoryOrderStore.Get id (snd (InMemoryOrderStore.Remove id s))
  = (None, Some (ErrOrderNotFound id)).
Proof.
  unfold InMemoryOrderStore.Get, InMemoryOrderStore.Remove. cbn [snd InMemoryOrderStore.orders].
  by rewrite lookup_delete_eq.
Qed.


(** C10: for a STOP-MARKET, STOP-LIMIT or NO-OP order, [PlaceOrder] returns
    no trade and leaves book, heap and trade store as they were; the only
    effect of the call is the [Save] of the order into the order store, so
    [GetOrder] on its id returns the order afterwards. *)
Theorem inert_order_is_tracked_not_rested (l : loc) e :
  let o := deref (Engine.heap e) l in
  Kind o = StopMarketOrder \/ Kind o = StopLimitOrder \/ Kind o = NoActionOrder ->
  exists e',
    Engine.PlaceOrder l e = Some ([], e') /\
    Engine.orderBook e' = Engine.orderBook e /\
    Engine.heap e' = Engine.heap e /\
    Engine.tradeStore e' = Engine.tradeStore e /\
    Engine.orderStore e' = snd (InMemoryOrderStore.Save (Engine.heap e) l (Engine.orderStore e)) /\
    Engine.GetOrder (ID o) e' = Some l /\
    deref (Engine.heap e') l = o.
Proof.
  intros o Hk. unfold Engine.PlaceOrder. fold o.
  rewrite bool_decide_eq_true_2 by (destruct Hk as [-> |[-> | ->]]; done).
  change (Engine.heap (Engine.TrackOrder l e)) with (Engine.heap e). fold o.
  exists (Engine.TrackOrder l e). split; [by destruct Hk as [-> |[-> | ->]]|].
  repeat (split; [done|]). split; [|done].
  unfold Engine.GetOrder, Engine.TrackOrder. cbn [Engine.orderStore Engine.setOrderStore].
  change (OrderStore.Get ?x ?s) with (InMemoryOrderStore.Get x s).
  change (OrderStore.Save ?h ?x ?s) with (InMemoryOrderStore.Save h x s).
  unfold o. by rewrite Save_then_Get.
Qed.

End InMemoryIndex.

(** ** Well-formed states are what sessions with fresh ids reach *)

Lemma submseteq_NoDup {A : Type} (l k : list A) : l ⊆+ k -> NoDup k -> NoDup l.
Proof.
  intros (k' & Hk)%submseteq_Permutation Hnd. rewrite Hk in Hnd.
  by apply NoDup_app in Hnd as (? & _ & _).
Qed.

Lemma shrinks_submseteq (side side' : gmap Qc (list loc)) :
  shrinks side side' -> OrderBook.sideOrders side' ⊆+ OrderBook.sideOrders side.
Proof.
  revert side. induction side' as [|q b' m Hq IH] using map_ind; intros side Hs.
  - rewrite sideOrders_empty. apply submseteq_nil_l.
  - destruct (Hs q b') as (b & Hb & Hsub & _); [by rewrite lookup_insert_eq|].
    rewrite (sideOrders_insert m q b' Hq), (sideOrders_lookup side q b Hb).
    apply submseteq_app; [by apply sublist_submseteq|]. apply IH.
    intros q' b'' Hq'. assert (q' <> q) as Hne by congruence.
    destruct (Hs q' b'') as (b0 & Hb0 & ?); [by rewrite lookup_insert_ne|].
    exists b0. by rewrite lookup_delete_ne.
Qed.

Lemma wfBook_shrinks (h h' : list Order) (ob ob' : OrderBook.t) :
  wfBook h ob -> heapStable h h' ->
  (forall buy, shrinks (oppositeSide buy ob) (oppositeSide buy ob')) ->
  wfBook h' ob' /\
  (forall id, id ∈ idsOf h' (OrderBook.allOrders ob') -> id ∈ idsOf h (OrderBook.allOrders ob)).
Proof.
  intros (Hnd & Hval & Hne) Hst Hsh.
  assert (OrderBook.allOrders ob' ⊆+ OrderBook.allOrders ob) as Hsub.
  { unfold OrderBook.allOrders.
    apply submseteq_app; [apply (shrinks_submseteq _ _ (Hsh false))
                         |apply (shrinks_submseteq _ _ (Hsh true))]. }
  assert (idsOf h' (OrderBook.allOrders ob') ⊆+ idsOf h (OrderBook.allOrders ob)) as Hids.
  { rewrite (heapStable_idsOf _ _ _ Hst). unfold idsOf. by apply fmap_submseteq. }
  split; [split; [|split]|].
  - by eapply submseteq_NoDup.
  - intros l Hl. destruct Hst as [-> _]. apply Hval. by eapply elem_of_submseteq.
  - intros buy q blk' Hq. destruct (Hsh buy q blk' Hq) as (blk & Hb & _ & Hn).
    apply Hn. by eapply Hne.
  - intros id Hid. by eapply elem_of_submseteq.
Qed.

Lemma wfBook_alloc (h : list Order) (o : Order) (ob : OrderBook.t) :
  wfBook h ob -> wfBook (h ++ [o]) ob.
Proof.
  intros (Hnd & Hval & Hne). split; [|split; [|done]].
  - by rewrite idsOf_alloc_old.
  - intros l Hl. rewrite length_app. specialize (Hval l Hl). simpl. lia.
Qed.

Lemma wfBook_add (buy : bool) (h : list Order) (l : loc) (ob : OrderBook.t) :
  wfBook h ob -> (l < length h)%nat ->
  ID (deref h l) ∉ idsOf h (OrderBook.allOrders ob) ->
  wfBook h (snd (addOwn buy h l ob)) /\
  idsOf h (OrderBook.allOrders (snd (addOwn buy h l ob)))
    ≡ₚ ID (deref h l) :: idsOf h (OrderBook.allOrders ob).
Proof.
  intros (Hnd & Hval & Hne) Hl Hfresh.
  destruct (addOwn_spec buy h l ob) as [Hown Hopp].
  set (ob' := snd (addOwn buy h l ob)) in *.
  assert (OrderBook.allOrders ob' ≡ₚ l :: OrderBook.allOrders ob) as Hperm.
  { rewrite (allOrders_Permutation buy ob'), (allOrders_Permutation buy ob), Hown, Hopp.
    by rewrite sideOrders_add. }
  assert (idsOf h (OrderBook.allOrders ob') ≡ₚ ID (deref h l) :: idsOf h (OrderBook.allOrders ob))
    as Hids by (by rewrite (idsOf_Permutation _ _ _ Hperm)).
  split; [split; [|split]|done].
  - rewrite Hids. by apply NoDup_cons.
  - intros x Hx. rewrite Hperm in Hx. apply elem_of_cons in Hx as [->|Hx]; auto.
  - intros b q blk Hq. destruct (decide (b = buy)) as [->|Hb].
    + rewrite Hopp in Hq. by eapply Hne.
    + assert (b = negb buy) as -> by (by destruct b, buy).
      rewrite <- ownSide_opposite, Hown in Hq.
      apply lookup_insert_Some in Hq as [[_ <-]|[_ Hq]].
      * by destruct (default [] _).
      * eapply (Hne (negb buy)). by rewrite <- ownSide_opposite.
Qed.

Section Reachable.
Context {OS TS : Type} `{!OrderStore.t OS} `{!TradeStore.t TS}.
Implicit Types e : Engine.t OS TS.

Lemma loop_shrinks_both (buy : bool) (ob ob' : OrderBook.t) :
  ownSide buy ob' = ownSide buy ob ->
  shrinks (oppositeSide buy ob) (oppositeSide buy ob') ->
  forall b, shrinks (oppositeSide b ob) (oppositeSide b ob').
Proof.
  intros Hown Hopp b. destruct (decide (b = buy)) as [->|Hne]; [done|].
  assert (b = negb buy) as -> by (by destruct b, buy).
  rewrite <- !ownSide_opposite, Hown. apply shrinks_refl.
Qed.

(** A call on an order with a fresh id keeps the state well-formed, and
    the ids resting afterwards are among the ones that rested before and
    the new one. *)
Lemma Submit_wfBook (o : Order) e :
  wfBook (Engine.heap e) (Engine.orderBook e) ->
  ID o ∉ idsOf (Engine.heap e) (OrderBook.allOrders (Engine.orderBook e)) ->
  exists trades e',
    Engine.Submit o e = Some (trades, e') /\
    wfBook (Engine.heap e') (Engine.orderBook e') /\
    (forall id, id ∈ idsOf (Engine.heap e') (OrderBook.allOrders (Engine.orderBook e')) ->
                id = ID o \/
                id ∈ idsOf (Engine.heap e) (OrderBook.allOrders (Engine.orderBook e))).
Proof.
  intros Hwf Hfresh. unfold Engine.Submit, alloc.
  set (l := length (Engine.heap e)). set (h0 := Engine.heap e ++ [o]).
  assert (wfBook h0 (Engine.orderBook e)) as Hwf0 by (by apply wfBook_alloc).
  assert (idsOf h0 (OrderBook.allOrders (Engine.orderBook e))
          = idsOf (Engine.heap e) (OrderBook.allOrders (Engine.orderBook e))) as Hids0
    by (apply idsOf_alloc_old, Hwf).
  assert (deref h0 l = o) as Hl by apply deref_alloc.
  unfold Engine.PlaceOrder. cbn [Engine.heap Engine.setHeap]. fold h0. rewrite Hl.
  set (e0 := if bool_decide _ then _ else _).
  assert (Engine.heap e0 = h0 /\ Engine.orderBook e0 = Engine.orderBook e)
    as [Hh Hb] by (subst e0; by destruct (bool_decide _)).
  rewrite Hh, Hl. destruct (Kind o) eqn:Hk.
  - eexists _, _. split; [done|]. rewrite Hh, Hb. split; [done|].
    intros id. rewrite Hids0. auto.
  - destruct (executeMarketOrder_spec l e0)
      as (rem' & trades' & e1 & Hloop & ->).
    apply matchLoop_frame in Hloop as (Hst & Hown & Hopp & _).
    rewrite Hh, Hb in *.
    destruct (wfBook_shrinks _ _ _ _ Hwf0 Hst (loop_shrinks_both _ _ _ Hown Hopp))
      as [Hwf1 Hsub].
    eexists _, _. split; [done|].
    cbn [Engine.UntrackOrder Engine.setOrderStore Engine.orderBook Engine.heap].
    destruct (addTrades_frame trades' e1) as (-> & -> & _).
    split; [done|]. intros id Hid. right. rewrite <- Hids0. auto.
  - destruct (executeLimitOrder_spec l e0)
      as (rem' & trades' & e1 & Hloop & ->).
    apply matchLoop_frame in Hloop as (Hst & Hown & Hopp & _).
    rewrite Hh, Hb in *. rewrite ?Hl in *.
    destruct (wfBook_shrinks _ _ _ _ Hwf0 Hst (loop_shrinks_both _ _ _ Hown Hopp))
      as [Hwf1 Hsub].
    eexists _, _. split; [done|]. cbv zeta.
    match goal with
    | |- context [Engine.addTrades ?ts ?x] =>
        destruct (addTrades_frame ts x) as (-> & -> & _)
    end.
    destruct (0 <? rem'); cbn.
    + set (h2 := storeSize (Engine.heap e1) l rem').
      assert (heapStable (Engine.heap e1) h2) as Hst2 by apply heapStable_storeSize.
      destruct (wfBook_shrinks _ h2 _ _ Hwf1 Hst2 (fun b => shrinks_refl _)) as [Hwf2 Hsub2].
      assert (ID (deref h2 l) = ID o) as Hid2.
      { rewrite (heapStable_ID _ _ _ Hst2), (heapStable_ID _ _ _ Hst). by rewrite Hl. }
      assert (l < length h2)%nat as Hlt.
      { destruct Hst2 as [-> _]. destruct Hst as [-> _]. subst h0 l.
        rewrite length_app. simpl. lia. }
      destruct (wfBook_add (isBuy o) h2 l (Engine.orderBook e1) Hwf2 Hlt) as [Hwf3 Hperm].
      { rewrite Hid2. intros Hin. apply Hfresh. rewrite <- Hids0. auto. }
      split; [done|]. intros id Hid. rewrite Hperm, Hid2 in Hid.
      apply elem_of_cons in Hid as [->|Hid]; [by left|]. right. rewrite <- Hids0. auto.
    + split; [done|]. intros id Hid. right. rewrite <- Hids0. auto.
  - unfold Engine.CancelOrder.
    match goal with
    | |- context [OrderBook.DeleteOrderById ?h ?i ?b] =>
        pose proof (DeleteOrderById_shrinks h i b) as Hsh;
        destruct (OrderBook.DeleteOrderById h i b) as [deleted ob]
    end.
    cbn [snd] in Hsh. rewrite ?Hb in Hsh.
    destruct (wfBook_shrinks _ _ _ _ Hwf0 (heapStable_refl h0) Hsh) as [Hwf1 Hsub].
    destruct deleted; (eexists _, _; split; [done|]; cbn; rewrite Hh; split; [done|]);
      intros id Hid; right; rewrite <- Hids0; auto.
  - eexists _, _. split; [done|]. rewrite Hh, Hb. split; [done|].
    intros id. rewrite Hids0. auto.
  - eexists _, _. split; [done|]. rewrite Hh, Hb. split; [done|].
    intros id. rewrite Hids0. auto.
Qed.

Lemma CancelOrder_wfBook (id : N) e :
  wfBook (Engine.heap e) (Engine.orderBook e) ->
  let e' := snd (Engine.CancelOrder id e) in
  wfBook (Engine.heap e') (Engine.orderBook e') /\
  (forall x, x ∈ idsOf (Engine.heap e') (OrderBook.allOrders (Engine.orderBook e')) ->
             x ∈ idsOf (Engine.heap e) (OrderBook.allOrders (Engine.orderBook e))).
Proof.
  intros Hwf. unfold Engine.CancelOrder.
  pose proof (DeleteOrderById_shrinks (Engine.heap e) id (Engine.orderBook e)) as Hsh.
  destruct (OrderBook.DeleteOrderById _ _ _) as [deleted ob]. simpl in Hsh.
  destruct (wfBook_shrinks _ _ _ _ Hwf (heapStable_refl _) Hsh) as [Hwf1 Hsub].
  by destruct deleted.
Qed.

(** Every state a session reaches from a new engine is well-formed when the
    orders it places carry pairwise distinct ids. *)
Lemma runOps_wfBook (ops : list Op) e :
  wfBook (Engine.heap e) (Engine.orderBook e) ->
  NoDup (placedIds ops) ->
  (forall id, id ∈ placedIds ops ->
              id ∉ idsOf (Engine.heap e) (OrderBook.allOrders (Engine.orderBook e))) ->
  exists e', runOps ops e = Some e' /\ wfBook (Engine.heap e') (Engine.orderBook e').
Proof.
  revert e. induction ops as [|[o|id] ops IH]; intros e Hwf Hnd Hfresh; simpl in *.
  - by exists e.
  - apply NoDup_cons in Hnd as [Ho Hnd].
    destruct (Submit_wfBook o e Hwf) as (trades & e1 & -> & Hwf1 & Hsub).
    { apply Hfresh. left. }
    apply IH; [done|done|]. intros id Hid Hin.
    destruct (Hsub id Hin) as [->|Hold]; [done|].
    apply (Hfresh id); [by right|done].
  - destruct (CancelOrder_wfBook id e Hwf) as [Hwf1 Hsub].
    apply IH; [done|done|]. intros x Hx Hin. apply (Hfresh x Hx). auto.
Qed.

Lemma wfBook_new (orderStore : OS) (tradeStore : TS) :
  wfBook (Engine.heap (Engine.NewEngineWithStores orderStore tradeStore))
         (Engine.orderBook (Engine.NewEngineWithStores orderStore tradeStore)).
Proof.
  split; [|split].
  - cbn. unfold OrderBook.allOrders. simpl. rewrite sideOrders_empty. constructor.
  - cbn. unfold OrderBook.allOrders. simpl. rewrite sideOrders_empty.
    intros l Hl. by apply elem_of_nil in Hl.
  - intros [] q blk Hq; simpl in Hq; by rewrite lookup_empty in Hq.
Qed.

End Reachable.

(** ** Scenarios and instances *)

Lemma wfBook_intro (h : list Order) (ob : OrderBook.t) :
  NoDup (idsOf h (OrderBook.allOrders ob)) ->
  Forall (fun l => (l < length h)%nat) (OrderBook.allOrders ob) ->
  map_Forall (fun _ (blk : list loc) => blk <> []) (OrderBook.bids ob) ->
  map_Forall (fun _ (blk : list loc) => blk <> []) (OrderBook.asks ob) ->
  wfBook h ob.
Proof.
  intros Hnd Hval Hb Ha. split; [done|]. split.
  - intros l Hl. by eapply (proj1 (Forall_forall _ _) Hval).
  - intros [] q blk Hq; simpl in Hq; [by apply (Ha q)|by apply (Hb q)].
Defined.

Lemma sizesOk_intro (h : list Order) (side : gmap Qc (list loc)) :
  Forall (fun r => 0 <= Size (deref h r) < 2 ^ 63) (OrderBook.sideOrders side) ->
  sizesOk h side.
Proof. intros Hall r Hr. by eapply (proj1 (Forall_forall _ _) Hall). Defined.

Ltac by_computation := refine (bool_decide_unpack _ _); vm_compute; exact I.


Example fifo_scenario :
  let e := withOrder (marketOrder 100 Buy 12) threeAsks in
  exists e',
    Engine.PlaceOrder 3%nat e =
      Some ([mkTrade 0 100 1 (Q2Qc 101) 5; mkTrade 0 100 2 (Q2Qc 101) 5;
             mkTrade 0 100 3 (Q2Qc 101) 2], e') /\
    map_to_list (OrderBook.asks (Engine.orderBook e')) = [(Q2Qc 101, [2%nat])] /\
    Size (deref (Engine.heap e') 2%nat) = 3.
Proof. eexists. split; [vm_compute; reflexivity|]. split; vm_compute; reflexivity. Qed.


(** S3 of the specification: a MARKET BUY for 70 against 10 + 15 + 35 of
    resting SELL size.  The sixty units trade, the rest is dropped, and the
    book ends up empty. *)
Lemma market_order_never_rests_witness :
  let e := withOrder (marketOrder 100 Buy 70)
             (after [OpPlace (limitOrder 1 Sell 101 10);
                     OpPlace (limitOrder 2 Sell 102 15);
                     OpPlace (limitOrder 3 Sell 103 35)]) in
  let o := deref (Engine.heap e) 3%nat in
  Kind o = MarketOrder /\
  0 <= Size o < 2 ^ 63 /\
  sizesOk (Engine.heap e) (oppositeSide (isBuy o) (Engine.orderBook e)) /\
  exists trades e',
    Engine.PlaceOrder 3%nat e = Some (trades, e') /\
    ownSide (isBuy o) (Engine.orderBook e') = ownSide (isBuy o) (Engine.orderBook e) /\
    filledSize trades <= Size o.
Proof.
  intros e o.
  assert (Kind o = MarketOrder) as Hk by reflexivity.
  assert (0 <= Size o < 2 ^ 63) as Hsz by (by vm_compute).
  assert (sizesOk (Engine.heap e) (oppositeSide (isBuy o) (Engine.orderBook e))) as Hok
    by (apply sizesOk_intro; by_computation).
  split; [exact Hk|]. split; [exact Hsz|]. split; [exact Hok|].
  destruct (market_order_never_rests 3%nat e Hk)
    as (trades & e' & Hp & Hown & _ & _ & _ & Hacc & _).
  exists trades, e'. split; [exact Hp|]. split; [exact Hown|].
  exact (proj1 (Hacc Hsz Hok)).
Defined.

Example market_sweep_scenario :
  let e := withOrder (marketOrder 100 Buy 70)
             (after [OpPlace (limitOrder 1 Sell 101 10);
                     OpPlace (limitOrder 2 Sell 102 15);
                     OpPlace (limitOrder 3 Sell 103 35)]) in
  exists e',
    Engine.PlaceOrder 3%nat e =
      Some ([mkTrade 0 100 1 (Q2Qc 101) 10; mkTrade 0 100 2 (Q2Qc 102) 15;
             mkTrade 0 100 3 (Q2Qc 103) 35], e') /\
    OrderBook.allOrders (Engine.orderBook e') = [] /\
    Engine.GetOrder 100 e' = None.
Proof. eexists. split; [vm_compute; reflexivity|]. split; vm_compute; reflexivity. Qed.

Example market_order_empty_book_scenario :
  let e := withOrder (marketOrder 100 Buy 10) newEngine in
  exists e',
    Engine.PlaceOrder 0%nat e = Some ([], e') /\
    Engine.orderBook e' = Engine.orderBook e /\
    Engine.GetOrder 100 e' = None.
Proof. eexists. split; [vm_compute; reflexivity|]. split; vm_compute; reflexivity. Qed.


Example cancel_scenario :
  let e := after [OpPlace (limitOrder 1 Buy 99 10)] in
  exists e',
    map_to_list (OrderBook.bids (Engine.orderBook e)) = [(Q2Qc 99, [0%nat])] /\
    Engine.CancelOrder 1 e = (true, e') /\
    OrderBook.GetBestBid (Engine.orderBook e') = (0%Qc, []) /\
    Engine.CancelOrder 1 e' = (false, e').
Proof.
  eexists. split; [vm_compute; reflexivity|]. split; [vm_compute; reflexivity|].
  split; vm_compute; reflexivity.
Qed.


(** A STOP-MARKET order with id 5 on a new engine. *)
Lemma inert_order_is_tracked_not_rested_witness :
  let e := withOrder (stopOrder 5 Sell 95 10) newEngine in
  let o := deref (Engine.heap e) 0%nat in
  (Kind o = StopMarketOrder \/ Kind o = StopLimitOrder \/ Kind o = NoActionOrder) /\
  exists e',
    Engine.PlaceOrder 0%nat e = Some ([], e') /\
    Engine.orderBook e' = Engine.orderBook e /\
    Engine.GetOrder 5 e' = Some 0%nat.
Proof.
  intros e o.
  assert (Kind o = StopMarketOrder \/ Kind o = StopLimitOrder \/ Kind o = NoActionOrder)
    as Hk by (by left).
  split; [exact Hk|].
  destruct (inert_order_is_tracked_not_rested 0%nat e Hk)
    as (e' & Hp & Hb & _ & _ & _ & Hget & _).
  exists e'. split; [exact Hp|]. split; [exact Hb|exact Hget].
Defined.

(** S1, S2 and S6 of the specification. *)
Example simple_cross_scenario :
  exists e',
    Engine.Submit (limitOrder 2 Buy 101 10) (after [OpPlace (limitOrder 1 Sell 101 10)])
      = Some ([mkTrade 0 2 1 (Q2Qc 101) 10], e') /\
    OrderBook.allOrders (Engine.orderBook e') = [] /\
    InMemoryOrderStore.orders (Engine.orderStore e') = ∅.
Proof. eexists. split; [vm_compute; reflexivity|]. split; vm_compute; reflexivity. Qed.

Example price_improvement_scenario :
  exists e',
    Engine.Submit (limitOrder 2 Buy 105 10) (after [OpPlace (limitOrder 1 Sell 101 10)])
      = Some ([mkTrade 0 2 1 (Q2Qc 101) 10], e') /\
    OrderBook.allOrders (Engine.orderBook e') = [].
Proof. eexists. split; vm_compute; reflexivity. Qed.

Example partial_rest_scenario :
  exists e',
    Engine.Submit (limitOrder 2 Buy 100 15) (after [OpPlace (limitOrder 1 Sell 100 5)])
      = Some ([mkTrade 0 2 1 (Q2Qc 100) 5], e') /\
    map_to_list (OrderBook.bids (Engine.orderBook e')) = [(Q2Qc 100, [1%nat])] /\
    OrderBook.asks (Engine.orderBook e') = ∅ /\
    Size (deref (Engine.heap e') 1%nat) = 10 /\
    Engine.GetOrder 2 e' = Some 1%nat.
Proof.
  eexists. split; [vm_compute; reflexivity|]. split; [vm_compute; reflexivity|].
  split; [vm_compute; reflexivity|]. split; vm_compute; reflexivity.
Qed.

(** * Further properties *)

(** * Further properties of the stores *)

(** ** The in-memory order store *)

Lemma elem_of_removeFirst (id x : N) (ids : list N) :
  NoDup ids ->
  (x ∈ InMemoryOrderStore.removeFirst id ids <-> x ∈ ids /\ x <> id).
Proof.
  induction ids as [|a ids IH]; intros Hnd; cbn [InMemoryOrderStore.removeFirst].
  - split; [intros H; inversion H | intros [H _]; inversion H].
  - apply NoDup_cons in Hnd as [Ha Hnd].
    case_bool_decide as Heq.
    + subst a. split.
      * intros Hx. split; [by right|]. intros ->. done.
      * intros [Hx Hne]. apply elem_of_cons in Hx as [->|Hx]; done.
    + rewrite !elem_of_cons, IH by done. split.
      * intros [->|[Hx Hne]]; [split; [by left|done] | split; [by right|done]].
      * intros [[->|Hx] Hne]; [by left | right; done].
Qed.

Lemma NoDup_removeFirst (id : N) (ids : list N) :
  NoDup ids -> NoDup (InMemoryOrderStore.removeFirst id ids).
Proof.
  induction ids as [|a ids IH]; intros Hnd; cbn [InMemoryOrderStore.removeFirst]; [done|].
  apply NoDup_cons in Hnd as [Ha Hnd].
  case_bool_decide; [done|].
  apply NoDup_cons. split; [|by apply IH].
  rewrite elem_of_removeFirst by done. tauto.
Qed.

Lemma length_removeFirst (id : N) (ids : list N) :
  (length (InMemoryOrderStore.removeFirst id ids) <= length ids)%nat.
Proof.
  induction ids as [|a ids IH]; cbn [InMemoryOrderStore.removeFirst]; [done|].
  case_bool_decide; cbn [length]; lia.
Qed.

(** The three cases of [Save]. *)
Lemma Save_cases (h : list Order) (l : loc) (s : InMemoryOrderStore.t) :
  let id := ID (deref h l) in
  let ids := InMemoryOrderStore.orderIDs s in
  let m := InMemoryOrderStore.orders s in
  let s' := snd (InMemoryOrderStore.Save h l s) in
  InMemoryOrderStore.maxSize s' = InMemoryOrderStore.maxSize s /\
  ((is_Some (m !! id) /\
    InMemoryOrderStore.orderIDs s' = ids /\
    InMemoryOrderStore.orders s' = <[id := l]> m) \/
   (m !! id = None /\
    Z.of_nat (length ids) < InMemoryOrderStore.maxSize s /\
    InMemoryOrderStore.orderIDs s' = ids ++ [id] /\
    InMemoryOrderStore.orders s' = <[id := l]> m) \/
   (m !! id = None /\
    InMemoryOrderStore.maxSize s <= Z.of_nat (length ids) /\
    exists oldest rest, ids ++ [id] = oldest :: rest /\
      InMemoryOrderStore.orderIDs s' = rest /\
      InMemoryOrderStore.orders s' = <[id := l]> (delete oldest m))).
Proof.
  intros id ids m s'. subst s'. unfold InMemoryOrderStore.Save. fold id.
  fold m. fold ids.
  destruct (m !! id) as [x|] eqn:Hm; cbn [snd].
  - split; [done|]. left. cbn. done.
  - rewrite length_app. cbn [length].
    destruct (Z.ltb_spec (InMemoryOrderStore.maxSize s) (Z.of_nat (length ids + 1))) as [Hlt|Hge].
    + destruct (ids ++ [id]) as [|oldest rest] eqn:Hids.
      { by destruct ids. }
      cbn. split; [done|]. right. right. split; [done|]. split; [lia|].
      by exists oldest, rest.
    + cbn. split; [done|]. right. left. split; [done|]. split; [lia|]. done.
Qed.

Lemma queueInSync_Save (h : list Order) (l : loc) (s : InMemoryOrderStore.t) :
  1 <= InMemoryOrderStore.maxSize s ->
  queueInSync s -> queueInSync (snd (InMemoryOrderStore.Save h l s)).
Proof.
  intros Hm (Hnd & Hdom & Hlen).
  destruct (Save_cases h l s) as (Hmax & Hc). unfold queueInSync. rewrite Hmax.
  destruct Hc as [(Hin & -> & ->)|[(Hnone & Hlt & -> & ->)|(Hnone & Hge & oldest & rest & Hids & -> & ->)]].
  - split; [done|]. split; [|done].
    intros x. rewrite Hdom. destruct (decide (x = ID (deref h l))) as [->|Hne].
    + rewrite lookup_insert_eq. split; [by eauto|by intros _].
    + by rewrite lookup_insert_ne.
  - assert (ID (deref h l) ∉ InMemoryOrderStore.orderIDs s) as Hfresh.
    { rewrite Hdom, Hnone. by intros [? ?]. }
    split; [|split].
    + apply NoDup_app. split; [done|]. split; [|apply NoDup_singleton].
      intros x Hx Hx'. apply list_elem_of_singleton in Hx'. by subst x.
    + intros x. rewrite elem_of_app, list_elem_of_singleton, Hdom.
      destruct (decide (x = ID (deref h l))) as [->|Hne].
      * rewrite lookup_insert_eq. split; [by eauto|by right].
      * rewrite lookup_insert_ne by done. split; [by intros [?|?]|by left].
    + rewrite length_app. cbn [length]. lia.
  - assert (ID (deref h l) ∉ InMemoryOrderStore.orderIDs s) as Hfresh.
    { rewrite Hdom, Hnone. by intros [? ?]. }
    destruct (InMemoryOrderStore.orderIDs s) as [|a ids] eqn:Hq.
    { cbn [length] in Hge. lia. }
    cbn [app] in Hids. injection Hids as <- <-.
    apply NoDup_cons in Hnd as [Ha Hnd].
    apply not_elem_of_cons in Hfresh as [Hne Hfresh].
    split; [|split].
    + apply NoDup_app. split; [done|]. split; [|apply NoDup_singleton].
      intros x Hx Hx'. apply list_elem_of_singleton in Hx'. by subst x.
    + intros x. rewrite elem_of_app, list_elem_of_singleton.
      destruct (decide (x = ID (deref h l))) as [->|Hne'].
      * rewrite lookup_insert_eq. split; [by eauto|by right].
      * rewrite lookup_insert_ne by done.
        destruct (decide (x = a)) as [->|Hna].
        -- rewrite lookup_delete_eq. split; [by intros [?|?]|by intros [? ?]].
        -- rewrite lookup_delete_ne by done. rewrite <- Hdom, elem_of_cons.
           split; [intros [?|?]; [by right|done] | intros [?|?]; [done|by left]].
    + rewrite length_app. cbn [length] in *. lia.
Qed.

Lemma queueInSync_Remove (id : N) (s : InMemoryOrderStore.t) :
  queueInSync s -> queueInSync (snd (InMemoryOrderStore.Remove id s)).
Proof.
  intros (Hnd & Hdom & Hlen). unfold queueInSync. cbn.
  split; [by apply NoDup_removeFirst|]. split.
  - intros x. rewrite elem_of_removeFirst by done. rewrite Hdom.
    destruct (decide (x = id)) as [->|Hne].
    + rewrite lookup_delete_eq. split; [by intros [_ ?]|by intros [? ?]].
    + rewrite lookup_delete_ne by done. tauto.
  - pose proof (length_removeFirst id (InMemoryOrderStore.orderIDs s)). lia.
Qed.

Lemma queueInSync_Update (h : list Order) (l : loc) (s : InMemoryOrderStore.t) :
  queueInSync s -> queueInSync (snd (InMemoryOrderStore.Update h l s)).
Proof.
  intros (Hnd & Hdom & Hlen). unfold InMemoryOrderStore.Update.
  destruct (InMemoryOrderStore.orders s !! ID (deref h l)) as [x|] eqn:Hm; cbn [snd]; [|done].
  unfold queueInSync. cbn. split; [done|]. split; [|done].
  intros y. rewrite Hdom. destruct (decide (y = ID (deref h l))) as [->|Hne].
  - rewrite lookup_insert_eq, Hm. split; eauto.
  - by rewrite lookup_insert_ne.
Qed.

Lemma maxSize_runStoreOp (h : list Order) (op : StoreOp) (s : InMemoryOrderStore.t) :
  InMemoryOrderStore.maxSize (snd (runStoreOp h op s)) = InMemoryOrderStore.maxSize s.
Proof.
  destruct op as [l|id|l]; cbn [runStoreOp OrderStore.Save OrderStore.Remove OrderStore.Update
                                 InMemoryOrderStore.store].
  - apply Save_cases.
  - done.
  - unfold InMemoryOrderStore.Update. by destruct (_ !! _).
Qed.

Lemma queueInSync_runStoreOp (h : list Order) (op : StoreOp) (s : InMemoryOrderStore.t) :
  1 <= InMemoryOrderStore.maxSize s ->
  queueInSync s -> queueInSync (snd (runStoreOp h op s)).
Proof.
  intros Hm Hs. destruct op as [l|id|l].
  - by apply queueInSync_Save.
  - by apply queueInSync_Remove.
  - by apply queueInSync_Update.
Qed.

Lemma runStoreOps_cons {S : Type} `{!OrderStore.t S} (h : list Order) (op : StoreOp)
    (ops : list StoreOp) (s : S) :
  runStoreOps h (op :: ops) s =
  (fst (runStoreOp h op s) :: fst (runStoreOps h ops (snd (runStoreOp h op s))),
   snd (runStoreOps h ops (snd (runStoreOp h op s)))).
Proof.
  cbn [runStoreOps]. destruct (runStoreOp h op s) as [err s1]. cbn [fst snd].
  by destruct (runStoreOps h ops s1).
Qed.

Lemma queueInSync_size (s : InMemoryOrderStore.t) :
  queueInSync s ->
  size (InMemoryOrderStore.orders s) = length (InMemoryOrderStore.orderIDs s).
Proof.
  intros (Hnd & Hdom & _).
  rewrite <- size_dom.
  assert (dom (InMemoryOrderStore.orders s) = list_to_set (InMemoryOrderStore.orderIDs s)) as ->.
  { apply set_eq. intros x. rewrite elem_of_dom, elem_of_list_to_set. by rewrite Hdom. }
  by apply size_list_to_set.
Qed.

Lemma queueInSync_new (maxSize : Z) :
  0 <= maxSize -> queueInSync (InMemoryOrderStore.NewInMemoryOrderStore maxSize).
Proof.
  intros Hm. split; [apply NoDup_nil_2|]. split; [|cbn; lia].
  intros id. cbn. rewrite lookup_empty. split; [intros H; inversion H | by intros [? ?]].
Qed.

Lemma runStoreOps_inSync (h : list Order) (ops : list StoreOp) (s0 : InMemoryOrderStore.t) :
  1 <= InMemoryOrderStore.maxSize s0 -> queueInSync s0 ->
  queueInSync (snd (runStoreOps h ops s0)) /\
  InMemoryOrderStore.maxSize (snd (runStoreOps h ops s0)) = InMemoryOrderStore.maxSize s0.
Proof.
  revert s0. induction ops as [|op ops IH]; intros s0 Hmax Hs0; [done|].
  rewrite runStoreOps_cons. cbn [snd].
  rewrite <- (maxSize_runStoreOp h op s0). apply IH.
  - by rewrite maxSize_runStoreOp.
  - by apply queueInSync_runStoreOp.
Qed.

(** X1.  An in-memory order store with a limit of at least one order never
    holds more orders than its limit: after any sequence of [Save], [Remove]
    and [Update] calls on a new store, the queue lists exactly the ids of
    the map, each once, and the map has at most [maxSize] entries. *)
Theorem order_store_within_limit (maxSize : Z) (h : list Order) (ops : list StoreOp) :
  1 <= maxSize ->
  let s := snd (runStoreOps h ops (InMemoryOrderStore.NewInMemoryOrderStore maxSize)) in
  queueInSync s /\
  InMemoryOrderStore.maxSize s = maxSize /\
  Z.of_nat (size (InMemoryOrderStore.orders s)) <= maxSize.
Proof.
  intros Hm s.
  destruct (runStoreOps_inSync h ops (InMemoryOrderStore.NewInMemoryOrderStore maxSize))
    as [Hs Hmax]; [done|apply queueInSync_new; lia|].
  fold s in Hs, Hmax. split; [done|]. split; [done|].
  rewrite (queueInSync_size _ Hs). destruct Hs as (_ & _ & Hlen).
  rewrite Hmax in Hlen. cbn in Hlen. lia.
Qed.

(** X2.  [Save] on an in-memory order store always succeeds and makes the
    order retrievable.  It evicts exactly when a new id arrives at a full
    store, and then the evicted order is the oldest one of the queue; in
    every case all the other orders are kept. *)
Theorem save_evicts_only_the_oldest (h : list Order) (l : loc) (s : InMemoryOrderStore.t) :
  queueInSync s ->
  1 <= InMemoryOrderStore.maxSize s ->
  let id := ID (deref h l) in
  let ids := InMemoryOrderStore.orderIDs s in
  let s' := snd (InMemoryOrderStore.Save h l s) in
  fst (InMemoryOrderStore.Save h l s) = None /\
  InMemoryOrderStore.Get id s' = (Some l, None) /\
  (is_Some (InMemoryOrderStore.orders s !! id) ->
   InMemoryOrderStore.orderIDs s' = ids /\
   forall x, x <> id ->
     InMemoryOrderStore.orders s' !! x = InMemoryOrderStore.orders s !! x) /\
  (InMemoryOrderStore.orders s !! id = None ->
   Z.of_nat (length ids) < InMemoryOrderStore.maxSize s ->
   InMemoryOrderStore.orderIDs s' = ids ++ [id] /\
   forall x, x <> id ->
     InMemoryOrderStore.orders s' !! x = InMemoryOrderStore.orders s !! x) /\
  (InMemoryOrderStore.orders s !! id = None ->
   Z.of_nat (length ids) = InMemoryOrderStore.maxSize s ->
   exists oldest rest,
     ids = oldest :: rest /\
     InMemoryOrderStore.orderIDs s' = rest ++ [id] /\
     InMemoryOrderStore.Get oldest s' = (None, Some (ErrOrderNotFound oldest)) /\
     forall x, x <> id -> x <> oldest ->
       InMemoryOrderStore.orders s' !! x = InMemoryOrderStore.orders s !! x).
Proof.
  intros (Hnd & Hdom & Hlen) Hm id ids s'.
  destruct (Save_cases h l s) as (Hmax & Hc). fold id ids s' in Hmax, Hc.
  split; [done|].
  assert (InMemoryOrderStore.orders s' !! id = Some l) as Hl.
  { destruct Hc as [(_ & _ & ->)|[(_ & _ & _ & ->)|(_ & _ & ? & ? & _ & _ & ->)]];
      apply lookup_insert_eq. }
  split; [unfold InMemoryOrderStore.Get; by rewrite Hl|].
  split; [|split].
  - intros Hin.
    destruct Hc as [(_ & -> & ->)|[(Hnone & _)|(Hnone & _)]].
    + split; [done|]. intros x Hx. by rewrite lookup_insert_ne.
    + rewrite Hnone in Hin. by destruct Hin.
    + rewrite Hnone in Hin. by destruct Hin.
  - intros Hnone Hlt.
    destruct Hc as [(Hin & _)|[(_ & _ & -> & ->)|(_ & Hge & _)]].
    + rewrite Hnone in Hin. by destruct Hin.
    + split; [done|]. intros x Hx. by rewrite lookup_insert_ne.
    + lia.
  - intros Hnone Hfull.
    destruct Hc as [(Hin & _)|[(_ & Hlt & _)|(_ & _ & oldest & rest & Hids & Hq' & Hm')]].
    + rewrite Hnone in Hin. by destruct Hin.
    + lia.
    + assert (id ∉ ids) as Hfresh.
      { unfold ids. rewrite Hdom. fold id. rewrite Hnone. by intros [? ?]. }
      destruct ids as [|a ids'] eqn:Hq.
      { cbn [length] in Hfull. lia. }
      cbn [app] in Hids. injection Hids as <- <-.
      apply not_elem_of_cons in Hfresh as [Hne Hfresh].
      exists a, ids'. split; [done|]. split; [done|]. split.
      * unfold InMemoryOrderStore.Get. rewrite Hm'.
        rewrite lookup_insert_ne by done. by rewrite lookup_delete_eq.
      * intros x Hx Hxa. rewrite Hm'.
        rewrite lookup_insert_ne by done. by rewrite lookup_delete_ne.
Qed.

Lemma runStoreOps_app {S : Type} `{!OrderStore.t S} (h : list Order)
    (ops1 ops2 : list StoreOp) (s : S) :
  snd (runStoreOps h (ops1 ++ ops2) s) = snd (runStoreOps h ops2 (snd (runStoreOps h ops1 s))).
Proof.
  revert s. induction ops1 as [|op ops1 IH]; intros s; [done|].
  cbn [app]. rewrite !runStoreOps_cons. cbn [snd]. apply IH.
Qed.

(** X3.  The limit 0 is not enforced: a store built with [maxSize = 0]
    keeps every order that is saved.  Its queue stays empty, so nothing is
    ever evicted, and its map holds an entry for each id saved. *)
Theorem zero_limit_keeps_every_order (h : list Order) (ls : list loc) :
  let s := snd (runStoreOps h (map OpSave ls) (InMemoryOrderStore.NewInMemoryOrderStore 0)) in
  InMemoryOrderStore.orderIDs s = [] /\
  (forall id, is_Some (InMemoryOrderStore.orders s !! id) <-> id ∈ idsOf h ls) /\
  (NoDup (idsOf h ls) -> size (InMemoryOrderStore.orders s) = length ls).
Proof.
  assert (forall s0, InMemoryOrderStore.maxSize s0 = 0 -> InMemoryOrderStore.orderIDs s0 = [] ->
            let s := snd (runStoreOps h (map OpSave ls) s0) in
            InMemoryOrderStore.orderIDs s = [] /\
            dom (InMemoryOrderStore.orders s) =
              dom (InMemoryOrderStore.orders s0) ∪ list_to_set (idsOf h ls)) as Hgen.
  { induction ls as [|l ls IH]; intros s0 Hmax Hq.
    - cbn. split; [done|]. by rewrite (right_id_L ∅ (∪)).
    - cbn [map]. rewrite runStoreOps_cons. cbn [snd runStoreOp].
      change (OrderStore.Save h l s0) with (InMemoryOrderStore.Save h l s0).
      destruct (Save_cases h l s0) as (Hmax' & Hc).
      assert (InMemoryOrderStore.orderIDs (snd (InMemoryOrderStore.Save h l s0)) = [] /\
              dom (InMemoryOrderStore.orders (snd (InMemoryOrderStore.Save h l s0)))
              = {[ID (deref h l)]} ∪ dom (InMemoryOrderStore.orders s0)) as [Hq' Hd'].
      { destruct Hc as [(Hin & -> & ->)|[(_ & Hlt & _)|(Hnone & _ & oldest & rest & Hids & -> & ->)]].
        - split; [done|]. by rewrite dom_insert_L.
        - rewrite Hq, Hmax in Hlt. cbn in Hlt. lia.
        - rewrite Hq in Hids. cbn [app] in Hids. injection Hids as <- <-.
          split; [done|]. rewrite delete_id by done. by rewrite dom_insert_L. }
      destruct (IH (snd (InMemoryOrderStore.Save h l s0))) as [IH1 IH2].
      + by rewrite Hmax'.
      + done.
      + split; [done|]. rewrite IH2, Hd'. cbn [idsOf map list_to_set].
        apply set_eq. intros x. rewrite !elem_of_union. tauto. }
  intros s. destruct (Hgen (InMemoryOrderStore.NewInMemoryOrderStore 0)) as [Hq Hd]; [done..|].
  fold s in Hq, Hd. cbn [InMemoryOrderStore.NewInMemoryOrderStore InMemoryOrderStore.orders] in Hd.
  rewrite dom_empty_L, (left_id_L ∅ (∪)) in Hd.
  split; [done|]. split.
  - intros id. rewrite <- elem_of_dom, Hd, elem_of_list_to_set. done.
  - intros Hnd. rewrite <- size_dom, Hd, size_list_to_set by done.
    unfold idsOf. by rewrite length_map.
Qed.

Lemma runStoreOps_fst_cons {S : Type} `{!OrderStore.t S} (h : list Order) (op : StoreOp)
    (ops : list StoreOp) (s : S) :
  fst (runStoreOps h (op :: ops) s) =
  fst (runStoreOp h op s) :: fst (runStoreOps h ops (snd (runStoreOp h op s))).
Proof. by rewrite runStoreOps_cons. Qed.

(** X4.  As long as the calls of [Save] do not outnumber the limit, the
    store with FIFO eviction and the map-only store it replaced cannot be
    told apart: the same calls return the same errors and leave the same
    map. *)
Theorem bounded_store_matches_unbounded (maxSize : Z) (h : list Order) (ops : list StoreOp) :
  Z.of_nat (length (filter (fun op => isSave op = true) ops)) <= maxSize ->
  let r := runStoreOps h ops (InMemoryOrderStore.NewInMemoryOrderStore maxSize) in
  let u := runStoreOps h ops UnboundedOrderStore.NewInMemoryOrderStore in
  fst r = fst u /\
  InMemoryOrderStore.orders (snd r) = UnboundedOrderStore.orders (snd u) /\
  (forall id, InMemoryOrderStore.Get id (snd r) = UnboundedOrderStore.Get id (snd u)).
Proof.
  intros Hops.
  assert (forall (s : InMemoryOrderStore.t) (u : UnboundedOrderStore.t),
            InMemoryOrderStore.maxSize s = maxSize ->
            NoDup (InMemoryOrderStore.orderIDs s) ->
            (forall id, id ∈ InMemoryOrderStore.orderIDs s <->
                        is_Some (InMemoryOrderStore.orders s !! id)) ->
            Z.of_nat (length (InMemoryOrderStore.orderIDs s))
              + Z.of_nat (length (filter (fun op => isSave op = true) ops)) <= maxSize ->
            InMemoryOrderStore.orders s = UnboundedOrderStore.orders u ->
            fst (runStoreOps h ops s) = fst (runStoreOps h ops u) /\
            InMemoryOrderStore.orders (snd (runStoreOps h ops s))
            = UnboundedOrderStore.orders (snd (runStoreOps h ops u))) as Hgen.
  { clear Hops. induction ops as [|op ops IH]; intros s u Hmax Hnd Hdom Hlen Heq; [done|].
    rewrite !runStoreOps_cons. cbn [fst snd].
    assert (fst (runStoreOp h op s) = fst (runStoreOp h op u) /\
            InMemoryOrderStore.orders (snd (runStoreOp h op s))
            = UnboundedOrderStore.orders (snd (runStoreOp h op u)) /\
            Z.of_nat (length (InMemoryOrderStore.orderIDs (snd (runStoreOp h op s))))
              + Z.of_nat (length (filter (fun op => isSave op = true) ops)) <= maxSize /\
            NoDup (InMemoryOrderStore.orderIDs (snd (runStoreOp h op s))) /\
            (forall id, id ∈ InMemoryOrderStore.orderIDs (snd (runStoreOp h op s)) <->
                        is_Some (InMemoryOrderStore.orders (snd (runStoreOp h op s)) !! id)))
      as (He & Ho & Hl & Hnd' & Hdom').
    { destruct op as [l|id|l].
      - rewrite filter_cons_True in Hlen by done. cbn [length] in Hlen.
        assert (queueInSync s) as Hs by (split; [done|split; [done|lia]]).
        assert (1 <= InMemoryOrderStore.maxSize s) as Hone by lia.
        pose proof (queueInSync_Save h l s Hone Hs) as (Hnd' & Hdom' & _).
        cbn [runStoreOp OrderStore.Save InMemoryOrderStore.store UnboundedOrderStore.store].
        destruct (Save_cases h l s) as (_ & Hc).
        split; [done|].
        destruct Hc as [(Hin & Hq & Hm)|[(Hnone & Hlt & Hq & Hm)|(_ & Hge & _)]]; [| |lia].
        + rewrite Hm, Hq, Heq. split; [done|]. split; [lia|]. split; [by rewrite <- Hq|].
          intros id. rewrite <- Hq, <- Heq, <- Hm. apply Hdom'.
        + rewrite Hm, Heq. split; [done|]. split.
          * rewrite Hq, length_app. cbn [length]. lia.
          * split; [done|]. intros id. rewrite <- Heq, <- Hm. apply Hdom'.
      - rewrite filter_cons_False in Hlen by done.
        assert (queueInSync s) as Hs by (split; [done|split; [done|lia]]).
        pose proof (queueInSync_Remove id s Hs) as (Hnd' & Hdom' & _).
        cbn [runStoreOp OrderStore.Remove InMemoryOrderStore.store UnboundedOrderStore.store].
        split; [done|]. split; [cbn; by rewrite Heq|]. split; [|done].
        cbn [snd InMemoryOrderStore.Remove InMemoryOrderStore.orderIDs].
        pose proof (length_removeFirst id (InMemoryOrderStore.orderIDs s)). lia.
      - rewrite filter_cons_False in Hlen by done.
        assert (queueInSync s) as Hs by (split; [done|split; [done|lia]]).
        pose proof (queueInSync_Update h l s Hs) as (Hnd' & Hdom' & _).
        cbn [runStoreOp OrderStore.Update InMemoryOrderStore.store UnboundedOrderStore.store].
        cbn [runStoreOp OrderStore.Update InMemoryOrderStore.store] in Hnd', Hdom'.
        unfold InMemoryOrderStore.Update, UnboundedOrderStore.Update in *. rewrite <- Heq.
        destruct (InMemoryOrderStore.orders s !! ID (deref h l)); cbn [fst snd] in *.
        + split; [done|]. split; [cbn; by rewrite Heq|]. done.
        + done. }
    destruct (IH (snd (runStoreOp h op s)) (snd (runStoreOp h op u))) as [IH1 IH2]; try done.
    - by rewrite maxSize_runStoreOp.
    - split; [by rewrite He, IH1|done]. }
  intros r u.
  destruct (Hgen (InMemoryOrderStore.NewInMemoryOrderStore maxSize)
                 UnboundedOrderStore.NewInMemoryOrderStore) as [H1 H2].
  - done.
  - apply NoDup_nil_2.
  - intros id. cbn. rewrite lookup_empty. split; [intros H; inversion H | by intros [? ?]].
  - cbn [InMemoryOrderStore.NewInMemoryOrderStore InMemoryOrderStore.orderIDs length]. lia.
  - done.
  - split; [done|]. split; [done|].
    intros id. unfold InMemoryOrderStore.Get, UnboundedOrderStore.Get.
    fold r u in H2. by rewrite H2.
Qed.

(** ** The in-memory trade store and the composite trade store *)

Lemma length_lastN {A : Type} (k : nat) (l : list A) :
  length (lastN k l) = Nat.min k (length l).
Proof. unfold lastN. rewrite length_drop. lia. Qed.

Lemma lastN_all {A : Type} (k : nat) (l : list A) :
  (length l <= k)%nat -> lastN k l = l.
Proof. intros Hk. unfold lastN. replace (length l - k)%nat with 0%nat by lia. done. Qed.

(** X5.  The in-memory trade store is a bounded buffer: after [Save] or
    [SaveBatch] it holds the last [maxSize] trades of what it held followed
    by what was saved, so never more than [maxSize].  [GetRecent] with a
    limit that is not positive, or larger than the buffer, returns the whole
    buffer. *)
Theorem trade_buffer_is_bounded (s : InMemoryTradeStore.t) (trade : Trade)
    (batch : list Trade) (limit : Z) :
  0 <= InMemoryTradeStore.maxSize s ->
  let m := Z.to_nat (InMemoryTradeStore.maxSize s) in
  let ts := InMemoryTradeStore.trades s in
  InMemoryTradeStore.Save trade s =
    (None, InMemoryTradeStore.mk (lastN m (ts ++ [trade])) (InMemoryTradeStore.maxSize s)) /\
  InMemoryTradeStore.SaveBatch batch s =
    (None, InMemoryTradeStore.mk (lastN m (ts ++ batch)) (InMemoryTradeStore.maxSize s)) /\
  (length (InMemoryTradeStore.trades (snd (InMemoryTradeStore.SaveBatch batch s))) <= m)%nat /\
  (limit <= 0 \/ Z.of_nat (length ts) < limit ->
   InMemoryTradeStore.GetRecent limit s = (ts, None)).
Proof.
  intros Hm m ts.
  unfold InMemoryTradeStore.Save, InMemoryTradeStore.SaveBatch.
  rewrite !trim_lastN by done. fold m ts.
  split; [done|]. split; [done|]. split.
  - cbn [snd InMemoryTradeStore.trades]. rewrite length_lastN. lia.
  - intros Hl. unfold InMemoryTradeStore.GetRecent. fold ts.
    assert ((limit <=? 0) || (Z.of_nat (length ts) <? limit) = true) as ->.
    { apply orb_true_iff. destruct Hl; [left; lia|right; lia]. }
    by rewrite Z.sub_diag.
Qed.

Lemma saveAll_snoc {T : Type} `{!TradeStore.t T} (ts : list Trade) (t : Trade) (s : T) :
  saveAll (ts ++ [t]) s = snd (TradeStore.Save t (saveAll ts s)).
Proof. unfold saveAll. by rewrite foldl_app. Qed.

Lemma saveAll_file (batch : list Trade) (log : FileTradeStore.t) :
  saveAll batch log = FileTradeStore.mk (FileTradeStore.written log ++ batch).
Proof.
  induction batch as [|t batch IH] using rev_ind.
  - cbn. rewrite app_nil_r. by destruct log.
  - rewrite saveAll_snoc, IH. cbn. by rewrite <- app_assoc.
Qed.

Lemma saveAll_memory (batch : list Trade) (s : InMemoryTradeStore.t) :
  0 <= InMemoryTradeStore.maxSize s ->
  Z.of_nat (length (InMemoryTradeStore.trades s)) <= InMemoryTradeStore.maxSize s ->
  saveAll batch s =
  InMemoryTradeStore.mk
    (lastN (Z.to_nat (InMemoryTradeStore.maxSize s)) (InMemoryTradeStore.trades s ++ batch))
    (InMemoryTradeStore.maxSize s).
Proof.
  intros Hm Hlen.
  destruct (saveAll_trades (InMemoryTradeStore.maxSize s) batch s) as [Ht Hmax]; [done..| |].
  { symmetry. apply lastN_all. lia. }
  destruct (saveAll batch s) as [ts m]. cbn in Ht, Hmax. by subst.
Qed.

Lemma saveAll_composite {T : Type} `{!TradeStore.t T} (batch : list Trade) (stores : list T) :
  saveAll batch (CompositeTradeStore.mk stores) =
  CompositeTradeStore.mk (map (saveAll batch) stores).
Proof.
  induction batch as [|t batch IH] using rev_ind.
  - cbn. by rewrite map_id.
  - rewrite saveAll_snoc, IH.
    cbn [TradeStore.Save CompositeTradeStore.store].
    unfold CompositeTradeStore.Save, prod_map. cbn [CompositeTradeStore.stores snd].
    rewrite writeAll_stores. f_equal. rewrite map_map.
    apply map_ext. intros s. by rewrite saveAll_snoc.
Qed.


Section CompositeRecent.
Context {T : Type} `{!TradeStore.t T}.

Lemma GetRecentFrom_spec (limit : Z) (stores : list T) :
  CompositeTradeStore.GetRecentFrom limit stores =
  match list_find (fun s => hasTrades (TradeStore.GetRecent limit s) = true) stores with
  | Some (_, s) => (fst (TradeStore.GetRecent limit s), None)
  | None => ([], None)
  end.
Proof.
  induction stores as [|s stores IH]; [done|].
  cbn [CompositeTradeStore.GetRecentFrom list_find].
  destruct (decide (hasTrades (TradeStore.GetRecent limit s) = true)) as [Hh|Hh].
  - by destruct (TradeStore.GetRecent limit s) as [[|t ts] [err|]].
  - assert (match TradeStore.GetRecent limit s with
            | (_, Some _) => CompositeTradeStore.GetRecentFrom limit stores
            | (trades, None) =>
                if 0 <? Z.of_nat (length trades) then (trades, None)
                else CompositeTradeStore.GetRecentFrom limit stores
            end = CompositeTradeStore.GetRecentFrom limit stores) as ->.
    { by destruct (TradeStore.GetRecent limit s) as [[|t ts] [err|]]. }
    rewrite IH. by destruct (list_find _ stores) as [[i s']|].
Qed.

End CompositeRecent.

(** X7.  [CompositeTradeStore.GetRecent] never returns an error.  It
    answers with the trades of the first layer that returns a non-empty
    slice and no error: a layer that fails and a layer that has nothing are
    both skipped, and the answer is the empty slice when every layer is
    skipped. *)
Theorem composite_get_recent_first_with_data (T : Type) (I : TradeStore.t T)
    (limit : Z) (c : CompositeTradeStore.t T) :
  snd (CompositeTradeStore.GetRecent limit c) = None /\
  CompositeTradeStore.GetRecent limit c =
  match list_find (fun s => hasTrades (TradeStore.GetRecent limit s) = true)
                  (CompositeTradeStore.stores c) with
  | Some (_, s) => (fst (TradeStore.GetRecent limit s), None)
  | None => ([], None)
  end.
Proof.
  unfold CompositeTradeStore.GetRecent. rewrite GetRecentFrom_spec.
  by destruct (list_find _ _) as [[i s]|].
Qed.

(** ** The composite order store *)

Lemma writeAll_no_error {S : Type} (op : S -> option error * S) (stores : list S) :
  Forall (fun s => fst (op s) = None) stores -> fst (writeAll op stores None) = None.
Proof. intros H. by apply (writeAll_spec op stores). Qed.

(** X8.  Read your writes through a composite of in-memory order stores,
    whatever the limits of the layers: [Save] succeeds, and [Get] of the
    saved id then returns the saved order.  A composite without layers
    accepts the write and finds nothing. *)
Theorem composite_save_then_get (h : list Order) (l : loc)
    (stores : list InMemoryOrderStore.t) :
  let c := CompositeOrderStore.NewCompositeOrderStore stores in
  let c' := snd (CompositeOrderStore.Save h l c) in
  fst (CompositeOrderStore.Save h l c) = None /\
  CompositeOrderStore.Get (ID (deref h l)) c' =
    match stores with
    | [] => (None, None)
    | _ :: _ => (Some l, None)
    end.
Proof.
  intros c c'. subst c c'. unfold CompositeOrderStore.NewCompositeOrderStore.
  unfold CompositeOrderStore.Save, prod_map. cbn [CompositeOrderStore.stores fst snd].
  split.
  - apply writeAll_no_error. by apply Forall_forall.
  - unfold CompositeOrderStore.Get. cbn [CompositeOrderStore.stores].
    rewrite writeAll_stores.
    destruct stores as [|s stores]; [done|].
    cbn [map CompositeOrderStore.GetFrom].
    change (OrderStore.Get ?id (snd (OrderStore.Save h l s)))
      with (InMemoryOrderStore.Get id (snd (InMemoryOrderStore.Save h l s))).
    by rewrite Save_then_Get.
Qed.

(** * Further properties of the order book *)

(** X9.  [SearchById] looks through the resting orders only: an order it
    returns rests in the book and has the id asked for; it returns nil
    exactly when no resting order has that id; and when the resting ids are
    pairwise distinct it returns each resting order for its own id. *)
Theorem search_by_id_finds_resting_orders (h : list Order) (orderId : N) (ob : OrderBook.t) :
  (forall l, OrderBook.SearchById h orderId ob = Some l ->
             l ∈ OrderBook.allOrders ob /\ ID (deref h l) = orderId) /\
  (OrderBook.SearchById h orderId ob = None <->
   orderId ∉ idsOf h (OrderBook.allOrders ob)) /\
  (NoDup (idsOf h (OrderBook.allOrders ob)) ->
   forall l, l ∈ OrderBook.allOrders ob ->
             OrderBook.SearchById h (ID (deref h l)) ob = Some l).
Proof.
  unfold OrderBook.SearchById, OrderBook.allOrders.
  split; [|split].
  - intros l.
    destruct (OrderBook.findOrderInBookSide h (OrderBook.bids ob) orderId)
      as [[[x p] i]|] eqn:Hb.
    + intros [= ->]. apply find_Some in Hb as (blk & Hp & Hi & Hid).
      split; [|done]. apply elem_of_app. left.
      apply elem_of_sideOrders. exists p, blk. split; [done|].
      by apply list_elem_of_lookup_2 in Hi.
    + destruct (OrderBook.findOrderInBookSide h (OrderBook.asks ob) orderId)
        as [[[x p] i]|] eqn:Ha; [|done].
      intros [= ->]. apply find_Some in Ha as (blk & Hp & Hi & Hid).
      split; [|done]. apply elem_of_app. right.
      apply elem_of_sideOrders. exists p, blk. split; [done|].
      by apply list_elem_of_lookup_2 in Hi.
  - rewrite idsOf_app, not_elem_of_app, <- !find_None.
    destruct (OrderBook.findOrderInBookSide h (OrderBook.bids ob) orderId) as [[[x p] i]|];
      [split; [done|by intros [? _]]|].
    destruct (OrderBook.findOrderInBookSide h (OrderBook.asks ob) orderId) as [[[x p] i]|];
      [split; [done|by intros [_ ?]]|done].
  - intros Hnd l Hl. rewrite idsOf_app in Hnd.
    apply NoDup_app in Hnd as (Hndb & Hdisj & Hnda).
    apply elem_of_app in Hl as [Hl|Hl].
    + apply elem_of_sideOrders in Hl as (p & blk & Hp & Hl).
      apply list_elem_of_lookup_1 in Hl as [i Hi].
      by rewrite (find_unique h _ p blk i l Hndb Hp Hi).
    + assert (OrderBook.findOrderInBookSide h (OrderBook.bids ob) (ID (deref h l)) = None) as ->.
      { apply find_None. intros Hb. apply (Hdisj _ Hb). by apply elem_of_idsOf. }
      apply elem_of_sideOrders in Hl as (p & blk & Hp & Hl).
      apply list_elem_of_lookup_1 in Hl as [i Hi].
      by rewrite (find_unique h _ p blk i l Hnda Hp Hi).
Qed.

(** X10.  [GetBestBid] returns a price that no bid level exceeds and
    [GetBestAsk] a price that no ask level is below; with a bid level above
    0 (an ask level up to [math.MaxFloat64]) the price is that of a level of
    the book and the slice is that level.  On an empty side both return
    [(0, nil)]; and bid levels at negative prices only are not seen at all:
    the scan starts at 0, and [GetBestBid] answers [(0, nil)]. *)
Theorem best_prices_are_extremal (ob : OrderBook.t) :
  (forall q, is_Some (OrderBook.bids ob !! q) -> (q <= fst (OrderBook.GetBestBid ob))%Qc) /\
  (forall q, is_Some (OrderBook.asks ob !! q) -> (fst (OrderBook.GetBestAsk ob) <= q)%Qc) /\
  (forall q, is_Some (OrderBook.bids ob !! q) -> (0 < q)%Qc ->
     OrderBook.bids ob !! fst (OrderBook.GetBestBid ob) = Some (snd (OrderBook.GetBestBid ob))) /\
  (forall q, is_Some (OrderBook.asks ob !! q) -> (q <= MaxFloat64)%Qc ->
     OrderBook.asks ob !! fst (OrderBook.GetBestAsk ob) = Some (snd (OrderBook.GetBestAsk ob))) /\
  (OrderBook.asks ob = ∅ -> OrderBook.GetBestAsk ob = (0%Qc, [])) /\
  ((forall q, is_Some (OrderBook.bids ob !! q) -> (q < 0)%Qc) ->
   OrderBook.GetBestBid ob = (0%Qc, [])).
Proof.
  split; [|split; [|split; [|split; [|split]]]].
  - intros q Hq. apply (getBestOpposite_extremal false ob q Hq).
  - intros q Hq. apply (getBestOpposite_extremal true ob q Hq).
  - intros q Hq Hpos. unfold OrderBook.GetBestBid.
    case_bool_decide as Hsz.
    { apply map_size_empty_iff in Hsz. rewrite Hsz, lookup_empty in Hq. by destruct Hq. }
    cbn [fst snd].
    destruct (fold_max_spec (OrderBook.bids ob) 0%Qc) as (Hz & Hub & Hmx).
    cbv zeta in Hz, Hub, Hmx.
    set (mx := map_fold _ _ _) in *.
    destruct Hmx as [Hmx|[blk Hblk]].
    + specialize (Hub q Hq). rewrite Hmx in Hub. qc_order.
    + by rewrite Hblk.
  - intros q Hq Hle. unfold OrderBook.GetBestAsk.
    case_bool_decide as Hsz.
    { apply map_size_empty_iff in Hsz. rewrite Hsz, lookup_empty in Hq. by destruct Hq. }
    cbn [fst snd].
    destruct (fold_min_spec (OrderBook.asks ob) MaxFloat64) as (Hz & Hlb & Hmn).
    cbv zeta in Hz, Hlb, Hmn.
    set (mn := map_fold _ _ _) in *.
    destruct Hmn as [Hmn|[blk Hblk]].
    + specialize (Hlb q Hq). rewrite Hmn in Hlb.
      assert (q = MaxFloat64) as -> by (by apply Qc_le_antisym).
      rewrite Hmn. destruct Hq as [blk Hblk]. by rewrite Hblk.
    + by rewrite Hblk.
  - intros He. apply (getBestOpposite_empty true ob He).
  - intros Hneg. unfold OrderBook.GetBestBid.
    case_bool_decide as Hsz; [done|].
    destruct (fold_max_spec (OrderBook.bids ob) 0%Qc) as (Hz & Hub & Hmx).
    cbv zeta in Hz, Hub, Hmx.
    set (mx := map_fold _ _ _) in *.
    destruct Hmx as [Hmx|Hin].
    + rewrite Hmx. destruct (OrderBook.bids ob !! 0%Qc) as [blk|] eqn:Hblk; [|done].
      specialize (Hneg 0%Qc (ltac:(by eexists))). qc_order.
    + specialize (Hneg mx Hin). qc_order.
Qed.

Lemma shrinks_delete (side : gmap Qc (list loc)) (p : Qc) : shrinks side (delete p side).
Proof.
  intros q b' Hq. destruct (decide (q = p)) as [->|Hne].
  - by rewrite lookup_delete_eq in Hq.
  - rewrite lookup_delete_ne in Hq by done. by exists b'.
Qed.

Lemma DeletePriceBlock_spec (side : gmap Qc (list loc)) (p : Qc) :
  OrderBook.DeletePriceBlock side p = (bool_decide (is_Some (side !! p)), delete p side).
Proof.
  unfold OrderBook.DeletePriceBlock. destruct (side !! p) as [blk|] eqn:Hp.
  - by rewrite bool_decide_eq_true_2 by eauto.
  - rewrite bool_decide_eq_false_2 by (by intros [? ?]). by rewrite delete_id.
Qed.

(** X11.  [DeleteBidBlock] and [DeleteAskBlock] report whether the price
    level existed and remove it whole: afterwards the level is empty on that
    side, every other level and the other side are as before, and a book
    that was well formed and not crossed still is. *)
Theorem delete_block_removes_whole_level (priceLevel : Qc) (ob : OrderBook.t) :
  let b := OrderBook.DeleteBidBlock priceLevel ob in
  let a := OrderBook.DeleteAskBlock priceLevel ob in
  (fst b = true <-> is_Some (OrderBook.bids ob !! priceLevel)) /\
  (fst a = true <-> is_Some (OrderBook.asks ob !! priceLevel)) /\
  OrderBook.bids (snd b) = delete priceLevel (OrderBook.bids ob) /\
  OrderBook.asks (snd b) = OrderBook.asks ob /\
  OrderBook.asks (snd a) = delete priceLevel (OrderBook.asks ob) /\
  OrderBook.bids (snd a) = OrderBook.bids ob /\
  OrderBook.Bids (OrderBook.GetOrdersByPrice priceLevel (snd b)) = [] /\
  OrderBook.Asks (OrderBook.GetOrdersByPrice priceLevel (snd a)) = [] /\
  (bookInv ob -> bookInv (snd b) /\ bookInv (snd a)) /\
  (forall h, wfBook h ob -> wfBook h (snd b) /\ wfBook h (snd a)).
Proof.
  intros b a. subst b a. unfold OrderBook.DeleteBidBlock, OrderBook.DeleteAskBlock.
  rewrite !DeletePriceBlock_spec. cbn [fst snd OrderBook.bids OrderBook.asks].
  rewrite !bool_decide_eq_true.
  assert (forall buy, shrinks (oppositeSide buy ob)
            (oppositeSide buy (OrderBook.mk (delete priceLevel (OrderBook.bids ob))
                                            (OrderBook.asks ob)))) as Hb.
  { intros [|]; cbn; [apply shrinks_refl|apply shrinks_delete]. }
  assert (forall buy, shrinks (oppositeSide buy ob)
            (oppositeSide buy (OrderBook.mk (OrderBook.bids ob)
                                            (delete priceLevel (OrderBook.asks ob))))) as Ha.
  { intros [|]; cbn; [apply shrinks_delete|apply shrinks_refl]. }
  split; [done|]. split; [done|]. split; [done|]. split; [done|].
  split; [done|]. split; [done|].
  split; [unfold OrderBook.GetOrdersByPrice; cbn; by rewrite lookup_delete_eq|].
  split; [unfold OrderBook.GetOrdersByPrice; cbn; by rewrite lookup_delete_eq|].
  split.
  - intros Hinv. split; by apply (bookInv_shrinks ob).
  - intros h Hwf.
    split; [apply (wfBook_shrinks h h ob _ Hwf (heapStable_refl h) Hb)
           |apply (wfBook_shrinks h h ob _ Hwf (heapStable_refl h) Ha)].
Qed.

(** * Further properties of the engine *)

Section EngineMore.
Context {OS TS : Type} `{!OrderStore.t OS} `{!TradeStore.t TS}.
Implicit Types e : Engine.t OS TS.

Lemma generateIDs_S (n : nat) e :
  generateIDs (S n) e =
  (fst (Engine.GenerateOrderID e) :: fst (generateIDs n (snd (Engine.GenerateOrderID e))),
   snd (generateIDs n (snd (Engine.GenerateOrderID e)))).
Proof.
  cbn [generateIDs]. destruct (Engine.GenerateOrderID e) as [id e1]. cbn [fst snd].
  by destruct (generateIDs n e1).
Qed.

Lemma generateIDs_spec (n : nat) e :
  (N.of_nat n + Engine.nextOrderID e < 2 ^ 64)%N ->
  fst (generateIDs n e) = map (fun i => (Engine.nextOrderID e + 1 + N.of_nat i)%N) (seq 0 n) /\
  Engine.nextOrderID (snd (generateIDs n e)) = (Engine.nextOrderID e + N.of_nat n)%N /\
  Engine.heap (snd (generateIDs n e)) = Engine.heap e /\
  Engine.orderBook (snd (generateIDs n e)) = Engine.orderBook e /\
  Engine.orderStore (snd (generateIDs n e)) = Engine.orderStore e /\
  Engine.tradeStore (snd (generateIDs n e)) = Engine.tradeStore e.
Proof.
  revert e. induction n as [|n IH]; intros e Hn.
  - cbn. rewrite N.add_0_r. done.
  - rewrite generateIDs_S. cbn [fst snd].
    assert (((Engine.nextOrderID e + 1) mod 2 ^ 64)%N = (Engine.nextOrderID e + 1)%N) as Hmod.
    { apply N.mod_small. lia. }
    destruct (IH (snd (Engine.GenerateOrderID e))) as (H1 & H2 & H3 & H4 & H5 & H6).
    { cbn. rewrite Hmod. lia. }
    cbn [Engine.GenerateOrderID snd fst Engine.nextOrderID Engine.heap Engine.orderBook
         Engine.orderStore Engine.tradeStore] in *.
    rewrite Hmod in *. rewrite H1, H2, H3, H4, H5, H6.
    split; [|split; [lia|done]].
    cbn [seq map]. f_equal; [lia|].
    rewrite <- seq_shift, map_map. apply map_ext. intros i. lia.
Qed.

(** X12.  [GenerateOrderID] hands out consecutive ids: [n] calls return
    [nextOrderID + 1], ..., [nextOrderID + n], pairwise distinct, as long as
    the counter stays below 2^64, and touch nothing but the counter.  The
    first id of a new engine is 2.  At 2^64 - 1 the counter wraps and the
    next id is 0. *)
Theorem generated_ids_are_consecutive (n : nat) e :
  (N.of_nat n + Engine.nextOrderID e < 2 ^ 64)%N ->
  fst (generateIDs n e) = map (fun i => (Engine.nextOrderID e + 1 + N.of_nat i)%N) (seq 0 n) /\
  NoDup (fst (generateIDs n e)) /\
  (forall id, id ∈ fst (generateIDs n e) -> (Engine.nextOrderID e < id)%N) /\
  snd (generateIDs n e) =
    Engine.mk (Engine.heap e) (Engine.orderBook e) (Engine.nextOrderID e + N.of_nat n)%N
              (Engine.orderStore e) (Engine.tradeStore e) /\
  (forall (orderStore : OS) (tradeStore : TS),
      fst (Engine.GenerateOrderID (Engine.NewEngineWithStores orderStore tradeStore)) = 2%N) /\
  (forall e0 : Engine.t OS TS, Engine.nextOrderID e0 = (2 ^ 64 - 1)%N ->
      fst (Engine.GenerateOrderID e0) = 0%N).
Proof.
  intros Hn. destruct (generateIDs_spec n e Hn) as (H1 & H2 & H3 & H4 & H5 & H6).
  split; [done|]. split; [|split; [|split; [|split]]].
  - rewrite H1. apply NoDup_fmap_2; [|apply NoDup_seq].
    intros i j Hij. lia.
  - intros id. rewrite H1. intros Hid. apply list_elem_of_fmap in Hid as (i & -> & _). lia.
  - destruct (snd (generateIDs n e)) as [h ob c os ts]. cbn in *. by subst.
  - done.
  - intros e0 He0. cbn. rewrite He0. done.
Qed.

Lemma PlaceOrder_unfold_market (l : loc) e :
  Kind (deref (Engine.heap e) l) = MarketOrder ->
  Engine.PlaceOrder l e =
  match Engine.executeMarketOrder l (Engine.TrackOrder l e) with
  | Some (trades, e1) =>
      Some (trades,
            Engine.UntrackOrder (ID (deref (Engine.heap (Engine.addTrades trades e1)) l))
                                (Engine.addTrades trades e1))
  | None => None
  end.
Proof.
  intros Hk. unfold Engine.PlaceOrder. rewrite Hk.
  rewrite bool_decide_eq_true_2 by done.
  change (Engine.heap (Engine.TrackOrder l e)) with (Engine.heap e). rewrite Hk.
  by destruct (Engine.executeMarketOrder l (Engine.TrackOrder l e)) as [[trades e1]|].
Qed.

Lemma PlaceOrder_unfold_limit (l : loc) e :
  Kind (deref (Engine.heap e) l) = LimitOrder ->
  Engine.PlaceOrder l e =
  match Engine.executeLimitOrder l (Engine.TrackOrder l e) with
  | Some (trades, e1) => Some (trades, Engine.addTrades trades e1)
  | None => None
  end.
Proof.
  intros Hk. unfold Engine.PlaceOrder. rewrite Hk.
  rewrite bool_decide_eq_true_2 by done.
  change (Engine.heap (Engine.TrackOrder l e)) with (Engine.heap e). rewrite Hk.
  by destruct (Engine.executeLimitOrder l (Engine.TrackOrder l e)) as [[trades e1]|].
Qed.

Lemma matchLoop_done (fuel : nat) getBestPrice deleteOrder canMatch
    (l : loc) (rem : Z) (trades : list Trade) e :
  rem <= 0 ->
  Engine.matchLoop fuel getBestPrice deleteOrder canMatch l rem trades e
  = Some (rem, trades, e).
Proof.
  intros Hrem. rewrite matchLoop_unfold.
  by replace (0 <? rem) with false by (symmetry; lia).
Qed.

(** X13.  An order whose size is not positive never trades and never
    rests, although [PlaceOrder] does not check [IsValid]: for a MARKET or a
    LIMIT order with [Size <= 0] the call returns no trade and leaves the
    book, the orders and the trade history as they were; the order is saved
    to the order store and removed from it again. *)
Theorem nonpositive_size_never_trades (l : loc) e :
  let o := deref (Engine.heap e) l in
  Kind o = MarketOrder \/ Kind o = LimitOrder ->
  Size o <= 0 ->
  Engine.PlaceOrder l e =
  Some ([], Engine.mk (Engine.heap e) (Engine.orderBook e) (Engine.nextOrderID e)
                      (snd (OrderStore.Remove (ID o)
                              (snd (OrderStore.Save (Engine.heap e) l (Engine.orderStore e)))))
                      (Engine.tradeStore e)).
Proof.
  intros o Hk Hsz. destruct Hk as [Hk|Hk].
  - rewrite PlaceOrder_unfold_market by done.
    unfold Engine.executeMarketOrder.
    change (Engine.heap (Engine.TrackOrder l e)) with (Engine.heap e).
    destruct (bool_decide (Side (deref (Engine.heap e) l) = Buy));
      rewrite matchLoop_done by done; done.
  - rewrite PlaceOrder_unfold_limit by done.
    unfold Engine.executeLimitOrder.
    change (Engine.heap (Engine.TrackOrder l e)) with (Engine.heap e).
    destruct (bool_decide (Side (deref (Engine.heap e) l) = Buy));
      rewrite matchLoop_done by done;
      replace (0 <? Size (deref (Engine.heap e) l)) with false by (symmetry; unfold o in Hsz; lia);
      done.
Qed.

End EngineMore.

(** ** Matching does not depend on the stores *)

Section TwoEngines.
Context {OS TS OS' TS' : Type}.
Context `{!OrderStore.t OS} `{!TradeStore.t TS} `{!OrderStore.t OS'} `{!TradeStore.t TS'}.

Lemma matchLoop_sameBook (fuel : nat)
    (getBestPrice : OrderBook.t -> Qc * list loc)
    (deleteOrder : list Order -> N -> OrderBook.t -> bool * OrderBook.t)
    (canMatch : Qc -> Qc -> bool) (l : loc) (rem : Z) (trades : list Trade)
    (e : Engine.t OS TS) (e' : Engine.t OS' TS') :
  sameBook e e' ->
  match Engine.matchLoop fuel getBestPrice deleteOrder canMatch l rem trades e,
        Engine.matchLoop fuel getBestPrice deleteOrder canMatch l rem trades e' with
  | Some (r, ts, e1), Some (r', ts', e1') => r = r' /\ ts = ts' /\ sameBook e1 e1'
  | None, None => True
  | _, _ => False
  end.
Proof.
  revert rem trades e e'. induction fuel as [|fuel IH]; intros rem trades e e' [Hh Hb].
  - rewrite !matchLoop_unfold. by destruct (0 <? rem).
  - rewrite (matchLoop_unfold (S fuel) _ _ _ l rem trades e),
            (matchLoop_unfold (S fuel) _ _ _ l rem trades e').
    destruct (0 <? rem); [|done].
    rewrite <- Hb, <- Hh.
    destruct (getBestPrice (Engine.orderBook e)) as [bestPrice [|o rest]]; [done|].
    destruct (negb (canMatch (Price (deref (Engine.heap e) l)) bestPrice)); [done|].
    unfold matchStep. rewrite <- Hh.
    cbn [Engine.heap Engine.setHeap Engine.orderBook]. rewrite <- Hb.
    destruct (Size (deref (storeSize (Engine.heap e) o _) o) =? 0).
    + destruct (deleteOrder _ _ (Engine.orderBook e)) as [ok ob].
      apply IH. done.
    + apply IH. done.
Qed.

Lemma addTrades_sameBook (trades trades' : list Trade)
    (e : Engine.t OS TS) (e' : Engine.t OS' TS') :
  sameBook e e' -> sameBook (Engine.addTrades trades e) (Engine.addTrades trades' e').
Proof.
  intros [Hh Hb].
  destruct (addTrades_frame trades e) as (Ha & Hb' & _).
  destruct (addTrades_frame trades' e') as (Ha' & Hb'' & _).
  split; congruence.
Qed.


End TwoEngines.

(** * Properties of the API layer *)

Section Api.
Context (TrimSpace ToLower : string -> string).

Lemma convertOrderType_range (s : string) :
  let k := handlers.convertOrderType TrimSpace ToLower s in
  (k = MarketOrder /\ ToLower (TrimSpace s) = "market") \/
  (k = LimitOrder /\ ToLower (TrimSpace s) = "limit") \/
  (k = NoActionOrder /\ ToLower (TrimSpace s) <> "market" /\ ToLower (TrimSpace s) <> "limit").
Proof.
  unfold handlers.convertOrderType. cbv zeta.
  repeat case_bool_decide; auto.
Qed.

Lemma convertSide_range (s : string) :
  let k := handlers.convertSide TrimSpace ToLower s in
  (k = Buy /\ ToLower (TrimSpace s) = "buy") \/
  (k = Sell /\ ToLower (TrimSpace s) = "sell") \/
  (k = NoActionSide /\ ToLower (TrimSpace s) <> "buy" /\ ToLower (TrimSpace s) <> "sell").
Proof.
  unfold handlers.convertSide. cbv zeta.
  repeat case_bool_decide; auto.
Qed.

Lemma Validate_status (req : models.SubmitOrderRequest.t) (httpErr : models.HTTPError.t) :
  models.SubmitOrderRequest.Validate TrimSpace ToLower req = Some httpErr ->
  models.HTTPError.StatusCode httpErr = models.StatusBadRequest.
Proof.
  unfold models.SubmitOrderRequest.Validate. cbv zeta.
  repeat match goal with
         | |- context [if ?b then _ else _] => destruct b
         end; intros [= <-]; done.
Qed.

Lemma Validate_IsValid (req : models.SubmitOrderRequest.t) (orderID : N) (now : Z) :
  models.SubmitOrderRequest.Validate TrimSpace ToLower req = None <->
  TrimSpace (models.SubmitOrderRequest.UserID req) <> "" /\
  IsValid (orderOfRequest TrimSpace ToLower orderID now req) = true.
Proof.
  unfold models.SubmitOrderRequest.Validate, IsValid, orderOfRequest. cbv zeta.
  cbn [Kind Side Size Price].
  destruct (convertOrderType_range (models.SubmitOrderRequest.OrderType req))
    as [[-> Hk]|[[-> Hk]|[-> [Hk1 Hk2]]]];
  destruct (convertSide_range (models.SubmitOrderRequest.Side req))
    as [[-> Hs]|[[-> Hs]|[-> [Hs1 Hs2]]]];
  try rewrite Hk; try rewrite Hs;
  repeat case_bool_decide; try congruence; cbn [orb andb negb];
  destruct (models.SubmitOrderRequest.Quantity req <=? 0);
  try destruct (Qc_leb (models.SubmitOrderRequest.Price req) 0);
  cbn; split; try done; try (by intros [? ?]); try tauto.
Qed.

Lemma validate_IsValid_kind (req : models.SubmitOrderRequest.t) (orderID : N) (now : Z) :
  models.SubmitOrderRequest.Validate TrimSpace ToLower req = None ->
  let o := orderOfRequest TrimSpace ToLower orderID now req in
  IsValid o = true /\ (Kind o = MarketOrder \/ Kind o = LimitOrder).
Proof.
  intros Hv o. apply (Validate_IsValid req orderID now) in Hv as [_ Hv]. fold o in Hv.
  split; [done|]. unfold o, orderOfRequest. cbn [Kind].
  destruct (convertOrderType_range (models.SubmitOrderRequest.OrderType req))
    as [[Hk _]|[[Hk _]|[Hk _]]]; auto.
  unfold IsValid, o, orderOfRequest in Hv. cbn [Kind] in Hv. rewrite Hk in Hv. done.
Qed.

(** X15.  The request validation of the API and the validity predicate of
    the engine agree: [SubmitOrderRequest.Validate] accepts a request
    exactly when its user id is not blank and the order the handlers build
    from it satisfies [Order.IsValid].  An accepted request is a MARKET or
    LIMIT order to BUY or SELL; a rejected one is answered with status
    400. *)
Theorem validate_accepts_exactly_valid_orders (req : models.SubmitOrderRequest.t)
    (orderID : N) (now : Z) :
  let o := orderOfRequest TrimSpace ToLower orderID now req in
  (models.SubmitOrderRequest.Validate TrimSpace ToLower req = None <->
   TrimSpace (models.SubmitOrderRequest.UserID req) <> "" /\ IsValid o = true) /\
  (models.SubmitOrderRequest.Validate TrimSpace ToLower req = None ->
   (Kind o = MarketOrder \/ Kind o = LimitOrder) /\ (Side o = Buy \/ Side o = Sell) /\
   0 < Size o /\ (Kind o = LimitOrder -> (0 < Price o)%Qc)) /\
  (forall httpErr,
     models.SubmitOrderRequest.Validate TrimSpace ToLower req = Some httpErr ->
     models.HTTPError.StatusCode httpErr = 400).
Proof.
  intros o. split; [apply Validate_IsValid|]. split; [|apply Validate_status].
  intros Hv. apply (Validate_IsValid req orderID now) in Hv as [_ Hv]. fold o in Hv.
  split; [|split; [|split]].
  - unfold o, orderOfRequest. cbn [Kind].
    destruct (convertOrderType_range (models.SubmitOrderRequest.OrderType req))
      as [[Hk _]|[[Hk _]|[Hk _]]]; auto.
    unfold IsValid, o, orderOfRequest in Hv. cbn [Kind] in Hv. rewrite Hk in Hv. done.
  - unfold o, orderOfRequest. cbn [Side].
    destruct (convertSide_range (models.SubmitOrderRequest.Side req))
      as [[Hk _]|[[Hk _]|[Hk _]]]; auto.
    unfold IsValid, o, orderOfRequest in Hv. cbn [Kind Side] in Hv. rewrite Hk in Hv.
    by rewrite orb_true_r in Hv.
  - by apply IsValid_size.
  - by apply IsValid_limit_price.
Qed.

End Api.

Lemma limitOf_range (def max : Z) (limitStr : string) :
  1 <= def <= max -> 1 <= handlers.limitOf def max limitStr <= max.
Proof.
  intros Hd. unfold handlers.limitOf.
  case_bool_decide; [|lia].
  destruct (strconv.Atoi limitStr) as [n|]; [|lia].
  destruct (Z.ltb_spec 0 n); [|lia].
  destruct (Z.ltb_spec max n); lia.
Qed.

Lemma GetRecent_newest_first (limit : Z) (s : InMemoryTradeStore.t) :
  0 < limit ->
  reverse (fst (InMemoryTradeStore.GetRecent limit s)) =
  take (Z.to_nat limit) (reverse (InMemoryTradeStore.trades s)).
Proof.
  intros Hl. unfold InMemoryTradeStore.GetRecent. cbn [fst].
  set (ts := InMemoryTradeStore.trades s).
  replace (limit <=? 0) with false by (symmetry; lia). cbn [orb].
  rewrite reverse_drop.
  destruct (Z.ltb_spec (Z.of_nat (length ts)) limit) as [Hlt|Hge].
  - rewrite Z.sub_diag. cbn. rewrite Nat.sub_0_r.
    rewrite !take_ge; [done|rewrite length_reverse; lia|rewrite length_reverse; lia].
  - f_equal. lia.
Qed.

(** X16.  The [limit] query parameter is clamped: whatever text is sent,
    the handlers work with a limit between 1 and 1000, 100 when the
    parameter is absent, not a number or not positive.  [GetAllOrdersHandler]
    returns at most that many orders, and over the in-memory trade store
    [GetTradesHandler] returns the most recent trades, newest first, at most
    that many; [Count] is the number of entries returned. *)
Theorem list_handlers_respect_the_limit (TrimSpace ToLower : string -> string)
    (userID sideStr limitStr : string) :
  let limit := handlers.limitOf 100 1000 limitStr in
  1 <= limit <= 1000 /\
  (limitStr = "" \/ strconv.Atoi limitStr = None -> limit = 100) /\
  (forall n, strconv.Atoi limitStr = Some n ->
             limit = if 0 <? n then Z.min n 1000 else 100) /\
  (forall (OS TS : Type) (I : OrderStore.t OS) (J : TradeStore.t TS) (Q : OrderQueries.t OS)
          (e : Engine.t OS TS),
      let r := handlers.GetAllOrdersHandler TrimSpace ToLower userID sideStr limitStr e in
      models.GetOrdersResponse.Count r = Z.of_nat (length (models.GetOrdersResponse.Orders r)) /\
      models.GetOrdersResponse.Count r <= limit) /\
  (forall (OS : Type) (I : OrderStore.t OS) (e : Engine.t OS InMemoryTradeStore.t),
      let r := handlers.GetTradesHandler limitStr e in
      models.GetTradesResponse.Trades r =
        handlers.convertTradesToDTO
          (take (Z.to_nat limit)
                (reverse (InMemoryTradeStore.trades (Engine.tradeStore e)))) /\
      models.GetTradesResponse.Count r = Z.of_nat (length (models.GetTradesResponse.Trades r)) /\
      models.GetTradesResponse.Count r <= limit).
Proof.
  intros limit.
  assert (1 <= limit <= 1000) as Hrange by (apply limitOf_range; lia).
  split; [done|]. split; [|split; [|split]].
  - intros [->|Hn]; [done|]. unfold limit, handlers.limitOf.
    case_bool_decide; [|done]. by rewrite Hn.
  - intros n Hn. unfold limit, handlers.limitOf. rewrite Hn.
    case_bool_decide as He.
    + destruct (0 <? n); [|done]. destruct (Z.ltb_spec 1000 n); lia.
    + subst limitStr. by cbn in Hn.
  - intros OS TS I J Q e r. subst r. unfold handlers.GetAllOrdersHandler. cbv zeta.
    fold limit. cbn [models.GetOrdersResponse.Count models.GetOrdersResponse.Orders].
    split; [done|]. rewrite length_map.
    match goal with
    | |- context [if limit <? Z.of_nat (length ?os) then _ else _] => set (orders := os)
    end.
    destruct (Z.ltb_spec limit (Z.of_nat (length orders))).
    + rewrite length_take. lia.
    + lia.
  - intros OS I e r. subst r. unfold handlers.GetTradesHandler. cbv zeta.
    fold limit. cbn [models.GetTradesResponse.Count models.GetTradesResponse.Trades].
    unfold Engine.GetRecentTrades.
    change (TradeStore.GetRecent limit (Engine.tradeStore e))
      with (InMemoryTradeStore.GetRecent limit (Engine.tradeStore e)).
    rewrite GetRecent_newest_first by lia.
    split; [done|]. split; [done|].
    unfold handlers.convertTradesToDTO. rewrite length_map, length_take. lia.
Qed.

Section ApiEngine.
Context {OS TS : Type} `{!OrderStore.t OS} `{!TradeStore.t TS}.
Context (TrimSpace ToLower : string -> string).
Implicit Types e : Engine.t OS TS.

Lemma PlaceOrder_total (l : loc) e : is_Some (Engine.PlaceOrder l e).
Proof.
  unfold Engine.PlaceOrder. cbv zeta.
  set (e0 := if bool_decide _ then Engine.TrackOrder l e else e).
  destruct (Kind (deref (Engine.heap e0) l)); try (by eexists).
  - destruct (executeMarketOrder_spec l e0) as (rem' & trades' & e' & _ & ->). by eexists.
  - destruct (executeLimitOrder_spec l e0) as (rem' & trades' & e' & _ & ->). by eexists.
Qed.

Lemma Submit_total (o : Order) e : is_Some (Engine.Submit o e).
Proof. unfold Engine.Submit. cbn. apply PlaceOrder_total. Qed.

Lemma submit_Submit (req : models.SubmitOrderRequest.t) (now : Z) e :
  let id := fst (Engine.GenerateOrderID e) in
  handlers.submit TrimSpace ToLower req now e =
  match Engine.Submit (orderOfRequest TrimSpace ToLower id now req)
                      (snd (Engine.GenerateOrderID e)) with
  | Some (trades, e') => Some (id, trades, e')
  | None => None
  end.
Proof. done. Qed.

Lemma resting_id_cancels (id : N) e :
  id ∈ idsOf (Engine.heap e) (OrderBook.allOrders (Engine.orderBook e)) ->
  fst (Engine.CancelOrder id e) = true.
Proof.
  intros Hid. unfold Engine.CancelOrder, OrderBook.DeleteOrderById,
                     OrderBook.DeleteBidOrder, OrderBook.DeleteAskOrder.
  destruct (OrderBook.deleteInSide (Engine.heap e) (OrderBook.bids (Engine.orderBook e)) id)
    as [[|] bids'] eqn:Hb; [done|].
  cbn [OrderBook.asks OrderBook.bids].
  destruct (OrderBook.deleteInSide (Engine.heap e) (OrderBook.asks (Engine.orderBook e)) id)
    as [[|] asks'] eqn:Ha; [done|].
  exfalso. unfold OrderBook.allOrders in Hid. rewrite idsOf_app in Hid.
  apply elem_of_app in Hid as [Hid|Hid];
    apply list_elem_of_fmap in Hid as (l & -> & Hl);
    pose proof (deleteInSide_found (Engine.heap e) _ l Hl) as Hf.
  - by rewrite Hb in Hf.
  - by rewrite Ha in Hf.
Qed.

(** X17.  [CancelOrderHandler] answers 400 when the path has fewer than
    five parts or its last part is not a decimal [uint64], 404 when no
    resting order has the id, and 200 otherwise; the engine is touched in
    the last case only, and then one order has left the book. *)
Theorem cancel_handler_statuses (path : string) e :
  let r := handlers.CancelOrderHandler path e in
  match handlers.orderIDOfPath path with
  | inl httpErr =>
      r = (inl httpErr, e) /\ models.HTTPError.StatusCode httpErr = 400
  | inr orderID =>
      (orderID ∉ idsOf (Engine.heap e) (OrderBook.allOrders (Engine.orderBook e)) ->
       r = (inl (models.ErrOrderNotFoundError orderID), e) /\ statusOf (fst r) = 404) /\
      (orderID ∈ idsOf (Engine.heap e) (OrderBook.allOrders (Engine.orderBook e)) ->
       r = (inr (models.CancelOrderResponse.mk
                   (models.BaseResponse.mk true "Order cancelled successfully" None) orderID),
            snd (Engine.CancelOrder orderID e)) /\
       statusOf (fst r) = 200 /\
       S (length (OrderBook.allOrders (Engine.orderBook (snd r))))
       = length (OrderBook.allOrders (Engine.orderBook e)))
  end.
Proof.
  intros r. subst r. unfold handlers.CancelOrderHandler.
  destruct (handlers.orderIDOfPath path) as [httpErr|orderID] eqn:Hp.
  - split; [done|]. unfold handlers.orderIDOfPath in Hp. cbv zeta in Hp.
    destruct (_ <? 5); [by injection Hp as <-|].
    destruct (strconv.ParseUint _); [done|]. by injection Hp as <-.
  - split.
    + intros Hid. by rewrite CancelOrder_absent.
    + intros Hid. pose proof (resting_id_cancels orderID e Hid) as Hc.
      destruct (Engine.CancelOrder orderID e) as [c e'] eqn:He. cbn [fst] in Hc. subst c.
      cbn [negb fst snd]. split; [done|]. split; [done|].
      unfold Engine.CancelOrder in He.
      destruct (OrderBook.DeleteOrderById (Engine.heap e) orderID (Engine.orderBook e))
        as [d ob] eqn:Hd.
      destruct d; [|done]. injection He as <-.
      change (Engine.orderBook (Engine.UntrackOrder orderID (Engine.setOrderBook ob e))) with ob.
      unfold OrderBook.DeleteOrderById, OrderBook.DeleteBidOrder, OrderBook.DeleteAskOrder in Hd.
      unfold OrderBook.allOrders. rewrite !length_app.
      destruct (OrderBook.deleteInSide (Engine.heap e) (OrderBook.bids (Engine.orderBook e))
                  orderID) as [[|] bids'] eqn:Hb.
      * injection Hd as <-. cbn [OrderBook.bids OrderBook.asks].
        apply deleteInSide_length in Hb. lia.
      * cbn [OrderBook.asks OrderBook.bids] in Hd.
        destruct (OrderBook.deleteInSide (Engine.heap e) (OrderBook.asks (Engine.orderBook e))
                    orderID) as [[|] asks'] eqn:Ha; [|done].
        injection Hd as <-. cbn [OrderBook.bids OrderBook.asks].
        apply deleteInSide_length in Ha.
        assert (bids' = OrderBook.bids (Engine.orderBook e)) as ->.
        { unfold OrderBook.deleteInSide in Hb.
          destruct (OrderBook.findOrderInBookSide _ _ _) as [[[? ?] ?]|]; [done|].
          by injection Hb. }
        lia.
Qed.

(** X18.  [SubmitOrderHandler] always answers.  A body that does not
    decode or a request that [Validate] rejects is answered with status 400
    and leaves the engine as it was, id counter included.  An accepted
    request takes the next id, and the response carries that id and the
    trades of [PlaceOrder] on the order built from the request, which
    satisfies [IsValid]. *)
Theorem submit_handler_outcome (body : string + models.SubmitOrderRequest.t) (now : Z) e :
  exists r e',
    handlers.SubmitOrderHandler TrimSpace ToLower body now e = Some (r, e') /\
    match body with
    | inl _ => statusOf r = 400 /\ e' = e
    | inr req =>
        if accepted TrimSpace ToLower req then
          let id := ((Engine.nextOrderID e + 1) mod 2 ^ 64)%N in
          let o := orderOfRequest TrimSpace ToLower id now req in
          IsValid o = true /\
          exists trades,
            Engine.Submit o (snd (Engine.GenerateOrderID e)) = Some (trades, e') /\
            r = inr (models.SubmitOrderResponse.mk
                       (models.BaseResponse.mk true "Order submitted successfully" None)
                       id (handlers.convertTradesToDTO trades)) /\
            statusOf r = 200
        else statusOf r = 400 /\ e' = e
    end.
Proof.
  destruct body as [err|req].
  - by eexists _, _.
  - unfold handlers.SubmitOrderHandler, accepted.
    destruct (models.SubmitOrderRequest.Validate TrimSpace ToLower req) as [httpErr|] eqn:Hv.
    + rewrite bool_decide_eq_false_2 by done.
      eexists _, _. split; [done|]. split; [|done].
      cbn. by apply (Validate_status TrimSpace ToLower req).
    + rewrite bool_decide_eq_true_2 by done.
      rewrite submit_Submit. cbv zeta.
      change (fst (Engine.GenerateOrderID e)) with ((Engine.nextOrderID e + 1) mod 2 ^ 64)%N.
      set (id := ((Engine.nextOrderID e + 1) mod 2 ^ 64)%N).
      destruct (Submit_total (orderOfRequest TrimSpace ToLower id now req)
                             (snd (Engine.GenerateOrderID e))) as [[trades e'] Hs].
      rewrite Hs. eexists _, _. split; [done|]. split.
      * by apply (Validate_IsValid TrimSpace ToLower req id now).
      * exists trades. done.
Qed.

End ApiEngine.

Section ApiBatch.
Context {OS TS : Type} `{!OrderStore.t OS} `{!TradeStore.t TS}.
Context (TrimSpace ToLower : string -> string).
Implicit Types e : Engine.t OS TS.

Lemma countIf_cons {A : Type} (p : A -> bool) (x : A) (l : list A) :
  countIf p (x :: l) = (if p x then 1 else 0) + countIf p l.
Proof.
  unfold countIf. destruct (p x) eqn:Hp.
  - rewrite filter_cons_True by done. cbn [length]. lia.
  - rewrite filter_cons_False by (by rewrite Hp). lia.
Qed.

Lemma batchLoop_spec (reqs : list models.SubmitOrderRequest.t) (now : Z -> Z) :
  forall (i : Z) (results : list models.BatchOrderResult.t) (successful failed : Z) e,
  exists new e',
    handlers.batchLoop TrimSpace ToLower i reqs now results successful failed e =
      Some (results ++ new,
            successful + countIf (accepted TrimSpace ToLower) reqs,
            failed + countIf (fun r => negb (accepted TrimSpace ToLower r)) reqs, e') /\
    submitEach TrimSpace ToLower i reqs now e = Some e' /\
    length new = length reqs /\
    forall (j : nat) r, new !! j = Some r ->
      models.BatchOrderResult.Index r = i + Z.of_nat j /\
      exists req, reqs !! j = Some req /\
        models.BatchOrderResult.Success r = accepted TrimSpace ToLower req.
Proof.
  induction reqs as [|req reqs IH]; intros i results successful failed e.
  - exists [], e. cbn. rewrite app_nil_r, !Z.add_0_r. repeat split; try done.
  - cbn [handlers.batchLoop submitEach handlers.SubmitOrderHandler].
    rewrite !countIf_cons. unfold accepted at 1 3.
    destruct (models.SubmitOrderRequest.Validate TrimSpace ToLower req) as [httpErr|] eqn:Hv.
    + rewrite bool_decide_eq_false_2 by done. cbn [negb].
      destruct (IH (i + 1) (results ++ [models.BatchOrderResult.mk i false 0 [] (Some (models.HTTPError.Error httpErr))])
                   successful (failed + 1) e) as (new & e' & Hb & Hs & Hlen & Hres).
      eexists (_ :: new), e'. rewrite Hb, Hs.
      split; [|split; [done|split; [cbn; by rewrite Hlen|]]].
      * rewrite <- app_assoc, !Z.add_0_l, !Z.add_assoc. done.
      * intros [|j] r Hr.
        -- injection Hr as <-. cbn. split; [lia|]. exists req. split; [done|].
           unfold accepted. by rewrite Hv, bool_decide_eq_false_2.
        -- cbn in Hr. destruct (Hres j r Hr) as (Hi & req' & Hreq & Hsucc).
           split; [lia|]. by exists req'.
    + rewrite bool_decide_eq_true_2 by done. cbn [negb].
      rewrite submit_Submit. cbv zeta.
      destruct (Submit_total (orderOfRequest TrimSpace ToLower (fst (Engine.GenerateOrderID e)) (now i) req)
                             (snd (Engine.GenerateOrderID e))) as [[trades e1] He1].
      rewrite He1.
      destruct (IH (i + 1)
                   (results ++ [models.BatchOrderResult.mk i true (fst (Engine.GenerateOrderID e))
                                  (handlers.convertTradesToDTO trades) None])
                   (successful + 1) failed e1) as (new & e' & Hb & Hs & Hlen & Hres).
      eexists (_ :: new), e'. rewrite Hb, Hs.
      split; [|split; [done|split; [cbn; by rewrite Hlen|]]].
      * rewrite <- app_assoc, !Z.add_0_l, !Z.add_assoc. done.
      * intros [|j] r Hr.
        -- injection Hr as <-. cbn. split; [lia|]. exists req. split; [done|].
           unfold accepted. by rewrite Hv, bool_decide_eq_true_2.
        -- cbn in Hr. destruct (Hres j r Hr) as (Hi & req' & Hreq & Hsucc).
           split; [lia|]. by exists req'.
Qed.

Lemma countIf_negb {A : Type} (p : A -> bool) (l : list A) :
  countIf p l + countIf (fun x => negb (p x)) l = Z.of_nat (length l).
Proof.
  induction l as [|x l IH]; [done|].
  rewrite !countIf_cons. cbn [length]. destruct (p x); cbn [negb]; lia.
Qed.

(** X19.  [BatchOrderHandler] rejects an empty batch and a batch of more
    than 1000 requests with status 400, without touching the engine.
    Otherwise it answers 200 and leaves the engine in the state that
    [SubmitOrderHandler], called on each request in turn, would leave.  There
    is one result per request, in request order; a result is a success
    exactly when the request passes [Validate]; and the summary counts add
    up: [Successful + Failed = Total], the number of requests. *)
Theorem batch_is_a_sequence_of_submits (req : models.BatchOrderRequest.t) (now : Z -> Z) e :
  let reqs := models.BatchOrderRequest.Orders req in
  (reqs = [] \/ (1000 < length reqs)%nat ->
   exists httpErr,
     handlers.BatchOrderHandler TrimSpace ToLower (inr req) now e = Some (inl httpErr, e) /\
     models.HTTPError.StatusCode httpErr = 400) /\
  (reqs <> [] -> (length reqs <= 1000)%nat ->
   exists resp e',
     handlers.BatchOrderHandler TrimSpace ToLower (inr req) now e = Some (inr resp, e') /\
     submitEach TrimSpace ToLower 0 reqs now e = Some e' /\
     length (models.BatchOrderResponse.Results resp) = length reqs /\
     (forall (j : nat) r, models.BatchOrderResponse.Results resp !! j = Some r ->
        models.BatchOrderResult.Index r = Z.of_nat j /\
        exists rq, reqs !! j = Some rq /\
          models.BatchOrderResult.Success r = accepted TrimSpace ToLower rq) /\
     let s := models.BatchOrderResponse.Summary resp in
     models.BatchOrderSummary.Total s = Z.of_nat (length reqs) /\
     models.BatchOrderSummary.Successful s = countIf (accepted TrimSpace ToLower) reqs /\
     models.BatchOrderSummary.Failed s
       = countIf (fun r => negb (accepted TrimSpace ToLower r)) reqs /\
     models.BatchOrderSummary.Successful s + models.BatchOrderSummary.Failed s
       = models.BatchOrderSummary.Total s).
Proof.
  intros reqs. unfold handlers.BatchOrderHandler, models.BatchOrderRequest.Validate.
  fold reqs. cbv zeta. split.
  - intros [Hnil|Hbig].
    + rewrite Hnil. cbn. by eexists.
    + destruct (Z.eqb_spec (Z.of_nat (length reqs)) 0); [lia|].
      replace (1000 <? Z.of_nat (length reqs)) with true by (symmetry; lia).
      by eexists.
  - intros Hne Hle.
    destruct (Z.eqb_spec (Z.of_nat (length reqs)) 0) as [Hz|_].
    { destruct reqs; [done|cbn in Hz; lia]. }
    replace (1000 <? Z.of_nat (length reqs)) with false by (symmetry; lia).
    destruct (batchLoop_spec reqs now 0 [] 0 0 e) as (new & e' & Hb & Hs & Hlen & Hres).
    rewrite Hb. cbn [app]. eexists _, e'. split; [done|].
    cbn [models.BatchOrderResponse.Results models.BatchOrderResponse.Summary
         models.BatchOrderSummary.Total models.BatchOrderSummary.Successful
         models.BatchOrderSummary.Failed].
    split; [done|]. split; [done|]. split.
    + intros j r Hr. destruct (Hres j r Hr) as (Hi & rq & Hrq & Hsucc).
      split; [lia|]. by exists rq.
    + rewrite !Z.add_0_l. split; [done|]. split; [done|]. split; [done|].
      apply countIf_negb.
Qed.

End ApiBatch.

(** * The order store follows the book *)

Lemma length_removeFirst_elem (id : N) (ids : list N) :
  id ∈ ids -> S (length (InMemoryOrderStore.removeFirst id ids)) = length ids.
Proof.
  induction ids as [|a ids IH]; intros Hin; [inversion Hin|].
  cbn [InMemoryOrderStore.removeFirst]. case_bool_decide; [done|].
  apply elem_of_cons in Hin as [->|Hin]; [done|]. cbn [length]. by rewrite IH.
Qed.

Lemma idsOf_NoDup_locs (h : list Order) (ls : list loc) : NoDup (idsOf h ls) -> NoDup ls.
Proof. apply NoDup_fmap_1. Qed.

Lemma elem_of_idsOf_inv (h : list Order) (ls : list loc) (id : N) :
  id ∈ idsOf h ls <-> exists l, l ∈ ls /\ ID (deref h l) = id.
Proof.
  unfold idsOf. rewrite list_elem_of_fmap. split; intros (l & H1 & H2); exists l; done.
Qed.

Lemma NoDup_idsOf_inj (h : list Order) (ls : list loc) (a b : loc) :
  NoDup (idsOf h ls) -> a ∈ ls -> b ∈ ls -> ID (deref h a) = ID (deref h b) -> a = b.
Proof.
  induction ls as [|x ls IH]; intros Hnd Ha Hb Heq; [inversion Ha|].
  cbn [idsOf map] in Hnd. apply NoDup_cons in Hnd as [Hx Hnd].
  apply elem_of_cons in Ha as [->|Ha]; apply elem_of_cons in Hb as [->|Hb]; [done| | |by apply IH].
  - exfalso. apply Hx. rewrite Heq. by apply elem_of_idsOf.
  - exfalso. apply Hx. rewrite <- Heq. by apply elem_of_idsOf.
Qed.

Section Tracking.
Context {TS : Type} `{!TradeStore.t TS}.
Implicit Types e : Engine.t InMemoryOrderStore.t TS.

(** In a state in step, the queue of the store is as long as the book. *)
Lemma inStep_length e :
  inStep e ->
  length (InMemoryOrderStore.orderIDs (Engine.orderStore e))
  = length (OrderBook.allOrders (Engine.orderBook e)).
Proof.
  intros ((Hnd & _ & _) & Htr & (Hq & Hdom & _)).
  rewrite <- (length_map (fun l => ID (deref (Engine.heap e) l))
                         (OrderBook.allOrders (Engine.orderBook e))).
  apply Permutation_length, NoDup_Permutation; [done|done|].
  intros id. rewrite Hdom. fold (idsOf (Engine.heap e) (OrderBook.allOrders (Engine.orderBook e))).
  rewrite elem_of_idsOf_inv. split.
  - intros [l Hl]. apply Htr in Hl. by exists l.
  - intros (l & Hl). exists l. by apply Htr.
Qed.

Lemma loopInv_step (buy : bool) (l : loc) (id : N) (h0 : list Order) (m : Z)
    (o : loc) (p : Qc) (rest : list loc) (rem : Z) (trades : list Trade) e
    (rem' : Z) (trades' : list Trade) e' :
  loopInv l id h0 m e ->
  getBestOpposite buy (Engine.orderBook e) = (p, o :: rest) ->
  matchStep (deleteOpposite buy) l o rem trades e = (rem', trades', e') ->
  loopInv l id h0 m e'.
Proof.
  intros (Hst & Hwf & Hfresh & Htr & Hq & Hm) Hbest Hstep.
  pose proof (head_in_opposite buy _ p o rest Hbest) as Ho.
  pose proof (getBestOpposite_block buy _ p o rest Hbest) as Hblk.
  destruct (matchStep_spec buy l o rem trades e Ho) as (e1 & Heq & Hh & _ & _ & Hown & Hcase).
  rewrite Hstep in Heq. injection Heq as _ _ ->.
  set (h' := storeSize (Engine.heap e) o _) in *.
  assert (heapStable (Engine.heap e) h') as Hst' by apply heapStable_storeSize.
  assert (forall ls, idsOf h' ls = idsOf (Engine.heap e) ls) as Hids
    by (intros ls; by apply heapStable_idsOf).
  destruct Hcase as [(_ & Hb & Hs)|(_ & Hdel & Hs)].
  - (* the resting order is filled in part: the book and the store stay *)
    unfold loopInv. rewrite Hh, Hb, Hs.
    split; [by apply (heapStable_trans _ (Engine.heap e))|].
    split; [apply (wfBook_shrinks _ _ _ _ Hwf Hst' (fun b => shrinks_refl _))|].
    split; [by rewrite Hids|]. split; [|done].
    intros id' l'. rewrite (Htr id' l'). by rewrite (heapStable_ID _ _ l' Hst').
  - (* the resting order is filled: it leaves the book and the store *)
    destruct Hwf as (Hnd & Halloc & Hne).
    assert (NoDup (idsOf h' (OrderBook.sideOrders (oppositeSide buy (Engine.orderBook e)))))
      as Hndo.
    { rewrite Hids. rewrite (idsOf_Permutation _ _ _ (allOrders_Permutation buy _)) in Hnd.
      rewrite idsOf_app in Hnd. by apply NoDup_app in Hnd as (_ & _ & Hnd). }
    rewrite <- (ID_storeSize (Engine.heap e) o o _ : ID (deref h' o) = _) in Hdel, Hs.
    rewrite (deleteInSide_unique h' _ p (o :: rest) 0 o Hndo Hblk eq_refl) in Hdel.
    injection Hdel as Hopp.
    pose proof (sideOrders_removeAt _ p (o :: rest) 0 o Hblk eq_refl) as Hperm.
    rewrite Hopp in Hperm.
    assert (OrderBook.allOrders (Engine.orderBook e)
            ≡ₚ o :: OrderBook.allOrders (Engine.orderBook e1)) as Hall.
    { rewrite (allOrders_Permutation buy (Engine.orderBook e)),
              (allOrders_Permutation buy (Engine.orderBook e1)), Hown, Hperm.
      by rewrite Permutation_middle. }
    assert (NoDup (idsOf h' (o :: OrderBook.allOrders (Engine.orderBook e1)))) as Hnd1.
    { rewrite <- (idsOf_Permutation _ _ _ Hall). by rewrite Hids. }
    cbn [idsOf map] in Hnd1. apply NoDup_cons in Hnd1 as [Hout Hnd1].
    fold (idsOf h' (OrderBook.allOrders (Engine.orderBook e1))) in Hout, Hnd1.
    unfold loopInv. rewrite Hh, Hs.
    split; [by apply (heapStable_trans _ (Engine.heap e))|].
    split; [|split; [|split; [|split]]].
    + split; [done|]. split.
      * intros x Hx. destruct Hst' as [-> _]. apply Halloc. rewrite Hall. by right.
      * intros b q blk Hq'. destruct (decide (b = buy)) as [->|Hb].
        -- rewrite <- Hopp in Hq'. unfold removeAt in Hq'. rewrite Hblk in Hq'.
           cbn [delete] in Hq'. case_decide as Hr.
           ++ destruct (decide (q = p)) as [->|Hqp].
              ** by rewrite lookup_delete_eq in Hq'.
              ** rewrite lookup_delete_ne in Hq' by done. by apply (Hne buy q).
           ++ destruct (decide (q = p)) as [->|Hqp].
              ** rewrite lookup_insert_eq in Hq'. by injection Hq' as <-.
              ** rewrite lookup_insert_ne in Hq' by done. by apply (Hne buy q).
        -- assert (b = negb buy) as -> by (by destruct b, buy).
           rewrite <- ownSide_opposite, Hown, ownSide_opposite in Hq'.
           by apply (Hne (negb buy) q).
    + intros Hin. apply Hfresh. rewrite <- Hids, (idsOf_Permutation _ _ _ Hall).
      cbn [idsOf map]. by right.
    + intros id' l'.
      cbn [snd OrderStore.Remove InMemoryOrderStore.store InMemoryOrderStore.Remove
           InMemoryOrderStore.orders].
      rewrite (heapStable_ID _ _ l' Hst').
      destruct (decide (id' = ID (deref h' o))) as [->|Hne'].
      * rewrite lookup_delete_eq. split; [done|].
        intros [[Hin Hid]|[Hid Hl]].
        -- exfalso. apply Hout. rewrite <- Hid, <- (heapStable_ID _ _ l' Hst').
           by apply elem_of_idsOf.
        -- exfalso. apply Hfresh. rewrite <- Hid, <- Hids, (idsOf_Permutation _ _ _ Hall).
           cbn [idsOf map]. by left.
      * rewrite lookup_delete_ne by done. rewrite (Htr id' l'). split.
        -- intros [[Hin Hid]|Hinc]; [|by right]. left. split; [|done].
           rewrite Hall in Hin. apply elem_of_cons in Hin as [->|Hin]; [|done].
           exfalso. apply Hne'. by rewrite <- Hid, (heapStable_ID _ _ o Hst').
        -- intros [[Hin Hid]|Hinc]; [|by right]. left. split; [|done].
           rewrite Hall. by right.
    + by apply queueInSync_Remove.
    + done.
Qed.

End Tracking.

Section Tracking2.
Context {TS : Type} `{!TradeStore.t TS}.
Implicit Types e : Engine.t InMemoryOrderStore.t TS.

Lemma loop_tracks (buy : bool) (canMatch : Qc -> Qc -> bool) (l : loc) (id : N)
    (h0 : list Order) (m : Z) (fuel : nat) (rem : Z) (trades : list Trade) e
    (rem' : Z) (trades' : list Trade) e' :
  loopInv l id h0 m e ->
  Engine.matchLoop fuel (getBestOpposite buy) (deleteOpposite buy) canMatch
                   l rem trades e = Some (rem', trades', e') ->
  loopInv l id h0 m e'.
Proof.
  intros Hinv Hloop.
  apply (matchLoop_invariant buy canMatch l (fun _ _ e => loopInv l id h0 m e))
    with (fuel := fuel) (rem := rem) (trades := trades) (e := e) (rem' := rem')
         (trades' := trades') (e' := e'); [|done|done].
  intros rem0 trades0 e0 p o rest Hi _ Hbest _ rem1 trades1 e1 Hstep.
  by apply (loopInv_step buy l id h0 m o p rest rem0 trades0 e0 rem1 trades1 e1).
Qed.

(** Tracking the incoming order in a state in step, below the limit. *)
Lemma track_incoming (o : Order) e :
  inStep e ->
  ID o ∉ idsOf (Engine.heap e) (OrderBook.allOrders (Engine.orderBook e)) ->
  Z.of_nat (length (OrderBook.allOrders (Engine.orderBook e)))
    < InMemoryOrderStore.maxSize (Engine.orderStore e) ->
  let l := length (Engine.heap e) in
  let h0 := Engine.heap e ++ [o] in
  loopInv l (ID o) h0 (InMemoryOrderStore.maxSize (Engine.orderStore e))
          (Engine.TrackOrder l (Engine.setHeap h0 e)).
Proof.
  intros (Hwf & Htr & Hq) Hfresh Hcap l h0.
  pose proof (inStep_length e (conj Hwf (conj Htr Hq))) as Hlen.
  assert (deref h0 l = o) as Hl by apply deref_alloc.
  assert (idsOf h0 (OrderBook.allOrders (Engine.orderBook e))
          = idsOf (Engine.heap e) (OrderBook.allOrders (Engine.orderBook e))) as Hids
    by (apply idsOf_alloc_old, Hwf).
  assert (InMemoryOrderStore.orders (Engine.orderStore e) !! ID o = None) as Hnone.
  { destruct (_ !! ID o) as [x|] eqn:Hx; [|done].
    apply Htr in Hx as [Hin Hid]. exfalso. apply Hfresh. rewrite <- Hid.
    by apply elem_of_idsOf. }
  destruct (Save_cases h0 l (Engine.orderStore e)) as (Hmax & Hc).
  rewrite Hl in Hc.
  destruct Hc as [(Hin & _)|[(_ & _ & Hq' & Hm')|(_ & Hge & _)]].
  { rewrite Hnone in Hin. by destruct Hin. }
  2:{ lia. }
  unfold loopInv.
  cbn [Engine.TrackOrder Engine.setOrderStore Engine.setHeap Engine.heap Engine.orderBook
       Engine.orderStore].
  change (OrderStore.Save h0 l (Engine.orderStore e))
    with (InMemoryOrderStore.Save h0 l (Engine.orderStore e)).
  split; [apply heapStable_refl|]. split; [by apply wfBook_alloc|].
  split; [by rewrite Hids|]. split; [|split; [|done]].
  - intros id' l'. rewrite Hm'.
    destruct (decide (id' = ID o)) as [->|Hne].
    + rewrite lookup_insert_eq. split.
      * intros [= <-]. by right.
      * intros [[Hin Hid]|[_ ->]]; [|done].
        exfalso. apply Hfresh. rewrite <- Hids, <- Hid. by apply elem_of_idsOf.
    + rewrite lookup_insert_ne by done. rewrite (Htr id' l'). split.
      * intros [Hin Hid]. left. split; [done|].
        unfold h0. rewrite deref_alloc_old; [done|]. by apply Hwf.
      * intros [[Hin Hid]|[? _]]; [|done]. split; [done|].
        unfold h0 in Hid. rewrite deref_alloc_old in Hid; [done|]. by apply Hwf.
  - apply queueInSync_Save; [lia|done].
Qed.

(** Untracking the incoming order when the loop has ended. *)
Lemma untrack_incoming (l : loc) (id : N) (h0 : list Order) (m : Z) e e' :
  loopInv l id h0 m e ->
  Engine.heap e' = Engine.heap e ->
  Engine.orderBook e' = Engine.orderBook e ->
  Engine.orderStore e' = snd (InMemoryOrderStore.Remove id (Engine.orderStore e)) ->
  inStep e' /\ InMemoryOrderStore.maxSize (Engine.orderStore e') = m.
Proof.
  intros (Hst & Hwf & Hfresh & Htr & Hq & Hm) Hh Hb Hs.
  unfold inStep, tracksResting. rewrite Hh, Hb, Hs.
  split; [|done]. split; [done|]. split; [|by apply queueInSync_Remove].
  intros id' l'. cbn [snd InMemoryOrderStore.Remove InMemoryOrderStore.orders].
  destruct (decide (id' = id)) as [->|Hne].
  - rewrite lookup_delete_eq. split; [done|]. intros [Hin Hid].
    exfalso. apply Hfresh. rewrite <- Hid. by apply elem_of_idsOf.
  - rewrite lookup_delete_ne by done. rewrite (Htr id' l'). split.
    + by intros [?|[? _]].
    + by left.
Qed.

Lemma allOrders_addOwn (buy : bool) (h : list Order) (l : loc) (ob : OrderBook.t) :
  OrderBook.allOrders (snd (addOwn buy h l ob)) ≡ₚ l :: OrderBook.allOrders ob.
Proof.
  destruct (addOwn_spec buy h l ob) as [Hown Hopp].
  rewrite (allOrders_Permutation buy (snd (addOwn buy h l ob))),
          (allOrders_Permutation buy ob), Hown, Hopp.
  by rewrite sideOrders_add.
Qed.

(** Resting the incoming order when the loop has ended. *)
Lemma rest_incoming (buy : bool) (l : loc) (id : N) (h0 : list Order) (m : Z)
    (rem : Z) e e' :
  loopInv l id h0 m e ->
  (l < length h0)%nat -> ID (deref h0 l) = id ->
  Engine.heap e' = storeSize (Engine.heap e) l rem ->
  Engine.orderBook e' = snd (addOwn buy (Engine.heap e') l (Engine.orderBook e)) ->
  Engine.orderStore e' = Engine.orderStore e ->
  inStep e' /\ InMemoryOrderStore.maxSize (Engine.orderStore e') = m.
Proof.
  intros (Hst & Hwf & Hfresh & Htr & Hq & Hm) Hlt Hid Hh Hb Hs.
  set (h2 := storeSize (Engine.heap e) l rem) in *.
  assert (heapStable (Engine.heap e) h2) as Hst2 by apply heapStable_storeSize.
  destruct (wfBook_shrinks _ h2 _ _ Hwf Hst2 (fun b => shrinks_refl _)) as [Hwf2 _].
  assert (ID (deref h2 l) = id) as Hid2.
  { by rewrite (heapStable_ID _ _ _ Hst2), (heapStable_ID _ _ _ Hst). }
  assert (l < length h2)%nat as Hlt2.
  { destruct Hst2 as [-> _]. by destruct Hst as [-> _]. }
  destruct (wfBook_add buy h2 l (Engine.orderBook e) Hwf2 Hlt2) as [Hwf3 _].
  { rewrite Hid2, (heapStable_idsOf _ _ _ Hst2). done. }
  unfold inStep, tracksResting. rewrite Hs, Hb, Hh. fold h2.
  split; [|done]. split; [done|]. split; [|done].
  intros id' l'. rewrite allOrders_addOwn, elem_of_cons, (Htr id' l').
  rewrite (heapStable_ID _ _ l' Hst2). split.
  - intros [[Hin Hid']|[-> ->]].
    + split; [by right|done].
    + split; [by left|]. by rewrite <- (heapStable_ID _ _ l Hst2).
  - intros [[->|Hin] Hid'].
    + right. split; [|done]. by rewrite <- Hid', <- (heapStable_ID _ _ l Hst2).
    + by left.
Qed.

Lemma inStep_addTrades (trades : list Trade) e :
  inStep e -> inStep (Engine.addTrades trades e).
Proof.
  destruct (addTrades_frame trades e) as (Hh & Hb & Hs & _).
  unfold inStep, tracksResting. by rewrite Hh, Hb, Hs.
Qed.

Lemma Submit_inStep (o : Order) e :
  inStep e ->
  Kind o = MarketOrder \/ Kind o = LimitOrder ->
  ID o ∉ idsOf (Engine.heap e) (OrderBook.allOrders (Engine.orderBook e)) ->
  Z.of_nat (length (OrderBook.allOrders (Engine.orderBook e)))
    < InMemoryOrderStore.maxSize (Engine.orderStore e) ->
  exists trades e',
    Engine.Submit o e = Some (trades, e') /\
    inStep e' /\
    InMemoryOrderStore.maxSize (Engine.orderStore e')
    = InMemoryOrderStore.maxSize (Engine.orderStore e).
Proof.
  intros Hin Hk Hfresh Hcap.
  pose proof (track_incoming o e Hin Hfresh Hcap) as Hinv. cbv zeta in Hinv.
  unfold Engine.Submit, alloc.
  set (l := length (Engine.heap e)) in *. set (h0 := Engine.heap e ++ [o]) in *.
  set (m := InMemoryOrderStore.maxSize (Engine.orderStore e)) in *.
  assert (deref h0 l = o) as Hl by apply deref_alloc.
  assert (l < length h0)%nat as Hlt by (subst l h0; rewrite length_app; cbn; lia).
  set (e0 := Engine.TrackOrder l (Engine.setHeap h0 e)) in *.
  assert (Engine.heap e0 = h0) as Hh0 by done.
  destruct Hk as [Hk|Hk].
  - rewrite PlaceOrder_unfold_market by (cbn [Engine.heap Engine.setHeap]; by rewrite Hl).
    fold e0.
    destruct (executeMarketOrder_spec l e0) as (rem' & trades' & e1 & Hloop & ->).
    apply (loop_tracks _ _ l (ID o) h0 m) in Hloop; [|done].
    eexists _, _. split; [done|].
    destruct (addTrades_frame trades' e1) as (Ha1 & Ha2 & Ha3 & _).
    apply (untrack_incoming l (ID o) h0 m e1); [done|by cbn|by cbn|].
    cbn [Engine.UntrackOrder Engine.setOrderStore Engine.orderStore].
    rewrite Ha1, Ha3.
    destruct Hloop as (Hst & _). by rewrite (heapStable_ID _ _ _ Hst), Hl.
  - rewrite PlaceOrder_unfold_limit by (cbn [Engine.heap Engine.setHeap]; by rewrite Hl).
    fold e0.
    destruct (executeLimitOrder_spec l e0) as (rem' & trades' & e1 & Hloop & ->).
    apply (loop_tracks _ _ l (ID o) h0 m) in Hloop; [|done].
    eexists _, _. split; [done|].
    match goal with
    | |- context [Engine.addTrades ?ts ?x] =>
        destruct (addTrades_frame ts x) as (Ha1 & Ha2 & Ha3 & _);
        set (e2 := x) in *
    end.
    assert (inStep e2 /\ InMemoryOrderStore.maxSize (Engine.orderStore e2) = m) as [He2 Hm2].
    { subst e2. destruct (0 <? rem').
      - apply (rest_incoming (isBuy (deref (Engine.heap e0) l)) l (ID o) h0 m rem' e1);
          [done|done|by rewrite Hl|done|done|done].
      - apply (untrack_incoming l (ID o) h0 m e1); [done|done|done|].
        cbn [Engine.UntrackOrder Engine.setOrderStore Engine.orderStore].
        destruct Hloop as (Hst & _). by rewrite (heapStable_ID _ _ _ Hst), Hl. }
    split; [by apply inStep_addTrades|]. by rewrite Ha3.
Qed.

Lemma CancelOrder_inStep (id : N) e :
  inStep e ->
  inStep (snd (Engine.CancelOrder id e)) /\
  InMemoryOrderStore.maxSize (Engine.orderStore (snd (Engine.CancelOrder id e)))
  = InMemoryOrderStore.maxSize (Engine.orderStore e).
Proof.
  intros (Hwf & Htr & Hq).
  destruct (decide (id ∈ idsOf (Engine.heap e) (OrderBook.allOrders (Engine.orderBook e))))
    as [Hin|Hout].
  2:{ rewrite CancelOrder_absent by done. done. }
  apply elem_of_idsOf_inv in Hin as (l & Hl & Hid).
  assert (exists bid p blk i,
            ownSide bid (Engine.orderBook e) !! p = Some blk /\ blk !! i = Some l)
    as (bid & p & blk & i & Hp & Hi).
  { unfold OrderBook.allOrders in Hl. apply elem_of_app in Hl as [Hl|Hl];
      apply elem_of_sideOrders in Hl as (p & blk & Hp & Hl);
      apply list_elem_of_lookup_1 in Hl as [i Hi].
    - by exists true, p, blk, i.
    - by exists false, p, blk, i. }
  destruct Hwf as (Hnd & Halloc & Hne).
  destruct (CancelOrder_resting e bid p blk i l Hnd Hp Hi)
    as (e' & Hc & Hown & Hopp & Hh & _ & _ & Hs & _).
  rewrite Hid in Hc, Hs. rewrite Hc. cbn [snd].
  pose proof (CancelOrder_wfBook id e (conj Hnd (conj Halloc Hne))) as [Hwf' _].
  rewrite Hc in Hwf'. cbn [snd] in Hwf'.
  pose proof (sideOrders_removeAt _ p blk i l Hp Hi) as Hperm. rewrite <- Hown in Hperm.
  assert (OrderBook.allOrders (Engine.orderBook e)
          ≡ₚ l :: OrderBook.allOrders (Engine.orderBook e')) as Hall.
  { rewrite (allOrders_Permutation bid (Engine.orderBook e)),
            (allOrders_Permutation bid (Engine.orderBook e')), Hopp, Hperm. done. }
  assert (NoDup (idsOf (Engine.heap e) (l :: OrderBook.allOrders (Engine.orderBook e'))))
    as Hnd1 by (by rewrite <- (idsOf_Permutation _ _ _ Hall)).
  cbn [idsOf map] in Hnd1. apply NoDup_cons in Hnd1 as [Hout _].
  fold (idsOf (Engine.heap e) (OrderBook.allOrders (Engine.orderBook e'))) in Hout.
  unfold inStep, tracksResting. rewrite Hs, Hh.
  split; [|done]. split; [by rewrite <- Hh|]. split; [|by apply queueInSync_Remove].
  intros id' l'.
  cbn [snd OrderStore.Remove InMemoryOrderStore.store InMemoryOrderStore.Remove
       InMemoryOrderStore.orders].
  destruct (decide (id' = id)) as [->|Hne'].
  - rewrite lookup_delete_eq. split; [done|]. intros [Hin Hid'].
    exfalso. apply Hout. rewrite Hid, <- Hid'. by apply elem_of_idsOf.
  - rewrite lookup_delete_ne by done. rewrite (Htr id' l'). split.
    + intros [Hin Hid']. split; [|done].
      rewrite Hall in Hin. apply elem_of_cons in Hin as [->|Hin]; [|done].
      exfalso. apply Hne'. by rewrite <- Hid', Hid.
    + intros [Hin Hid']. split; [|done]. rewrite Hall. by right.
Qed.

End Tracking2.

Section Tracking3.
Context {TS : Type} `{!TradeStore.t TS}.
Implicit Types e : Engine.t InMemoryOrderStore.t TS.

Lemma NoDup_subset_length {A : Type} (l k : list A) :
  NoDup l -> (forall x, x ∈ l -> x ∈ k) -> (length l <= length k)%nat.
Proof. intros Hnd Hsub. apply submseteq_length. by apply NoDup_submseteq. Qed.

Lemma length_idsOf (h : list Order) (ls : list loc) : length (idsOf h ls) = length ls.
Proof. unfold idsOf. apply length_map. Qed.

Lemma runOps_inStep (ops : list Op) e :
  inStep e ->
  Forall placesMarketOrLimit ops ->
  NoDup (placedIds ops) ->
  (forall id, id ∈ placedIds ops ->
              id ∉ idsOf (Engine.heap e) (OrderBook.allOrders (Engine.orderBook e))) ->
  Z.of_nat (length (OrderBook.allOrders (Engine.orderBook e)))
    + Z.of_nat (length (placedIds ops)) <= InMemoryOrderStore.maxSize (Engine.orderStore e) ->
  exists e', runOps ops e = Some e' /\ inStep e'.
Proof.
  revert e. induction ops as [|[o|id] ops IH]; intros e Hin Hk Hnd Hfresh Hcap.
  - by exists e.
  - apply Forall_cons in Hk as [Hko Hk].
    change (placedIds (OpPlace o :: ops)) with (ID o :: placedIds ops) in Hnd, Hfresh, Hcap.
    apply NoDup_cons in Hnd as [Ho Hnd]. cbn [length] in Hcap.
    assert (ID o ∉ idsOf (Engine.heap e) (OrderBook.allOrders (Engine.orderBook e)))
      as Hfo by (apply Hfresh; by left).
    destruct (Submit_inStep o e Hin Hko Hfo) as (trades & e1 & Hs & Hin1 & Hm1); [lia|].
    destruct (Submit_wfBook o e (proj1 Hin) Hfo) as (trades' & e1' & Hs' & _ & Hsub).
    rewrite Hs in Hs'. injection Hs' as <- <-.
    cbn [runOps]. rewrite Hs. apply IH; try done.
    + intros x Hx Hx1. apply Hsub in Hx1 as [->|Hx1]; [done|].
      apply (Hfresh x); [by right|done].
    + rewrite Hm1.
      assert (length (OrderBook.allOrders (Engine.orderBook e1))
              <= S (length (OrderBook.allOrders (Engine.orderBook e))))%nat; [|lia].
      rewrite <- (length_idsOf (Engine.heap e1)), <- (length_idsOf (Engine.heap e)).
      apply (NoDup_subset_length _ (ID o :: _)); [apply Hin1|].
      intros x Hx. apply Hsub in Hx as [->|Hx]; [by left|by right].
  - apply Forall_cons in Hk as [_ Hk].
    change (placedIds (OpCancel id :: ops)) with (placedIds ops) in Hnd, Hfresh, Hcap.
    destruct (CancelOrder_inStep id e Hin) as [Hin1 Hm1].
    destruct (CancelOrder_wfBook id e (proj1 Hin)) as [_ Hsub]. cbv zeta in Hsub.
    cbn [runOps]. apply IH; try done.
    + intros x Hx Hx1. apply Hsub in Hx1. by apply (Hfresh x).
    + rewrite Hm1.
      assert (length (OrderBook.allOrders (Engine.orderBook (snd (Engine.CancelOrder id e))))
              <= length (OrderBook.allOrders (Engine.orderBook e)))%nat; [|lia].
      rewrite <- (length_idsOf (Engine.heap (snd (Engine.CancelOrder id e)))),
              <- (length_idsOf (Engine.heap e)).
      apply NoDup_subset_length; [apply Hin1|done].
Qed.

Lemma inStep_GetAll e :
  inStep e ->
  InMemoryOrderStore.GetAll (Engine.orderStore e) ≡ₚ OrderBook.allOrders (Engine.orderBook e).
Proof.
  intros ((Hnd & _ & _) & Htr & _). unfold InMemoryOrderStore.GetAll.
  apply NoDup_Permutation.
  - apply NoDup_fmap_2_strong; [|apply NoDup_map_to_list].
    intros [id1 l1] [id2 l2] H1 H2 Heq. cbn in Heq. subst l2.
    apply elem_of_map_to_list in H1, H2. apply Htr in H1 as [_ <-], H2 as [_ <-]. done.
  - by apply idsOf_NoDup_locs in Hnd.
  - intros l. rewrite list_elem_of_fmap. split.
    + intros ([id l'] & -> & Hx). apply elem_of_map_to_list in Hx. by apply Htr in Hx as [? _].
    + intros Hl. exists (ID (deref (Engine.heap e) l), l). split; [done|].
      apply elem_of_map_to_list. by apply Htr.
Qed.

(** X20.  The in-memory order store follows the book.  Take any session
    of [PlaceOrder] calls on new MARKET and LIMIT orders with pairwise
    distinct ids, and of [CancelOrder] calls, on a new engine whose order
    store has room for the orders placed.  Afterwards [GetOrder] returns an
    order exactly when it rests in the book under that id, so a filled or
    cancelled order is no longer found; [GetAllOrders] returns the resting
    orders, each once; and [GetOrdersBySide] and [GetOrdersByUser] return
    those of them on the side, or of the user, asked for. *)
Theorem order_store_follows_the_book (maxSize : Z) (tradeStore : TS) (ops : list Op) :
  Forall placesMarketOrLimit ops ->
  NoDup (placedIds ops) ->
  Z.of_nat (length (placedIds ops)) <= maxSize ->
  exists e',
    runOps ops (Engine.NewEngineWithStores
                  (InMemoryOrderStore.NewInMemoryOrderStore maxSize) tradeStore) = Some e' /\
    let resting := OrderBook.allOrders (Engine.orderBook e') in
    (forall id l, Engine.GetOrder id e' = Some l <->
                  l ∈ resting /\ ID (deref (Engine.heap e') l) = id) /\
    NoDup (idsOf (Engine.heap e') resting) /\
    Engine.GetAllOrders e' ≡ₚ resting /\
    (forall side, Engine.GetOrdersBySide side e'
                  ≡ₚ filter (fun l => Side (deref (Engine.heap e') l) = side) resting) /\
    (forall userID, Engine.GetOrdersByUser userID e'
                    ≡ₚ filter (fun l => UserID (deref (Engine.heap e') l) = userID) resting).
Proof.
  intros Hk Hnd Hcap.
  set (e0 := Engine.NewEngineWithStores
               (InMemoryOrderStore.NewInMemoryOrderStore maxSize) tradeStore).
  assert (OrderBook.allOrders (Engine.orderBook e0) = []) as Hempty.
  { unfold e0, Engine.NewEngineWithStores, OrderBook.allOrders, OrderBook.NewOrderBook.
    cbn [Engine.orderBook OrderBook.bids OrderBook.asks]. by rewrite sideOrders_empty. }
  assert (inStep e0) as Hin0.
  { split; [apply wfBook_new|]. split.
    - intros id l. rewrite Hempty. cbn. rewrite lookup_empty. split; [done|].
      intros [Hl _]. inversion Hl.
    - split; [apply NoDup_nil_2|]. split; [|cbn; lia].
      intros id. cbn. rewrite lookup_empty. split; [intros Hx; inversion Hx|by intros [? ?]]. }
  destruct (runOps_inStep ops e0 Hin0 Hk Hnd) as (e' & Hrun & Hin).
  { intros id _ Hid. rewrite Hempty in Hid. inversion Hid. }
  { rewrite Hempty. cbn. lia. }
  exists e'. split; [done|]. cbv zeta.
  pose proof (inStep_GetAll e' Hin) as Hall.
  destruct Hin as ((Hnd' & _ & _) & Htr & _).
  split; [|split; [done|split; [done|split]]].
  - intros id l. rewrite <- (Htr id l). unfold Engine.GetOrder.
    cbn [OrderStore.Get InMemoryOrderStore.store]. unfold InMemoryOrderStore.Get.
    destruct (_ !! id) as [x|]; cbn; split; congruence.
  - intros side. unfold Engine.GetOrdersBySide.
    cbn [OrderQueries.GetBySide InMemoryOrderStore.queries].
    unfold InMemoryOrderStore.GetBySide. by rewrite Hall.
  - intros userID. unfold Engine.GetOrdersByUser.
    cbn [OrderQueries.GetByUser InMemoryOrderStore.queries].
    unfold InMemoryOrderStore.GetByUser. by rewrite Hall.
Qed.

End Tracking3.

(** * Sessions of API calls *)

Section ApiInvariant.
Context {OS TS : Type} `{!OrderStore.t OS} `{!TradeStore.t TS}.
Context (TrimSpace ToLower : string -> string).
Implicit Types e : Engine.t OS TS.

Lemma PlaceOrder_nextOrderID (l : loc) e (trades : list Trade) e' :
  Engine.PlaceOrder l e = Some (trades, e') ->
  Engine.nextOrderID e' = Engine.nextOrderID e.
Proof.
  unfold Engine.PlaceOrder. cbv zeta.
  set (e0 := if bool_decide _ then Engine.TrackOrder l e else e).
  assert (Engine.nextOrderID e0 = Engine.nextOrderID e) as <-
    by (subst e0; by destruct (bool_decide _)).
  destruct (Kind (deref (Engine.heap e0) l)); try (by intros [= <- <-]).
  - destruct (executeMarketOrder_spec l e0) as (rem' & trades' & e1 & Hloop & ->).
    intros [= <- <-]. apply matchLoop_frame in Hloop as (_ & _ & _ & _ & Hn & _).
    destruct (addTrades_frame trades' e1) as (_ & _ & _ & Hn' & _).
    cbn. by rewrite Hn'.
  - destruct (executeLimitOrder_spec l e0) as (rem' & trades' & e1 & Hloop & ->).
    intros [= <- <-]. apply matchLoop_frame in Hloop as (_ & _ & _ & _ & Hn & _).
    match goal with
    | |- context [Engine.addTrades ?ts ?x] =>
        destruct (addTrades_frame ts x) as (_ & _ & _ & -> & _)
    end.
    by destruct (0 <? rem').
  - intros [= <- <-]. unfold Engine.CancelOrder.
    by destruct (OrderBook.DeleteOrderById _ _ _) as [[|] ob].
Qed.

Lemma CancelOrder_nextOrderID (id : N) e :
  Engine.nextOrderID (snd (Engine.CancelOrder id e)) = Engine.nextOrderID e.
Proof.
  unfold Engine.CancelOrder. by destruct (OrderBook.DeleteOrderById _ _ _) as [[|] ob].
Qed.

(** An invariant [P n] of the engine, indexed by the number [n] of orders
    that may still be submitted, which new orders, cancellations and the id
    counter preserve. *)
Context (P : nat -> Engine.t OS TS -> Prop).
Context (P_mono : forall n e, P (S n) e -> P n e).
Context (P_counter : forall n e, P n e -> P n (snd (Engine.GenerateOrderID e))).
Context (P_cancel : forall n id e,
            wfBook (Engine.heap e) (Engine.orderBook e) ->
            P n e -> P n (snd (Engine.CancelOrder id e))).
Context (P_submit : forall n o e trades e',
            wfBook (Engine.heap e) (Engine.orderBook e) ->
            P (S n) e ->
            Kind o = MarketOrder \/ Kind o = LimitOrder ->
            ID o ∉ idsOf (Engine.heap e) (OrderBook.allOrders (Engine.orderBook e)) ->
            Engine.Submit o e = Some (trades, e') ->
            P n e').

Lemma submit_sound (req : models.SubmitOrderRequest.t) (now : Z) (n : nat) e :
  sound e -> P (S n) e ->
  (1 <= Engine.nextOrderID e)%N ->
  (Engine.nextOrderID e + 1 < 2 ^ 64)%N ->
  models.SubmitOrderRequest.Validate TrimSpace ToLower req = None ->
  (models.SubmitOrderRequest.Price req <= MaxFloat64)%Qc ->
  exists id trades e',
    handlers.submit TrimSpace ToLower req now e = Some (id, trades, e') /\
    sound e' /\ P n e' /\
    Engine.nextOrderID e' = (Engine.nextOrderID e + 1)%N.
Proof.
  intros (Hwf & Hinv & Hids) HP Hone Hn Hv Hprice.
  rewrite submit_Submit. cbv zeta.
  assert (fst (Engine.GenerateOrderID e) = (Engine.nextOrderID e + 1)%N) as Hid.
  { cbn. apply N.mod_small. lia. }
  rewrite Hid.
  set (id := (Engine.nextOrderID e + 1)%N).
  set (e1 := snd (Engine.GenerateOrderID e)).
  set (o := orderOfRequest TrimSpace ToLower id now req).
  assert (Engine.heap e1 = Engine.heap e /\ Engine.orderBook e1 = Engine.orderBook e /\
          Engine.nextOrderID e1 = id) as (Hh1 & Hb1 & Hn1).
  { subst e1. cbn. split; [done|]. split; [done|]. apply N.mod_small. lia. }
  destruct (validate_IsValid_kind TrimSpace ToLower req id now Hv) as (Hvalid & Hkind).
  fold o in Hvalid, Hkind.
  assert (ID o ∉ idsOf (Engine.heap e1) (OrderBook.allOrders (Engine.orderBook e1))) as Hfresh.
  { rewrite Hh1, Hb1. intros Hin. apply Hids in Hin. cbn in Hin. lia. }
  destruct (Submit_wfBook o e1) as (trades & e' & Hs & Hwf' & Hsub);
    [by rewrite Hh1, Hb1|done|].
  destruct (Submit_bookInv o e1) as (trades2 & e2 & Hs2 & Hinv');
    [by rewrite Hb1|by split|].
  rewrite Hs in Hs2. injection Hs2 as <- <-.
  rewrite Hs. exists id, trades, e'. split; [done|].
  assert (Engine.nextOrderID e' = id) as Hn'.
  { unfold Engine.Submit, alloc in Hs. apply PlaceOrder_nextOrderID in Hs. by rewrite Hs. }
  split; [|split; [|done]].
  - split; [done|]. split; [done|]. intros x Hx. rewrite Hn'.
    apply Hsub in Hx as [->|Hx].
    + cbn. lia.
    + rewrite Hh1, Hb1 in Hx. apply Hids in Hx. lia.
  - apply (P_submit n o e1 trades e'); [exact Hwf|by apply P_counter|done|done|done].
Qed.

Lemma cancel_sound (id : N) (n : nat) e :
  sound e -> P n e ->
  sound (snd (Engine.CancelOrder id e)) /\ P n (snd (Engine.CancelOrder id e)) /\
  Engine.nextOrderID (snd (Engine.CancelOrder id e)) = Engine.nextOrderID e.
Proof.
  intros (Hwf & Hinv & Hids) HP.
  destruct (CancelOrder_wfBook id e Hwf) as [Hwf' Hsub]. cbv zeta in Hwf', Hsub.
  split; [|split; [by apply P_cancel|apply CancelOrder_nextOrderID]].
  split; [done|]. split; [by apply CancelOrder_bookInv|].
  intros x Hx. rewrite CancelOrder_nextOrderID. by apply Hids, Hsub.
Qed.

Lemma P_le (n k : nat) e : (k <= n)%nat -> P n e -> P k e.
Proof. induction 1; [done|]. intros HP. by apply IHle, P_mono. Qed.

Lemma batchLoop_sound (reqs : list models.SubmitOrderRequest.t) (now : Z -> Z) :
  forall (i : Z) (results : list models.BatchOrderResult.t) (successful failed : Z)
         (n : nat) e,
  sound e -> P (length reqs + n) e ->
  (1 <= Engine.nextOrderID e)%N ->
  (Engine.nextOrderID e + N.of_nat (length reqs) < 2 ^ 64)%N ->
  Forall (fun req => (models.SubmitOrderRequest.Price req <= MaxFloat64)%Qc) reqs ->
  exists r e',
    handlers.batchLoop TrimSpace ToLower i reqs now results successful failed e
      = Some (r, e') /\
    sound e' /\ P n e' /\
    (Engine.nextOrderID e <= Engine.nextOrderID e'
     <= Engine.nextOrderID e + N.of_nat (length reqs))%N.
Proof.
  induction reqs as [|req reqs IH]; intros i results successful failed n e Hs HP Hone Hn Hpr.
  - eexists _, e. split; [done|]. split; [done|]. split; [done|]. lia.
  - apply Forall_cons in Hpr as [Hp Hpr]. cbn [length] in Hn, HP. cbn [length].
    cbn [handlers.batchLoop].
    destruct (models.SubmitOrderRequest.Validate TrimSpace ToLower req) as [httpErr|] eqn:Hv.
    + destruct (IH (i + 1) (results ++ [models.BatchOrderResult.mk i false 0 []
                                          (Some (models.HTTPError.Error httpErr))])
                   successful (failed + 1) n e) as (r & e' & Hb & Hs' & HP' & Hn');
        [done|by apply P_mono|done|lia|done|].
      exists r, e'. split; [done|]. split; [done|]. split; [done|]. lia.
    + destruct (submit_sound req (now i) (length reqs + n) e) as (id & trades & e1 & Hsub & Hs1 & HP1 & Hn1);
        [done|done|done|lia|done|done|].
      rewrite Hsub.
      destruct (IH (i + 1) (results ++ [models.BatchOrderResult.mk i true id
                                          (handlers.convertTradesToDTO trades) None])
                   (successful + 1) failed n e1) as (r & e' & Hb & Hs' & HP' & Hn');
        [done|done|lia|lia|done|].
      exists r, e'. split; [done|]. split; [done|]. split; [done|]. lia.
Qed.

Lemma runCall_sound (call : ApiCall) (n : nat) e :
  sound e -> P (length (requestsOf call) + n) e ->
  (1 <= Engine.nextOrderID e)%N ->
  (Engine.nextOrderID e + N.of_nat (length (requestsOf call)) < 2 ^ 64)%N ->
  Forall (fun req => (models.SubmitOrderRequest.Price req <= MaxFloat64)%Qc)
         (requestsOf call) ->
  exists e',
    runCall TrimSpace ToLower call e = Some e' /\
    sound e' /\ P n e' /\
    (Engine.nextOrderID e <= Engine.nextOrderID e'
     <= Engine.nextOrderID e + N.of_nat (length (requestsOf call)))%N.
Proof.
  intros Hs HP Hone Hn Hpr. destruct call as [[err|req] now|[err|req] now|path].
  - exists e. cbn. split; [done|]. split; [done|]. split; [done|]. lia.
  - cbn [requestsOf length] in *. apply Forall_cons in Hpr as [Hp _].
    cbn [runCall handlers.SubmitOrderHandler].
    destruct (models.SubmitOrderRequest.Validate TrimSpace ToLower req) as [httpErr|] eqn:Hv.
    + exists e. cbn. split; [done|]. split; [done|]. split; [by apply P_mono|]. lia.
    + destruct (submit_sound req now n e) as (id & trades & e1 & Hsub & Hs1 & HP1 & Hn1);
        [done|done|done|lia|done|done|].
      rewrite Hsub. exists e1. cbn. split; [done|]. split; [done|]. split; [done|]. lia.
  - exists e. cbn. split; [done|]. split; [done|]. split; [done|]. lia.
  - cbn [requestsOf] in *. cbn [runCall handlers.BatchOrderHandler].
    destruct (models.BatchOrderRequest.Validate req) as [httpErr|].
    + exists e. cbn. split; [done|]. split; [done|]. split; [|lia].
      apply (P_le (length (models.BatchOrderRequest.Orders req) + n)); [lia|done].
    + destruct (batchLoop_sound (models.BatchOrderRequest.Orders req) now 0 [] 0 0 n e)
        as (r & e' & Hb & Hs' & HP' & Hn'); [done..|].
      rewrite Hb. destruct r as [[results successful] failed].
      exists e'. cbn. done.
  - cbn [requestsOf length] in *. cbn [runCall]. eexists. split; [done|].
    unfold handlers.CancelOrderHandler.
    destruct (handlers.orderIDOfPath path) as [httpErr|orderID].
    + cbn. split; [done|]. split; [done|]. lia.
    + destruct (cancel_sound orderID n e Hs HP) as (Hs' & HP' & Hn').
      destruct (Engine.CancelOrder orderID e) as [[|] e']; cbn in *;
        (split; [done|]; split; [done|]; lia).
Qed.

Lemma runApi_sound (calls : list ApiCall) (n : nat) e :
  sound e -> P (length (concat (map requestsOf calls)) + n) e ->
  (1 <= Engine.nextOrderID e)%N ->
  (Engine.nextOrderID e + N.of_nat (length (concat (map requestsOf calls))) < 2 ^ 64)%N ->
  Forall (fun req => (models.SubmitOrderRequest.Price req <= MaxFloat64)%Qc)
         (concat (map requestsOf calls)) ->
  exists e', runApi TrimSpace ToLower calls e = Some e' /\ sound e' /\ P n e'.
Proof.
  revert e. induction calls as [|call calls IH]; intros e Hs HP Hone Hn Hpr.
  - by exists e.
  - cbn [map concat] in *. rewrite length_app in *. apply Forall_app in Hpr as [Hp1 Hp2].
    destruct (runCall_sound call (length (concat (map requestsOf calls)) + n) e)
      as (e1 & Hc & Hs1 & HP1 & Hn1); [done| |done|lia|done|].
    { by rewrite Nat.add_assoc. }
    cbn [runApi]. rewrite Hc. apply IH; [done|done|lia|lia|done].
Qed.

End ApiInvariant.

Lemma allOrders_new : OrderBook.allOrders OrderBook.NewOrderBook = [].
Proof.
  unfold OrderBook.allOrders, OrderBook.NewOrderBook.
  cbn [OrderBook.bids OrderBook.asks]. by rewrite sideOrders_empty.
Qed.

(** X21.  The API keeps the book sound.  Take any sequence of calls of
    [SubmitOrderHandler], [BatchOrderHandler] and [CancelOrderHandler] on a
    new engine, over any order and trade stores, with request prices that
    are [float64] values and fewer than 2^64 - 1 requests.  Every call is
    answered, and afterwards the resting orders have pairwise distinct ids,
    all of them handed out by the id counter, every price level holds at
    least one order, and the best bid is below the best ask when both sides
    have orders. *)
Theorem api_sessions_keep_the_book_sound (TrimSpace ToLower : string -> string)
    (OS TS : Type) (I : OrderStore.t OS) (J : TradeStore.t TS)
    (orderStore : OS) (tradeStore : TS) (calls : list ApiCall) :
  let reqs := concat (map requestsOf calls) in
  Forall (fun req => (models.SubmitOrderRequest.Price req <= MaxFloat64)%Qc) reqs ->
  (N.of_nat (length reqs) + 1 < 2 ^ 64)%N ->
  exists e',
    runApi TrimSpace ToLower calls (Engine.NewEngineWithStores orderStore tradeStore)
      = Some e' /\
    let ob := Engine.orderBook e' in
    NoDup (idsOf (Engine.heap e') (OrderBook.allOrders ob)) /\
    idsIssued e' /\
    (forall buy q blk, oppositeSide buy ob !! q = Some blk -> blk <> []) /\
    (OrderBook.bids ob <> ∅ -> OrderBook.asks ob <> ∅ ->
     (fst (OrderBook.GetBestBid ob) < fst (OrderBook.GetBestAsk ob))%Qc).
Proof.
  intros reqs Hpr Hn.
  set (e0 := Engine.NewEngineWithStores orderStore tradeStore).
  destruct (runApi_sound TrimSpace ToLower (fun _ _ => True) (fun _ _ _ => Logic.I)
              (fun _ _ _ => Logic.I) (fun _ _ _ _ _ => Logic.I) (fun _ _ _ _ _ _ _ _ _ _ => Logic.I)
              calls 0 e0) as (e' & Hrun & (Hwf & Hinv & Hids) & _).
  - split; [apply wfBook_new|]. split; [apply bookInv_empty|].
    intros id Hid. cbn [e0 Engine.NewEngineWithStores Engine.orderBook] in Hid.
    rewrite allOrders_new in Hid. inversion Hid.
  - done.
  - cbn. lia.
  - cbn. fold reqs. lia.
  - done.
  - exists e'. split; [done|]. cbv zeta.
    split; [apply Hwf|]. split; [done|]. split; [apply Hwf|].
    by apply bookInv_best.
Qed.

Section Lengths.
Context {OS TS : Type} `{!OrderStore.t OS} `{!TradeStore.t TS}.
Implicit Types e : Engine.t OS TS.

Lemma Submit_length (o : Order) e (trades : list Trade) e' :
  wfBook (Engine.heap e) (Engine.orderBook e) ->
  ID o ∉ idsOf (Engine.heap e) (OrderBook.allOrders (Engine.orderBook e)) ->
  Engine.Submit o e = Some (trades, e') ->
  (length (OrderBook.allOrders (Engine.orderBook e'))
   <= S (length (OrderBook.allOrders (Engine.orderBook e))))%nat.
Proof.
  intros Hwf Hfresh Hs.
  destruct (Submit_wfBook o e Hwf Hfresh) as (trades' & e1 & Hs' & Hwf' & Hsub).
  rewrite Hs in Hs'. injection Hs' as <- <-.
  rewrite <- (length_idsOf (Engine.heap e')), <- (length_idsOf (Engine.heap e)).
  apply (NoDup_subset_length _ (ID o :: _)); [apply Hwf'|].
  intros x Hx. apply Hsub in Hx as [->|Hx]; [by left|by right].
Qed.

Lemma CancelOrder_length (id : N) e :
  wfBook (Engine.heap e) (Engine.orderBook e) ->
  (length (OrderBook.allOrders (Engine.orderBook (snd (Engine.CancelOrder id e))))
   <= length (OrderBook.allOrders (Engine.orderBook e)))%nat.
Proof.
  intros Hwf. destruct (CancelOrder_wfBook id e Hwf) as [Hwf' Hsub]. cbv zeta in Hwf', Hsub.
  rewrite <- (length_idsOf (Engine.heap (snd (Engine.CancelOrder id e)))),
          <- (length_idsOf (Engine.heap e)).
  apply NoDup_subset_length; [apply Hwf'|done].
Qed.

End Lengths.

(** X22.  Through the API, over the in-memory order store with room for
    the requests, an order can be read back exactly while it rests: after
    any sequence of submit, batch and cancel calls, [GetOrderHandler] answers
    404 for an id that no resting order has (never issued, filled or
    cancelled), and for the id of a resting order it answers 200 with that
    order, whose quantity is the size that remains. *)
Theorem api_get_order_finds_resting_orders (TrimSpace ToLower : string -> string)
    (TS : Type) (J : TradeStore.t TS) (maxSize : Z) (tradeStore : TS)
    (calls : list ApiCall) :
  let reqs := concat (map requestsOf calls) in
  Forall (fun req => (models.SubmitOrderRequest.Price req <= MaxFloat64)%Qc) reqs ->
  (N.of_nat (length reqs) + 1 < 2 ^ 64)%N ->
  Z.of_nat (length reqs) <= maxSize ->
  exists e',
    runApi TrimSpace ToLower calls
      (Engine.NewEngineWithStores (InMemoryOrderStore.NewInMemoryOrderStore maxSize)
                                  tradeStore) = Some e' /\
    let resting := OrderBook.allOrders (Engine.orderBook e') in
    forall path orderID,
      handlers.orderIDOfPath path = inr orderID ->
      (orderID ∉ idsOf (Engine.heap e') resting ->
       handlers.GetOrderHandler path e' = inl (models.ErrOrderNotFoundError orderID)) /\
      (forall l, l ∈ resting -> ID (deref (Engine.heap e') l) = orderID ->
         handlers.GetOrderHandler path e' =
           inr (models.GetOrderResponse.mk (models.BaseResponse.mk true "" None)
                  (Some (handlers.convertOrderToDTO (Engine.heap e') l))) /\
         models.OrderDTO.Quantity (handlers.convertOrderToDTO (Engine.heap e') l)
           = Size (deref (Engine.heap e') l)).
Proof.
  intros reqs Hpr Hn Hcap.
  set (e0 := Engine.NewEngineWithStores
               (InMemoryOrderStore.NewInMemoryOrderStore maxSize) tradeStore).
  set (P := fun (n : nat) (e : Engine.t InMemoryOrderStore.t TS) =>
              inStep e /\
              Z.of_nat (length (OrderBook.allOrders (Engine.orderBook e))) + Z.of_nat n
                <= InMemoryOrderStore.maxSize (Engine.orderStore e)).
  destruct (runApi_sound TrimSpace ToLower P) with (calls := calls) (n := 0%nat) (e := e0)
    as (e' & Hrun & _ & (Hin & _)).
  - intros n e [Hi Hl]. split; [done|]. lia.
  - intros n e [Hi Hl]. done.
  - intros n id e Hwf [Hi Hl]. destruct (CancelOrder_inStep id e Hi) as [Hi' Hm'].
    split; [done|]. rewrite Hm'. pose proof (CancelOrder_length id e Hwf). lia.
  - intros n o e trades e' Hwf [Hi Hl] Hk Hfresh Hs.
    destruct (Submit_inStep o e Hi Hk Hfresh) as (trades1 & e1 & Hs1 & Hi1 & Hm1); [lia|].
    rewrite Hs in Hs1. injection Hs1 as <- <-.
    split; [done|]. rewrite Hm1. pose proof (Submit_length o e trades e' Hwf Hfresh Hs). lia.
  - split; [apply wfBook_new|]. split; [apply bookInv_empty|].
    intros id Hid. cbn [e0 Engine.NewEngineWithStores Engine.orderBook] in Hid.
    rewrite allOrders_new in Hid. inversion Hid.
  - split.
    + split; [apply wfBook_new|]. split.
      * intros id l. cbn [e0 Engine.NewEngineWithStores Engine.orderBook].
        rewrite allOrders_new. cbn. rewrite lookup_empty. split; [done|].
        intros [Hl _]. inversion Hl.
      * split; [apply NoDup_nil_2|]. split; [|cbn; lia].
        intros id. cbn. rewrite lookup_empty.
        split; [intros Hx; inversion Hx|by intros [? ?]].
    + cbn [e0 Engine.NewEngineWithStores Engine.orderBook]. rewrite allOrders_new.
      cbn. fold reqs. lia.
  - cbn. lia.
  - cbn. fold reqs. lia.
  - done.
  - exists e'. split; [done|]. cbv zeta. intros path orderID Hp.
    destruct Hin as (Hwf & Htr & _).
    unfold handlers.GetOrderHandler. rewrite Hp. unfold Engine.GetOrder.
    cbn [OrderStore.Get InMemoryOrderStore.store]. unfold InMemoryOrderStore.Get.
    split.
    + intros Hout.
      destruct (InMemoryOrderStore.orders (Engine.orderStore e') !! orderID) as [x|] eqn:Hx;
        [|done].
      apply Htr in Hx as [Hx <-]. exfalso. apply Hout. by apply elem_of_idsOf.
    + intros l Hl Hid.
      assert (InMemoryOrderStore.orders (Engine.orderStore e') !! orderID = Some l) as ->
        by (by apply Htr).
      done.
Qed.

(** * Quantities *)

Lemma totalSize_cons (h : list Order) (x : loc) (ls : list loc) :
  totalSize h (x :: ls) = Size (deref h x) + totalSize h ls.
Proof. done. Qed.

Lemma totalSize_Permutation (h : list Order) (a b : list loc) :
  a ≡ₚ b -> totalSize h a = totalSize h b.
Proof.
  induction 1 as [|x a b _ IH|x y a|a b c _ IH1 _ IH2]; rewrite ?totalSize_cons; lia.
Qed.

Lemma totalSize_storeSize_notin (h : list Order) (o : loc) (v : Z) (ls : list loc) :
  o ∉ ls -> totalSize (storeSize h o v) ls = totalSize h ls.
Proof.
  induction ls as [|x ls IH]; intros Ho; [done|].
  apply not_elem_of_cons in Ho as [Hne Ho].
  rewrite !totalSize_cons.
  rewrite IH by done. rewrite deref_storeSize.
  case_decide as Hc; [by destruct Hc|done].
Qed.

Lemma totalSize_storeSize (h : list Order) (o : loc) (v : Z) (ls : list loc) :
  NoDup ls -> o ∈ ls -> (o < length h)%nat ->
  totalSize (storeSize h o v) ls = totalSize h ls - Size (deref h o) + v.
Proof.
  intros Hnd Ho Hlt. apply elem_of_Permutation in Ho as [ls' Hp].
  rewrite !(totalSize_Permutation _ _ _ Hp). rewrite Hp in Hnd.
  apply NoDup_cons in Hnd as [Hout _].
  rewrite !totalSize_cons.
  rewrite totalSize_storeSize_notin by done. rewrite deref_storeSize.
  rewrite decide_True by done. cbn. lia.
Qed.

Lemma totalSize_alloc (h : list Order) (o : Order) (ls : list loc) :
  (forall l, l ∈ ls -> (l < length h)%nat) -> totalSize (h ++ [o]) ls = totalSize h ls.
Proof.
  induction ls as [|x ls IH]; intros Hls; [done|].
  rewrite !totalSize_cons.
  rewrite IH by (intros l Hl; apply Hls; by right).
  rewrite deref_alloc_old; [done|]. apply Hls. by left.
Qed.

Lemma wellPlaced_stable (h h' : list Order) (ob ob' : OrderBook.t) :
  wellPlaced h ob ->
  (forall b, shrinks (oppositeSide b ob) (oppositeSide b ob')) ->
  (forall l, l ∈ OrderBook.allOrders ob' -> deref h' l = deref h l) ->
  wellPlaced h' ob'.
Proof.
  intros Hwp Hsh Hsame buy q blk' l Hq Hl.
  rewrite ownSide_opposite in Hq.
  destruct (Hsh (negb buy) q blk' Hq) as (blk & Hblk & Hsub & _).
  rewrite <- ownSide_opposite in Hblk.
  rewrite Hsame.
  - apply (Hwp buy q blk l Hblk). by apply (elem_of_sublist _ _ _ Hl).
  - apply (allOrders_sides (negb buy)). right.
    apply elem_of_sideOrders. by exists q, blk'.
Qed.

Section Quantities.
Context {OS TS : Type} `{!OrderStore.t OS} `{!TradeStore.t TS}.
Implicit Types e : Engine.t OS TS.

(** The two ways an iteration ends, told apart by the size that is left on
    the resting order. *)
Lemma matchStep_cases (buy : bool) (l o : loc) (rem : Z) (trades : list Trade) e :
  o ∈ OrderBook.sideOrders (oppositeSide buy (Engine.orderBook e)) ->
  let fill := fillSizeOf (Size (deref (Engine.heap e) o)) rem in
  let h' := storeSize (Engine.heap e) o (sub_int (Size (deref (Engine.heap e) o)) fill) in
  let id := ID (deref (Engine.heap e) o) in
  exists e',
    matchStep (deleteOpposite buy) l o rem trades e =
      (sub_int rem fill, trades ++ [Engine.createTrade (Engine.heap e) l o fill], e') /\
    Engine.heap e' = h' /\
    ownSide buy (Engine.orderBook e') = ownSide buy (Engine.orderBook e) /\
    ((Size (deref h' o) <> 0 /\ Engine.orderBook e' = Engine.orderBook e) \/
     (Size (deref h' o) = 0 /\
      OrderBook.deleteInSide h' (oppositeSide buy (Engine.orderBook e)) id =
        (true, oppositeSide buy (Engine.orderBook e')))).
Proof.
  intros Ho fill h' id. unfold matchStep. fold fill. cbn [Engine.heap Engine.setHeap].
  fold h'. destruct (Z.eqb_spec (Size (deref h' o)) 0) as [Hz|Hnz].
  - rewrite (ID_storeSize _ _ _ _ : ID (deref h' o) = id).
    pose proof (deleteOpposite_spec buy h' id (Engine.orderBook e)) as (Hfst & Hopp & Hown).
    cbn [Engine.orderBook Engine.setHeap].
    destruct (deleteOpposite buy h' id (Engine.orderBook e)) as [b ob] eqn:Hdel.
    cbn [fst snd] in Hfst, Hopp, Hown.
    eexists. split; [reflexivity|]. cbn. split; [done|]. split; [done|].
    right. split; [done|].
    rewrite Hopp. rewrite <- (deleteInSide_found h' _ o Ho) at 1.
    rewrite (ID_storeSize _ _ _ _ : ID (deref h' o) = id).
    by destruct (OrderBook.deleteInSide _ _ _).
  - eexists. split; [reflexivity|]. cbn. split; [done|]. split; [done|]. by left.
Qed.

Lemma conserving_step (buy : bool) (l : loc) (h0 : list Order) (ob0 : OrderBook.t)
    (rem0 : Z) (o : loc) (p : Qc) (rest : list loc) (rem : Z) (trades : list Trade) e
    (rem' : Z) (trades' : list Trade) e' :
  wfBook h0 ob0 ->
  conserving h0 ob0 rem0 rem trades e -> 0 < rem ->
  getBestOpposite buy (Engine.orderBook e) = (p, o :: rest) ->
  matchStep (deleteOpposite buy) l o rem trades e = (rem', trades', e') ->
  conserving h0 ob0 rem0 rem' trades' e'.
Proof.
  intros Hwf0 (Hst & Hsh & Hwp & Hrem & Hsum & Hcons & Hout & Hpos) Hlt Hbest Hstep.
  destruct (wfBook_shrinks _ _ _ _ Hwf0 Hst Hsh) as [Hwf _].
  pose proof (head_in_opposite buy _ p o rest Hbest) as Ho.
  pose proof (getBestOpposite_block buy _ p o rest Hbest) as Hblk.
  destruct (matchStep_cases buy l o rem trades e Ho) as (e1 & Heq & Hh & Hown & Hcase).
  rewrite Hstep in Heq. injection Heq as -> -> ->.
  destruct Hwf as (Hnd & Halloc & Hne).
  assert (o ∈ OrderBook.allOrders (Engine.orderBook e)) as Hoall
    by (apply (allOrders_sides buy); by right).
  assert (o ∈ OrderBook.allOrders ob0) as Hoall0.
  { apply (allOrders_sides buy). right. by apply (shrinks_elem _ _ _ (Hsh buy)). }
  assert (NoDup (OrderBook.allOrders (Engine.orderBook e))) as Hndl
    by (by apply idsOf_NoDup_locs in Hnd).
  pose proof (Halloc o Hoall) as Holt.
  destruct (Hwp (negb buy) p (o :: rest) o) as (Hok & Hos & Hop & Hosz).
  { by rewrite ownSide_opposite, negb_involutive. }
  { by left. }
  set (osz := Size (deref (Engine.heap e) o)) in *.
  set (fill := fillSizeOf osz rem) in *.
  assert (0 < fill <= rem /\ fill <= osz) as Hfill.
  { unfold fill, fillSizeOf. destruct (Z.ltb_spec osz rem); lia. }
  assert (sub_int rem fill = rem - fill) as Hsub1 by (apply wrap_int_id; lia).
  assert (sub_int osz fill = osz - fill) as Hsub2 by (apply wrap_int_id; lia).
  rewrite Hsub1 in *. rewrite Hsub2 in *.
  set (h' := storeSize (Engine.heap e) o (osz - fill)) in *.
  assert (heapStable (Engine.heap e) h') as Hst' by apply heapStable_storeSize.
  assert (forall x, x <> o -> deref h' x = deref (Engine.heap e) x) as Hother.
  { intros x Hx. unfold h'. rewrite deref_storeSize.
    case_decide as Hc; [by destruct Hc|done]. }
  assert (Size (deref h' o) = osz - fill) as Hsz'.
  { unfold h'. rewrite deref_storeSize. by rewrite decide_True. }
  assert (totalSize h' (OrderBook.allOrders (Engine.orderBook e))
          = restingSize (Engine.heap e) (Engine.orderBook e) - fill) as Htot.
  { unfold h', restingSize. rewrite totalSize_storeSize by done. fold osz. lia. }
  unfold conserving. rewrite Hh.
  split; [by apply (heapStable_trans _ (Engine.heap e))|].
  rewrite filledSize_app. cbn [filledSize foldr]. rewrite TradeSize_createTrade.
  assert (Forall (fun t => 0 < TradeSize t)
            (trades ++ [Engine.createTrade (Engine.heap e) l o fill])) as Hpos'.
  { apply Forall_app. split; [done|]. apply Forall_singleton.
    rewrite TradeSize_createTrade. lia. }
  assert (forall x, x ∉ OrderBook.allOrders ob0 -> deref h' x = deref h0 x) as Hout'.
  { intros x Hx. rewrite Hother; [by apply Hout|]. intros ->. done. }
  destruct Hcase as [(Hz & Hb)|(Hz & Hdel)].
  - (* partial fill of the resting order *)
    rewrite Hsz' in Hz.
    rewrite Hb. split; [done|]. split.
    + intros b q blk x Hq Hx. destruct (decide (x = o)) as [->|Hxo].
      * destruct (Hwp b q blk o Hq Hx) as (H1 & H2 & H3 & H4).
        rewrite (heapStable_Kind _ _ _ Hst'), (heapStable_Side _ _ _ Hst'),
                (heapStable_Price _ _ _ Hst'), Hsz'.
        split; [done|]. split; [done|]. split; [done|]. lia.
      * rewrite Hother by done. by apply (Hwp b q blk x).
    + split; [lia|]. split; [lia|]. split; [|done].
      unfold restingSize at 1. rewrite Htot. lia.
  - (* the resting order is filled and leaves the book *)
    assert (NoDup (idsOf h' (OrderBook.sideOrders (oppositeSide buy (Engine.orderBook e)))))
      as Hndo.
    { rewrite (heapStable_idsOf _ _ _ Hst').
      rewrite (idsOf_Permutation _ _ _ (allOrders_Permutation buy _)) in Hnd.
      rewrite idsOf_app in Hnd. by apply NoDup_app in Hnd as (_ & _ & Hnd). }
    rewrite <- (ID_storeSize (Engine.heap e) o o _ : ID (deref h' o) = _) in Hdel.
    rewrite (deleteInSide_unique h' _ p (o :: rest) 0 o Hndo Hblk eq_refl) in Hdel.
    injection Hdel as Hopp.
    pose proof (sideOrders_removeAt _ p (o :: rest) 0 o Hblk eq_refl) as Hperm.
    rewrite Hopp in Hperm.
    assert (OrderBook.allOrders (Engine.orderBook e)
            ≡ₚ o :: OrderBook.allOrders (Engine.orderBook e1)) as Hall.
    { rewrite (allOrders_Permutation buy (Engine.orderBook e)),
              (allOrders_Permutation buy (Engine.orderBook e1)), Hown, Hperm.
      by rewrite Permutation_middle. }
    assert (o ∉ OrderBook.allOrders (Engine.orderBook e1)) as Hoout.
    { rewrite Hall in Hndl. by apply NoDup_cons in Hndl as [? _]. }
    assert (forall b, shrinks (oppositeSide b (Engine.orderBook e))
                              (oppositeSide b (Engine.orderBook e1))) as Hsh1.
    { apply (loop_shrinks_both buy); [done|].
      pose proof (shrinks_deleteInSide h' (oppositeSide buy (Engine.orderBook e))
                    (ID (deref h' o))) as Hs.
      rewrite (deleteInSide_unique h' _ p (o :: rest) 0 o Hndo Hblk eq_refl) in Hs.
      cbn [snd] in Hs. by rewrite Hopp in Hs. }
    split; [intros b; by apply (shrinks_trans _ (oppositeSide b (Engine.orderBook e)))|].
    split.
    + apply (wellPlaced_stable (Engine.heap e) h' (Engine.orderBook e)); [done|done|].
      intros x Hx. apply Hother. intros ->. done.
    + split; [lia|]. split; [lia|]. split; [|done].
      unfold restingSize at 1.
      rewrite (totalSize_Permutation _ _ _ Hall), totalSize_cons in Htot.
      rewrite Hsz' in Htot. rewrite Hsz' in Hz. lia.
Qed.

Lemma loop_conserves (buy : bool) (canMatch : Qc -> Qc -> bool) (l : loc)
    (fuel : nat) (rem : Z) e (rem' : Z) (trades' : list Trade) e' :
  wfBook (Engine.heap e) (Engine.orderBook e) ->
  wellPlaced (Engine.heap e) (Engine.orderBook e) ->
  0 <= rem < 2 ^ 63 ->
  Engine.matchLoop fuel (getBestOpposite buy) (deleteOpposite buy) canMatch
                   l rem [] e = Some (rem', trades', e') ->
  conserving (Engine.heap e) (Engine.orderBook e) rem rem' trades' e'.
Proof.
  intros Hwf Hwp Hrem Hloop.
  refine (proj1 (matchLoop_invariant buy canMatch l
            (conserving (Engine.heap e) (Engine.orderBook e) rem) _
            fuel rem [] e rem' trades' e' _ Hloop)).
  - intros r ts e1 p o rest Hc Hlt Hbest _ r2 ts2 e2 Hs.
    by apply (conserving_step buy l _ _ rem o p rest r ts e1 r2 ts2 e2).
  - unfold conserving. cbn [filledSize foldr].
    split; [apply heapStable_refl|]. split; [intros b; apply shrinks_refl|].
    split; [done|]. split; [done|]. split; [lia|]. split; [lia|]. split; [done|constructor].
Qed.

End Quantities.

Section Quantities2.
Context {OS TS : Type} `{!OrderStore.t OS} `{!TradeStore.t TS}.
Implicit Types e : Engine.t OS TS.

Lemma wellPlaced_alloc (h : list Order) (o : Order) (ob : OrderBook.t) :
  wfBook h ob -> wellPlaced h ob -> wellPlaced (h ++ [o]) ob.
Proof.
  intros Hwf Hwp. apply (wellPlaced_stable h _ ob); [done|intros b; apply shrinks_refl|].
  intros l Hl. apply deref_alloc_old. by apply Hwf.
Qed.

Lemma IsValid_side (o : Order) :
  IsValid o = true -> Side o = (if isBuy o then Buy else Sell).
Proof.
  unfold IsValid, isBuy. destruct (Side o).
  - rewrite (bool_decide_eq_true_2 (NoActionSide = NoActionSide)) by done.
    by rewrite orb_true_r.
  - by rewrite (bool_decide_eq_true_2 (Buy = Buy)).
  - by rewrite (bool_decide_eq_false_2 (Sell = Buy)).
Qed.

Lemma wellPlaced_rest (buy : bool) (h : list Order) (l : loc) (ob : OrderBook.t) :
  wellPlaced h ob ->
  Kind (deref h l) = LimitOrder ->
  Side (deref h l) = (if buy then Buy else Sell) ->
  0 < Size (deref h l) < 2 ^ 63 ->
  wellPlaced h (snd (addOwn buy h l ob)).
Proof.
  intros Hwp Hk Hs Hsz b q blk x Hq Hx.
  destruct (addOwn_spec buy h l ob) as [Hown Hopp]. cbv zeta in Hown.
  destruct (decide (b = buy)) as [->|Hb].
  - rewrite Hown in Hq. destruct (decide (q = Price (deref h l))) as [->|Hqp].
    + rewrite lookup_insert_eq in Hq. injection Hq as <-.
      apply elem_of_app in Hx as [Hx|Hx].
      * destruct (ownSide buy ob !! Price (deref h l)) as [old|] eqn:Hold;
          [|inversion Hx]. by apply (Hwp buy _ old x).
      * apply list_elem_of_singleton in Hx as ->. done.
    + rewrite lookup_insert_ne in Hq by done. by apply (Hwp buy q blk x).
  - assert (b = negb buy) as -> by (by destruct b, buy).
    assert (forall ob', ownSide (negb buy) ob' = oppositeSide buy ob') as Hflip
      by (intros ob'; by rewrite ownSide_opposite, negb_involutive).
    rewrite Hflip, Hopp, <- Hflip in Hq.
    by apply (Hwp (negb buy) q blk x).
Qed.

(** Placing a new valid order in a well-formed,
    well-placed book. *)
Lemma Submit_conserves (o : Order) e :
  wfBook (Engine.heap e) (Engine.orderBook e) ->
  wellPlaced (Engine.heap e) (Engine.orderBook e) ->
  placeable o ->
  ID o ∉ idsOf (Engine.heap e) (OrderBook.allOrders (Engine.orderBook e)) ->
  exists trades e',
    Engine.Submit o e = Some (trades, e') /\
    wellPlaced (Engine.heap e') (Engine.orderBook e') /\
    Forall (fun t => 0 < TradeSize t) trades /\
    filledSize trades <= Size o /\
    restingSize (Engine.heap e') (Engine.orderBook e') + filledSize trades
    = restingSize (Engine.heap e) (Engine.orderBook e)
      + (if bool_decide (Kind o = LimitOrder) then Size o - filledSize trades else 0).
Proof.
  intros Hwf Hwp (Hvalid & Hsz & _) Hfresh.
  pose proof (IsValid_size o Hvalid) as Hpos.
  pose proof (IsValid_side o Hvalid) as Hside.
  unfold Engine.Submit, alloc.
  set (l := length (Engine.heap e)). set (h0 := Engine.heap e ++ [o]).
  assert (deref h0 l = o) as Hl by apply deref_alloc.
  assert (wfBook h0 (Engine.orderBook e)) as Hwf0 by (by apply wfBook_alloc).
  assert (wellPlaced h0 (Engine.orderBook e)) as Hwp0 by (by apply wellPlaced_alloc).
  assert (restingSize h0 (Engine.orderBook e)
          = restingSize (Engine.heap e) (Engine.orderBook e)) as Hrs0.
  { unfold restingSize, h0. apply totalSize_alloc, Hwf. }
  assert (l ∉ OrderBook.allOrders (Engine.orderBook e)) as Hlout.
  { intros Hin. apply Hwf in Hin. unfold l in Hin. lia. }
  assert (idsOf h0 (OrderBook.allOrders (Engine.orderBook e))
          = idsOf (Engine.heap e) (OrderBook.allOrders (Engine.orderBook e))) as Hids0
    by (apply idsOf_alloc_old, Hwf).
  destruct (decide (Kind o = MarketOrder)) as [Hk|Hnm].
  { (* MARKET *)
    rewrite PlaceOrder_unfold_market by (cbn [Engine.heap Engine.setHeap]; by rewrite Hl).
    set (e0 := Engine.TrackOrder l (Engine.setHeap h0 e)).
    destruct (executeMarketOrder_spec l e0) as (rem' & trades' & e1 & Hloop & ->).
    apply loop_conserves in Hloop;
      [|done|done|cbn [e0 Engine.heap Engine.TrackOrder Engine.setOrderStore Engine.setHeap];
                  rewrite Hl; lia].
    destruct Hloop as (_ & _ & Hwp1 & Hrem & Hsum & Hcons & _ & Htr).
    change (Engine.heap e0) with h0 in *. change (Engine.orderBook e0) with (Engine.orderBook e) in *.
    rewrite Hl in Hsum.
    eexists _, _. split; [done|].
    destruct (addTrades_frame trades' e1) as (Ha1 & Ha2 & _).
    cbn [Engine.UntrackOrder Engine.setOrderStore Engine.heap Engine.orderBook].
    rewrite Ha1, Ha2. split; [done|]. split; [done|]. split; [lia|].
    rewrite bool_decide_eq_false_2 by (by rewrite Hk). lia. }
  destruct (decide (Kind o = LimitOrder)) as [Hk|Hnl].
  { (* LIMIT *)
    rewrite PlaceOrder_unfold_limit by (cbn [Engine.heap Engine.setHeap]; by rewrite Hl).
    set (e0 := Engine.TrackOrder l (Engine.setHeap h0 e)).
    destruct (executeLimitOrder_spec l e0) as (rem' & trades' & e1 & Hloop & ->).
    pose proof Hloop as Hframe. apply matchLoop_frame in Hframe as (Hst & Hown & Hopp & _).
    apply loop_conserves in Hloop;
      [|done|done|cbn [e0 Engine.heap Engine.TrackOrder Engine.setOrderStore Engine.setHeap];
                  rewrite Hl; lia].
    destruct Hloop as (_ & Hsh & Hwp1 & Hrem & Hsum & Hcons & Hout & Htr).
    change (Engine.heap e0) with h0 in *. change (Engine.orderBook e0) with (Engine.orderBook e) in *.
    rewrite ?Hl in Hsum, Hown, Hopp.
    rewrite ?Hl.
    assert (deref (Engine.heap e1) l = o) as Hl1 by (rewrite Hout; done).
    assert (l ∉ OrderBook.allOrders (Engine.orderBook e1)) as Hlout1.
    { intros Hin. apply Hlout. apply (allOrders_sides (isBuy o)) in Hin as [Hin|Hin];
        apply (allOrders_sides (isBuy o)).
      - left. by rewrite <- Hown.
      - right. by apply (shrinks_elem _ _ _ Hopp). }
    eexists _, _. split; [done|]. cbv zeta.
    match goal with
    | |- context [Engine.addTrades ?ts ?x] =>
        destruct (addTrades_frame ts x) as (-> & -> & _)
    end.
    rewrite bool_decide_eq_true_2 by done.
    destruct (Z.ltb_spec 0 rem') as [Hr|Hr].
    - cbn [Engine.heap Engine.orderBook Engine.setOrderBook Engine.setHeap].
      set (h2 := storeSize (Engine.heap e1) l rem').
      assert (l < length (Engine.heap e1))%nat as Hlt.
      { destruct Hst as [-> _]. unfold h0, l. rewrite length_app. cbn. lia. }
      assert (deref h2 l = withSize o rem') as Hl2.
      { unfold h2. rewrite deref_storeSize, decide_True by done. by rewrite Hl1. }
      assert (forall x, x <> l -> deref h2 x = deref (Engine.heap e1) x) as Hother.
      { intros x Hx. unfold h2. rewrite deref_storeSize.
        case_decide as Hc; [by destruct Hc|done]. }
      assert (wellPlaced h2 (Engine.orderBook e1)) as Hwp2.
      { apply (wellPlaced_stable (Engine.heap e1) h2 (Engine.orderBook e1));
          [done|intros b; apply shrinks_refl|].
        intros x Hx. apply Hother. intros ->. done. }
      split; [|split; [done|split; [lia|]]].
      + apply wellPlaced_rest; rewrite ?Hl2; cbn; [done|done|done|lia].
      + unfold restingSize at 1.
        rewrite (totalSize_Permutation _ _ _ (allOrders_addOwn _ _ _ _)), totalSize_cons.
        rewrite Hl2. cbn [Size withSize].
        unfold h2. rewrite totalSize_storeSize_notin by done.
        fold (restingSize (Engine.heap e1) (Engine.orderBook e1)). lia.
    - cbn [Engine.UntrackOrder Engine.setOrderStore Engine.heap Engine.orderBook].
      split; [done|]. split; [done|]. split; [lia|]. lia. }
  (* the other kinds never reach the book of a new id *)
  unfold Engine.PlaceOrder. cbn [Engine.heap Engine.setHeap]. rewrite Hl.
  set (e0 := if bool_decide _ then _ else _).
  assert (Engine.heap e0 = h0 /\ Engine.orderBook e0 = Engine.orderBook e)
    as [Hh Hb] by (subst e0; by destruct (bool_decide _)).
  rewrite Hh, Hl.
  assert (forall e', Engine.heap e' = h0 -> Engine.orderBook e' = Engine.orderBook e ->
            wellPlaced (Engine.heap e') (Engine.orderBook e') /\
            Forall (fun t => 0 < TradeSize t) [] /\
            filledSize [] <= Size o /\
            restingSize (Engine.heap e') (Engine.orderBook e') + filledSize []
            = restingSize (Engine.heap e) (Engine.orderBook e) + 0) as Hfin.
  { intros e' -> ->. split; [done|]. split; [constructor|]. cbn [filledSize foldr].
    split; lia. }
  rewrite bool_decide_eq_false_2 by done.
  destruct (Kind o) eqn:Hk; [|done|done| | |].
  - exists [], e0. split; [done|]. by apply Hfin.
  - exists [], (snd (Engine.CancelOrder (ID o) e0)). split; [done|].
    rewrite CancelOrder_absent by (by rewrite Hh, Hb, Hids0). by apply Hfin.
  - exists [], e0. split; [done|]. by apply Hfin.
  - exists [], e0. split; [done|]. by apply Hfin.
Qed.

Lemma CancelOrder_conserves (id : N) e :
  wfBook (Engine.heap e) (Engine.orderBook e) ->
  wellPlaced (Engine.heap e) (Engine.orderBook e) ->
  wellPlaced (Engine.heap (snd (Engine.CancelOrder id e)))
             (Engine.orderBook (snd (Engine.CancelOrder id e))).
Proof.
  intros Hwf Hwp.
  apply (wellPlaced_stable (Engine.heap e) _ (Engine.orderBook e)); [done| |].
  - intros b. unfold Engine.CancelOrder.
    pose proof (DeleteOrderById_shrinks (Engine.heap e) id (Engine.orderBook e) b) as Hs.
    by destruct (OrderBook.DeleteOrderById _ _ _) as [[|] ob].
  - intros l _. unfold Engine.CancelOrder.
    by destruct (OrderBook.DeleteOrderById _ _ _) as [[|] ob].
Qed.

End Quantities2.

Section Quantities3.
Context {OS TS : Type} `{!OrderStore.t OS} `{!TradeStore.t TS}.
Implicit Types e : Engine.t OS TS.

(** X23.  Quantity is conserved.  When a new valid order is placed in a
    well-formed book whose resting orders are well placed, every trade has a
    positive size, the trades fill no more than the size of the order, and
    every unit traded leaves a resting order: the resting quantity falls by
    the quantity filled, and rises by what is left of a LIMIT order, which
    rests.  The resting orders stay well placed. *)
Theorem quantity_is_conserved (o : Order) e :
  wfBook (Engine.heap e) (Engine.orderBook e) ->
  wellPlaced (Engine.heap e) (Engine.orderBook e) ->
  placeable o ->
  ID o ∉ idsOf (Engine.heap e) (OrderBook.allOrders (Engine.orderBook e)) ->
  exists trades e',
    Engine.Submit o e = Some (trades, e') /\
    wellPlaced (Engine.heap e') (Engine.orderBook e') /\
    Forall (fun t => 0 < TradeSize t) trades /\
    filledSize trades <= Size o /\
    restingSize (Engine.heap e') (Engine.orderBook e') + filledSize trades
    = restingSize (Engine.heap e) (Engine.orderBook e)
      + (if bool_decide (Kind o = LimitOrder) then Size o - filledSize trades else 0).
Proof. apply Submit_conserves. Qed.

Lemma runOps_wellPlaced (ops : list Op) e :
  wfBook (Engine.heap e) (Engine.orderBook e) ->
  wellPlaced (Engine.heap e) (Engine.orderBook e) ->
  Forall placeableOp ops ->
  NoDup (placedIds ops) ->
  (forall id, id ∈ placedIds ops ->
              id ∉ idsOf (Engine.heap e) (OrderBook.allOrders (Engine.orderBook e))) ->
  exists e', runOps ops e = Some e' /\
             wfBook (Engine.heap e') (Engine.orderBook e') /\
             wellPlaced (Engine.heap e') (Engine.orderBook e').
Proof.
  revert e. induction ops as [|[o|id] ops IH]; intros e Hwf Hwp Hok Hnd Hfresh.
  - by exists e.
  - apply Forall_cons in Hok as [Ho Hok].
    change (placedIds (OpPlace o :: ops)) with (ID o :: placedIds ops) in Hnd, Hfresh.
    apply NoDup_cons in Hnd as [Hout Hnd].
    assert (ID o ∉ idsOf (Engine.heap e) (OrderBook.allOrders (Engine.orderBook e)))
      as Hfo by (apply Hfresh; by left).
    destruct (Submit_conserves o e Hwf Hwp Ho Hfo) as (trades & e1 & Hs & Hwp1 & _).
    destruct (Submit_wfBook o e Hwf Hfo) as (trades' & e1' & Hs' & Hwf1 & Hsub).
    rewrite Hs in Hs'. injection Hs' as <- <-.
    cbn [runOps]. rewrite Hs. apply IH; try done.
    intros x Hx Hx1. apply Hsub in Hx1 as [->|Hx1]; [done|].
    apply (Hfresh x); [by right|done].
  - apply Forall_cons in Hok as [_ Hok].
    change (placedIds (OpCancel id :: ops)) with (placedIds ops) in Hnd, Hfresh.
    destruct (CancelOrder_wfBook id e Hwf) as [Hwf1 Hsub]. cbv zeta in Hwf1, Hsub.
    cbn [runOps]. apply IH; try done.
    + by apply CancelOrder_conserves.
    + intros x Hx Hx1. apply Hsub in Hx1. by apply (Hfresh x).
Qed.

(** X24.  The book holds only what belongs there.  After any session of
    [PlaceOrder] calls on new valid orders with pairwise distinct ids, and
    of [CancelOrder] calls, on a new engine, every resting order is a LIMIT
    order whose remaining size is positive; it is a BUY order if it rests
    among the bids and a SELL order if it rests among the asks; and it sits
    at the price level of its own price. *)
Theorem resting_orders_are_well_placed (orderStore : OS) (tradeStore : TS) (ops : list Op) :
  Forall placeableOp ops ->
  NoDup (placedIds ops) ->
  exists e',
    runOps ops (Engine.NewEngineWithStores orderStore tradeStore) = Some e' /\
    (forall q blk l,
       OrderBook.bids (Engine.orderBook e') !! q = Some blk -> l ∈ blk ->
       let o := deref (Engine.heap e') l in
       Kind o = LimitOrder /\ Side o = Buy /\ Price o = q /\ 0 < Size o < 2 ^ 63) /\
    (forall q blk l,
       OrderBook.asks (Engine.orderBook e') !! q = Some blk -> l ∈ blk ->
       let o := deref (Engine.heap e') l in
       Kind o = LimitOrder /\ Side o = Sell /\ Price o = q /\ 0 < Size o < 2 ^ 63).
Proof.
  intros Hok Hnd.
  destruct (runOps_wellPlaced ops (Engine.NewEngineWithStores orderStore tradeStore))
    as (e' & Hrun & _ & Hwp); try done.
  - apply wfBook_new.
  - intros buy q blk l Hq. destruct buy; cbn in Hq; by rewrite lookup_empty in Hq.
  - intros id _ Hid. cbn [Engine.NewEngineWithStores Engine.heap Engine.orderBook] in Hid.
    rewrite allOrders_new in Hid. inversion Hid.
  - exists e'. split; [done|]. split.
    + intros q blk l Hq Hl. apply (Hwp true q blk l Hq Hl).
    + intros q blk l Hq Hl. apply (Hwp false q blk l Hq Hl).
Qed.

End Quantities3.

(** * Price priority *)

Section PricePriority.
Context {OS TS : Type} `{!OrderStore.t OS} `{!TradeStore.t TS}.
Implicit Types e : Engine.t OS TS.

Lemma noWorse_refl (buy : bool) (p : Qc) : noWorse buy p p.
Proof. destruct buy; cbn; apply Qcle_refl. Qed.

Lemma priced_step (buy : bool) (canMatch : Qc -> Qc -> bool) (l : loc)
    (h0 : list Order) (ob0 : OrderBook.t) (rem0 : Z)
    (o : loc) (p : Qc) (rest : list loc) (rem : Z) (trades : list Trade) e
    (rem' : Z) (trades' : list Trade) e' :
  wfBook h0 ob0 ->
  conserving h0 ob0 rem0 rem trades e ->
  priced buy canMatch (Price (deref h0 l)) ob0 trades e ->
  0 < rem ->
  getBestOpposite buy (Engine.orderBook e) = (p, o :: rest) ->
  canMatch (Price (deref (Engine.heap e) l)) p = true ->
  matchStep (deleteOpposite buy) l o rem trades e = (rem', trades', e') ->
  priced buy canMatch (Price (deref h0 l)) ob0 trades' e'.
Proof.
  intros Hwf0 Hc (Hlev & Hsorted & Horig & Hcm) Hlt Hbest Hcan Hstep.
  destruct Hc as (Hst & Hsh & Hwp & _).
  pose proof (head_in_opposite buy _ p o rest Hbest) as Ho.
  pose proof (getBestOpposite_block buy _ p o rest Hbest) as Hblk.
  destruct (matchStep_cases buy l o rem trades e Ho) as (e1 & Heq & _ & _ & Hcase).
  rewrite Hstep in Heq. injection Heq as _ -> ->.
  assert (Price (deref (Engine.heap e) o) = p) as Hprice.
  { destruct (Hwp (negb buy) p (o :: rest) o) as (_ & _ & Hp & _); [|by left|done].
    by rewrite ownSide_opposite, negb_involutive. }
  assert (forall size, TradePrice (Engine.createTrade (Engine.heap e) l o size) = p) as Htp.
  { intros size. unfold Engine.createTrade. by destruct (bool_decide _); cbn. }
  assert (forall q, is_Some (oppositeSide buy (Engine.orderBook e) !! q) -> noWorse buy p q)
    as Hbestp.
  { intros q Hq. pose proof (getBestOpposite_extremal buy _ q Hq) as Hx.
    rewrite Hbest in Hx. by destruct buy. }
  assert (forall q, is_Some (oppositeSide buy (Engine.orderBook e1) !! q) ->
                    is_Some (oppositeSide buy (Engine.orderBook e) !! q)) as Hsub.
  { intros q [blk' Hq]. destruct Hcase as [(_ & Hb)|(_ & Hdel)].
    - rewrite Hb in Hq. by exists blk'.
    - pose proof (shrinks_deleteInSide
                    (storeSize (Engine.heap e) o
                       (sub_int (Size (deref (Engine.heap e) o))
                          (fillSizeOf (Size (deref (Engine.heap e) o)) rem)))
                    (oppositeSide buy (Engine.orderBook e))
                    (ID (deref (Engine.heap e) o))) as Hs.
      rewrite Hdel in Hs. cbn [snd] in Hs.
      destruct (Hs q blk' Hq) as (blk & Hb & _). by exists blk. }
  split; [|split; [|split]].
  - intros t q Ht Hq. apply elem_of_app in Ht as [Ht|Ht].
    + apply Hlev; [done|by apply Hsub].
    + apply list_elem_of_singleton in Ht as ->. rewrite Htp. by apply Hbestp, Hsub.
  - intros i j ti tj Hi Hj Hij.
    destruct (decide (j < length trades)%nat) as [Hjl|Hjl].
    + rewrite lookup_app_l in Hi, Hj by lia. by apply (Hsorted i j).
    + rewrite lookup_app_r in Hj by lia.
      destruct (j - length trades)%nat eqn:Hd; [|by destruct n]. injection Hj as <-.
      rewrite Htp.
      destruct (decide (i < length trades)%nat) as [Hil|Hil].
      * rewrite lookup_app_l in Hi by lia.
        apply Hlev; [by apply list_elem_of_lookup_2 in Hi|by exists (o :: rest)].
      * rewrite lookup_app_r in Hi by lia.
        replace (i - length trades)%nat with 0%nat in Hi by lia.
        injection Hi as <-. rewrite Htp. apply noWorse_refl.
  - intros t Ht. apply elem_of_app in Ht as [Ht|Ht]; [by apply Horig|].
    apply list_elem_of_singleton in Ht as ->. rewrite Htp.
    destruct (Hsh buy p (o :: rest) Hblk) as (blk0 & Hb0 & _). by exists blk0.
  - intros t Ht. apply elem_of_app in Ht as [Ht|Ht]; [by apply Hcm|].
    apply list_elem_of_singleton in Ht as ->. rewrite Htp.
    by rewrite <- (heapStable_Price _ _ l Hst).
Qed.

Lemma loop_priced (buy : bool) (canMatch : Qc -> Qc -> bool) (l : loc)
    (fuel : nat) (rem : Z) e (rem' : Z) (trades' : list Trade) e' :
  wfBook (Engine.heap e) (Engine.orderBook e) ->
  wellPlaced (Engine.heap e) (Engine.orderBook e) ->
  0 <= rem < 2 ^ 63 ->
  Engine.matchLoop fuel (getBestOpposite buy) (deleteOpposite buy) canMatch
                   l rem [] e = Some (rem', trades', e') ->
  priced buy canMatch (Price (deref (Engine.heap e) l)) (Engine.orderBook e) trades' e'.
Proof.
  intros Hwf Hwp Hrem Hloop.
  refine (proj2 (proj1 (matchLoop_invariant buy canMatch l
            (fun r ts e1 =>
               conserving (Engine.heap e) (Engine.orderBook e) rem r ts e1 /\
               priced buy canMatch (Price (deref (Engine.heap e) l)) (Engine.orderBook e) ts e1)
            _ fuel rem [] e rem' trades' e' _ Hloop))).
  - intros r ts e1 p o rest [Hc Hp] Hlt Hbest Hcan r2 ts2 e2 Hs. split.
    + by apply (conserving_step buy l _ _ rem o p rest r ts e1 r2 ts2 e2).
    + by apply (priced_step buy canMatch l _ _ rem o p rest r ts e1 r2 ts2 e2).
  - split.
    + unfold conserving. cbn [filledSize foldr].
      split; [apply heapStable_refl|]. split; [intros b; apply shrinks_refl|].
      split; [done|]. split; [done|]. split; [lia|]. split; [lia|].
      split; [done|constructor].
    + split; [|split; [|split]]; try (intros t ? Ht; by inversion Ht);
        try (intros t Ht; by inversion Ht).
Qed.

(** X25.  Price priority.  When a new valid order is placed in a well-formed
    book whose resting orders are well placed, its trades come in order of
    price, the best price for the incoming order first; no trade is at a
    worse price than a level that is left on the opposite side, so no better
    priced resting order is passed over; every trade is at a price level of
    the book before the call; and a LIMIT order never trades at a price
    worse than its own. *)
Theorem trades_take_the_best_prices_first (o : Order) e :
  wfBook (Engine.heap e) (Engine.orderBook e) ->
  wellPlaced (Engine.heap e) (Engine.orderBook e) ->
  placeable o ->
  ID o ∉ idsOf (Engine.heap e) (OrderBook.allOrders (Engine.orderBook e)) ->
  exists trades e',
    Engine.Submit o e = Some (trades, e') /\
    (forall i j ti tj, trades !! i = Some ti -> trades !! j = Some tj -> (i <= j)%nat ->
                       noWorse (isBuy o) (TradePrice ti) (TradePrice tj)) /\
    (forall t q, t ∈ trades ->
                 is_Some (oppositeSide (isBuy o) (Engine.orderBook e') !! q) ->
                 noWorse (isBuy o) (TradePrice t) q) /\
    (forall t, t ∈ trades ->
               is_Some (oppositeSide (isBuy o) (Engine.orderBook e) !! TradePrice t)) /\
    (Kind o = LimitOrder ->
     forall t, t ∈ trades -> noWorse (isBuy o) (TradePrice t) (Price o)).
Proof.
  intros Hwf Hwp (Hvalid & Hsz & _) Hfresh.
  pose proof (IsValid_size o Hvalid) as Hpos.
  unfold Engine.Submit, alloc.
  set (l := length (Engine.heap e)). set (h0 := Engine.heap e ++ [o]).
  assert (deref h0 l = o) as Hl by apply deref_alloc.
  assert (wfBook h0 (Engine.orderBook e)) as Hwf0 by (by apply wfBook_alloc).
  assert (wellPlaced h0 (Engine.orderBook e)) as Hwp0 by (by apply wellPlaced_alloc).
  assert (idsOf h0 (OrderBook.allOrders (Engine.orderBook e))
          = idsOf (Engine.heap e) (OrderBook.allOrders (Engine.orderBook e))) as Hids0
    by (apply idsOf_alloc_old, Hwf).
  destruct (decide (Kind o = MarketOrder)) as [Hk|Hnm].
  { rewrite PlaceOrder_unfold_market by (cbn [Engine.heap Engine.setHeap]; by rewrite Hl).
    set (e0 := Engine.TrackOrder l (Engine.setHeap h0 e)).
    destruct (executeMarketOrder_spec l e0) as (rem' & trades' & e1 & Hloop & ->).
    apply loop_priced in Hloop;
      [|done|done|cbn [e0 Engine.heap Engine.TrackOrder Engine.setOrderStore Engine.setHeap];
                  rewrite Hl; lia].
    destruct Hloop as (Hlev & Hsorted & Horig & _).
    change (Engine.heap e0) with h0 in *.
    change (Engine.orderBook e0) with (Engine.orderBook e) in *.
    rewrite Hl in *.
    eexists _, _. split; [done|].
    destruct (addTrades_frame trades' e1) as (_ & Ha2 & _).
    cbn [Engine.UntrackOrder Engine.setOrderStore Engine.heap Engine.orderBook].
    rewrite Ha2. split; [done|]. split; [done|]. split; [done|].
    intros Hk'. by rewrite Hk in Hk'. }
  destruct (decide (Kind o = LimitOrder)) as [Hk|Hnl].
  { rewrite PlaceOrder_unfold_limit by (cbn [Engine.heap Engine.setHeap]; by rewrite Hl).
    set (e0 := Engine.TrackOrder l (Engine.setHeap h0 e)).
    destruct (executeLimitOrder_spec l e0) as (rem' & trades' & e1 & Hloop & ->).
    apply loop_priced in Hloop;
      [|done|done|cbn [e0 Engine.heap Engine.TrackOrder Engine.setOrderStore Engine.setHeap];
                  rewrite Hl; lia].
    destruct Hloop as (Hlev & Hsorted & Horig & Hcm).
    change (Engine.heap e0) with h0 in *.
    change (Engine.orderBook e0) with (Engine.orderBook e) in *.
    rewrite Hl in *.
    eexists _, _. split; [done|]. cbv zeta.
    match goal with
    | |- context [Engine.addTrades ?ts ?x] =>
        destruct (addTrades_frame ts x) as (_ & -> & _)
    end.
    split; [done|]. split; [|split; [done|]].
    - intros t q Ht Hq. apply Hlev; [done|].
      destruct (0 <? rem'); [|done].
      cbn [Engine.orderBook Engine.setOrderBook Engine.setHeap] in Hq.
      destruct (addOwn_spec (isBuy o) (storeSize (Engine.heap e1) l rem') l
                  (Engine.orderBook e1)) as [_ Hopp].
      by rewrite Hopp in Hq.
    - intros _ t Ht. specialize (Hcm t Ht). unfold limitCanMatch in Hcm.
      unfold noWorse, Qc_leb. destruct (isBuy o); by apply bool_decide_eq_true_1 in Hcm. }
  unfold Engine.PlaceOrder. cbn [Engine.heap Engine.setHeap]. rewrite Hl.
  set (e0 := if bool_decide _ then _ else _).
  assert (Engine.heap e0 = h0 /\ Engine.orderBook e0 = Engine.orderBook e)
    as [Hh Hb] by (subst e0; by destruct (bool_decide _)).
  rewrite Hh, Hl.
  assert (forall (P : list Trade -> Prop) (Q : Trade -> Prop) (R : Trade -> Qc -> Prop),
            (forall i j ti tj, [] !! i = Some ti -> [] !! j = Some tj -> (i <= j)%nat ->
                               noWorse (isBuy o) (TradePrice ti) (TradePrice tj)) /\
            (forall t q, t ∈ @nil Trade -> R t q -> noWorse (isBuy o) (TradePrice t) q) /\
            (forall t, t ∈ @nil Trade -> Q t) /\
            (Kind o = LimitOrder ->
             forall t, t ∈ @nil Trade -> noWorse (isBuy o) (TradePrice t) (Price o))) as Hfin.
  { intros _ Q R. split; [intros i j ti tj Hi; by rewrite lookup_nil in Hi|].
    split; [intros t q Ht; by inversion Ht|].
    split; [intros t Ht; by inversion Ht|]. intros _ t Ht. by inversion Ht. }
  destruct (Kind o) eqn:Hk; [|done|done| | |].
  - exists [], e0. split; [done|]. apply (Hfin (fun _ => True)).
  - exists [], (snd (Engine.CancelOrder (ID o) e0)). split; [done|].
    apply (Hfin (fun _ => True)).
  - exists [], e0. split; [done|]. apply (Hfin (fun _ => True)).
  - exists [], e0. split; [done|]. apply (Hfin (fun _ => True)).
Qed.

End PricePriority.

(** * The trade history *)

Lemma saveAll_app {T : Type} `{!TradeStore.t T} (a b : list Trade) (s : T) :
  saveAll (a ++ b) s = saveAll b (saveAll a s).
Proof. unfold saveAll. by rewrite foldl_app. Qed.

Section History.
Context {OS TS : Type} `{!OrderStore.t OS} `{!TradeStore.t TS}.
Implicit Types e : Engine.t OS TS.

Lemma CancelOrder_tradeStore (id : N) e :
  Engine.tradeStore (snd (Engine.CancelOrder id e)) = Engine.tradeStore e.
Proof.
  unfold Engine.CancelOrder.
  by destruct (OrderBook.DeleteOrderById _ _ _) as [[|] ob].
Qed.

Lemma PlaceOrder_tradeStore (l : loc) e (trades : list Trade) e' :
  Engine.PlaceOrder l e = Some (trades, e') ->
  Engine.tradeStore e' = saveAll trades (Engine.tradeStore e).
Proof.
  destruct (decide (Kind (deref (Engine.heap e) l) = MarketOrder)) as [Hk|Hnm].
  { rewrite PlaceOrder_unfold_market by done.
    destruct (executeMarketOrder_spec l (Engine.TrackOrder l e))
      as (rem' & trades' & e1 & Hloop & ->).
    intros [= <- <-]. apply matchLoop_frame in Hloop as (_ & _ & _ & Hts & _).
    destruct (addTrades_frame trades' e1) as (_ & _ & _ & _ & Ha).
    cbn [Engine.UntrackOrder Engine.setOrderStore Engine.tradeStore].
    by rewrite Ha, Hts. }
  destruct (decide (Kind (deref (Engine.heap e) l) = LimitOrder)) as [Hk|Hnl].
  { rewrite PlaceOrder_unfold_limit by done.
    destruct (executeLimitOrder_spec l (Engine.TrackOrder l e))
      as (rem' & trades' & e1 & Hloop & ->).
    intros [= <- <-]. apply matchLoop_frame in Hloop as (_ & _ & _ & Hts & _).
    match goal with
    | |- context [Engine.addTrades ?ts ?x] =>
        destruct (addTrades_frame ts x) as (_ & _ & _ & _ & ->)
    end.
    f_equal. by destruct (0 <? rem'). }
  unfold Engine.PlaceOrder. cbv zeta.
  set (e0 := if bool_decide _ then Engine.TrackOrder l e else e).
  assert (Engine.heap e0 = Engine.heap e /\ Engine.tradeStore e0 = Engine.tradeStore e)
    as [Hh Ht] by (subst e0; by destruct (bool_decide _)).
  rewrite Hh.
  destruct (Kind (deref (Engine.heap e) l)); [|done|done| | |]; intros [= <- <-];
    rewrite ?CancelOrder_tradeStore; done.
Qed.

Lemma runOpsTrades_history (ops : list Op) e :
  exists all e',
    runOpsTrades ops e = Some (all, e') /\
    runOps ops e = Some e' /\
    Engine.tradeStore e' = saveAll all (Engine.tradeStore e).
Proof.
  revert e. induction ops as [|[o|id] ops IH]; intros e.
  - by exists [], e.
  - destruct (Submit_total o e) as [[trades e1] Hs].
    destruct (IH e1) as (later & e' & Hr & Hr' & Ht).
    exists (trades ++ later), e'. cbn [runOpsTrades runOps]. rewrite Hs, Hr.
    split; [done|]. split; [done|].
    rewrite Ht, saveAll_app. f_equal.
    unfold Engine.Submit in Hs. cbn in Hs.
    by apply PlaceOrder_tradeStore in Hs.
  - destruct (IH (snd (Engine.CancelOrder id e))) as (all & e' & Hr & Hr' & Ht).
    exists all, e'. cbn [runOpsTrades runOps]. split; [done|]. split; [done|].
    by rewrite Ht, CancelOrder_tradeStore.
Qed.

End History.

(** X26.  The trade history is the record of the session.  After any
    session of [PlaceOrder] and [CancelOrder] calls on a new engine whose
    trade store is the in-memory store of capacity [m], [GetRecentTrades n]
    with a positive [n] returns the trades the calls of the session
    returned, the most recent first: all of them when they are no more than
    [n] and [m], and the [min n m] most recent ones otherwise. *)
Theorem trade_history_records_the_session {OS : Type} `{!OrderStore.t OS}
    (orderStore : OS) (m : Z) (ops : list Op) :
  0 <= m ->
  exists all e',
    runOpsTrades ops (Engine.NewEngineWithStores orderStore
                        (InMemoryTradeStore.NewInMemoryTradeStore m)) = Some (all, e') /\
    forall n, 0 < n ->
      Engine.GetRecentTrades n e' =
      take (Z.to_nat (Z.min n (Z.min m (Z.of_nat (length all))))) (reverse all).
Proof.
  intros Hm.
  destruct (runOpsTrades_history ops
              (Engine.NewEngineWithStores orderStore
                 (InMemoryTradeStore.NewInMemoryTradeStore m)))
    as (all & e' & Hr & _ & Ht).
  exists all, e'. split; [done|]. intros n Hn.
  cbn [Engine.NewEngineWithStores Engine.tradeStore] in Ht.
  destruct (saveAll_trades m all (InMemoryTradeStore.NewInMemoryTradeStore m))
    as [Htr Hmax]; [done|done|done|]. cbn [InMemoryTradeStore.NewInMemoryTradeStore
    InMemoryTradeStore.trades app] in Htr.
  unfold Engine.GetRecentTrades. rewrite Ht.
  change (TradeStore.GetRecent n ?s) with (InMemoryTradeStore.GetRecent n s).
  unfold InMemoryTradeStore.GetRecent. cbn [fst]. rewrite Htr.
  destruct (n <=? 0) eqn:H1; [lia|]. cbn [orb].
  unfold lastN. rewrite length_drop, drop_drop, reverse_drop. f_equal.
  destruct (Z.ltb_spec (Z.of_nat (length all - (length all - Z.to_nat m))) n); lia.
Qed.

(** ** Scenarios of the further properties *)

(** What the sessions of the scenarios leave is well formed and well
    placed. *)
Lemma after_wellPlaced (ops : list Op) :
  Forall placeableOp ops -> NoDup (placedIds ops) ->
  wfBook (Engine.heap (after ops)) (Engine.orderBook (after ops)) /\
  wellPlaced (Engine.heap (after ops)) (Engine.orderBook (after ops)).
Proof.
  intros Hok Hnd.
  destruct (runOps_wellPlaced ops newEngine) as (e' & Hrun & Hwf & Hwp); try done.
  - apply wfBook_new.
  - intros buy q blk l Hq. destruct buy; cbn in Hq; by rewrite lookup_empty in Hq.
  - intros id _ Hid. cbn in Hid. inversion Hid.
  - unfold after. by rewrite Hrun.
Qed.

Lemma Some_default {A : Type} (d x : A) (r : option A) : r = Some x -> x = default d r.
Proof. by intros ->. Qed.

(** A store for two orders, four saved: the two oldest are evicted. *)
Lemma order_store_within_limit_witness :
  let ops := [OpSave 0%nat; OpSave 1%nat; OpUpdate 1%nat; OpSave 2%nat; OpRemove 9;
              OpSave 3%nat] in
  let s := snd (runStoreOps fourOrders ops (InMemoryOrderStore.NewInMemoryOrderStore 2)) in
  1 <= 2 /\
  queueInSync s /\
  Z.of_nat (size (InMemoryOrderStore.orders s)) <= 2 /\
  InMemoryOrderStore.orderIDs s = [3; 4]%N.
Proof.
  intros ops s.
  assert (1 <= 2) as Hm by lia.
  destruct (order_store_within_limit 2 fourOrders ops Hm) as (Hs & _ & Hsize).
  split; [exact Hm|]. split; [exact Hs|]. split; [exact Hsize|]. reflexivity.
Defined.

(** A full store for two orders: the save of a third id evicts the oldest
    id, 1. *)
Lemma save_evicts_only_the_oldest_witness :
  let s := snd (runStoreOps fourOrders [OpSave 0%nat; OpSave 1%nat]
                  (InMemoryOrderStore.NewInMemoryOrderStore 2)) in
  let s' := snd (InMemoryOrderStore.Save fourOrders 2%nat s) in
  queueInSync s /\
  1 <= InMemoryOrderStore.maxSize s /\
  InMemoryOrderStore.Get 3 s' = (Some 2%nat, None) /\
  InMemoryOrderStore.orderIDs s' = [2; 3]%N /\
  InMemoryOrderStore.Get 1 s' = (None, Some (ErrOrderNotFound 1)).
Proof.
  intros s s'.
  assert (1 <= InMemoryOrderStore.maxSize s) as Hm by (by vm_compute).
  assert (queueInSync s) as Hs.
  { apply runStoreOps_inSync; [by vm_compute|apply queueInSync_new; lia]. }
  destruct (save_evicts_only_the_oldest fourOrders 2%nat s Hs Hm) as (_ & Hget & _).
  split; [exact Hs|]. split; [exact Hm|]. split; [exact Hget|].
  split; reflexivity.
Defined.

(** Three saves in a store for three orders. *)
Lemma bounded_store_matches_unbounded_witness :
  let ops := [OpSave 0%nat; OpSave 1%nat; OpRemove 1; OpUpdate 3%nat; OpSave 2%nat;
              OpRemove 7] in
  let r := runStoreOps fourOrders ops (InMemoryOrderStore.NewInMemoryOrderStore 3) in
  let u := runStoreOps fourOrders ops UnboundedOrderStore.NewInMemoryOrderStore in
  Z.of_nat (length (filter (fun op => isSave op = true) ops)) <= 3 /\
  fst r = fst u /\
  fst r = [None; None; None; Some (ErrOrderNotFound 4); None; None].
Proof.
  intros ops r u.
  assert (Z.of_nat (length (filter (fun op => isSave op = true) ops)) <= 3) as Hn
    by (by vm_compute).
  split; [exact Hn|].
  split; [exact (proj1 (bounded_store_matches_unbounded 3 fourOrders ops Hn))|].
  reflexivity.
Defined.

(** A buffer for two trades that holds two: a third one pushes the oldest
    out. *)
Lemma trade_buffer_is_bounded_witness :
  let t1 := mkTrade 0 2 1 (Q2Qc 101) 5 in
  let t2 := mkTrade 0 3 1 (Q2Qc 101) 2 in
  let t3 := mkTrade 0 4 1 (Q2Qc 101) 1 in
  let s := InMemoryTradeStore.mk [t1; t2] 2 in
  0 <= InMemoryTradeStore.maxSize s /\
  InMemoryTradeStore.Save t3 s = (None, InMemoryTradeStore.mk [t2; t3] 2).
Proof.
  intros t1 t2 t3 s.
  assert (0 <= InMemoryTradeStore.maxSize s) as Hm by (by vm_compute).
  split; [exact Hm|].
  exact (proj1 (trade_buffer_is_bounded s t3 [] 0 Hm)).
Defined.


(** Three ids on a new engine: 2, 3 and 4. *)
Lemma generated_ids_are_consecutive_witness :
  (N.of_nat 3 + Engine.nextOrderID newEngine < 2 ^ 64)%N /\
  fst (generateIDs 3 newEngine) = [2; 3; 4]%N /\
  NoDup (fst (generateIDs 3 newEngine)).
Proof.
  assert (N.of_nat 3 + Engine.nextOrderID newEngine < 2 ^ 64)%N as Hn by (by vm_compute).
  destruct (generated_ids_are_consecutive 3 newEngine Hn) as (Hids & Hnd & _).
  split; [exact Hn|]. split; [exact Hids|exact Hnd].
Defined.

(** A LIMIT BUY of size 0 at 101 on [threeAsks]: it crosses, and nothing
    happens. *)
Lemma nonpositive_size_never_trades_witness :
  let e := withOrder (limitOrder 9 Buy 101 0) threeAsks in
  let o := deref (Engine.heap e) 3%nat in
  (Kind o = MarketOrder \/ Kind o = LimitOrder) /\
  Size o <= 0 /\
  exists e',
    Engine.PlaceOrder 3%nat e = Some ([], e') /\
    Engine.orderBook e' = Engine.orderBook e /\
    Engine.GetOrder 9 e' = None.
Proof.
  intros e o.
  assert (Kind o = MarketOrder \/ Kind o = LimitOrder) as Hk by (by right).
  assert (Size o <= 0) as Hsz by (by vm_compute).
  split; [exact Hk|]. split; [exact Hsz|].
  eexists. split; [exact (nonpositive_size_never_trades 3%nat e Hk Hsz)|].
  split; reflexivity.
Defined.


(** After [mixedSession] the order 1 rests with 4 of its 10 units filled,
    next to the order 5; the orders 2, 3 and 4 are gone. *)
Lemma order_store_follows_the_book_witness :
  Forall placesMarketOrLimit mixedSession /\
  NoDup (placedIds mixedSession) /\
  Z.of_nat (length (placedIds mixedSession)) <= 100000 /\
  exists e',
    runOps mixedSession newEngine = Some e' /\
    Engine.GetAllOrders e' ≡ₚ OrderBook.allOrders (Engine.orderBook e') /\
    idsOf (Engine.heap e') (OrderBook.allOrders (Engine.orderBook e')) = [1; 5]%N.
Proof.
  assert (Forall placesMarketOrLimit mixedSession) as Hk
    by (repeat constructor; by (left + right)).
  assert (NoDup (placedIds mixedSession)) as Hnd by by_computation.
  assert (Z.of_nat (length (placedIds mixedSession)) <= 100000) as Hcap by (by vm_compute).
  split; [exact Hk|]. split; [exact Hnd|]. split; [exact Hcap|].
  destruct (order_store_follows_the_book 100000
              (InMemoryTradeStore.NewInMemoryTradeStore 1000) mixedSession Hk Hnd Hcap)
    as (e' & Hrun & _ & _ & Hall & _).
  exists e'. split; [exact Hrun|]. split; [exact Hall|].
  rewrite (Some_default newEngine _ _ Hrun). vm_compute. reflexivity.
Defined.

(** [apiSession] on a new engine: the orders 2 and 5 are left resting. *)
Lemma api_sessions_keep_the_book_sound_witness :
  let reqs := concat (map requestsOf apiSession) in
  Forall (fun req => (models.SubmitOrderRequest.Price req <= MaxFloat64)%Qc) reqs /\
  (N.of_nat (length reqs) + 1 < 2 ^ 64)%N /\
  exists e',
    runApi asciiTrimSpace asciiToLower apiSession newEngine = Some e' /\
    NoDup (idsOf (Engine.heap e') (OrderBook.allOrders (Engine.orderBook e'))) /\
    idsIssued e' /\
    idsOf (Engine.heap e') (OrderBook.allOrders (Engine.orderBook e')) = [5; 2]%N.
Proof.
  intros reqs.
  assert (Forall (fun req => (models.SubmitOrderRequest.Price req <= MaxFloat64)%Qc) reqs)
    as Hpr by (repeat constructor; by vm_compute).
  assert (N.of_nat (length reqs) + 1 < 2 ^ 64)%N as Hn by (by vm_compute).
  split; [exact Hpr|]. split; [exact Hn|].
  destruct (api_sessions_keep_the_book_sound asciiTrimSpace asciiToLower _ _ _ _
              (InMemoryOrderStore.NewInMemoryOrderStore 100000)
              (InMemoryTradeStore.NewInMemoryTradeStore 1000) apiSession Hpr Hn)
    as (e' & Hrun & Hnd & Hids & _).
  exists e'. split; [exact Hrun|]. split; [exact Hnd|]. split; [exact Hids|].
  rewrite (Some_default newEngine _ _ Hrun). vm_compute. reflexivity.
Defined.

(** After [apiSession] the order 2 is read back with the 6 units it has
    left, and the cancelled order 3 is not found. *)
Lemma api_get_order_finds_resting_orders_witness :
  let reqs := concat (map requestsOf apiSession) in
  Forall (fun req => (models.SubmitOrderRequest.Price req <= MaxFloat64)%Qc) reqs /\
  (N.of_nat (length reqs) + 1 < 2 ^ 64)%N /\
  Z.of_nat (length reqs) <= 100000 /\
  exists e',
    runApi asciiTrimSpace asciiToLower apiSession newEngine = Some e' /\
    (3%N ∉ idsOf (Engine.heap e') (OrderBook.allOrders (Engine.orderBook e')) ->
     handlers.GetOrderHandler "/api/v1/orders/3" e'
     = inl (models.ErrOrderNotFoundError 3)) /\
    (statusOf (handlers.GetOrderHandler "/api/v1/orders/3" e') = 404) /\
    (statusOf (handlers.GetOrderHandler "/api/v1/orders/2" e') = 200).
Proof.
  intros reqs.
  assert (Forall (fun req => (models.SubmitOrderRequest.Price req <= MaxFloat64)%Qc) reqs)
    as Hpr by (repeat constructor; by vm_compute).
  assert (N.of_nat (length reqs) + 1 < 2 ^ 64)%N as Hn by (by vm_compute).
  assert (Z.of_nat (length reqs) <= 100000) as Hcap by (by vm_compute).
  split; [exact Hpr|]. split; [exact Hn|]. split; [exact Hcap|].
  destruct (api_get_order_finds_resting_orders asciiTrimSpace asciiToLower _ _ 100000
              (InMemoryTradeStore.NewInMemoryTradeStore 1000) apiSession Hpr Hn Hcap)
    as (e' & Hrun & Hget).
  exists e'. split; [exact Hrun|].
  split; [exact (proj1 (Hget "/api/v1/orders/3" 3%N eq_refl))|].
  rewrite (Some_default newEngine _ _ Hrun). split; vm_compute; reflexivity.
Defined.

Lemma askLadder_placeable :
  Forall placeableOp [OpPlace (limitOrder 1 Sell 101 5);
                      OpPlace (limitOrder 2 Sell 102 5);
                      OpPlace (limitOrder 3 Sell 103 5)].
Proof. repeat constructor; by vm_compute. Qed.

(** A LIMIT BUY of 12 at 102 on [askLadder]: 5 units trade at 101, 5 at
    102, and the 2 that are left rest; the 15 units resting become 7. *)
Lemma quantity_is_conserved_witness :
  let e := askLadder in
  let o := limitOrder 9 Buy 102 12 in
  wfBook (Engine.heap e) (Engine.orderBook e) /\
  wellPlaced (Engine.heap e) (Engine.orderBook e) /\
  placeable o /\
  (ID o ∉ idsOf (Engine.heap e) (OrderBook.allOrders (Engine.orderBook e))) /\
  restingSize (Engine.heap e) (Engine.orderBook e) = 15 /\
  exists trades e',
    Engine.Submit o e = Some (trades, e') /\
    filledSize trades = 10 /\
    restingSize (Engine.heap e') (Engine.orderBook e') + filledSize trades
    = restingSize (Engine.heap e) (Engine.orderBook e) + (Size o - filledSize trades).
Proof.
  intros e o.
  destruct (after_wellPlaced _ askLadder_placeable) as [Hwf Hwp]; [by_computation|].
  assert (placeable o) as Ho by (repeat split; by vm_compute).
  assert (ID o ∉ idsOf (Engine.heap e) (OrderBook.allOrders (Engine.orderBook e)))
    as Hfresh by by_computation.
  split; [exact Hwf|]. split; [exact Hwp|]. split; [exact Ho|]. split; [exact Hfresh|].
  split; [reflexivity|].
  destruct (quantity_is_conserved o e Hwf Hwp Ho Hfresh)
    as (trades & e' & Hs & _ & _ & _ & Hsum).
  exists trades, e'. split; [exact Hs|].
  pose proof (Some_default ([], e) _ _ Hs) as He.
  assert (trades = fst (default ([], e) (Engine.Submit o e))) as Ht by (by rewrite <- He).
  split; [rewrite Ht; vm_compute; reflexivity|exact Hsum].
Defined.

Lemma resting_orders_are_well_placed_witness :
  let ops := [OpPlace (limitOrder 1 Sell 101 10); OpPlace (limitOrder 2 Buy 99 5);
              OpPlace (limitOrder 3 Buy 105 4); OpCancel 7;
              OpPlace (marketOrder 4 Sell 2); OpPlace (stopOrder 6 Sell 95 10)] in
  Forall placeableOp ops /\
  NoDup (placedIds ops) /\
  exists e',
    runOps ops newEngine = Some e' /\
    forall q blk l,
      OrderBook.asks (Engine.orderBook e') !! q = Some blk -> l ∈ blk ->
      Kind (deref (Engine.heap e') l) = LimitOrder /\
      Side (deref (Engine.heap e') l) = Sell.
Proof.
  intros ops.
  assert (Forall placeableOp ops) as Hok by (repeat constructor; by vm_compute).
  assert (NoDup (placedIds ops)) as Hnd by by_computation.
  split; [exact Hok|]. split; [exact Hnd|].
  destruct (resting_orders_are_well_placed
              (InMemoryOrderStore.NewInMemoryOrderStore 100000)
              (InMemoryTradeStore.NewInMemoryTradeStore 1000) ops Hok Hnd)
    as (e' & Hrun & _ & Hasks).
  exists e'. split; [exact Hrun|].
  intros q blk l Hq Hl. destruct (Hasks q blk l Hq Hl) as (Hk & Hs & _).
  split; [exact Hk|exact Hs].
Defined.

(** A LIMIT BUY of 12 at 102 on [askLadder]: the trade at 101 comes before
    the trade at 102, and the level at 103, which is left, is not better
    than either. *)
Lemma trades_take_the_best_prices_first_witness :
  let e := askLadder in
  let o := limitOrder 9 Buy 102 12 in
  wfBook (Engine.heap e) (Engine.orderBook e) /\
  wellPlaced (Engine.heap e) (Engine.orderBook e) /\
  placeable o /\
  (ID o ∉ idsOf (Engine.heap e) (OrderBook.allOrders (Engine.orderBook e))) /\
  exists trades e',
    Engine.Submit o e = Some (trades, e') /\
    map TradePrice trades = [Q2Qc 101; Q2Qc 102] /\
    forall t, t ∈ trades -> noWorse (isBuy o) (TradePrice t) (Price o).
Proof.
  intros e o.
  destruct (after_wellPlaced _ askLadder_placeable) as [Hwf Hwp]; [by_computation|].
  assert (placeable o) as Ho by (repeat split; by vm_compute).
  assert (ID o ∉ idsOf (Engine.heap e) (OrderBook.allOrders (Engine.orderBook e)))
    as Hfresh by by_computation.
  split; [exact Hwf|]. split; [exact Hwp|]. split; [exact Ho|]. split; [exact Hfresh|].
  destruct (trades_take_the_best_prices_first o e Hwf Hwp Ho Hfresh)
    as (trades & e' & Hs & _ & _ & _ & Hlimit).
  exists trades, e'. split; [exact Hs|]. split; [|exact (Hlimit eq_refl)].
  pose proof (Some_default ([], e) _ _ Hs) as He.
  assert (trades = fst (default ([], e) (Engine.Submit o e))) as Ht by (by rewrite <- He).
  rewrite Ht. vm_compute. reflexivity.
Defined.

(** The two trades of [mixedSession], the later one first. *)
Lemma trade_history_records_the_session_witness :
  0 <= 1000 /\
  exists all e',
    runOpsTrades mixedSession newEngine = Some (all, e') /\
    all = [mkTrade 0 3 1 (Q2Qc 101) 4; mkTrade 0 2 4 (Q2Qc 99) 2] /\
    Engine.GetRecentTrades 10 e'
    = take (Z.to_nat (Z.min 10 (Z.min 1000 (Z.of_nat (length all))))) (reverse all).
Proof.
  assert (0 <= 1000) as Hm by lia.
  split; [exact Hm|].
  destruct (trade_history_records_the_session
              (InMemoryOrderStore.NewInMemoryOrderStore 100000) 1000 mixedSession Hm)
    as (all & e' & Hrun & Hrecent).
  exists all, e'. split; [exact Hrun|]. split; [|apply Hrecent; lia].
  pose proof (Some_default ([], newEngine) _ _ Hrun) as He.
  assert (all = fst (default ([], newEngine) (runOpsTrades mixedSession newEngine))) as Ht
    by exact (f_equal fst He).
  rewrite Ht. vm_compute. reflexivity.
Defined.
